From Stdlib Require Import String Bool ZArith QArith Qround Qabs Lqa Lia List Permutation.
Import ListNotations.
Open Scope Q_scope.
Set Warnings "-notation-overridden".

(** * Numbers

    C++ [float] and [double] values are modelled as exact rationals: every
    operation returns the reduced fraction of the exact result.  C++ [int]
    values are modelled as [Z]; none of the counters of the program gets
    near the 32-bit range, and the one conversion of a float to [int] that
    can leave it is checked where it occurs. *)

Definition fadd (x y : Q) : Q := Qred (x + y).
Definition fsub (x y : Q) : Q := Qred (x - y).
Definition fmul (x y : Q) : Q := Qred (x * y).
Definition fdiv (x y : Q) : Q := Qred (x / y).
Definition flt (x y : Q) : bool := negb (Qle_bool y x).
Definition fle (x y : Q) : bool := Qle_bool x y.
Definition fgt (x y : Q) : bool := flt y x.
Definition fge (x y : Q) : bool := fle y x.
Definition feq (x y : Q) : bool := Qeq_bool x y.
Definition fabs (x : Q) : Q := Qred (Qabs x).
Definition ofZ (z : Z) : Q := inject_Z z.
(** [static_cast<int>] and [(int)] truncate towards zero. *)
Definition truncZ (x : Q) : Z := Z.quot (Qnum x) (Zpos (Qden x)).
(** [std::floor] *)
Definition floorQ (x : Q) : Q := inject_Z (Qfloor x).

Arguments fadd : simpl never.
Arguments fsub : simpl never.
Arguments fmul : simpl never.
Arguments fdiv : simpl never.
Arguments flt : simpl never.
Arguments fle : simpl never.
Arguments fgt : simpl never.
Arguments fge : simpl never.
Arguments feq : simpl never.
Arguments fabs : simpl never.
Arguments ofZ : simpl never.

(** Inside the level modules the arithmetic signs stand for these
    operations. *)
Module FloatNotations.
  Infix "+" := fadd : Q_scope.
  Infix "-" := fsub : Q_scope.
  Infix "*" := fmul : Q_scope.
  Infix "/" := fdiv : Q_scope.
  Infix "<?" := flt : Q_scope.
  Infix "<=?" := fle : Q_scope.
  Infix ">?" := fgt : Q_scope.
  Infix ">=?" := fge : Q_scope.
  Infix "=?" := feq : Q_scope.
End FloatNotations.

(** * The display backend's geometry (raylib)

    [Vector2], [Rectangle] and the collision predicates belong to the
    raylib library the game links against; they are given here as the
    library defines them, over the number model above. *)

Record Vector2 := mkVector2 { v_x : Q; v_y : Q }.
Record Rectangle := mkRectangle { r_x : Q; r_y : Q; r_width : Q; r_height : Q }.

Definition CheckCollisionRecs (rec1 rec2 : Rectangle) : bool :=
  (flt (r_x rec1) (fadd (r_x rec2) (r_width rec2)) &&
   fgt (fadd (r_x rec1) (r_width rec1)) (r_x rec2)) &&
  (flt (r_y rec1) (fadd (r_y rec2) (r_height rec2)) &&
   fgt (fadd (r_y rec1) (r_height rec1)) (r_y rec2)).

Definition CheckCollisionCircleRec (center : Vector2) (radius : Q) (rec : Rectangle) : bool :=
  let recCenterX := fadd (r_x rec) (fdiv (r_width rec) 2) in
  let recCenterY := fadd (r_y rec) (fdiv (r_height rec) 2) in
  let dx := fabs (fsub (v_x center) recCenterX) in
  let dy := fabs (fsub (v_y center) recCenterY) in
  if fgt dx (fadd (fdiv (r_width rec) 2) radius) then false
  else if fgt dy (fadd (fdiv (r_height rec) 2) radius) then false
  else if fle dx (fdiv (r_width rec) 2) then true
  else if fle dy (fdiv (r_height rec) 2) then true
  else
    let cx := fsub dx (fdiv (r_width rec) 2) in
    let cy := fsub dy (fdiv (r_height rec) 2) in
    fle (fadd (fmul cx cx) (fmul cy cy)) (fmul radius radius).

Definition CheckCollisionPointRec (point : Vector2) (rec : Rectangle) : bool :=
  fge (v_x point) (r_x rec) && flt (v_x point) (fadd (r_x rec) (r_width rec)) &&
  fge (v_y point) (r_y rec) && flt (v_y point) (fadd (r_y rec) (r_height rec)).

(** * The viewport *)

Definition GLOBAL_SCREEN_WIDTH : Z := 1280.
Definition GLOBAL_SCREEN_HEIGHT : Z := 720.

(** * First level: the maze *)

Module Maze.
Import FloatNotations.

Definition MAZE_BASE_WIDTH_CELLS : Z := 35.
Definition MAZE_BASE_HEIGHT_CELLS : Z := 21.
Definition COIN_SPAWN_CHANCE : Q := 3 # 10.

(** [minmax], the clamp the file defines before the levels. *)
Definition minmax (value min_val max_val : Q) : Q :=
  if value <? min_val then min_val
  else if value >? max_val then max_val
  else value.

(** [std::min] on floats *)
Definition fmin (a b : Q) : Q := if b <? a then b else a.

(** ** The grid: [true] is a wall *)

Definition Grid := list (list bool).

(** [mazeGrid[r][c]] read and written.  Every access of the program has its
    indices in range; outside it the read yields a wall and the write
    changes nothing. *)
Definition getCell (g : Grid) (r c : Z) : bool :=
  if (r <? 0)%Z || (c <? 0)%Z then true
  else nth (Z.to_nat c) (nth (Z.to_nat r) g []) true.

Fixpoint setNth {A} (n : nat) (v : A) (l : list A) : list A :=
  match l, n with
  | [], _ => []
  | _ :: t, O => v :: t
  | x :: t, S n => x :: setNth n v t
  end.

Definition setCell (g : Grid) (r c : Z) (v : bool) : Grid :=
  if (r <? 0)%Z || (c <? 0)%Z then g
  else setNth (Z.to_nat r) (setNth (Z.to_nat c) v (nth (Z.to_nat r) g [])) g.

(** ** The random engine

    [s_maze_gen] is consumed by [std::shuffle] and by [s_maze_dis]; the model
    keeps what it has yet to yield: the orders in which the coming shuffles
    leave the four directions, and the coming draws from [0, 1). *)
Record Engine := mkEngine { shuffles : nat -> list nat; draws : nat -> Q }.

Definition shuffle (e : Engine) : list nat * Engine :=
  (shuffles e O, mkEngine (fun n => shuffles e (S n)) (draws e)).
Definition s_maze_dis (e : Engine) : Q * Engine :=
  (draws e O, mkEngine (shuffles e) (fun n => draws e (S n))).

Record MazeLevel := mkMaze {
  screenWidth : Z;
  screenHeight : Z;
  mazeGrid : Grid;
  mazeWidthCells : Z;
  mazeHeightCells : Z;
  cellSizePixels : Q;
  startCol : Z; startRow : Z;
  endCol : Z; endRow : Z;
  playerX : Q; playerY : Q;
  playerSize : Q;
  playerSpeed : Q;
  coins : list Vector2;
  totalInitialCoins : Z;
  collectedCoins : Z;
  coinSize : Q;
  levelWon : bool;
  mazeGeneratedForPreview : bool;
  s_maze_gen : Engine }.

(** ** Dimensions *)

Record Dimensions := mkDimensions {
  d_cellSizePixels : Q;
  d_mazeWidthCells : Z;
  d_mazeHeightCells : Z }.

(** One dimension, from the viewport and the cell size.  [Z.rem] is the
    C++ [%]. *)
Definition cellsAcross (screen : Z) (cellSize : Q) : Z :=
  let n := truncZ (ofZ screen / cellSize) in
  let n := if (Z.rem n 2 =? 0)%Z then (n - 1)%Z else n in
  let n := if (n <=? 0)%Z then 1%Z else n in
  n.

(** [(int)x]: the conversion is defined when the truncated value is an
    [int].  The decrement that follows when the value is even overflows at
    [INT_MIN], so the value has to lie above it. *)
Definition INT_MIN : Z := -2147483648.
Definition INT_MAX : Z := 2147483647.
Definition fitsInt (x : Q) : bool :=
  (INT_MIN <? truncZ x)%Z && (truncZ x <=? INT_MAX)%Z.

(** The arithmetic of [CalculateMazeDimensions].  A cell size of 0 makes
    the two divisions by [cellSizePixels] yield an infinity or a NaN, and a
    quotient outside the range of [int] cannot be converted either: the
    conversion to [int] is undefined, [None].  On viewports below 2^24
    pixels a side the rationals are the floats of the code where it counts:
    the viewport and the cell size are whole numbers a float holds, and the
    rounding of a quotient never reaches the next whole number, so [floor]
    and the conversion to [int] see the same value.  Statements about every
    such viewport carry that bound. *)
Definition computeDimensions (screenWidth screenHeight : Z) : option Dimensions :=
  let mazeWidthCells := MAZE_BASE_WIDTH_CELLS in
  let mazeWidthCells :=
    if (Z.rem mazeWidthCells 2 =? 0)%Z then (mazeWidthCells + 1)%Z else mazeWidthCells in
  let mazeHeightCells := MAZE_BASE_HEIGHT_CELLS in
  let mazeHeightCells :=
    if (Z.rem mazeHeightCells 2 =? 0)%Z then (mazeHeightCells + 1)%Z else mazeHeightCells in
  let cellWidthByScreen := ofZ screenWidth / ofZ mazeWidthCells in
  let cellHeightByScreen := ofZ screenHeight / ofZ mazeHeightCells in
  let cellSizePixels := floorQ (fmin cellWidthByScreen cellHeightByScreen) in
  if cellSizePixels =? 0 then None
  else if negb (fitsInt (ofZ screenWidth / cellSizePixels) &&
                fitsInt (ofZ screenHeight / cellSizePixels)) then None
  else
    let mazeWidthCells := cellsAcross screenWidth cellSizePixels in
    let mazeHeightCells := cellsAcross screenHeight cellSizePixels in
    let mazeWidthCells := if (mazeWidthCells <? 3)%Z then 3%Z else mazeWidthCells in
    let mazeHeightCells := if (mazeHeightCells <? 3)%Z then 3%Z else mazeHeightCells in
    Some (mkDimensions cellSizePixels mazeWidthCells mazeHeightCells).

Definition CalculateMazeDimensions (m : MazeLevel) : option MazeLevel :=
  match computeDimensions (screenWidth m) (screenHeight m) with
  | None => None
  | Some d =>
      Some (mkMaze (screenWidth m) (screenHeight m) (mazeGrid m)
              (d_mazeWidthCells d) (d_mazeHeightCells d) (d_cellSizePixels d)
              1 1 (d_mazeWidthCells d - 2) (d_mazeHeightCells d - 2)
              (playerX m) (playerY m) (d_cellSizePixels d * (3#5)) (playerSpeed m)
              (coins m) (totalInitialCoins m) (collectedCoins m)
              (d_cellSizePixels d * (3#10)) (levelWon m) (mazeGeneratedForPreview m)
              (s_maze_gen m))
  end.

Definition withGrid (g : Grid) (e : Engine) (generated : bool) (m : MazeLevel) : MazeLevel :=
  mkMaze (screenWidth m) (screenHeight m) g
         (mazeWidthCells m) (mazeHeightCells m) (cellSizePixels m)
         (startCol m) (startRow m) (endCol m) (endRow m)
         (playerX m) (playerY m) (playerSize m) (playerSpeed m)
         (coins m) (totalInitialCoins m) (collectedCoins m)
         (coinSize m) (levelWon m) generated e.

Definition allWalls (height width : Z) : Grid :=
  repeat (repeat true (Z.to_nat width)) (Z.to_nat height).

Definition InitMazeGrid (m : MazeLevel) : MazeLevel :=
  withGrid (allWalls (mazeHeightCells m) (mazeWidthCells m)) (s_maze_gen m)
           (mazeGeneratedForPreview m) m.

(** ** Carving *)

Definition dr (dir : nat) : Z := nth dir [-2; 0; 2; 0]%Z 0%Z.
Definition dc (dir : nat) : Z := nth dir [0; 2; 0; -2]%Z 0%Z.

(** The [for] loop over the shuffled directions at cell [(r, c)]; [recurse]
    is the recursive call. *)
Fixpoint carveLoop (recurse : Z -> Z -> Grid * Engine -> option (Grid * Engine))
    (height width : Z) (r c : Z) (directions : list nat) (st : Grid * Engine)
  : option (Grid * Engine) :=
  match directions with
  | [] => Some st
  | dir :: rest =>
      let nextR := (r + dr dir)%Z in
      let nextC := (c + dc dir)%Z in
      let wallR := (r + Z.quot (dr dir) 2)%Z in
      let wallC := (c + Z.quot (dc dir) 2)%Z in
      if (nextR >=? 0)%Z && (nextR <? height)%Z && (nextC >=? 0)%Z &&
         (nextC <? width)%Z && getCell (fst st) nextR nextC
      then
        match recurse nextR nextC (setCell (fst st) wallR wallC false, snd st) with
        | Some st => carveLoop recurse height width r c rest st
        | None => None
        end
      else carveLoop recurse height width r c rest st
  end.

(** [RecursiveGenerateMaze] on a grid of the given size.  [fuel] bounds the
    depth of the recursion; [None] means it was not enough. *)
Fixpoint RecursiveGenerateMaze (fuel : nat) (height width : Z) (r c : Z)
    (st : Grid * Engine) : option (Grid * Engine) :=
  match fuel with
  | O => None
  | S fuel =>
      let grid := setCell (fst st) r c false in
      let '(directions, e) := shuffle (snd st) in
      carveLoop (RecursiveGenerateMaze fuel height width) height width r c directions (grid, e)
  end.

(** The recursion enters each cell of the grid at most once. *)
Definition carveFuel (height width : Z) : nat := S (Z.to_nat (height * width)).

Definition GenerateNewMazeStructure (m : MazeLevel) : option MazeLevel :=
  match CalculateMazeDimensions m with
  | None => None
  | Some m =>
      let m := InitMazeGrid m in
      match RecursiveGenerateMaze (carveFuel (mazeHeightCells m) (mazeWidthCells m))
              (mazeHeightCells m) (mazeWidthCells m) (startRow m) (startCol m)
              (mazeGrid m, s_maze_gen m) with
      | None => None
      | Some (g, e) => Some (withGrid g e true m)
      end
  end.

(** ** Player and coins *)

Definition cellsOf (height width : Z) : list (Z * Z) :=
  flat_map (fun r => map (fun c => (Z.of_nat r, Z.of_nat c)) (seq 0 (Z.to_nat width)))
           (seq 0 (Z.to_nat height)).

(** The double loop of [ResetPlayerAndCoins] over the cells, row by row. *)
Fixpoint sprinkleCoins (m : MazeLevel) (cells : list (Z * Z)) (e : Engine)
  : list Vector2 * Engine :=
  match cells with
  | [] => ([], e)
  | (r, c) :: rest =>
      if negb (getCell (mazeGrid m) r c) &&
         negb ((r =? startRow m)%Z && (c =? startCol m)%Z) &&
         negb ((r =? endRow m)%Z && (c =? endCol m)%Z)
      then
        let '(x, e) := s_maze_dis e in
        if x <? COIN_SPAWN_CHANCE then
          let coinX := ofZ c * cellSizePixels m + cellSizePixels m / 2 in
          let coinY := ofZ r * cellSizePixels m + cellSizePixels m / 2 in
          let '(cs, e) := sprinkleCoins m rest e in
          (mkVector2 coinX coinY :: cs, e)
        else sprinkleCoins m rest e
      else sprinkleCoins m rest e
  end.

Definition ResetPlayerAndCoins (m : MazeLevel) : MazeLevel :=
  let px := ofZ (startCol m) * cellSizePixels m + (cellSizePixels m - playerSize m) / 2 in
  let py := ofZ (startRow m) * cellSizePixels m + (cellSizePixels m - playerSize m) / 2 in
  let '(cs, e) :=
    sprinkleCoins m (cellsOf (mazeHeightCells m) (mazeWidthCells m)) (s_maze_gen m) in
  mkMaze (screenWidth m) (screenHeight m) (mazeGrid m)
         (mazeWidthCells m) (mazeHeightCells m) (cellSizePixels m)
         (startCol m) (startRow m) (endCol m) (endRow m)
         px py (playerSize m) (playerSpeed m)
         cs (Z.of_nat (length cs)) 0
         (coinSize m) false (mazeGeneratedForPreview m) e.

Definition Load (m : MazeLevel) : option MazeLevel :=
  match CalculateMazeDimensions m with
  | None => None
  | Some m =>
      match (if negb (mazeGeneratedForPreview m) then GenerateNewMazeStructure m else Some m) with
      | None => None
      | Some m => Some (ResetPlayerAndCoins m)
      end
  end.

Definition Unload (m : MazeLevel) : MazeLevel :=
  mkMaze (screenWidth m) (screenHeight m) []
         (mazeWidthCells m) (mazeHeightCells m) (cellSizePixels m)
         (startCol m) (startRow m) (endCol m) (endRow m)
         (playerX m) (playerY m) (playerSize m) (playerSpeed m)
         [] (totalInitialCoins m) (collectedCoins m)
         (coinSize m) (levelWon m) false (s_maze_gen m).

(** The level as its constructor leaves it. *)
Definition newMazeLevel (screenW screenH : Z) (e : Engine) : option MazeLevel :=
  match CalculateMazeDimensions
          (mkMaze screenW screenH [] 0 0 0 0 0 0 0 0 0 0 3 [] 0 0 0 false false e) with
  | None => None
  | Some m => Some (InitMazeGrid m)
  end.

(** ** Movement *)

Definition clampCell (n lo hi : Z) : Z := truncZ (minmax (ofZ n) (ofZ lo) (ofZ hi)).

Definition zrange (lo hi : Z) : list Z :=
  map (fun k => (lo + Z.of_nat k)%Z) (seq 0 (Z.to_nat (hi - lo + 1))).

Definition CheckWallCollision (m : MazeLevel) (px py pSize dx dy : Q) : bool :=
  let newPlayerX := px + dx in
  let newPlayerY := py + dy in
  let playerRect := mkRectangle newPlayerX newPlayerY pSize pSize in
  let cell := cellSizePixels m in
  let minCol := truncZ (r_x playerRect / cell) in
  let maxCol := truncZ ((r_x playerRect + r_width playerRect - 1) / cell) in
  let minRow := truncZ (r_y playerRect / cell) in
  let maxRow := truncZ ((r_y playerRect + r_height playerRect - 1) / cell) in
  let minCol := clampCell minCol 0 (mazeWidthCells m - 1) in
  let maxCol := clampCell maxCol 0 (mazeWidthCells m - 1) in
  let minRow := clampCell minRow 0 (mazeHeightCells m - 1) in
  let maxRow := clampCell maxRow 0 (mazeHeightCells m - 1) in
  existsb (fun r =>
    existsb (fun c =>
      if (r <? 0)%Z || (r >=? mazeHeightCells m)%Z || (c <? 0)%Z || (c >=? mazeWidthCells m)%Z
      then false
      else getCell (mazeGrid m) r c &&
           CheckCollisionRecs playerRect
             (mkRectangle (ofZ c * cell) (ofZ r * cell) cell cell))
      (zrange minCol maxCol))
    (zrange minRow maxRow).

(** What one frame reads from the backend: [IsKeyDown] of the arrows. *)
Record Frame := mkFrame {
  keyRight : bool; keyLeft : bool; keyUp : bool; keyDown : bool }.

Definition playerRectOf (m : MazeLevel) : Rectangle :=
  mkRectangle (playerX m) (playerY m) (playerSize m) (playerSize m).

Definition exitRect (m : MazeLevel) : Rectangle :=
  mkRectangle (ofZ (endCol m) * cellSizePixels m) (ofZ (endRow m) * cellSizePixels m)
              (cellSizePixels m) (cellSizePixels m).

(** The coin loop: the coins that touch the player are erased and counted. *)
Fixpoint collectCoins (playerRect : Rectangle) (coinSize : Q) (cs : list Vector2) (collected : Z)
  : list Vector2 * Z :=
  match cs with
  | [] => ([], collected)
  | coin :: rest =>
      let coinRect := mkRectangle (v_x coin - coinSize / 2) (v_y coin - coinSize / 2)
                                  coinSize coinSize in
      if CheckCollisionRecs playerRect coinRect
      then collectCoins playerRect coinSize rest (collected + 1)%Z
      else let '(rest, n) := collectCoins playerRect coinSize rest collected in
           (coin :: rest, n)
  end.

Definition withPlayer (x y : Q) (cs : list Vector2) (collected : Z) (won : bool)
    (m : MazeLevel) : MazeLevel :=
  mkMaze (screenWidth m) (screenHeight m) (mazeGrid m)
         (mazeWidthCells m) (mazeHeightCells m) (cellSizePixels m)
         (startCol m) (startRow m) (endCol m) (endRow m)
         x y (playerSize m) (playerSpeed m)
         cs (totalInitialCoins m) collected
         (coinSize m) won (mazeGeneratedForPreview m) (s_maze_gen m).

Definition Update (f : Frame) (m : MazeLevel) : MazeLevel :=
  if levelWon m then m
  else
    let dx : Q := 0 in
    let dy : Q := 0 in
    let dx := if keyRight f then dx + playerSpeed m else dx in
    let dx := if keyLeft f then dx - playerSpeed m else dx in
    let dy := if keyUp f then dy - playerSpeed m else dy in
    let dy := if keyDown f then dy + playerSpeed m else dy in
    let x := if negb (CheckWallCollision m (playerX m) (playerY m) (playerSize m) dx 0)
             then playerX m + dx else playerX m in
    let y := if negb (CheckWallCollision m x (playerY m) (playerSize m) 0 dy)
             then playerY m + dy else playerY m in
    let x := minmax x 0 (ofZ (screenWidth m) - playerSize m) in
    let y := minmax y 0 (ofZ (screenHeight m) - playerSize m) in
    let playerRect := mkRectangle x y (playerSize m) (playerSize m) in
    let '(cs, collected) := collectCoins playerRect (coinSize m) (coins m) (collectedCoins m) in
    let won :=
      if CheckCollisionRecs playerRect (exitRect m) && (collected =? totalInitialCoins m)%Z
      then true else levelWon m in
    withPlayer x y cs collected won m.

Definition IsComplete (m : MazeLevel) : bool := levelWon m.

Definition run (fs : list Frame) (m : MazeLevel) : MazeLevel :=
  fold_left (fun m f => Update f m) fs m.

End Maze.

(** * Second level: Space Invaders *)

Module Invaders.
Import FloatNotations.

Definition SI_PLAYER_SPEED : Z := 5.
Definition SI_BULLET_SPEED : Z := 3.
Definition SI_INVADER_SPEED : Z := 1.
Definition SI_INVADER_ROWS : nat := 2.
Definition SI_INVADER_COLS : nat := 8.
Definition SI_INVADER_SPACING_X : Z := 50.
Definition SI_INVADER_SPACING_Y : Z := 40.
Definition SI_INVADER_START_X : Z := 50.
Definition SI_INVADER_START_Y : Z := 100.
Definition SI_INVADER_FIRE_RATE : Q := 15 # 100.
Definition SI_INVADER_MOVE_INTERVAL : Q := 8 # 10.
Definition SI_INVADER_DESCENT_AMOUNT : Q := 20.

Definition fmin (a b : Q) : Q := if b <? a then b else a.
Definition fmax (a b : Q) : Q := if a <? b then b else a.

Definition withY (y : Q) (r : Rectangle) : Rectangle :=
  mkRectangle (r_x r) y (r_width r) (r_height r).
Definition withX (x : Q) (r : Rectangle) : Rectangle :=
  mkRectangle x (r_y r) (r_width r) (r_height r).

(** ** Bullet *)

Record Bullet := mkBullet { b_rect : Rectangle; b_active : bool; isPlayerBullet : bool }.

Definition newBullet (pos : Vector2) (playerBullet : bool) : Bullet :=
  mkBullet (mkRectangle (v_x pos) (v_y pos) 5 10) true playerBullet.

Definition Bullet_Update (screenHeight : Q) (b : Bullet) : Bullet :=
  if b_active b then
    let y := if isPlayerBullet b then r_y (b_rect b) - ofZ SI_BULLET_SPEED
             else r_y (b_rect b) + ofZ SI_BULLET_SPEED in
    let rect := withY y (b_rect b) in
    mkBullet rect (if (r_y rect <? 0) || (r_y rect >? screenHeight) then false else true)
             (isPlayerBullet b)
  else b.

Definition deactivate (b : Bullet) : Bullet := mkBullet (b_rect b) false (isPlayerBullet b).

(** ** Player *)

Record Player := mkPlayer { p_rect : Rectangle; lives : Z; lastShotTime : Q }.

Definition newPlayer (screenW screenH : Z) : Player :=
  mkPlayer (mkRectangle (ofZ screenW / 2 - 25) (ofZ screenH - 70) 50 50) 5 0.

(** What one frame reads from the backend. *)
Record Frame := mkFrame {
  keyLeft : bool;      (** [IsKeyDown(KEY_LEFT)] *)
  keyRight : bool;     (** [IsKeyDown(KEY_RIGHT)] *)
  keySpace : bool;     (** [IsKeyDown(KEY_SPACE)] *)
  time : Q;            (** [GetTime()] *)
  frameTime : Q;       (** [GetFrameTime()] *)
  rolls : nat -> Q }.  (** the draws [s_si_dist(s_si_rng)] of the frame, in order *)

Definition Player_Update (f : Frame) (screenW : Q) (p : Player) (playerBullets : list Bullet)
  : Player * list Bullet :=
  let rect := p_rect p in
  let rect := if keyLeft f && (r_x rect >? 0)
              then withX (r_x rect - ofZ SI_PLAYER_SPEED) rect else rect in
  let rect := if keyRight f && (r_x rect <? screenW - r_width rect)
              then withX (r_x rect + ofZ SI_PLAYER_SPEED) rect else rect in
  if keySpace f && (time f - lastShotTime p >=? 1 # 2) then
    (mkPlayer rect (lives p) (time f),
     playerBullets ++
       [newBullet (mkVector2 (r_x rect + r_width rect / 2 - (5 # 2)) (r_y rect)) true])
  else (mkPlayer rect (lives p) (lastShotTime p), playerBullets).

Definition TakeDamage (p : Player) : Player := mkPlayer (p_rect p) (lives p - 1) (lastShotTime p).
Definition IsAlive (p : Player) : bool := (lives p >? 0)%Z.

(** ** Invader *)

Record Invader := mkInvader { i_rect : Rectangle; i_active : bool; i_type : Z }.

Definition newInvader (pos : Vector2) (invaderType : Z) : Invader :=
  mkInvader (mkRectangle (v_x pos) (v_y pos) 30 30) true invaderType.

Definition destroy (i : Invader) : Invader := mkInvader (i_rect i) false (i_type i).

Definition FireBullet (i : Invader) (invaderBullets : list Bullet) : list Bullet :=
  if i_active i then
    invaderBullets ++
      [newBullet (mkVector2 (r_x (i_rect i) + r_width (i_rect i) / 2 - (5 # 2))
                            (r_y (i_rect i) + r_height (i_rect i))) false]
  else invaderBullets.

(** ** The level *)

Record SpaceInvadersLevel := mkLevel {
  screenWidth : Z;
  screenHeight : Z;
  player : Player;
  invaders : list Invader;
  playerBullets : list Bullet;
  invaderBullets : list Bullet;
  score : Z;
  gameOver : bool;
  gameWon : bool;
  invaderMoveDirection : Q;
  invaderMoveTimer : Q;
  currentScreenW : Q;
  currentScreenH : Q }.

Definition spawnGrid : list Invader :=
  flat_map (fun row =>
    map (fun col =>
      newInvader (mkVector2 (ofZ SI_INVADER_START_X + ofZ (Z.of_nat col * SI_INVADER_SPACING_X))
                            (ofZ SI_INVADER_START_Y + ofZ (Z.of_nat row * SI_INVADER_SPACING_Y)))
                 (Z.of_nat row))
      (seq 0 SI_INVADER_COLS))
    (seq 0 SI_INVADER_ROWS).

Definition Load (l : SpaceInvadersLevel) : SpaceInvadersLevel :=
  mkLevel (screenWidth l) (screenHeight l)
          (newPlayer (screenWidth l) (screenHeight l))
          spawnGrid [] [] 0 false false 1 0 (currentScreenW l) (currentScreenH l).

Definition newLevel (screenW screenH : Z) : SpaceInvadersLevel :=
  mkLevel screenW screenH (newPlayer screenW screenH) [] [] [] 0 false false 1 0
          (ofZ screenW) (ofZ screenH).

Definition Unload (l : SpaceInvadersLevel) : SpaceInvadersLevel :=
  mkLevel (screenWidth l) (screenHeight l) (player l) [] [] [] (score l)
          (gameOver l) (gameWon l) (invaderMoveDirection l) (invaderMoveTimer l)
          (currentScreenW l) (currentScreenH l).

(** Bullets move, and the inactive ones are erased. *)
Definition sweep (screenH : Q) (bs : list Bullet) : list Bullet :=
  filter b_active (map (Bullet_Update screenH) bs).

(** The extent of the active formation. *)
Fixpoint extent (invs : list Invader) (minX maxX : Q) (anyInvaderActive : bool)
  : Q * Q * bool :=
  match invs with
  | [] => (minX, maxX, anyInvaderActive)
  | i :: rest =>
      if i_active i
      then extent rest (fmin minX (r_x (i_rect i)))
                  (fmax maxX (r_x (i_rect i) + r_width (i_rect i))) true
      else extent rest minX maxX anyInvaderActive
  end.

(** The loop that moves the formation; it reports a loss when an invader
    that has descended reaches the player's row. *)
Fixpoint advance (direction : Q) (shouldDescend : bool) (playerY : Q)
    (invs : list Invader) (over : bool) : list Invader * bool :=
  match invs with
  | [] => ([], over)
  | i :: rest =>
      if i_active i then
        let rect := withX (r_x (i_rect i) + direction * ofZ SI_INVADER_SPEED * 10) (i_rect i) in
        let rect := if shouldDescend then withY (r_y rect + SI_INVADER_DESCENT_AMOUNT) rect
                    else rect in
        let over := if shouldDescend && (r_y rect + r_height rect >=? playerY)
                    then true else over in
        let '(rest, over) := advance direction shouldDescend playerY rest over in
        (mkInvader rect (i_active i) (i_type i) :: rest, over)
      else
        let '(rest, over) := advance direction shouldDescend playerY rest over in
        (i :: rest, over)
  end.

(** The timed step of the formation. *)
Definition marchStep (f : Frame) (l : SpaceInvadersLevel) : SpaceInvadersLevel :=
  let timer := invaderMoveTimer l + frameTime f in
  if timer >=? SI_INVADER_MOVE_INTERVAL then
    let '(minX, maxX, anyInvaderActive) := extent (invaders l) (currentScreenW l) 0 false in
    if anyInvaderActive then
      let '(direction, shouldDescend) :=
        if invaderMoveDirection l =? 1 then
          if maxX >=? currentScreenW l - 20 then (- (1) : Q, true)
          else (invaderMoveDirection l, false)
        else
          if minX <=? 20 then (1 : Q, true) else (invaderMoveDirection l, false) in
      let '(invs, over) :=
        advance direction shouldDescend (r_y (p_rect (player l))) (invaders l) (gameOver l) in
      mkLevel (screenWidth l) (screenHeight l) (player l) invs (playerBullets l)
              (invaderBullets l) (score l) over (gameWon l) direction 0
              (currentScreenW l) (currentScreenH l)
    else
      mkLevel (screenWidth l) (screenHeight l) (player l) (invaders l) (playerBullets l)
              (invaderBullets l) (score l) (gameOver l) (gameWon l) (invaderMoveDirection l) 0
              (currentScreenW l) (currentScreenH l)
  else
    mkLevel (screenWidth l) (screenHeight l) (player l) (invaders l) (playerBullets l)
            (invaderBullets l) (score l) (gameOver l) (gameWon l) (invaderMoveDirection l) timer
            (currentScreenW l) (currentScreenH l).

(** The invaders fire at random: one draw for every active invader. *)
Fixpoint fireAtRandom (f : Frame) (k : nat) (invs : list Invader) (invaderBullets : list Bullet)
  : list Bullet :=
  match invs with
  | [] => invaderBullets
  | i :: rest =>
      if i_active i then
        if rolls f k <? SI_INVADER_FIRE_RATE * frameTime f
        then fireAtRandom f (S k) rest (FireBullet i invaderBullets)
        else fireAtRandom f (S k) rest invaderBullets
      else fireAtRandom f k rest invaderBullets
  end.

(** The inner loop of the player-bullet test: the first active invader the
    bullet touches is destroyed. *)
Fixpoint hitFirstInvader (b : Bullet) (invs : list Invader) : option (list Invader) :=
  match invs with
  | [] => None
  | i :: rest =>
      if i_active i && CheckCollisionRecs (b_rect b) (i_rect i) then Some (destroy i :: rest)
      else match hitFirstInvader b rest with
           | Some rest => Some (i :: rest)
           | None => None
           end
  end.

Fixpoint shootInvaders (bs : list Bullet) (invs : list Invader) (score : Z)
  : list Bullet * list Invader * Z :=
  match bs with
  | [] => ([], invs, score)
  | b :: rest =>
      if b_active b then
        match hitFirstInvader b invs with
        | Some invs =>
            let '(rest, invs, score) := shootInvaders rest invs (score + 100)%Z in
            (deactivate b :: rest, invs, score)
        | None =>
            let '(rest, invs, score) := shootInvaders rest invs score in
            (b :: rest, invs, score)
        end
      else
        let '(rest, invs, score) := shootInvaders rest invs score in
        (b :: rest, invs, score)
  end.

(** The invader-bullet test: the first active bullet that touches the
    player costs a life, and the loop stops there. *)
Fixpoint shootPlayer (bs : list Bullet) (p : Player) (over : bool)
  : list Bullet * Player * bool :=
  match bs with
  | [] => ([], p, over)
  | b :: rest =>
      if b_active b && CheckCollisionRecs (b_rect b) (p_rect p) then
        let p := TakeDamage p in
        (deactivate b :: rest, p, if negb (IsAlive p) then true else over)
      else
        let '(rest, p, over) := shootPlayer rest p over in
        (b :: rest, p, over)
  end.

Definition allInvadersDestroyed (invs : list Invader) : bool :=
  forallb (fun i => negb (i_active i)) invs.

Definition Update (f : Frame) (l : SpaceInvadersLevel) : SpaceInvadersLevel :=
  if gameOver l || gameWon l then l
  else
    let '(p, pbs) := Player_Update f (currentScreenW l) (player l) (playerBullets l) in
    let pbs := sweep (currentScreenH l) pbs in
    let ibs := sweep (currentScreenH l) (invaderBullets l) in
    let l := mkLevel (screenWidth l) (screenHeight l) p (invaders l) pbs ibs (score l)
                     (gameOver l) (gameWon l) (invaderMoveDirection l) (invaderMoveTimer l)
                     (currentScreenW l) (currentScreenH l) in
    let l := marchStep f l in
    let ibs := fireAtRandom f 0 (invaders l) (invaderBullets l) in
    let '(pbs, invs, sc) := shootInvaders (playerBullets l) (invaders l) (score l) in
    let '(ibs, p, over) := shootPlayer ibs (player l) (gameOver l) in
    let won := if allInvadersDestroyed invs then true else gameWon l in
    mkLevel (screenWidth l) (screenHeight l) p invs pbs ibs sc over won
            (invaderMoveDirection l) (invaderMoveTimer l)
            (currentScreenW l) (currentScreenH l).

Definition IsComplete (l : SpaceInvadersLevel) : bool := gameOver l || gameWon l.
Definition DidPlayerWinThisLevel (l : SpaceInvadersLevel) : bool := gameWon l.

Definition run (fs : list Frame) (l : SpaceInvadersLevel) : SpaceInvadersLevel :=
  fold_left (fun l f => Update f l) fs l.

End Invaders.

(** * Third level: Flappy *)

Module Flappy.
Import FloatNotations.

Definition FLAPPY_PIPE_WIDTH : Z := 80.
Definition FLAPPY_PIPE_GAP : Z := 150.
Definition FLAPPY_PIPE_SPEED : Q := 100.
Definition FLAPPY_BIRD_RADIUS : Q := 20.
Definition FLAPPY_BIRD_JUMP_STRENGTH : Q := -250.
Definition FLAPPY_GRAVITY : Q := 700.
Definition FLAPPY_WIN_SCORE : Z := 10.
Definition FLAPPY_INITIAL_HEALTH : Q := 100.
Definition FLAPPY_DAMAGE_PER_HIT : Q := 25.
Definition FLAPPY_MIN_HORIZONTAL_PIPE_SPACING : Q := 250.

Inductive FlappyGameScreen :=
  FLAPPY_MENU | FLAPPY_PLAYING | FLAPPY_GAME_OVER | FLAPPY_WIN.

(** ** Bird *)

Record Bird := mkBird {
  m_position : Vector2;
  m_velocityY : Q;
  m_radius : Q;
  m_health : Q;
  b_screenW : Z;
  b_screenH : Z }.

Definition newBird (screenW screenH : Z) : Bird :=
  mkBird (mkVector2 (ofZ screenW / 4) (ofZ screenH / 2)) 0
         FLAPPY_BIRD_RADIUS FLAPPY_INITIAL_HEALTH screenW screenH.

Definition setPosition (pos : Vector2) (b : Bird) : Bird :=
  mkBird pos (m_velocityY b) (m_radius b) (m_health b) (b_screenW b) (b_screenH b).
Definition setVelocityY (velocity : Q) (b : Bird) : Bird :=
  mkBird (m_position b) velocity (m_radius b) (m_health b) (b_screenW b) (b_screenH b).
Definition setHealth (health : Q) (b : Bird) : Bird :=
  mkBird (m_position b) (m_velocityY b) (m_radius b) health (b_screenW b) (b_screenH b).

Definition Jump (b : Bird) : Bird := setVelocityY FLAPPY_BIRD_JUMP_STRENGTH b.

Definition takeDamage (amount : Q) (b : Bird) : Bird :=
  let b := setHealth (m_health b - amount) b in
  if m_health b <? 0 then setHealth 0 b else b.

Definition Bird_Update (deltaTime : Q) (b : Bird) : Bird :=
  let b := setVelocityY (m_velocityY b + FLAPPY_GRAVITY * deltaTime) b in
  let b := setPosition (mkVector2 (v_x (m_position b))
                          (v_y (m_position b) + m_velocityY b * deltaTime)) b in
  let b := if v_y (m_position b) <? m_radius b * (3#2)
           then setVelocityY 0 (setPosition (mkVector2 (v_x (m_position b)) (m_radius b * (3#2))) b)
           else b in
  if v_y (m_position b) >? ofZ (b_screenH b) - m_radius b * (3#2)
  then setVelocityY 0
         (setPosition (mkVector2 (v_x (m_position b)) (ofZ (b_screenH b) - m_radius b * (3#2))) b)
  else b.

(** ** Pipe

    Pipes live on the heap behind [std::unique_ptr]; [p_addr] stands for the
    identity of the allocation, so that one pipe can be followed from frame
    to frame while the vector around it changes. *)

Record Pipe := mkPipe {
  p_addr : nat;
  m_topRect : Rectangle;
  m_bottomRect : Rectangle;
  m_scored : bool;
  p_screenH : Z }.

Definition newPipe (addr : nat) (startX gapY : Q) (screenH : Z) : Pipe :=
  let half := ofZ (FLAPPY_PIPE_GAP / 2) in
  mkPipe addr
    (mkRectangle startX 0 (ofZ FLAPPY_PIPE_WIDTH) (gapY - half))
    (mkRectangle startX (gapY + half) (ofZ FLAPPY_PIPE_WIDTH) (ofZ screenH - (gapY + half)))
    false screenH.

Definition getTopRect (p : Pipe) : Rectangle := m_topRect p.
Definition getBottomRect (p : Pipe) : Rectangle := m_bottomRect p.
Definition isScored (p : Pipe) : bool := m_scored p.
Definition markScored (p : Pipe) : Pipe :=
  mkPipe (p_addr p) (m_topRect p) (m_bottomRect p) true (p_screenH p).

Definition moveRect (dx : Q) (r : Rectangle) : Rectangle :=
  mkRectangle (r_x r - dx) (r_y r) (r_width r) (r_height r).

Definition Pipe_Update (deltaTime : Q) (p : Pipe) : Pipe :=
  mkPipe (p_addr p)
    (moveRect (FLAPPY_PIPE_SPEED * deltaTime) (m_topRect p))
    (moveRect (FLAPPY_PIPE_SPEED * deltaTime) (m_bottomRect p))
    (m_scored p) (p_screenH p).

(** ** The level *)

Record FlappyLevel := mkFlappy {
  screenWidth : Z;
  screenHeight : Z;
  m_bird : Bird;
  m_pipes : list Pipe;
  m_score : Z;
  m_currentScreen : FlappyGameScreen;
  (** [m_distrib(m_gen)]: the values the generator has yet to yield *)
  m_gen : nat -> Z;
  m_levelFinished : bool;
  m_playerWonLevel : bool;
  (** the next fresh allocation *)
  heap_next : nat }.

(** What one frame reads from the backend. *)
Record Frame := mkFrame {
  deltaTime : Q;
  (** [IsKeyPressed(KEY_SPACE)] *)
  spacePressed : bool }.

Definition draw (g : nat -> Z) : Z * (nat -> Z) := (g O, fun n => g (S n)).

(** The two pipes that [InitFlappyGame] and the retry branch of [Update] push. *)
Definition twoFreshPipes (screenWidth screenHeight : Z) (g : nat -> Z) (a : nat)
  : list Pipe * (nat -> Z) * nat :=
  let '(g1, g) := draw g in
  let p1 := newPipe a (ofZ screenWidth) (ofZ g1) screenHeight in
  let '(g2, g) := draw g in
  let p2 := newPipe (S a) (ofZ screenWidth + FLAPPY_MIN_HORIZONTAL_PIPE_SPACING) (ofZ g2) screenHeight in
  ([p1; p2], g, S (S a)).

Definition InitFlappyGame (screenWidth screenHeight : Z) (g : nat -> Z) (a : nat) : FlappyLevel :=
  let '(pipes, g, a) := twoFreshPipes screenWidth screenHeight g a in
  mkFlappy screenWidth screenHeight (newBird screenWidth screenHeight)
           pipes 0 FLAPPY_MENU g false false a.

(** The level as its constructor leaves it.  [m_bird] is a null pointer until
    [Load]; nothing reads it before, and the field holds the bird [Load]
    will make. *)
Definition newFlappyLevel (screenW screenH : Z) (g : nat -> Z) : FlappyLevel :=
  mkFlappy screenW screenH (newBird screenW screenH) [] 0 FLAPPY_MENU g false false 0.

Definition Load (l : FlappyLevel) : FlappyLevel :=
  InitFlappyGame (screenWidth l) (screenHeight l) (m_gen l) (heap_next l).

Definition Unload (l : FlappyLevel) : FlappyLevel :=
  mkFlappy (screenWidth l) (screenHeight l) (m_bird l) [] (m_score l)
           (m_currentScreen l) (m_gen l) (m_levelFinished l) (m_playerWonLevel l) (heap_next l).

(** [std::vector::back()]: defined on a non-empty vector only. *)
Definition back {A} (v : list A) : option A := last (map Some v) None.

Definition GenerateNewPipe (l : FlappyLevel) : FlappyLevel :=
  let '(gapY, g) := draw (m_gen l) in
  let newPipeX :=
    match back (m_pipes l) with
    | None => ofZ (screenWidth l)
    | Some b => r_x (getTopRect b) + FLAPPY_MIN_HORIZONTAL_PIPE_SPACING
    end in
  mkFlappy (screenWidth l) (screenHeight l) (m_bird l)
           (m_pipes l ++ [newPipe (heap_next l) newPipeX (ofZ gapY) (screenHeight l)])
           (m_score l) (m_currentScreen l) g (m_levelFinished l) (m_playerWonLevel l)
           (S (heap_next l)).

(** Has the pipe's trailing (right) edge gone past the bird's edge at
    [x - radius]? *)
Definition passed (b : Bird) (p : Pipe) : bool :=
  r_x (getTopRect p) + ofZ FLAPPY_PIPE_WIDTH <? v_x (m_position b) - m_radius b.

Definition hits (b : Bird) (p : Pipe) : bool :=
  CheckCollisionCircleRec (m_position b) (m_radius b) (getTopRect p) ||
  CheckCollisionCircleRec (m_position b) (m_radius b) (getBottomRect p).

(** The [for] loop over [m_pipes] of the playing state: every pipe is moved,
    tested against the bird and then tested for scoring. *)
Fixpoint pipeLoop (dt : Q) (b : Bird) (pipes : list Pipe) (collisionOccurred : bool) (score : Z)
  : list Pipe * bool * Z :=
  match pipes with
  | [] => ([], collisionOccurred, score)
  | p :: rest =>
      let p := Pipe_Update dt p in
      let collisionOccurred := if hits b p then true else collisionOccurred in
      let '(p, score) :=
        if negb (isScored p) && passed b p then (markScored p, (score + 1)%Z) else (p, score) in
      let '(rest, c, s) := pipeLoop dt b rest collisionOccurred score in
      (p :: rest, c, s)
  end.

(** The "Handle collisions" block. *)
Definition handleCollision (l : FlappyLevel) : FlappyLevel :=
  let bird := takeDamage FLAPPY_DAMAGE_PER_HIT (m_bird l) in
  if m_health bird <=? 0 then
    mkFlappy (screenWidth l) (screenHeight l) bird (m_pipes l) (m_score l)
             FLAPPY_GAME_OVER (m_gen l) true false (heap_next l)
  else
    let bird := setPosition (mkVector2 (ofZ (screenWidth l) / 4) (ofZ (screenHeight l) / 2)) bird in
    let bird := setVelocityY 0 bird in
    let '(pipes, g, a) := twoFreshPipes (screenWidth l) (screenHeight l) (m_gen l) (heap_next l) in
    mkFlappy (screenWidth l) (screenHeight l) bird pipes (m_score l)
             (m_currentScreen l) g (m_levelFinished l) (m_playerWonLevel l) a.

Definition withBird (b : Bird) (l : FlappyLevel) : FlappyLevel :=
  mkFlappy (screenWidth l) (screenHeight l) b (m_pipes l) (m_score l)
           (m_currentScreen l) (m_gen l) (m_levelFinished l) (m_playerWonLevel l) (heap_next l).
Definition withPipes (ps : list Pipe) (l : FlappyLevel) : FlappyLevel :=
  mkFlappy (screenWidth l) (screenHeight l) (m_bird l) ps (m_score l)
           (m_currentScreen l) (m_gen l) (m_levelFinished l) (m_playerWonLevel l) (heap_next l).
Definition withScore (s : Z) (l : FlappyLevel) : FlappyLevel :=
  mkFlappy (screenWidth l) (screenHeight l) (m_bird l) (m_pipes l) s
           (m_currentScreen l) (m_gen l) (m_levelFinished l) (m_playerWonLevel l) (heap_next l).
Definition withScreen (c : FlappyGameScreen) (l : FlappyLevel) : FlappyLevel :=
  mkFlappy (screenWidth l) (screenHeight l) (m_bird l) (m_pipes l) (m_score l)
           c (m_gen l) (m_levelFinished l) (m_playerWonLevel l) (heap_next l).
Definition finish (c : FlappyGameScreen) (won : bool) (l : FlappyLevel) : FlappyLevel :=
  mkFlappy (screenWidth l) (screenHeight l) (m_bird l) (m_pipes l) (m_score l)
           c (m_gen l) true won (heap_next l).

(** The edge test of the playing state. *)
Definition touchesEdge (l : FlappyLevel) : bool :=
  let b := m_bird l in
  (v_y (m_position b) + m_radius b >=? ofZ (screenHeight l)) ||
  (v_y (m_position b) - m_radius b <=? 0).

(** "Remove off-screen pipes". *)
Definition removeOffscreen (l : FlappyLevel) : FlappyLevel :=
  match m_pipes l with
  | p :: rest =>
      if r_x (getTopRect p) + ofZ FLAPPY_PIPE_WIDTH <? 0 then withPipes rest l else l
  | [] => l
  end.

(** The first half of the playing state: the bird and every pipe move, and
    [collisionOccurred] is computed. *)
Definition movePhase (f : Frame) (l : FlappyLevel) : FlappyLevel * bool :=
  let l := withBird (Bird_Update (deltaTime f) (m_bird l)) l in
  let '(pipes, collisionOccurred, score) :=
    pipeLoop (deltaTime f) (m_bird l) (m_pipes l) false (m_score l) in
  let l := withScore score (withPipes pipes l) in
  (l, if touchesEdge l then true else collisionOccurred).

(** [Update].  [None] is the undefined behaviour of [m_pipes.back()] on an
    empty vector. *)
Definition Update (f : Frame) (l : FlappyLevel) : option FlappyLevel :=
  match m_currentScreen l with
  | FLAPPY_MENU =>
      Some (if spacePressed f then withScreen FLAPPY_PLAYING l else l)
  | FLAPPY_PLAYING =>
      let '(l, collisionOccurred) := movePhase f l in
      let l := if collisionOccurred then handleCollision l else l in
      let l := removeOffscreen l in
      match back (m_pipes l) with
      | None => None
      | Some b =>
          let l :=
            if r_x (getTopRect b) <? ofZ (screenWidth l) - FLAPPY_MIN_HORIZONTAL_PIPE_SPACING
            then GenerateNewPipe l else l in
          let l :=
            if (m_score l >=? FLAPPY_WIN_SCORE)%Z then finish FLAPPY_WIN true l else l in
          Some (if spacePressed f then withBird (Jump (m_bird l)) l else l)
      end
  | _ => Some l
  end.

Definition IsComplete (l : FlappyLevel) : bool := m_levelFinished l.
Definition DidPlayerWinThisLevel (l : FlappyLevel) : bool := m_playerWonLevel l.

(** A run of frames; it stops at the first undefined step. *)
Fixpoint run (fs : list Frame) (l : FlappyLevel) : option FlappyLevel :=
  match fs with
  | [] => Some l
  | f :: fs => match Update f l with Some l => run fs l | None => None end
  end.

End Flappy.

(** * Fourth level: the obstacle course *)

Module Obstacle.
Import FloatNotations.

Definition OBSTACLE_PLAYER_SIZE : Q := 40.
Definition OBSTACLE_PLAYER_SPEED : Q := 200.
Definition OBSTACLE_JUMP_FORCE : Q := 400.
Definition OBSTACLE_GRAVITY : Q := 800.

Inductive ObstacleGameScreen := OBSTACLE_TITLE | OBSTACLE_GAMEPLAY | OBSTACLE_ENDING.

(** [GameObject]: the colour plays no part in the simulation. *)
Record GameObject := mkGameObject { position : Vector2; bounds : Rectangle }.

Definition newGameObject (pos : Vector2) (width height : Q) : GameObject :=
  mkGameObject pos (mkRectangle (v_x pos) (v_y pos) width height).

Definition GetBounds (o : GameObject) : Rectangle := bounds o.
Definition GetPosition (o : GameObject) : Vector2 := position o.
Definition GameObject_SetPosition (newPos : Vector2) (o : GameObject) : GameObject :=
  mkGameObject newPos
    (mkRectangle (v_x newPos) (v_y newPos) (r_width (bounds o)) (r_height (bounds o))).

Record Player := mkPlayer {
  base : GameObject;
  velocity : Vector2;
  onGround : bool;
  jumped : bool;
  m_screenW : Z;
  m_screenH : Z }.

Definition newPlayer (pos : Vector2) (size : Q) (screenW screenH : Z) : Player :=
  mkPlayer (newGameObject pos size size) (mkVector2 0 0) false false screenW screenH.

Definition GetVelocity (p : Player) : Vector2 := velocity p.
Definition IsOnGround (p : Player) : bool := onGround p.
Definition SetPosition (newPos : Vector2) (p : Player) : Player :=
  mkPlayer (GameObject_SetPosition newPos (base p)) (velocity p) (onGround p) (jumped p)
           (m_screenW p) (m_screenH p).
Definition SetVelocity (newVel : Vector2) (p : Player) : Player :=
  mkPlayer (base p) newVel (onGround p) (jumped p) (m_screenW p) (m_screenH p).
Definition SetOnGround (status : bool) (p : Player) : Player :=
  mkPlayer (base p) (velocity p) status (jumped p) (m_screenW p) (m_screenH p).
Definition SetJumped (status : bool) (p : Player) : Player :=
  mkPlayer (base p) (velocity p) (onGround p) status (m_screenW p) (m_screenH p).

(** What one frame reads from the backend. *)
Record Frame := mkFrame {
  dt : Q;
  keyLeft : bool;        (** [IsKeyDown(KEY_LEFT)] *)
  keyRight : bool;       (** [IsKeyDown(KEY_RIGHT)] *)
  spacePressed : bool }. (** [IsKeyPressed(KEY_SPACE)] *)

Definition withPosBounds (pos : Vector2) (b : Rectangle) (p : Player) : Player :=
  mkPlayer (mkGameObject pos b) (velocity p) (onGround p) (jumped p) (m_screenW p) (m_screenH p).

Definition Player_Update (f : Frame) (p : Player) : Player :=
  let p := SetVelocity (mkVector2 (v_x (velocity p)) (v_y (velocity p) + OBSTACLE_GRAVITY * dt f)) p in
  let p :=
    if keyLeft f then SetVelocity (mkVector2 (- OBSTACLE_PLAYER_SPEED) (v_y (velocity p))) p
    else if keyRight f then SetVelocity (mkVector2 OBSTACLE_PLAYER_SPEED (v_y (velocity p))) p
    else SetVelocity (mkVector2 0 (v_y (velocity p))) p in
  let p :=
    if spacePressed f && onGround p
    then SetJumped true (SetOnGround false
           (SetVelocity (mkVector2 (v_x (velocity p)) (- OBSTACLE_JUMP_FORCE)) p))
    else p in
  let pos := mkVector2 (v_x (position (base p)) + v_x (velocity p) * dt f)
                       (v_y (position (base p)) + v_y (velocity p) * dt f) in
  let b := mkRectangle (v_x pos) (v_y pos) (r_width (bounds (base p))) (r_height (bounds (base p))) in
  let p := withPosBounds pos b p in
  let p :=
    if v_x (position (base p)) <? 0 then
      SetVelocity (mkVector2 0 (v_y (velocity p)))
        (withPosBounds (mkVector2 0 (v_y (position (base p)))) (bounds (base p)) p)
    else if v_x (position (base p)) + r_width (bounds (base p)) >? ofZ (m_screenW p) then
      SetVelocity (mkVector2 0 (v_y (velocity p)))
        (withPosBounds (mkVector2 (ofZ (m_screenW p) - r_width (bounds (base p)))
                                  (v_y (position (base p)))) (bounds (base p)) p)
    else p in
  SetOnGround false p.

Record ObstacleLevel := mkObstacle {
  screenWidth : Z;
  screenHeight : Z;
  m_player : Player;
  m_exitDoor : GameObject;
  m_obstacles : list GameObject;
  m_coins : list GameObject;
  m_currentScreen : ObstacleGameScreen;
  m_levelFinished : bool;
  m_playerWonLevel : bool;
  m_startPoint : Vector2;
  m_collectedCoins : Z;
  m_totalCoins : Z }.

Definition Obstacle_of (rect : Rectangle) : GameObject :=
  newGameObject (mkVector2 (r_x rect) (r_y rect)) (r_width rect) (r_height rect).

Definition levelObstacles (screenWidth screenHeight : Z) : list GameObject :=
  let W := ofZ screenWidth in
  let H := ofZ screenHeight in
  map Obstacle_of
    [ mkRectangle 0 (H - 50) W 50;
      mkRectangle 150 (H - 150) 100 20;
      mkRectangle 300 (H - 250) 90 20;
      mkRectangle 450 (H - 350) 80 20;
      mkRectangle 550 (H - 300) 60 20;
      mkRectangle 700 (H - 300) 60 20;
      mkRectangle 800 (H - 400) 50 20;
      mkRectangle 900 (H - 500) 50 20;
      mkRectangle 800 (H - 600) 50 20;
      mkRectangle 950 (H - 550) 60 20;
      mkRectangle 1100 (H - 450) 70 20;
      mkRectangle 1150 (H - 300) 50 20;
      mkRectangle (W - 150) (H - 100) 100 20;
      mkRectangle 1000 (H - 200) 80 20 ].

Definition coinAbove (coinSize : Q) (obs : GameObject) : GameObject :=
  newGameObject
    (mkVector2 (r_x (GetBounds obs) + r_width (GetBounds obs) / 2 - coinSize / 2)
               (r_y (GetBounds obs) - coinSize - 10))
    coinSize coinSize.

Definition InitObstacleGame (screenWidth screenHeight : Z) : ObstacleLevel :=
  let player := newPlayer (mkVector2 100 (ofZ screenHeight - OBSTACLE_PLAYER_SIZE - 50))
                          OBSTACLE_PLAYER_SIZE screenWidth screenHeight in
  let exitDoor := Obstacle_of (mkRectangle (ofZ screenWidth - 100) 50 50 80) in
  let obstacles := levelObstacles screenWidth screenHeight in
  let coinSize : Q := 20 in
  let coins :=
    map (coinAbove coinSize)
        (filter (fun obs => (r_height (GetBounds obs) <? 50) &&
                            (r_y (GetBounds obs) <? ofZ (screenHeight - 50)))
                obstacles) in
  mkObstacle screenWidth screenHeight player exitDoor obstacles coins
             OBSTACLE_GAMEPLAY false false (GetPosition (base player))
             0 (Z.of_nat (length coins)).

(** The level as its constructor leaves it. *)
Definition newObstacleLevel (screenW screenH : Z) : ObstacleLevel :=
  mkObstacle screenW screenH
    (newPlayer (mkVector2 100 (ofZ screenH - OBSTACLE_PLAYER_SIZE - 50))
               OBSTACLE_PLAYER_SIZE screenW screenH)
    (mkGameObject (mkVector2 0 0) (mkRectangle 0 0 0 0)) [] []
    OBSTACLE_TITLE false false (mkVector2 0 0) 0 0.

Definition Load (l : ObstacleLevel) : ObstacleLevel :=
  InitObstacleGame (screenWidth l) (screenHeight l).

Definition Unload (l : ObstacleLevel) : ObstacleLevel :=
  mkObstacle (screenWidth l) (screenHeight l) (m_player l) (m_exitDoor l) [] []
             (m_currentScreen l) (m_levelFinished l) (m_playerWonLevel l) (m_startPoint l)
             (m_collectedCoins l) (m_totalCoins l).

(** The body of the loop over [m_obstacles]: one obstacle against the
    player as the earlier obstacles left it. *)
Definition resolveObstacle (dt : Q) (p : Player) (obs : GameObject) : Player :=
  let pb := GetBounds (base p) in
  let ob := GetBounds obs in
  if CheckCollisionRecs pb ob then
    if (v_y (GetVelocity p) >? 0) &&
       (r_y pb + r_height pb - v_y (GetVelocity p) * dt <=? r_y ob) then
      SetJumped false (SetOnGround true
        (SetVelocity (mkVector2 (v_x (GetVelocity p)) 0)
          (SetPosition (mkVector2 (v_x (GetPosition (base p))) (r_y ob - r_height pb)) p)))
    else if (v_y (GetVelocity p) <? 0) &&
            (r_y pb - r_y pb * dt >=? r_y ob + r_height ob) then
      SetVelocity (mkVector2 (v_x (GetVelocity p)) 0)
        (SetPosition (mkVector2 (v_x (GetPosition (base p))) (r_y ob + r_height ob)) p)
    else if (v_x (GetVelocity p) >? 0) &&
            (r_x pb + r_width pb - v_x (GetVelocity p) * dt <=? r_x ob) then
      SetVelocity (mkVector2 0 (v_y (GetVelocity p)))
        (SetPosition (mkVector2 (r_x ob - r_width pb) (v_y (GetPosition (base p)))) p)
    else if (v_x (GetVelocity p) <? 0) &&
            (r_x pb - v_x (GetVelocity p) * dt >=? r_x ob + r_width ob) then
      SetVelocity (mkVector2 0 (v_y (GetVelocity p)))
        (SetPosition (mkVector2 (r_x ob + r_width ob) (v_y (GetPosition (base p)))) p)
    else p
  else p.

Definition resolveObstacles (dt : Q) (p : Player) (obstacles : list GameObject) : Player :=
  fold_left (resolveObstacle dt) obstacles p.

(** The coin loop: the coins that touch the player are erased and counted. *)
Fixpoint collectCoins (pb : Rectangle) (coins : list GameObject) (collected : Z)
  : list GameObject * Z :=
  match coins with
  | [] => ([], collected)
  | c :: rest =>
      if CheckCollisionRecs pb (GetBounds c) then collectCoins pb rest (collected + 1)%Z
      else let '(rest, n) := collectCoins pb rest collected in (c :: rest, n)
  end.

Definition Update (f : Frame) (l : ObstacleLevel) : ObstacleLevel :=
  match m_currentScreen l with
  | OBSTACLE_GAMEPLAY =>
      let p := Player_Update f (m_player l) in
      let p := SetOnGround false p in
      let p := resolveObstacles (dt f) p (m_obstacles l) in
      let '(coins, collected) :=
        collectCoins (GetBounds (base p)) (m_coins l) (m_collectedCoins l) in
      let fell := v_y (GetPosition (base p)) >? ofZ (screenHeight l) in
      let '(finished, won, screen) :=
        if fell then (true, false, OBSTACLE_ENDING)
        else (m_levelFinished l, m_playerWonLevel l, m_currentScreen l) in
      let '(finished, won, screen) :=
        if CheckCollisionRecs (GetBounds (base p)) (GetBounds (m_exitDoor l)) &&
           (collected =? m_totalCoins l)%Z
        then (true, true, OBSTACLE_ENDING)
        else (finished, won, screen) in
      mkObstacle (screenWidth l) (screenHeight l) p (m_exitDoor l) (m_obstacles l) coins
                 screen finished won (m_startPoint l) collected (m_totalCoins l)
  | _ => l
  end.

Definition IsComplete (l : ObstacleLevel) : bool := m_levelFinished l.
Definition DidPlayerWinThisLevel (l : ObstacleLevel) : bool := m_playerWonLevel l.

Definition run (fs : list Frame) (l : ObstacleLevel) : ObstacleLevel :=
  fold_left (fun l f => Update f l) fs l.

End Obstacle.

(** * The level queue and the global state machine *)

Module Game.
Import FloatNotations.

Inductive GameScreen :=
  | TITLE_SCREEN_GLOBAL
  | PLAYING_LEVEL
  | LEVEL_TRANSITION
  | GAME_OVER_GLOBAL
  | GAME_WON_GLOBAL.

(** A [std::unique_ptr<Levels>]: one of the four classes. *)
Inductive Levels :=
  | AMaze (m : Maze.MazeLevel)
  | AnInvaders (l : Invaders.SpaceInvadersLevel)
  | AFlappy (l : Flappy.FlappyLevel)
  | AnObstacle (l : Obstacle.ObstacleLevel).

Definition GetName (lv : Levels) : string :=
  match lv with
  | AMaze _ => "Maze Level"%string
  | AnInvaders _ => "Space Invaders Level"%string
  | AFlappy _ => "Flappy Level"%string
  | AnObstacle _ => "Obstacle Course Level"%string
  end.

Definition GetInstructions (lv : Levels) : string :=
  match lv with
  | AMaze _ => "Navigate the maze using ARROW keys. 
 
 Collect all coins and reach the green exit to win."%string
  | AnInvaders _ => "Use LEFT/RIGHT arrows to move. 
 
 Press SPACE to shoot. Destroy all invaders before
 
  they reach the bottom or 
 
 you run out of lives!"%string
  | AFlappy _ => "Press SPACE to make your character flap.
 
 Avoid hitting the pipes and the ground. 
 
Get a score of 10 to win."%string
  | AnObstacle _ => "Use LEFT/RIGHT arrows to move. 
 
 Press SPACE to jump. 
 
 Collect all coins and reach the EXIT door to win!"%string
  end.

(** What one frame reads from the backend. *)
Record Input := mkInput {
  frameTime : Q;             (** [GetFrameTime()] *)
  time : Q;                  (** [GetTime()] *)
  leftDown : bool;           (** [IsKeyDown] of the arrows and of space *)
  rightDown : bool;
  upDown : bool;
  downDown : bool;
  spaceDown : bool;
  spacePressed : bool;       (** [IsKeyPressed(KEY_SPACE)] *)
  enterPressed : bool;       (** [IsKeyPressed(KEY_ENTER)] *)
  mousePressed : bool;       (** [IsMouseButtonPressed(MOUSE_LEFT_BUTTON)] *)
  mousePosition : Vector2;   (** [GetMousePosition()] *)
  rolls : nat -> Q }.        (** the draws of the invaders' generator *)

(** The virtual calls.  [None] is undefined behaviour inside the level. *)
Definition Update (i : Input) (lv : Levels) : option Levels :=
  match lv with
  | AMaze m =>
      Some (AMaze (Maze.Update
              (Maze.mkFrame (rightDown i) (leftDown i) (upDown i) (downDown i)) m))
  | AnInvaders l =>
      Some (AnInvaders (Invaders.Update
              (Invaders.mkFrame (leftDown i) (rightDown i) (spaceDown i) (time i)
                                (frameTime i) (rolls i)) l))
  | AFlappy l =>
      match Flappy.Update (Flappy.mkFrame (frameTime i) (spacePressed i)) l with
      | Some l => Some (AFlappy l)
      | None => None
      end
  | AnObstacle l =>
      Some (AnObstacle (Obstacle.Update
              (Obstacle.mkFrame (frameTime i) (leftDown i) (rightDown i) (spacePressed i)) l))
  end.

Definition IsComplete (lv : Levels) : bool :=
  match lv with
  | AMaze m => Maze.IsComplete m
  | AnInvaders l => Invaders.IsComplete l
  | AFlappy l => Flappy.IsComplete l
  | AnObstacle l => Obstacle.IsComplete l
  end.

Definition Load (lv : Levels) : option Levels :=
  match lv with
  | AMaze m => match Maze.Load m with Some m => Some (AMaze m) | None => None end
  | AnInvaders l => Some (AnInvaders (Invaders.Load l))
  | AFlappy l => Some (AFlappy (Flappy.Load l))
  | AnObstacle l => Some (AnObstacle (Obstacle.Load l))
  end.

Definition Unload (lv : Levels) : Levels :=
  match lv with
  | AMaze m => AMaze (Maze.Unload m)
  | AnInvaders l => AnInvaders (Invaders.Unload l)
  | AFlappy l => AFlappy (Flappy.Unload l)
  | AnObstacle l => AnObstacle (Obstacle.Unload l)
  end.

(** The special checks of the playing state: the level's name selects
    the class whose [DidPlayerWinThisLevel] is asked; a maze that is
    complete is won. *)
Definition levelSucceeded (lv : Levels) : bool :=
  if String.eqb (GetName lv) "Space Invaders Level"%string then
    match lv with AnInvaders l => Invaders.DidPlayerWinThisLevel l | _ => true end
  else if String.eqb (GetName lv) "Flappy Level"%string then
    match lv with AFlappy l => Flappy.DidPlayerWinThisLevel l | _ => true end
  else if String.eqb (GetName lv) "Obstacle Course Level"%string then
    match lv with AnObstacle l => Obstacle.DidPlayerWinThisLevel l | _ => true end
  else true.

(** The globals of the program. *)
Record Session := mkSession {
  currentGlobalScreen : GameScreen;
  gameLevels : list Levels;              (** the queue, front first *)
  currentActiveLevel : option Levels;
  nextLevelName : string;
  nextLevelInstructions : string;
  showSufferMessage : bool;
  sufferMessageTimer : Q;
  s_maze_gen : Maze.Engine;              (** the maze's engine *)
  s_flappy_gen : nat -> Z }.             (** what a new Flappy level copies *)

Definition SUFFER_MESSAGE_DISPLAY_TIME : Q := 2.

Definition confirmButton : Rectangle :=
  mkRectangle (ofZ GLOBAL_SCREEN_WIDTH / 2 - 100) (ofZ GLOBAL_SCREEN_HEIGHT * (3 # 4)) 200 50.
Definition escapeButtonRec : Rectangle :=
  mkRectangle (ofZ GLOBAL_SCREEN_WIDTH / 2 - 150) (ofZ GLOBAL_SCREEN_HEIGHT / 2 + 50) 300 70.
Definition sufferButtonRec : Rectangle :=
  mkRectangle (ofZ GLOBAL_SCREEN_WIDTH / 2 - 150) (ofZ GLOBAL_SCREEN_HEIGHT / 2 + 150) 300 70.

Definition initialSession (e : Maze.Engine) (g : nat -> Z) : Session :=
  mkSession TITLE_SCREEN_GLOBAL [] None EmptyString EmptyString false 0 e g.

Definition withScreen (c : GameScreen) (s : Session) : Session :=
  mkSession c (gameLevels s) (currentActiveLevel s) (nextLevelName s)
            (nextLevelInstructions s) (showSufferMessage s) (sufferMessageTimer s)
            (s_maze_gen s) (s_flappy_gen s).

Definition withLevels (q : list Levels) (a : option Levels) (s : Session) : Session :=
  mkSession (currentGlobalScreen s) q a (nextLevelName s)
            (nextLevelInstructions s) (showSufferMessage s) (sufferMessageTimer s)
            (s_maze_gen s) (s_flappy_gen s).

Definition withSuffer (b : bool) (t : Q) (s : Session) : Session :=
  mkSession (currentGlobalScreen s) (gameLevels s) (currentActiveLevel s) (nextLevelName s)
            (nextLevelInstructions s) b t (s_maze_gen s) (s_flappy_gen s).

(** [SetupGameLevels]: the queue is emptied and the four levels are
    constructed in their playing order.  [None]: the maze's constructor
    could not compute its dimensions. *)
Definition SetupGameLevels (s : Session) : option Session :=
  match Maze.newMazeLevel GLOBAL_SCREEN_WIDTH GLOBAL_SCREEN_HEIGHT (s_maze_gen s) with
  | None => None
  | Some m =>
      Some (withLevels
              [ AMaze m;
                AnInvaders (Invaders.newLevel GLOBAL_SCREEN_WIDTH GLOBAL_SCREEN_HEIGHT);
                AFlappy (Flappy.newFlappyLevel GLOBAL_SCREEN_WIDTH GLOBAL_SCREEN_HEIGHT
                           (s_flappy_gen s));
                AnObstacle (Obstacle.newObstacleLevel GLOBAL_SCREEN_WIDTH GLOBAL_SCREEN_HEIGHT) ]
              (currentActiveLevel s) s)
  end.

(** [LoadNextLevel] *)
Definition LoadNextLevel (s : Session) : option Session :=
  let s := match currentActiveLevel s with
           | Some _ => withLevels (gameLevels s) None s
           | None => s
           end in
  match gameLevels s with
  | next :: rest =>
      match Load next with
      | Some lv => Some (withLevels rest (Some lv) s)
      | None => None
      end
  | [] => Some (withLevels [] None s)
  end.

(** The [switch] of the main loop. *)
Definition updatePhase (i : Input) (s : Session) : option Session :=
  match currentGlobalScreen s with
  | TITLE_SCREEN_GLOBAL => Some s
  | PLAYING_LEVEL =>
      match currentActiveLevel s with
      | Some lv =>
          match Update i lv with
          | None => None
          | Some lv =>
              if IsComplete lv then
                let succeeded := levelSucceeded lv in
                let lv := Unload lv in
                if succeeded then
                  match gameLevels s with
                  | next :: _ =>
                      Some (mkSession LEVEL_TRANSITION (gameLevels s) (Some lv)
                              (GetName next) (GetInstructions next)
                              (showSufferMessage s) (sufferMessageTimer s)
                              (s_maze_gen s) (s_flappy_gen s))
                  | [] => Some (withScreen GAME_WON_GLOBAL (withLevels (gameLevels s) None s))
                  end
                else Some (withScreen GAME_OVER_GLOBAL (withLevels (gameLevels s) None s))
              else Some (withLevels (gameLevels s) (Some lv) s)
          end
      | None => Some (withScreen GAME_OVER_GLOBAL s)
      end
  | LEVEL_TRANSITION =>
      if mousePressed i && CheckCollisionPointRec (mousePosition i) confirmButton then
        match LoadNextLevel s with
        | None => None
        | Some s =>
            match currentActiveLevel s with
            | Some _ => Some (withScreen PLAYING_LEVEL s)
            | None => Some (withScreen GAME_WON_GLOBAL s)
            end
        end
      else Some s
  | GAME_OVER_GLOBAL | GAME_WON_GLOBAL =>
      if enterPressed i then Some (withSuffer false 0 (withScreen TITLE_SCREEN_GLOBAL s))
      else Some s
  end.

(** What [DrawStartingScreen] does besides drawing. *)
Definition DrawStartingScreen (i : Input) (s : Session) : option Session :=
  let clicked :=
    if mousePressed i then
      if CheckCollisionPointRec (mousePosition i) escapeButtonRec then
        match SetupGameLevels (withSuffer false (sufferMessageTimer s) s) with
        | None => None
        | Some s =>
            match LoadNextLevel s with
            | None => None
            | Some s => Some (withScreen PLAYING_LEVEL s)
            end
        end
      else if CheckCollisionPointRec (mousePosition i) sufferButtonRec then
        Some (withSuffer true 0 s)
      else Some s
    else Some s in
  match clicked with
  | None => None
  | Some s =>
      if showSufferMessage s then
        let t := sufferMessageTimer s + frameTime i in
        if t <? SUFFER_MESSAGE_DISPLAY_TIME then Some (withSuffer true t s)
        else Some (withSuffer false t s)
      else Some s
  end.

(** The drawing half of an iteration changes the state on the title screen
    only. *)
Definition drawPhase (i : Input) (s : Session) : option Session :=
  match currentGlobalScreen s with
  | TITLE_SCREEN_GLOBAL => DrawStartingScreen i s
  | _ => Some s
  end.

(** One iteration of the main loop. *)
Definition frame (i : Input) (s : Session) : option Session :=
  match updatePhase i s with
  | None => None
  | Some s => drawPhase i s
  end.

Fixpoint run (inputs : list Input) (s : Session) : option Session :=
  match inputs with
  | [] => Some s
  | i :: inputs => match frame i s with Some s => run inputs s | None => None end
  end.

(** [s_maze_gen] is a static of the program: what a maze level consumes of
    it is consumed for every later one.  The model lets the loaded maze
    carry the engine; after an iteration the static is what that maze
    holds. *)
Definition syncEngine (s : Session) : Session :=
  match currentActiveLevel s with
  | Some (AMaze m) =>
      mkSession (currentGlobalScreen s) (gameLevels s) (currentActiveLevel s)
                (nextLevelName s) (nextLevelInstructions s) (showSufferMessage s)
                (sufferMessageTimer s) (Maze.s_maze_gen m) (s_flappy_gen s)
  | _ => s
  end.

(** The main loop over the inputs of its iterations, with the static
    engine carried along. *)
Fixpoint play (inputs : list Input) (s : Session) : option Session :=
  match inputs with
  | [] => Some s
  | i :: inputs =>
      match frame i s with
      | Some s => play inputs (syncEngine s)
      | None => None
      end
  end.

End Game.

(** * Maze: notions used to state its properties *)

Section MazeSpec.
Import Maze.

(** The player's box overlaps the exit cell and every coin spawned has been
    collected. *)
Definition atExitWithAllCoins (m : MazeLevel) : bool :=
  CheckCollisionRecs (playerRectOf m) (exitRect m) &&
  (collectedCoins m =? totalInitialCoins m)%Z.

(** The coins collected and the coins left add up to the coins spawned. *)
Definition coinsAccounted (m : MazeLevel) : Prop :=
  (collectedCoins m + Z.of_nat (length (coins m)) = totalInitialCoins m)%Z.


(** ** Paths in the grid *)

Definition Cell : Type := (Z * Z)%type.

(** Two cells that share a side. *)
Definition adjacent (a b : Cell) : Prop :=
  (fst a = fst b /\ Z.abs (snd a - snd b) = 1)%Z \/
  (snd a = snd b /\ Z.abs (fst a - fst b) = 1)%Z.

(** [spath V a b l]: [l] lists, from [a] to [b], cells of [V] each adjacent
    to the next, no cell twice: a simple path. *)
Inductive spath (V : Cell -> Prop) : Cell -> Cell -> list Cell -> Prop :=
  | sp_one a : V a -> spath V a a [a]
  | sp_cons a x b l :
      V a -> adjacent a x -> spath V x b l -> ~ In a l -> spath V a b (a :: l).

(** Between any two cells of [V] there is exactly one simple path: [V] is
    connected and has no cycle. *)
Definition uniquelyConnected (V : Cell -> Prop) : Prop :=
  forall a b, V a -> V b ->
    exists l, spath V a b l /\ forall l', spath V a b l' -> l' = l.

(** No simple path of three or more cells has its two ends adjacent: there
    is no cycle in [V]. *)
Definition cycleFree (V : Cell -> Prop) : Prop :=
  forall a b l, spath V a b l -> (2 < length l)%nat -> ~ adjacent b a.

(** [V] with one more cell. *)
Definition withLeaf (V : Cell -> Prop) (v : Cell) (x : Cell) : Prop := x = v \/ V x.

(** A cell of the grid that is not a wall. *)
Definition pathCell (g : Grid) (x : Cell) : Prop := getCell g (fst x) (snd x) = false.

(** ** The grid while it is carved *)

Definition wfGrid (height width : Z) (g : Grid) : Prop :=
  length g = Z.to_nat height /\ Forall (fun row => length row = Z.to_nat width) g.

Definition countWalls (row : list bool) : nat := length (filter (fun b => b) row).

(** The number of walls of the grid. *)
Definition walls (g : Grid) : nat := list_sum (map countWalls g).

(** The cells the carving visits: odd row, odd column, inside the border. *)
Definition room (height width r c : Z) : Prop :=
  (0 < r < height - 1 /\ 0 < c < width - 1 /\ r mod 2 = 1 /\ c mod 2 = 1)%Z.

(** One cell up, down, left or right. *)
Definition unitStep (er ec : Z) : Prop :=
  (er = 0 /\ (ec = 1 \/ ec = -1))%Z \/ (ec = 0 /\ (er = 1 \/ er = -1))%Z.

(** What the carving keeps true of the grid: every path cell lies inside
    the border and has an odd coordinate; a path cell between two rooms has
    both rooms carved; and the path cells are uniquely connected. *)
Definition carved (height width : Z) (g : Grid) : Prop :=
  (forall r c, getCell g r c = false ->
     (0 < r < height - 1 /\ 0 < c < width - 1 /\ (r mod 2 = 1 \/ c mod 2 = 1))%Z) /\
  (forall r c, getCell g r c = false -> (r mod 2 = 1)%Z -> (c mod 2 = 0)%Z ->
     getCell g r (c - 1) = false /\ getCell g r (c + 1) = false) /\
  (forall r c, getCell g r c = false -> (r mod 2 = 0)%Z -> (c mod 2 = 1)%Z ->
     getCell g (r - 1) c = false /\ getCell g (r + 1) c = false) /\
  uniquelyConnected (pathCell g).

(** Every room two steps away from [(r, c)] is carved. *)
Definition closedRoom (height width : Z) (g : Grid) (r c : Z) : Prop :=
  forall dir, (dir < 4)%nat ->
    (0 <= r + dr dir < height)%Z -> (0 <= c + dc dir < width)%Z ->
    getCell g (r + dr dir) (c + dc dir) = false.

(** What a call of [RecursiveGenerateMaze] at [(r, c)] needs of the grid [g]
    and engine [e] it starts from, and what it leaves. *)
Definition carvePre (height width : Z) (fuel : nat) (r c : Z) (g : Grid) (e : Engine) : Prop :=
  wfGrid height width g /\ room height width r c /\ getCell g r c = true /\
  (walls g <= fuel)%nat /\ carved height width (setCell g r c false) /\
  (forall n, Permutation (shuffles e n) [0; 1; 2; 3]%nat).

Definition carvePost (height width : Z) (g : Grid) (r c : Z) (g' : Grid) (e' : Engine) : Prop :=
  wfGrid height width g' /\ carved height width g' /\
  (forall x y, getCell (setCell g r c false) x y = false -> getCell g' x y = false) /\
  (walls g' < walls g)%nat /\
  (forall x y, room height width x y -> getCell g x y = true -> getCell g' x y = false ->
     closedRoom height width g' x y) /\
  (forall n, Permutation (shuffles e' n) [0; 1; 2; 3]%nat).

(** [std::shuffle] leaves the four directions in some order, every time. *)
Definition shufflesPermute (e : Engine) : Prop :=
  forall n, Permutation (shuffles e n) [0; 1; 2; 3]%nat.

(** The level the game constructs, with an engine that leaves the directions
    in their initial order and draws 1/2 for every coin. *)
Definition plain_engine : Engine := mkEngine (fun _ => [0; 1; 2; 3]%nat) (fun _ => 1 # 2).
Definition blank_maze (e : Engine) : MazeLevel :=
  mkMaze GLOBAL_SCREEN_WIDTH GLOBAL_SCREEN_HEIGHT [] 0 0 0 0 0 0 0 0 0 0 3 [] 0 0 0 false false e.
Definition game_maze : MazeLevel :=
  match newMazeLevel GLOBAL_SCREEN_WIDTH GLOBAL_SCREEN_HEIGHT plain_engine with
  | Some m => m
  | None => blank_maze plain_engine
  end.

(** Two more engines on the same shuffles, so on the same maze: one spawns
    a coin on the first three cells after the start and nowhere else, the
    other a single coin, in the first open cell of the third row, off the
    way to the exit. *)
Definition walk_engine : Engine :=
  mkEngine (fun _ => [0; 1; 2; 3]%nat) (fun n => if (n <? 3)%nat then 0 else 1 # 2).
Definition stray_engine : Engine :=
  mkEngine (fun _ => [0; 1; 2; 3]%nat) (fun n => if (n =? 35)%nat then 0 else 1 # 2).
Definition maze_with (e : Engine) : MazeLevel :=
  match newMazeLevel GLOBAL_SCREEN_WIDTH GLOBAL_SCREEN_HEIGHT e with
  | Some m => m
  | None => blank_maze e
  end.

(** The way to the exit in that maze: right along the first corridor, then
    down along the last one. *)
Definition the_walk : list Frame :=
  repeat (mkFrame true false false false) 386 ++ repeat (mkFrame false false false true) 195.

(** [P] holds at the end of every frame of the run. *)
Fixpoint alongRun (P : MazeLevel -> bool) (fs : list Frame) (m : MazeLevel) : bool :=
  match fs with
  | [] => true
  | f :: fs => P (Update f m) && alongRun P fs (Update f m)
  end.

(** The player is off the exit cell, or a coin is left. *)
Definition exitWithCoinLeft (m : MazeLevel) : bool :=
  negb (CheckCollisionRecs (playerRectOf m) (exitRect m)) ||
  match coins m with [] => false | _ :: _ => true end.

End MazeSpec.

(** * Space Invaders: notions used to state its properties *)

Section InvadersSpec.
Import Invaders.

(** A session at 64 frames a second.  The player stays where it starts and
    fires at the listed frames; the first active invader fires at the listed
    frames and no other invader ever fires. *)
Definition shot_frames : list nat :=
  [940; 977; 1200; 1237; 1460; 1497; 1720; 1757; 1980; 2017; 2240; 2277;
   2500; 2537; 2760; 2877]%nat.
Definition fire_frames : list nat := [2860; 2862; 2864; 2866; 2879]%nat.

Definition memb (n : nat) (l : list nat) : bool := existsb (Nat.eqb n) l.

Definition session_frame (t : nat) : Frame :=
  mkFrame false false (memb t shot_frames)
          (inject_Z (Z.of_nat t) / 64) (1 # 64)
          (fun k => if Nat.eqb k 0 && memb t fire_frames then 0 else 1 # 2).

Definition session (n : nat) : list Frame := map session_frame (seq 0 n).

Definition session_start : SpaceInvadersLevel :=
  Load (newLevel GLOBAL_SCREEN_WIDTH GLOBAL_SCREEN_HEIGHT).

(** What is to be observed of a frame [f] played from a state [b]. *)
Definition lastFrameCheck (b : SpaceInvadersLevel) (f : Frame) : bool :=
  let a := Update f b in
  negb (gameOver b) && negb (gameWon b) &&
  (lives (player b) =? 1)%Z && (lives (player a) =? 0)%Z &&
  allInvadersDestroyed (invaders a) && gameOver a && gameWon a.

(** Between the states [b] and [a] of one frame, an invader that was
    active in [b] has come down by the descent amount and stands with its
    lower edge at or below the upper edge of the player. *)
Definition reachedPlayer (b a : SpaceInvadersLevel) : Prop :=
  exists i inv inv',
    nth_error (invaders b) i = Some inv /\ nth_error (invaders a) i = Some inv' /\
    i_active inv = true /\
    r_y (i_rect inv') == r_y (i_rect inv) + SI_INVADER_DESCENT_AMOUNT /\
    r_y (p_rect (player a)) <= r_y (i_rect inv') + r_height (i_rect inv').

End InvadersSpec.

(** * Flappy: notions used to state its properties *)

Section FlappySpec.
Import Flappy.

Definition pipeX (p : Pipe) : Q := r_x (m_topRect p).

Fixpoint spaced (ps : list Pipe) : Prop :=
  match ps with
  | p :: (q :: _) as rest =>
      pipeX q == pipeX p + FLAPPY_MIN_HORIZONTAL_PIPE_SPACING /\ spaced rest
  | _ => True
  end.

Definition pipesInv (l : FlappyLevel) : Prop :=
  spaced (m_pipes l) /\ (2 <= length (m_pipes l))%nat.

Definition startPosition (l : FlappyLevel) : Vector2 :=
  mkVector2 (fdiv (ofZ (screenWidth l)) 4) (fdiv (ofZ (screenHeight l)) 2).

(** The scoring test of a frame, as the loop evaluates it for pipe [p]: on
    the moved pipe, against the moved bird. *)
Definition passedAt (f : Frame) (l : FlappyLevel) (p : Pipe) : bool :=
  passed (Bird_Update (deltaTime f) (m_bird l)) (Pipe_Update (deltaTime f) p).

(** The edges the scoring is about.  The pipes come from the right: a
    pipe's trailing edge is its right one; the bird's leading edge is its
    right one, at [x + radius], and its rear edge the left one, at
    [x - radius]. *)
Definition trailingEdge (p : Pipe) : Q := r_x (m_topRect p) + inject_Z FLAPPY_PIPE_WIDTH.
Definition leadingEdge (b : Bird) : Q := v_x (m_position b) + m_radius b.
Definition rearEdge (b : Bird) : Q := v_x (m_position b) - m_radius b.

(** Once frame [f] has moved the pipe [p] of state [l] left by the pipe
    speed times the frame time, its trailing edge lies strictly left of the
    bird's rear edge; the bird does not move sideways. *)
Definition clearedAt (f : Frame) (l : FlappyLevel) (p : Pipe) : Prop :=
  trailingEdge p - FLAPPY_PIPE_SPEED * deltaTime f < rearEdge (m_bird l).

(** The pipe's flag goes from false to true in the loop of this frame. *)
Definition flips (f : Frame) (l : FlappyLevel) (p : Pipe) : Prop :=
  m_scored p = false /\
  exists p', In p' (m_pipes (fst (movePhase f l))) /\ p_addr p' = p_addr p /\ m_scored p' = true.

Definition flipping (f : Frame) (l : FlappyLevel) : list Pipe :=
  filter (fun p => negb (m_scored p) && passedAt f l p) (m_pipes l).

(** The frames of a session, each with the state it starts from. *)
Fixpoint history (fs : list Frame) (l : FlappyLevel) : list (Frame * FlappyLevel) :=
  match fs with
  | [] => []
  | f :: fs => (f, l) :: match Update f l with Some l' => history fs l' | None => [] end
  end.

(** In an earlier playing frame the scoring test held for the pipe at
    address [a]. *)
Definition PassedBefore (h : list (Frame * FlappyLevel)) (a : nat) : Prop :=
  exists f l p, In (f, l) h /\ m_currentScreen l = FLAPPY_PLAYING /\
                In p (m_pipes l) /\ p_addr p = a /\ passedAt f l p = true.

(** In an earlier playing frame the pipe at address [a] had its trailing
    edge left of the bird's rear edge. *)
Definition ClearedBefore (h : list (Frame * FlappyLevel)) (a : nat) : Prop :=
  exists f l p, In (f, l) h /\ m_currentScreen l = FLAPPY_PLAYING /\
                In p (m_pipes l) /\ p_addr p = a /\ clearedAt f l p.

Definition stepPipe (dt : Q) (b : Bird) (p : Pipe) : Pipe :=
  let p := Pipe_Update dt p in
  if negb (isScored p) && passed b p then markScored p else p.

Definition wellAddressed (ps : list Pipe) (a : nat) : Prop :=
  NoDup (map p_addr ps) /\ forall p, In p ps -> (p_addr p < a)%nat.

(** [ps'] is made of pipes of [ps] and of fresh, unscored ones. *)
Definition extends (ps : list Pipe) (a : nat) (ps' : list Pipe) (a' : nat) : Prop :=
  (a <= a')%nat /\ wellAddressed ps' a' /\
  forall p', In p' ps' -> In p' ps \/ ((a <= p_addr p')%nat /\ m_scored p' = false).

Definition scoreInv (h : list (Frame * FlappyLevel)) (l : FlappyLevel) : Prop :=
  wellAddressed (m_pipes l) (heap_next l) /\
  (forall f lj p, In (f, lj) h -> In p (m_pipes lj) -> (p_addr p < heap_next l)%nat) /\
  (forall p, In p (m_pipes l) -> (m_scored p = true <-> PassedBefore h (p_addr p))).

(** A session that takes three hits without scoring, passes nine pipes and
    is hit a fourth time in the frame in which it passes the tenth.  The
    generator yields 360 for every gap. *)
Definition quiet (dt : Q) : Frame := mkFrame dt false.
Definition flappy_session_start : FlappyLevel :=
  InitFlappyGame GLOBAL_SCREEN_WIDTH GLOBAL_SCREEN_HEIGHT (fun _ => 360%Z) 0.
Definition flappy_session : list Frame :=
  [mkFrame (1#64) true] ++ repeat (quiet (48#5)) 3 ++ [quiet (107#10)] ++ repeat (quiet (5#2)) 8.
Definition flappy_last_frame : Frame := quiet 4.
(** The state of that session after its fourth frame, and the front pipe
    there. *)
Definition flappy_after_hits : FlappyLevel :=
  match run (firstn 4 flappy_session) flappy_session_start with
  | Some l => l
  | None => flappy_session_start
  end.
Definition flappy_front_pipe : Pipe :=
  hd (newPipe 0 0 0 0) (m_pipes flappy_after_hits).

(** A session in which the bird hovers in the opening: the game is started,
    and after two short frames a flap comes every other frame of 5/21 s.
    After 45 frames the first pipe has its trailing edge just right of the
    bird's leading edge. *)
Definition hover_pair : list Frame := [mkFrame (5#21) false; mkFrame (5#21) true].
Definition hover_session : list Frame :=
  [mkFrame (1#100) true; mkFrame (1#100) false; mkFrame (1#100) true] ++
  concat (repeat hover_pair 21).
Definition hover_frame : Frame := mkFrame (5#21) false.
Definition hover_state : FlappyLevel :=
  match run hover_session flappy_session_start with
  | Some l => l
  | None => flappy_session_start
  end.

End FlappySpec.

(** * Obstacle course: notions used to state its properties *)

Section ObstacleSpec.
Import Obstacle.

(** The player as the collision loop of a frame first sees it. *)
Definition movedPlayer (f : Frame) (l : ObstacleLevel) : Player :=
  SetOnGround false (Player_Update f (m_player l)).

(** The "collision from above" test of the loop. *)
Definition landsOn (dt : Q) (p : Player) (obs : GameObject) : bool :=
  CheckCollisionRecs (GetBounds (base p)) (GetBounds obs) &&
  (fgt (v_y (GetVelocity p)) 0 &&
   fle (fsub (fadd (r_y (GetBounds (base p))) (r_height (GetBounds (base p))))
             (fmul (v_y (GetVelocity p)) dt))
       (r_y (GetBounds obs))).

(** The "collision from below" test of the loop. *)
Definition bumpsHead (dt : Q) (p : Player) (obs : GameObject) : bool :=
  flt (v_y (GetVelocity p)) 0 &&
  fge (fsub (r_y (GetBounds (base p))) (fmul (r_y (GetBounds (base p))) dt))
      (fadd (r_y (GetBounds obs)) (r_height (GetBounds obs))).

(** Standing: on the ground with no vertical velocity. *)
Definition grounded (p : Player) : Prop :=
  onGround p = true /\ v_y (velocity p) = 0.

(** A short session: the player lands on the ground, walks right until it
    stands under the first platform, jumps, and rises for seven frames. *)
Definition idle : Frame := mkFrame (1#64) false false false.
Definition walkRight : Frame := mkFrame (1#64) false true false.
Definition jump : Frame := mkFrame (1#64) false false true.
Definition jump_session : list Frame :=
  [idle] ++ repeat walkRight 20 ++ [jump] ++ repeat idle 6.
Definition under_platform : ObstacleLevel :=
  run jump_session (InitObstacleGame GLOBAL_SCREEN_WIDTH GLOBAL_SCREEN_HEIGHT).
Definition first_platform : GameObject :=
  Obstacle_of (mkRectangle 150 570 100 20).

End ObstacleSpec.

(** ** The state machine: what the statements below speak about *)

Section GameSpec.
Import Game.

(** Whether a finished level counts as won: what its own class answers;
    the maze has no such question and any completion is a win. *)
Definition wonLevel (lv : Levels) : bool :=
  match lv with
  | AMaze _ => true
  | AnInvaders l => Invaders.DidPlayerWinThisLevel l
  | AFlappy l => Flappy.DidPlayerWinThisLevel l
  | AnObstacle l => Obstacle.DidPlayerWinThisLevel l
  end.

(** A session that plays a queued level: a level is loaded. *)
Definition playingHasLevel (s : Session) : Prop :=
  currentGlobalScreen s = PLAYING_LEVEL -> currentActiveLevel s <> None.

(** The names of the levels still queued. *)
Definition queuedNames (s : Session) : list string := map GetName (gameLevels s).

(** A session whose Flappy level is one frame from its end, with the
    obstacle course still queued. *)
Definition flappy_before_end : Flappy.FlappyLevel :=
  match Flappy.run flappy_session flappy_session_start with
  | Some l => l
  | None => flappy_session_start
  end.
Definition closing_session : Session :=
  mkSession PLAYING_LEVEL
    [AnObstacle (Obstacle.newObstacleLevel GLOBAL_SCREEN_WIDTH GLOBAL_SCREEN_HEIGHT)]
    (Some (AFlappy flappy_before_end))
    "Flappy Level"%string (GetInstructions (AFlappy flappy_before_end)) false 0
    plain_engine (fun _ => 360%Z).
Definition still_input (dt : Q) : Input :=
  mkInput dt 20 false false false false false false false false (mkVector2 0 0)
          (fun _ => 1 # 2).
(** A session that claims to play although nothing is loaded. *)
Definition levelless_session : Session :=
  withScreen PLAYING_LEVEL (initialSession plain_engine (fun _ => 360%Z)).

End GameSpec.

(** ** Maze: the layout, the coins and the player *)

Section MazeMore.
Import Maze.

(** The centre of the cell at row [r], column [c]. *)
Definition cellCentre (m : MazeLevel) (r c : Z) : Vector2 :=
  mkVector2 (fadd (fmul (ofZ c) (cellSizePixels m)) (fdiv (cellSizePixels m) 2))
            (fadd (fmul (ofZ r) (cellSizePixels m)) (fdiv (cellSizePixels m) 2)).

(** A coin that lies at the centre of a path cell of the grid, the start
    cell and the exit cell apart. *)
Definition coinOnPath (m : MazeLevel) (coin : Vector2) : Prop :=
  exists r c,
    (0 <= r < mazeHeightCells m)%Z /\ (0 <= c < mazeWidthCells m)%Z /\
    pathCell (mazeGrid m) (r, c) /\
    (r, c) <> (startRow m, startCol m) /\ (r, c) <> (endRow m, endCol m) /\
    coin = cellCentre m r c.

(** The layout the carving leaves: every room is open, and every open cell
    lies inside the outer ring of walls and has an odd coordinate, so that
    the ring and the pillars between four rooms stand. *)
Definition laidOut (height width : Z) (g : Grid) : Prop :=
  wfGrid height width g /\
  (forall r c, room height width r c -> pathCell g (r, c)) /\
  (forall r c, pathCell g (r, c) ->
     (0 < r < height - 1 /\ 0 < c < width - 1 /\ (r mod 2 = 1 \/ c mod 2 = 1))%Z).

(** The wall test of [CheckWallCollision] for a player's box at [(x, y)]:
    the cells the box is taken to cover, and whether one of them is a wall
    that the box overlaps. *)
Definition wallAt (m : MazeLevel) (x y pSize : Q) : bool :=
  let playerRect := mkRectangle x y pSize pSize in
  let cell := cellSizePixels m in
  let minCol := clampCell (truncZ (fdiv x cell)) 0 (mazeWidthCells m - 1) in
  let maxCol := clampCell (truncZ (fdiv (fsub (fadd x pSize) 1) cell)) 0 (mazeWidthCells m - 1) in
  let minRow := clampCell (truncZ (fdiv y cell)) 0 (mazeHeightCells m - 1) in
  let maxRow := clampCell (truncZ (fdiv (fsub (fadd y pSize) 1) cell)) 0 (mazeHeightCells m - 1) in
  existsb (fun r =>
    existsb (fun c =>
      if (r <? 0)%Z || (r >=? mazeHeightCells m)%Z || (c <? 0)%Z || (c >=? mazeWidthCells m)%Z
      then false
      else getCell (mazeGrid m) r c &&
           CheckCollisionRecs playerRect
             (mkRectangle (fmul (ofZ c) cell) (fmul (ofZ r) cell) cell cell))
      (zrange minCol maxCol))
    (zrange minRow maxRow).

(** A coordinate [v] of the player's box lies inside the ring of border
    cells of a grid [n] cells across: past the first cell, and the cell of
    its far pixel is before the last one. *)
Definition axisInside (cell pSize v : Q) (n : Z) : Prop :=
  cell <= v /\ v + pSize - 1 < inject_Z (n - 1) * cell.

(** The player's box lies inside the ring of border walls. *)
Definition insideRing (m : MazeLevel) : Prop :=
  axisInside (cellSizePixels m) (playerSize m) (playerX m) (mazeWidthCells m) /\
  axisInside (cellSizePixels m) (playerSize m) (playerY m) (mazeHeightCells m).

(** The player stands where the wall test finds no wall. *)
Definition clearOfWalls (m : MazeLevel) : Prop :=
  CheckWallCollision m (playerX m) (playerY m) (playerSize m) 0 0 = false.

(** The state of a maze level on the game's screen while it is played. *)
Definition gameMazeInv (m : MazeLevel) : Prop :=
  screenWidth m = GLOBAL_SCREEN_WIDTH /\ screenHeight m = GLOBAL_SCREEN_HEIGHT /\
  cellSizePixels m = 34 /\ playerSize m = 102 # 5 /\ playerSpeed m = 3 /\
  mazeWidthCells m = 37%Z /\ mazeHeightCells m = 21%Z /\
  laidOut 21 37 (mazeGrid m) /\
  Qred (playerX m) = playerX m /\ Qred (playerY m) = playerY m /\
  insideRing m /\ wallAt m (playerX m) (playerY m) (playerSize m) = false.

End MazeMore.

(** ** Space Invaders: score, lives and the ship *)

Section InvadersMore.
Import Invaders.

(** The number of invaders that have been destroyed. *)
Definition destroyed (invs : list Invader) : Z :=
  Z.of_nat (length (filter (fun i => negb (i_active i)) invs)).

(** What every state of a loaded level satisfies. *)
Definition invadersInv (l : SpaceInvadersLevel) : Prop :=
  score l = (100 * destroyed (invaders l))%Z /\
  length (invaders l) = (SI_INVADER_ROWS * SI_INVADER_COLS)%nat /\
  gameWon l = allInvadersDestroyed (invaders l) /\
  (0 <= lives (player l) <= 5)%Z /\
  (IsComplete l = false -> (0 < lives (player l))%Z) /\
  (lives (player l) = 0%Z -> gameOver l = true).

(** The ship stands on a multiple of its step, inside the screen. *)
Definition shipInside (W H : Z) (l : SpaceInvadersLevel) : Prop :=
  exists k : Z,
    r_x (p_rect (player l)) = inject_Z (5 * k) /\ (0 <= 5 * k <= W - 50)%Z /\
    r_y (p_rect (player l)) = inject_Z (H - 70) /\
    r_width (p_rect (player l)) = 50 /\ currentScreenW l = inject_Z W.

(** A frame in which the ship is steered and nothing else is asked. *)
Definition steer (left right : bool) (t : Z) : Frame :=
  mkFrame left right false (t # 64) (1 # 64) (fun _ => 1 # 2).

(** A bullet of the player's vector: a player bullet of the constructor's
    size, inside the screen vertically. *)
Definition playerShot (H : Q) (b : Bullet) : Prop :=
  isPlayerBullet b = true /\ r_width (b_rect b) = 5 /\ r_height (b_rect b) = 10 /\
  0 <= r_y (b_rect b) <= H.

(** A bullet of the invaders' vector. *)
Definition invaderShot (b : Bullet) : Prop :=
  isPlayerBullet b = false /\ r_width (b_rect b) = 5 /\ r_height (b_rect b) = 10.

Definition bulletsInv (l : SpaceInvadersLevel) : Prop :=
  Forall (playerShot (currentScreenH l)) (playerBullets l) /\
  Forall invaderShot (invaderBullets l).

(** The column of the invader at index [i] of the vector. *)
Definition column (i : nat) : Z := Z.of_nat (i mod SI_INVADER_COLS).

(** The active invaders stand in their columns, 50 apart from a common
    left end [base], each strictly inside the screen with a margin of 10. *)
Definition inFormation (W : Q) (base : Q) (invs : list Invader) : Prop :=
  forall i inv, nth_error invs i = Some inv -> i_active inv = true ->
    r_x (i_rect inv) == base + 50 * inject_Z (column i) /\
    r_width (i_rect inv) == 30 /\
    10 < r_x (i_rect inv) /\ r_x (i_rect inv) + 30 < W - 10.

Definition formationInv (l : SpaceInvadersLevel) : Prop :=
  (invaderMoveDirection l == 1 \/ invaderMoveDirection l == -1) /\
  exists base, inFormation (currentScreenW l) base (invaders l).

End InvadersMore.

(** ** Flappy: the bird, the outcome and the shape of the pipes *)

Section FlappyMore.
Import Flappy.

(** The bird is the one [Load] made for this level. *)
Definition birdFits (l : FlappyLevel) : Prop :=
  m_radius (m_bird l) = FLAPPY_BIRD_RADIUS /\ b_screenH (m_bird l) = screenHeight l.

(** Some pipe, once moved, touches the moved bird. *)
Definition pipeHit (f : Frame) (l : FlappyLevel) : bool :=
  existsb (fun p => hits (Bird_Update (deltaTime f) (m_bird l)) (Pipe_Update (deltaTime f) p))
          (m_pipes l).

(** The bird has been hit [n] times. *)
Definition hitTimes (l : FlappyLevel) (n : Z) : Prop :=
  (0 <= n <= 4)%Z /\ m_health (m_bird l) == FLAPPY_INITIAL_HEALTH - FLAPPY_DAMAGE_PER_HIT * inject_Z n.

(** What the screen of the level says about its other fields. *)
Definition screenSound (l : FlappyLevel) : Prop :=
  (0 <= m_score l)%Z /\
  match m_currentScreen l with
  | FLAPPY_MENU | FLAPPY_PLAYING =>
      m_levelFinished l = false /\ m_playerWonLevel l = false /\
      0 < m_health (m_bird l) /\ (m_score l < FLAPPY_WIN_SCORE)%Z
  | FLAPPY_GAME_OVER =>
      m_levelFinished l = true /\ m_playerWonLevel l = false /\
      m_health (m_bird l) == 0 /\ (m_score l < FLAPPY_WIN_SCORE)%Z
  | FLAPPY_WIN =>
      m_levelFinished l = true /\ m_playerWonLevel l = true /\
      (FLAPPY_WIN_SCORE <= m_score l)%Z
  end.

(** A pipe as its constructor builds it for a screen of height [H]: the two
    rectangles share their left edge and their width, the upper one hangs
    from the top, the lower one stands on the bottom, and the opening
    between them is [FLAPPY_PIPE_GAP] high. *)
Definition pipeShape (H : Z) (p : Pipe) : Prop :=
  r_x (m_bottomRect p) = r_x (m_topRect p) /\
  r_width (m_topRect p) == inject_Z FLAPPY_PIPE_WIDTH /\
  r_width (m_bottomRect p) == inject_Z FLAPPY_PIPE_WIDTH /\
  r_y (m_topRect p) == 0 /\
  r_y (m_bottomRect p) == r_height (m_topRect p) + inject_Z FLAPPY_PIPE_GAP /\
  r_y (m_bottomRect p) + r_height (m_bottomRect p) == inject_Z H.


(** What every state of a loaded level satisfies. *)
Definition flappyInv (l : FlappyLevel) : Prop :=
  birdFits l /\ (exists n, hitTimes l n) /\ screenSound l /\
  Forall (pipeShape (screenHeight l)) (m_pipes l).

(** A fresh level on the game's screen, its generator yielding 360. *)
Definition flappy_fresh : FlappyLevel :=
  newFlappyLevel GLOBAL_SCREEN_WIDTH GLOBAL_SCREEN_HEIGHT (fun _ => 360%Z).

(** That level after [Load] and the frames of [flappy_session]. *)
Definition flappy_played : FlappyLevel :=
  match run flappy_session (Load flappy_fresh) with
  | Some l => l
  | None => flappy_fresh
  end.

End FlappyMore.

(** ** Obstacle course: coins and outcome *)

Section ObstacleMore.
Import Obstacle.

(** The exit door [InitObstacleGame] sets up on a screen [W] wide. *)
Definition exitDoorOf (W : Z) : GameObject :=
  Obstacle_of (mkRectangle (fsub (ofZ W) 100) 50 50 80).

(** The player's box is where the player is, vertically, and has the
    player's height. *)
Definition synced (p : Player) : Prop :=
  r_y (bounds (base p)) = v_y (position (base p)) /\
  r_height (bounds (base p)) = OBSTACLE_PLAYER_SIZE.

Definition atExit (l : ObstacleLevel) : bool :=
  CheckCollisionRecs (GetBounds (base (m_player l))) (GetBounds (m_exitDoor l)).

Definition fellOff (l : ObstacleLevel) : bool :=
  fgt (v_y (GetPosition (base (m_player l)))) (ofZ (screenHeight l)).

(** What every state of a loaded level satisfies. *)
Definition courseInv (l : ObstacleLevel) : Prop :=
  m_totalCoins l = 13%Z /\
  (m_collectedCoins l + Z.of_nat (length (m_coins l)) = m_totalCoins l)%Z /\
  m_exitDoor l = exitDoorOf (screenWidth l) /\
  synced (m_player l) /\
  match m_currentScreen l with
  | OBSTACLE_GAMEPLAY => m_levelFinished l = false /\ m_playerWonLevel l = false
  | OBSTACLE_ENDING =>
      m_levelFinished l = true /\
      (if m_playerWonLevel l
       then atExit l = true /\ m_collectedCoins l = m_totalCoins l
       else fellOff l = true)
  | OBSTACLE_TITLE => False
  end.


(** The frame [f] with the jump key as given. *)
Definition withSpace (b : bool) (f : Frame) : Frame :=
  mkFrame (dt f) (keyLeft f) (keyRight f) b.

End ObstacleMore.

(** ** The state machine: the states a session can be in *)

Section GameMore.
Import Game.

(** The names of the levels in the order [SetupGameLevels] queues them. *)
Definition levelOrder : list string :=
  ["Maze Level"; "Space Invaders Level"; "Flappy Level"; "Obstacle Course Level"]%string.

(** The levels [SetupGameLevels] queues behind the maze. *)
Definition laterLevels (g : nat -> Z) : list Levels :=
  [ AnInvaders (Invaders.newLevel GLOBAL_SCREEN_WIDTH GLOBAL_SCREEN_HEIGHT);
    AFlappy (Flappy.newFlappyLevel GLOBAL_SCREEN_WIDTH GLOBAL_SCREEN_HEIGHT g);
    AnObstacle (Obstacle.newObstacleLevel GLOBAL_SCREEN_WIDTH GLOBAL_SCREEN_HEIGHT) ].

(** The place of a level in that order, by its class. *)
Definition place (lv : Levels) : nat :=
  match lv with
  | AMaze _ => 0
  | AnInvaders _ => 1
  | AFlappy _ => 2
  | AnObstacle _ => 3
  end.

(** What the level that is played or was just played is known to satisfy:
    a maze holds an engine whose shuffles permute the directions; a Flappy
    level that is played has its pipes in order on a wide enough screen. *)
Definition levelSound (playing : bool) (lv : Levels) : Prop :=
  match lv with
  | AMaze m => shufflesPermute (Maze.s_maze_gen m)
  | AFlappy l => playing = true -> pipesInv l /\ (420 <= Flappy.screenWidth l)%Z
  | _ => True
  end.

(** The states of a session: what each screen of the state machine says
    about the active level, the queue and the cached texts; the title
    screen's message shows there only, for less than its display time. *)
Definition sessionInv (s : Session) : Prop :=
  shufflesPermute (s_maze_gen s) /\
  (showSufferMessage s = true ->
   currentGlobalScreen s = TITLE_SCREEN_GLOBAL /\
   sufferMessageTimer s < SUFFER_MESSAGE_DISPLAY_TIME) /\
  match currentGlobalScreen s with
  | PLAYING_LEVEL =>
      exists lv, currentActiveLevel s = Some lv /\ levelSound true lv /\
                 gameLevels s = skipn (place lv) (laterLevels (s_flappy_gen s))
  | LEVEL_TRANSITION =>
      exists lv next rest,
        currentActiveLevel s = Some lv /\ levelSound false lv /\
        gameLevels s = skipn (place lv) (laterLevels (s_flappy_gen s)) /\
        gameLevels s = next :: rest /\
        nextLevelName s = GetName next /\ nextLevelInstructions s = GetInstructions next
  | TITLE_SCREEN_GLOBAL | GAME_OVER_GLOBAL | GAME_WON_GLOBAL =>
      currentActiveLevel s = None
  end.

(** A click inside the Escape button of the title screen, and the session
    it starts from the program's initial state. *)
Definition click_escape : Input :=
  mkInput (1 # 64) 0 false false false false false false false true (mkVector2 640 450)
          (fun _ => 1 # 2).
Definition started_session : Session :=
  match play [click_escape] (initialSession plain_engine (fun _ => 360%Z)) with
  | Some s => s
  | None => initialSession plain_engine (fun _ => 360%Z)
  end.

(** An obstacle course with every coin collected and the player falling
    past the exit door, as the last level of a session. *)
Definition course_at_exit : Obstacle.ObstacleLevel :=
  let l := Obstacle.InitObstacleGame GLOBAL_SCREEN_WIDTH GLOBAL_SCREEN_HEIGHT in
  Obstacle.mkObstacle (Obstacle.screenWidth l) (Obstacle.screenHeight l)
    (Obstacle.SetPosition (mkVector2 1190 60) (Obstacle.m_player l))
    (Obstacle.m_exitDoor l) (Obstacle.m_obstacles l) []
    Obstacle.OBSTACLE_GAMEPLAY false false (Obstacle.m_startPoint l) 13 13.
Definition last_level_session : Session :=
  mkSession PLAYING_LEVEL [] (Some (AnObstacle course_at_exit))
            "Obstacle Course Level"%string EmptyString false 0 plain_engine (fun _ => 360%Z).

(** The transition screen after the maze, as a session reaches it. *)
Definition after_maze_session : Session :=
  mkSession LEVEL_TRANSITION (laterLevels (fun _ => 360%Z))
            (Some (AMaze (Maze.Unload game_maze)))
            "Space Invaders Level"%string
            (GetInstructions (AnInvaders (Invaders.newLevel GLOBAL_SCREEN_WIDTH GLOBAL_SCREEN_HEIGHT)))
            false 0 plain_engine (fun _ => 360%Z).
(** A click inside the Ready button of the transition screen. *)
Definition click_ready : Input :=
  mkInput (1 # 64) 0 false false false false false false false true (mkVector2 640 560)
          (fun _ => 1 # 2).

(** A click inside the Suffer button of the title screen, and the session
    after it. *)
Definition click_suffer : Input :=
  mkInput (1 # 64) 0 false false false false false false false true (mkVector2 640 540)
          (fun _ => 1 # 2).
Definition suffering_session : Session :=
  match play [click_suffer] (initialSession plain_engine (fun _ => 360%Z)) with
  | Some s => s
  | None => initialSession plain_engine (fun _ => 360%Z)
  end.

End GameMore.

(** * Comparisons of the number model *)

Lemma flt_iff x y : flt x y = true <-> x < y.
Proof.
  unfold flt. rewrite negb_true_iff. split; intro H.
  - apply Qnot_le_lt. intro C. apply Qle_bool_iff in C. congruence.
  - destruct (Qle_bool y x) eqn:E; auto. apply Qle_bool_iff in E. lra.
Qed.
Lemma fle_iff x y : fle x y = true <-> x <= y.
Proof. apply Qle_bool_iff. Qed.

(** * The number model against exact arithmetic *)

Lemma fadd_eq x y : fadd x y == x + y.
Proof. apply Qred_correct. Qed.
Lemma fsub_eq x y : fsub x y == x - y.
Proof. apply Qred_correct. Qed.
Lemma fmul_eq x y : fmul x y == x * y.
Proof. apply Qred_correct. Qed.
Lemma fdiv_eq x y : fdiv x y == x / y.
Proof. apply Qred_correct. Qed.

Lemma fgt_iff x y : fgt x y = true <-> y < x.
Proof. apply flt_iff. Qed.
Lemma fge_iff x y : fge x y = true <-> y <= x.
Proof. apply fle_iff. Qed.
Lemma flt_false_iff x y : flt x y = false <-> y <= x.
Proof.
  destruct (flt x y) eqn:E.
  - apply flt_iff in E. split; [discriminate|lra].
  - split; [intros _|reflexivity].
    destruct (Qlt_le_dec x y) as [H|H]; [|exact H].
    apply flt_iff in H. congruence.
Qed.
Lemma fle_false_iff x y : fle x y = false <-> y < x.
Proof.
  destruct (fle x y) eqn:E.
  - apply fle_iff in E. split; [discriminate|lra].
  - split; [intros _|reflexivity].
    destruct (Qlt_le_dec y x) as [H|H]; [exact H|].
    apply fle_iff in H. congruence.
Qed.
Lemma fgt_false_iff x y : fgt x y = false <-> x <= y.
Proof. apply flt_false_iff. Qed.
Lemma fge_false_iff x y : fge x y = false <-> x < y.
Proof. apply fle_false_iff. Qed.

Lemma ofZ_le a b : (a <= b)%Z -> ofZ a <= ofZ b.
Proof. intros H. unfold ofZ. rewrite <- Zle_Qle. exact H. Qed.
Lemma ofZ_lt a b : (a < b)%Z -> ofZ a < ofZ b.
Proof. intros H. unfold ofZ. rewrite <- Zlt_Qlt. exact H. Qed.

(** An operation whose exact result is an integer yields that integer. *)
Lemma Qred_inject n : Qred (inject_Z n) = inject_Z n.
Proof.
  unfold Qred, inject_Z. cbn [Qnum Qden].
  pose proof (Z.ggcd_gcd n 1) as Hg. pose proof (Z.ggcd_correct_divisors n 1) as Hd.
  destruct (Z.ggcd n 1) as [g [a b]]. cbn [fst snd] in *.
  rewrite Z.gcd_1_r in Hg. subst g. destruct Hd as [Ha Hb].
  assert (Ea : a = n) by lia. assert (Eb : b = 1%Z) by lia.
  clear Ha Hb. subst a b. reflexivity.
Qed.
Lemma Qred_int x n : x == inject_Z n -> Qred x = inject_Z n.
Proof. intros H. rewrite (Qred_complete _ _ H). apply Qred_inject. Qed.
Lemma fadd_int a b : fadd (inject_Z a) (inject_Z b) = inject_Z (a + b).
Proof. apply Qred_int. rewrite inject_Z_plus. reflexivity. Qed.
Lemma fsub_int a b : fsub (inject_Z a) (inject_Z b) = inject_Z (a - b).
Proof.
  apply Qred_int. unfold Z.sub. rewrite inject_Z_plus, inject_Z_opp. reflexivity.
Qed.
Lemma flt_int a b : flt (inject_Z a) (inject_Z b) = (a <? b)%Z.
Proof.
  destruct (Z.ltb_spec a b) as [H|H].
  - apply flt_iff. rewrite <- Zlt_Qlt. exact H.
  - apply flt_false_iff. rewrite <- Zle_Qle. exact H.
Qed.

(** Truncation towards zero. *)
Lemma truncZ_inject n : truncZ (inject_Z n) = n.
Proof. unfold truncZ, inject_Z. cbn [Qnum Qden]. apply Z.quot_1_r. Qed.

Lemma truncZ_floor q : 0 <= q -> truncZ q = Qfloor q.
Proof.
  destruct q as [n d]. unfold Qle, truncZ, Qfloor. cbn [Qnum Qden]. intros H.
  apply Z.quot_div_nonneg; lia.
Qed.

Lemma truncZ_small q : q < 1 -> (truncZ q <= 0)%Z.
Proof.
  destruct q as [n d]. unfold Qlt, truncZ. cbn [Qnum Qden]. intros H.
  destruct (Z_lt_le_dec n 0) as [Hn|Hn].
  - rewrite <- (Z.opp_involutive n), Z.quot_opp_l by lia.
    pose proof (Z.quot_pos (- n) (Z.pos d)). lia.
  - rewrite Z.quot_small by lia. lia.
Qed.

(** * The global state machine *)

Section GameMachine.
Import Game.

Lemma levelSucceeded_wonLevel lv : levelSucceeded lv = wonLevel lv.
Proof. destruct lv; reflexivity. Qed.

Lemma drawPhase_off_title i s :
  currentGlobalScreen s <> TITLE_SCREEN_GLOBAL -> drawPhase i s = Some s.
Proof. unfold drawPhase. destruct (currentGlobalScreen s); congruence. Qed.

(** C1.  In a frame that starts in the playing state and in which the
    active level, once updated, reports completion, the iteration ends as
    follows.  A level that was won with a level still queued: the finished
    level is unloaded and kept, the name and the instructions of the front
    of the queue are cached, the queue is left as it is and the screen is
    the transition screen.  Won with an empty queue: the game-won screen,
    nothing active.  Completed and not won: the game-over screen, nothing
    active.  Won is what the level's own class answers, and a maze that is
    complete is won. *)
Theorem playing_completed_level_routes i s lv lv' :
  currentGlobalScreen s = PLAYING_LEVEL ->
  currentActiveLevel s = Some lv ->
  Update i lv = Some lv' ->
  IsComplete lv' = true ->
  exists s',
    frame i s = Some s' /\
    (wonLevel lv' = true ->
     forall next rest, gameLevels s = next :: rest ->
       currentGlobalScreen s' = LEVEL_TRANSITION /\
       currentActiveLevel s' = Some (Unload lv') /\
       nextLevelName s' = GetName next /\
       nextLevelInstructions s' = GetInstructions next /\
       gameLevels s' = next :: rest) /\
    (wonLevel lv' = true -> gameLevels s = [] ->
       currentGlobalScreen s' = GAME_WON_GLOBAL /\ currentActiveLevel s' = None) /\
    (wonLevel lv' = false ->
       currentGlobalScreen s' = GAME_OVER_GLOBAL /\ currentActiveLevel s' = None) /\
    (forall m, lv' = AMaze m -> wonLevel lv' = true).
Proof.
  intros Hs Ha Hu Hc. unfold frame, updatePhase.
  rewrite Hs, Ha, Hu, Hc, levelSucceeded_wonLevel.
  destruct (wonLevel lv') eqn:Hw.
  - destruct (gameLevels s) as [|next rest] eqn:Hq.
    + eexists. split; [apply drawPhase_off_title; cbn; discriminate|].
      split; [intros _ ? ? ?; discriminate|].
      split; [intros _ _; split; reflexivity|].
      split; [discriminate|]. intros m ->. reflexivity.
    + eexists. split; [apply drawPhase_off_title; cbn; discriminate|].
      split.
      { intros _ n r E. injection E as <- <-. cbn. repeat split. }
      split; [intros _ ?; discriminate|].
      split; [discriminate|]. intros m ->. reflexivity.
  - eexists. split; [apply drawPhase_off_title; cbn; discriminate|].
    split; [discriminate|]. split; [discriminate|].
    split; [intros _; split; reflexivity|].
    intros m ->. discriminate.
Qed.

Lemma playing_completed_level_routes_witness :
  exists s',
    frame (still_input 4) closing_session = Some s' /\
    currentGlobalScreen s' = LEVEL_TRANSITION /\
    nextLevelName s' = "Obstacle Course Level"%string.
Proof.
  destruct (playing_completed_level_routes (still_input 4) closing_session
              (AFlappy flappy_before_end)
              (match Update (still_input 4) (AFlappy flappy_before_end) with
               | Some lv => lv
               | None => AFlappy flappy_before_end
               end))
    as (s' & Hf & Hwon & _);
    [reflexivity | reflexivity | vm_compute; reflexivity | vm_compute; reflexivity |].
  exists s'. split; [exact Hf|].
  destruct (Hwon ltac:(vm_compute; reflexivity) _ _ eq_refl) as (H1 & _ & H3 & _).
  split; [exact H1 | exact H3].
Defined.

(** C9.  An iteration that starts in the playing state with no level
    loaded ends on the game-over screen, in that same iteration; no level
    is updated or loaded and the queue is left alone. *)
Theorem playing_without_level_is_game_over i s :
  currentGlobalScreen s = PLAYING_LEVEL ->
  currentActiveLevel s = None ->
  frame i s = Some (withScreen GAME_OVER_GLOBAL s).
Proof.
  intros Hs Ha. unfold frame, updatePhase. rewrite Hs, Ha.
  apply drawPhase_off_title. cbn. discriminate.
Qed.

Lemma playing_without_level_is_game_over_witness :
  frame (still_input (1 # 64)) levelless_session
  = Some (withScreen GAME_OVER_GLOBAL levelless_session).
Proof.
  apply (playing_without_level_is_game_over (still_input (1 # 64)) levelless_session);
    reflexivity.
Defined.

End GameMachine.

(** * Maze: the grid has odd dimensions of at least 3 *)

Section MazeDimensions.
Import Maze.

Lemma Zrem2_odd n : (Z.rem n 2 =? 0)%Z = false -> Z.odd n = true.
Proof.
  intros H. apply Z.eqb_neq in H.
  destruct (Z.odd n) eqn:E; [reflexivity|]. exfalso. apply H.
  rewrite <- Z.negb_even in E. apply negb_false_iff in E.
  apply Z.even_spec in E. destruct E as [k ->].
  rewrite Z.mul_comm. apply Z.rem_mul. lia.
Qed.

Lemma Zrem2_even_pred_odd n : (Z.rem n 2 =? 0)%Z = true -> Z.odd (n - 1) = true.
Proof.
  intros H. apply Z.eqb_eq in H.
  pose proof (Z.quot_rem' n 2) as E. rewrite H in E.
  rewrite E. replace (2 * Z.quot n 2 + 0 - 1)%Z with (2 * (Z.quot n 2 - 1) + 1)%Z by lia.
  apply Z.odd_odd.
Qed.

(** Whatever the quotient, the parity step and the two floors leave an odd
    number of at least 3. *)
Lemma cellsAcross_odd screen cell :
  let n := cellsAcross screen cell in
  let n := if (n <? 3)%Z then 3%Z else n in
  Z.odd n = true /\ (3 <= n)%Z.
Proof.
  unfold cellsAcross. set (q := truncZ (fdiv (ofZ screen) cell)).
  destruct (Z.rem q 2 =? 0)%Z eqn:E.
  - pose proof (Zrem2_even_pred_odd q E) as Ho.
    destruct (q - 1 <=? 0)%Z eqn:E1; cbn zeta.
    + cbn. split; [reflexivity|lia].
    + destruct (q - 1 <? 3)%Z eqn:E2; [split; [reflexivity|lia]|].
      split; [exact Ho|]. apply Z.ltb_ge in E2. exact E2.
  - pose proof (Zrem2_odd q E) as Ho.
    destruct (q <=? 0)%Z eqn:E1; cbn zeta.
    + cbn. split; [reflexivity|lia].
    + destruct (q <? 3)%Z eqn:E2; [split; [reflexivity|lia]|].
      split; [exact Ho|]. apply Z.ltb_ge in E2. exact E2.
Qed.

Lemma computeDimensions_odd W H d :
  computeDimensions W H = Some d ->
  Z.odd (d_mazeWidthCells d) = true /\ (3 <= d_mazeWidthCells d)%Z /\
  Z.odd (d_mazeHeightCells d) = true /\ (3 <= d_mazeHeightCells d)%Z.
Proof.
  unfold computeDimensions. cbv zeta.
  match goal with |- context [feq ?c 0] => set (cell := c) end.
  destruct (feq cell 0); [discriminate|].
  destruct (negb _); [discriminate|]. intros E. injection E as <-. cbn.
  pose proof (cellsAcross_odd W cell) as [H1 H2].
  pose proof (cellsAcross_odd H cell) as [H3 H4].
  auto.
Qed.










End MazeDimensions.

(** * Maze: when the level is complete *)

Section MazeCompletion.
Import Maze.

Lemma Update_levelWon f m :
  levelWon (Update f m) = levelWon m || atExitWithAllCoins (Update f m).
Proof.
  unfold Update. destruct (levelWon m) eqn:Hw; [rewrite Hw; reflexivity|].
  cbv zeta. destruct (collectCoins _ _ _ _) as [cs n].
  unfold atExitWithAllCoins, playerRectOf, exitRect. cbn.
  destruct (_ && _); reflexivity.
Qed.

Lemma run_cons f fs m : run (f :: fs) m = run fs (Update f m).
Proof. reflexivity. Qed.

Lemma run_levelWon fs : forall m,
  levelWon (run fs m) = true <->
  levelWon m = true \/
  exists k, (1 <= k <= length fs)%nat /\ atExitWithAllCoins (run (firstn k fs) m) = true.
Proof.
  induction fs as [|f fs IH]; intros m.
  - cbn. split; [auto|]. intros [H|[k [Hk _]]]; [exact H|lia].
  - rewrite run_cons, IH, Update_levelWon, orb_true_iff. split.
    + intros [[H|H]|[k [Hk H]]].
      * left. exact H.
      * right. exists 1%nat. split; [cbn; lia|exact H].
      * right. exists (S k). split; [cbn; lia|exact H].
    + intros [H|[k [Hk H]]]; [left; left; exact H|].
      destruct k as [|k]; [lia|]. destruct k as [|k].
      * left. right. exact H.
      * right. exists (S k). split; [cbn in Hk; lia|exact H].
Qed.

Lemma collectCoins_count r size cs n :
  (snd (collectCoins r size cs n) + Z.of_nat (length (fst (collectCoins r size cs n)))
   = n + Z.of_nat (length cs))%Z.
Proof.
  revert n. induction cs as [|c cs IH]; intros n; [reflexivity|].
  cbn [collectCoins]. destruct (CheckCollisionRecs _ _).
  - rewrite IH. cbn [length]. lia.
  - specialize (IH n). destruct (collectCoins r size cs n) as [rest k].
    cbn [fst snd length] in *. lia.
Qed.

Lemma Update_coinsAccounted f m : coinsAccounted m -> coinsAccounted (Update f m).
Proof.
  unfold coinsAccounted, Update. intros H. destruct (levelWon m); [exact H|].
  cbv zeta.
  match goal with |- context [collectCoins ?r ?s ?cs ?n] =>
    pose proof (collectCoins_count r s cs n) as Hc; destruct (collectCoins r s cs n) as [rest k]
  end.
  cbn in *. lia.
Qed.

Lemma run_coinsAccounted fs : forall m, coinsAccounted m -> coinsAccounted (run fs m).
Proof.
  induction fs as [|f fs IH]; intros m H; [exact H|].
  rewrite run_cons. apply IH, Update_coinsAccounted, H.
Qed.

Lemma Load_fresh m0 m :
  Load m0 = Some m -> levelWon m = false /\ coinsAccounted m /\ collectedCoins m = 0%Z.
Proof.
  unfold Load. destruct (CalculateMazeDimensions m0) as [m1|]; [|discriminate].
  destruct (if negb _ then _ else _) as [m2|]; [|discriminate].
  intros E. injection E as <-. unfold ResetPlayerAndCoins, coinsAccounted.
  destruct (sprinkleCoins _ _ _) as [cs e]. cbn. repeat split; lia.
Qed.

Lemma Update_total f m : totalInitialCoins (Update f m) = totalInitialCoins m.
Proof.
  unfold Update. destruct (levelWon m); [reflexivity|]. cbv zeta.
  destruct (collectCoins _ _ _ _) as [cs n]. reflexivity.
Qed.

Lemma run_total fs : forall m, totalInitialCoins (run fs m) = totalInitialCoins m.
Proof.
  induction fs as [|f fs IH]; intros m; [reflexivity|].
  rewrite run_cons, IH. apply Update_total.
Qed.

Lemma alongRun_spec P fs : forall m,
  alongRun P fs m = true ->
  forall k, (1 <= k <= length fs)%nat -> P (run (firstn k fs) m) = true.
Proof.
  induction fs as [|f fs IH]; intros m H k Hk; [cbn in Hk; lia|].
  cbn [alongRun] in H. apply andb_true_iff in H. destruct H as [H1 H2].
  destruct k as [|k]; [lia|]. cbn [firstn]. rewrite run_cons.
  destruct k as [|k]; [exact H1|].
  apply (IH (Update f m) H2). cbn in Hk. lia.
Qed.

(** C4.  In any state, a frame leaves the level complete exactly when it
    was complete already or the frame ends with the player's box over the
    exit cell and the collected count equal to the number of coins spawned.
    So after [Load], whatever the frames: [IsComplete] is true exactly when
    some frame ended that way; the count and the coins still in the maze
    always add up to the number [Load] spawned; a frame that ends on the
    exit with no coin left completes the level, and a frame that ends on the
    exit with a coin left does not. *)
Theorem maze_complete_iff_exit_with_all_coins (m0 m : Maze.MazeLevel) (fs : list Maze.Frame) :
  Load m0 = Some m ->
  (forall f m', IsComplete (Update f m') = IsComplete m' || atExitWithAllCoins (Update f m')) /\
  (IsComplete (run fs m) = true <->
   exists k, (1 <= k <= length fs)%nat /\ atExitWithAllCoins (run (firstn k fs) m) = true) /\
  (forall k, coinsAccounted (run (firstn k fs) m) /\
             totalInitialCoins (run (firstn k fs) m) = Z.of_nat (length (coins m))) /\
  (forall k, (1 <= k <= length fs)%nat ->
     CheckCollisionRecs (playerRectOf (run (firstn k fs) m)) (exitRect (run (firstn k fs) m)) = true ->
     coins (run (firstn k fs) m) = [] ->
     IsComplete (run fs m) = true) /\
  (forall k, coins (run (firstn k fs) m) <> [] -> atExitWithAllCoins (run (firstn k fs) m) = false) /\
  ((forall k, (1 <= k <= length fs)%nat ->
      CheckCollisionRecs (playerRectOf (run (firstn k fs) m)) (exitRect (run (firstn k fs) m)) = true ->
      coins (run (firstn k fs) m) <> []) ->
   IsComplete (run fs m) = false).
Proof.
  intros HL. destruct (Load_fresh m0 m HL) as (Hw & Hacc & Hzero).
  assert (Hiff : IsComplete (run fs m) = true <->
   exists k, (1 <= k <= length fs)%nat /\ atExitWithAllCoins (run (firstn k fs) m) = true).
  { unfold IsComplete. rewrite run_levelWon. split; [|auto].
    intros [H|H]; [congruence|exact H]. }
  assert (Hleft : forall k, coins (run (firstn k fs) m) <> [] ->
                            atExitWithAllCoins (run (firstn k fs) m) = false).
  { intros k Hne. pose proof (run_coinsAccounted (firstn k fs) m Hacc) as Hk.
    unfold coinsAccounted in Hk. unfold atExitWithAllCoins.
    destruct (coins (run (firstn k fs) m)) as [|c cs]; [congruence|].
    cbn [length] in Hk.
    assert (E : (collectedCoins (run (firstn k fs) m) =? totalInitialCoins (run (firstn k fs) m))%Z = false)
      by (apply Z.eqb_neq; lia).
    rewrite E. apply andb_false_r. }
  split; [intros f m'; apply Update_levelWon|].
  split; [exact Hiff|].
  split.
  { intros k. split; [apply run_coinsAccounted, Hacc|].
    rewrite run_total. unfold coinsAccounted in Hacc. lia. }
  split.
  { intros k Hk Hov Hnone. apply Hiff. exists k. split; [exact Hk|].
    pose proof (run_coinsAccounted (firstn k fs) m Hacc) as Hc. unfold coinsAccounted in Hc.
    rewrite Hnone in Hc. cbn [length] in Hc. unfold atExitWithAllCoins. rewrite Hov.
    apply Z.eqb_eq. lia. }
  split; [exact Hleft|].
  intros Hall. destruct (IsComplete (run fs m)) eqn:E; [|reflexivity].
  destruct (proj1 Hiff eq_refl) as [k [Hk Hat]].
  pose proof Hat as Hat'. unfold atExitWithAllCoins in Hat'. apply andb_true_iff in Hat'.
  destruct Hat' as [Hov _]. rewrite (Hleft k (Hall k Hk Hov)) in Hat. discriminate.
Qed.

Lemma maze_complete_iff_exit_with_all_coins_witness :
  (exists m, Load (maze_with walk_engine) = Some m /\
     totalInitialCoins m = 3%Z /\ collectedCoins (run the_walk m) = 3%Z /\
     IsComplete (run (firstn 580 the_walk) m) = false /\
     IsComplete (run the_walk m) = true) /\
  (exists m, Load (maze_with stray_engine) = Some m /\
     totalInitialCoins m = 1%Z /\
     CheckCollisionRecs (playerRectOf (run the_walk m)) (exitRect (run the_walk m)) = true /\
     coins (run the_walk m) <> [] /\
     IsComplete (run the_walk m) = false).
Proof.
  split.
  - destruct (Load (maze_with walk_engine)) as [m|] eqn:E; [|vm_compute in E; discriminate].
    exists m. split; [reflexivity|].
    destruct (maze_complete_iff_exit_with_all_coins (maze_with walk_engine) m the_walk E)
      as (_ & _ & _ & Hyes & _ & _).
    vm_compute in E. injection E as <-.
    split; [vm_compute; reflexivity|]. split; [vm_compute; reflexivity|].
    split; [vm_compute; reflexivity|].
    apply (Hyes 581%nat).
    + change (length the_walk) with 581%nat. lia.
    + vm_compute. reflexivity.
    + vm_compute. reflexivity.
  - destruct (Load (maze_with stray_engine)) as [m|] eqn:E; [|vm_compute in E; discriminate].
    exists m. split; [reflexivity|].
    destruct (maze_complete_iff_exit_with_all_coins (maze_with stray_engine) m the_walk E)
      as (_ & _ & _ & _ & _ & Hno).
    vm_compute in E. injection E as <-.
    split; [vm_compute; reflexivity|]. split; [vm_compute; reflexivity|].
    split; [vm_compute; discriminate|].
    apply Hno. intros k Hk Hov.
    match goal with |- coins (run (firstn k the_walk) ?m) <> [] =>
      assert (Hal : alongRun exitWithCoinLeft the_walk m = true) by (vm_compute; reflexivity);
      pose proof (alongRun_spec exitWithCoinLeft the_walk m Hal k Hk) as Hk'
    end.
    unfold exitWithCoinLeft in Hk'. rewrite Hov in Hk'. cbn [negb orb] in Hk'.
    intros Hnil. rewrite Hnil in Hk'. discriminate.
Defined.

End MazeCompletion.

(** * Simple paths, and what adding a leaf does to them *)

Section MazeGraph.
Import Maze.

Lemma Cell_eq_dec (a b : Cell) : {a = b} + {a <> b}.
Proof. decide equality; apply Z.eq_dec. Qed.

Lemma adjacent_sym a b : adjacent a b -> adjacent b a.
Proof. unfold adjacent. lia. Qed.

Lemma adjacent_irrefl a : ~ adjacent a a.
Proof. unfold adjacent. lia. Qed.

Lemma spath_head V a b l : spath V a b l -> exists t, l = a :: t.
Proof. intros H. destruct H; eexists; reflexivity. Qed.

Lemma spath_In_start V a b l : spath V a b l -> In a l.
Proof. intros H. destruct H; left; reflexivity. Qed.

Lemma spath_In_end V a b l : spath V a b l -> In b l.
Proof. induction 1; [left; reflexivity|right; assumption]. Qed.

Lemma spath_all V a b l : spath V a b l -> forall x, In x l -> V x.
Proof.
  induction 1 as [a Ha|a x b l Ha Hadj Hp IH Hn]; intros y Hy.
  - destruct Hy as [<-|[]]. exact Ha.
  - destruct Hy as [<-|Hy]; [exact Ha|apply IH, Hy].
Qed.

Lemma spath_mono (V V' : Cell -> Prop) a b l :
  (forall x, V x -> V' x) -> spath V a b l -> spath V' a b l.
Proof.
  intros Hsub. induction 1 as [a Ha|a x b l Ha Hadj Hp IH Hn].
  - apply sp_one, Hsub, Ha.
  - apply sp_cons with x; auto.
Qed.

Lemma spath_restrict (V V' : Cell -> Prop) a b l :
  spath V' a b l -> (forall x, In x l -> V x) -> spath V a b l.
Proof.
  induction 1 as [a Ha|a x b l Ha Hadj Hp IH Hn]; intros Hall.
  - apply sp_one, Hall. left. reflexivity.
  - apply sp_cons with x; auto.
    + apply Hall. left. reflexivity.
    + apply IH. intros y Hy. apply Hall. right. exact Hy.
Qed.

Lemma spath_loop V a l : spath V a a l -> l = [a].
Proof.
  intros H. inversion H as [|? x ? t Ha Hadj Hp Hn]; subst; [reflexivity|].
  exfalso. apply Hn. apply (spath_In_end _ _ _ _ Hp).
Qed.

Lemma spath_snoc V a b l v :
  spath V a b l -> V v -> adjacent b v -> ~ In v l -> spath V a v (l ++ [v]).
Proof.
  induction 1 as [a Ha|a x b l Ha Hadj Hp IH Hn]; intros Hv Hbv Hnv.
  - cbn. apply sp_cons with v; auto.
    + apply sp_one, Hv.
    + intros [E|[]]. apply Hnv. left. symmetry. exact E.
  - cbn. apply sp_cons with x; auto.
    + apply IH; auto. intros Hin. apply Hnv. right. exact Hin.
    + intros Hin. apply in_app_iff in Hin. destruct Hin as [Hin|[E|[]]].
      * apply Hn, Hin.
      * apply Hnv. left. symmetry. exact E.
Qed.

Section Leaf.
Variable V : Cell -> Prop.
Variables v u : Cell.
Hypothesis v_new : ~ V v.
Hypothesis u_old : V u.
Hypothesis v_u : adjacent v u.
Hypothesis v_only_u : forall x, V x -> adjacent v x -> x = u.


(** A simple path between two old cells does not visit the leaf. *)
Lemma leaf_avoided a b l :
  spath (withLeaf V v) a b l -> a <> v -> b <> v -> ~ In v l.
Proof.
  induction 1 as [a Ha|a x b l Ha Hadj Hp IH Hn]; intros Hav Hbv.
  - intros [E|[]]. apply Hav. exact E.
  - destruct (Cell_eq_dec x v) as [->|Hxv].
    + exfalso.
      inversion Hp as [|? y ? t Hv Hvy Hp2 Hn2]; subst; [apply Hbv; reflexivity|].
      assert (Hy : y <> v) by (intros ->; apply Hn2, (spath_In_start _ _ _ _ Hp2)).
      assert (Vy : V y).
      { destruct (spath_all _ _ _ _ Hp2 y (spath_In_start _ _ _ _ Hp2)) as [E|E];
          [contradiction|exact E]. }
      assert (Va : V a) by (destruct Ha as [E|E]; [contradiction|exact E]).
      pose proof (v_only_u y Vy Hvy) as Ey.
      pose proof (v_only_u a Va (adjacent_sym _ _ Hadj)) as Ea.
      apply Hn. right. rewrite Ea, <- Ey. apply (spath_In_start _ _ _ _ Hp2).
    + intros [E|Hin]; [apply Hav; exact E|]. apply (IH Hxv Hbv Hin).
Qed.

Lemma leaf_old_path a b l :
  spath (withLeaf V v) a b l -> ~ In v l -> spath V a b l.
Proof.
  intros Hp Hn. apply (spath_restrict V (withLeaf V v) a b l Hp).
  intros x Hx. destruct (spath_all _ _ _ _ Hp x Hx) as [->|E]; [contradiction|exact E].
Qed.

Lemma leaf_from l b :
  spath (withLeaf V v) v b l -> b <> v -> exists t, l = v :: t /\ spath V u b t.
Proof.
  intros Hp Hbv.
  inversion Hp as [|? y ? t Hv Hvy Hp2 Hn2]; subst; [contradiction|].
  exists t. split; [reflexivity|].
  assert (Hy : y <> v) by (intros ->; apply Hn2, (spath_In_start _ _ _ _ Hp2)).
  assert (Vy : V y).
  { destruct (spath_all _ _ _ _ Hp2 y (spath_In_start _ _ _ _ Hp2)) as [E|E];
      [contradiction|exact E]. }
  rewrite <- (v_only_u y Vy Hvy). apply leaf_old_path; assumption.
Qed.

Lemma leaf_to_gen a b l :
  spath (withLeaf V v) a b l -> b = v -> a <> v ->
  exists t, l = t ++ [v] /\ spath V a u t.
Proof.
  induction 1 as [a Ha|a x b l Ha Hadj Hp IH Hn]; intros Eb Hav.
  - contradiction.
  - subst b.
    assert (Va : V a) by (destruct Ha as [E|E]; [contradiction|exact E]).
    destruct (Cell_eq_dec x v) as [->|Hxv].
    + rewrite (spath_loop _ _ _ Hp). exists [a]. split; [reflexivity|].
      rewrite <- (v_only_u a Va (adjacent_sym _ _ Hadj)). apply sp_one, Va.
    + destruct (IH eq_refl Hxv) as [t [-> Ht]].
      exists (a :: t). split; [reflexivity|].
      apply sp_cons with x; auto.
      intros Hin. apply Hn. apply in_app_iff. left. exact Hin.
Qed.

Lemma leaf_to a l :
  spath (withLeaf V v) a v l -> a <> v -> exists t, l = t ++ [v] /\ spath V a u t.
Proof. intros Hp Hav. apply (leaf_to_gen a v l Hp eq_refl Hav). Qed.

Lemma uniquelyConnected_leaf : uniquelyConnected V -> uniquelyConnected (withLeaf V v).
Proof.
  intros HT a b Ha Hb.
  assert (Hsub : forall x, V x -> (withLeaf V v) x) by (intros x Hx; right; exact Hx).
  destruct (Cell_eq_dec a v) as [->|Hav], (Cell_eq_dec b v) as [->|Hbv].
  - exists [v]. split; [apply sp_one; left; reflexivity|]. intros l' Hl'.
    apply (spath_loop _ _ _ Hl').
  - assert (Vb : V b) by (destruct Hb as [E|E]; [contradiction|exact E]).
    destruct (HT u b u_old Vb) as [p [Hp Huniq]].
    exists (v :: p). split.
    + apply sp_cons with u; [left; reflexivity|exact v_u|apply (spath_mono V); assumption|].
      intros Hin. apply v_new. apply (spath_all _ _ _ _ Hp v Hin).
    + intros l' Hl'. destruct (leaf_from l' b Hl' Hbv) as [t [-> Ht]].
      f_equal. apply Huniq, Ht.
  - assert (Va : V a) by (destruct Ha as [E|E]; [contradiction|exact E]).
    destruct (HT a u Va u_old) as [p [Hp Huniq]].
    exists (p ++ [v]). split.
    + apply (spath_snoc _ a u p v); [apply (spath_mono V); assumption|left; reflexivity
                        |apply adjacent_sym, v_u|].
      intros Hin. apply v_new. apply (spath_all _ _ _ _ Hp v Hin).
    + intros l' Hl'. destruct (leaf_to a l' Hl' Hav) as [t [-> Ht]].
      f_equal. apply Huniq, Ht.
  - assert (Va : V a) by (destruct Ha as [E|E]; [contradiction|exact E]).
    assert (Vb : V b) by (destruct Hb as [E|E]; [contradiction|exact E]).
    destruct (HT a b Va Vb) as [p [Hp Huniq]].
    exists p. split; [apply (spath_mono V); assumption|].
    intros l' Hl'. apply Huniq. apply leaf_old_path; [exact Hl'|].
    apply (leaf_avoided a b l' Hl' Hav Hbv).
Qed.
End Leaf.

Lemma uniquelyConnected_ext (V V' : Cell -> Prop) :
  (forall x, V x <-> V' x) -> uniquelyConnected V -> uniquelyConnected V'.
Proof.
  intros Heq HT a b Ha Hb.
  destruct (HT a b (proj2 (Heq a) Ha) (proj2 (Heq b) Hb)) as [l [Hl Hu]].
  exists l. split.
  - apply (spath_mono V); [intros x; apply Heq|exact Hl].
  - intros l' Hl'. apply Hu. apply (spath_mono V'); [intros x; apply Heq|exact Hl'].
Qed.

Lemma uniquelyConnected_single (V : Cell -> Prop) (s : Cell) :
  (forall x, V x <-> x = s) -> uniquelyConnected V.
Proof.
  intros Hs a b Ha Hb. apply Hs in Ha, Hb. subst a b.
  exists [s]. split; [apply sp_one, Hs; reflexivity|]. intros l' Hl'.
  apply (spath_loop _ _ _ Hl').
Qed.

End MazeGraph.

(** * Reading and writing the grid *)

Section MazeGrid.
Import Maze.

Lemma setNth_length {A} n (v : A) l : length (setNth n v l) = length l.
Proof.
  revert n. induction l as [|x l IH]; intros [|n]; cbn; try reflexivity.
  rewrite IH. reflexivity.
Qed.

Lemma nth_setNth_same {A} n (v d : A) l : (n < length l)%nat -> nth n (setNth n v l) d = v.
Proof.
  revert n. induction l as [|x l IH]; intros [|n] Hn; cbn in *; try lia; [reflexivity|].
  apply IH. lia.
Qed.

Lemma nth_setNth_other {A} n m (v d : A) l : n <> m -> nth m (setNth n v l) d = nth m l d.
Proof.
  revert n m. induction l as [|x l IH]; intros [|n] [|m] Hnm; cbn; try reflexivity; try congruence.
  apply IH. congruence.
Qed.

Lemma setNth_Forall {A} (P : A -> Prop) n v l : P v -> Forall P l -> Forall P (setNth n v l).
Proof.
  intros Hv. revert n. induction l as [|x l IH]; intros [|n] Hl; cbn; try constructor;
    inversion Hl; subst; auto.
Qed.

Lemma setCell_wf h w g r c v : wfGrid h w g -> wfGrid h w (setCell g r c v).
Proof.
  intros [Hlen Hrows]. unfold setCell. destruct (_ || _); [split; assumption|].
  destruct (Nat.lt_ge_cases (Z.to_nat r) (length g)) as [Hr|Hr].
  - split; [rewrite setNth_length; exact Hlen|].
    apply setNth_Forall; [|exact Hrows]. rewrite setNth_length.
    rewrite Forall_forall in Hrows. apply Hrows. apply nth_In. exact Hr.
  - assert (E : forall (row : list bool), setNth (Z.to_nat r) row g = g).
    { clear -Hr. revert Hr. generalize (Z.to_nat r). induction g as [|x g IH]; intros [|n] Hn row;
        cbn in *; try reflexivity; try lia. f_equal. apply IH. lia. }
    rewrite E. split; assumption.
Qed.

Lemma getCell_setCell_same h w g r c v :
  wfGrid h w g -> (0 <= r < h)%Z -> (0 <= c < w)%Z -> getCell (setCell g r c v) r c = v.
Proof.
  intros [Hlen Hrows] Hr Hc. unfold getCell, setCell.
  assert (E : (r <? 0)%Z || (c <? 0)%Z = false)
    by (apply orb_false_iff; split; apply Z.ltb_ge; lia).
  rewrite E.
  assert (Hr' : (Z.to_nat r < length g)%nat) by lia.
  rewrite (nth_setNth_same _ _ _ _ Hr'). apply nth_setNth_same.
  rewrite Forall_forall in Hrows. rewrite (Hrows (nth (Z.to_nat r) g [])); [lia|].
  apply nth_In. exact Hr'.
Qed.

Lemma getCell_setCell_other g r c v r' c' :
  (r', c') <> (r, c) -> getCell (setCell g r c v) r' c' = getCell g r' c'.
Proof.
  intros Hne. unfold getCell, setCell.
  destruct ((r' <? 0)%Z || (c' <? 0)%Z) eqn:E'; [reflexivity|].
  destruct ((r <? 0)%Z || (c <? 0)%Z) eqn:E; [reflexivity|].
  apply orb_false_iff in E, E'. destruct E as [E1 E2], E' as [E1' E2'].
  apply Z.ltb_ge in E1, E2, E1', E2'.
  destruct (Z.eq_dec r r') as [->|Hr].
  - destruct (Nat.lt_ge_cases (Z.to_nat r') (length g)) as [Hl|Hl].
    + rewrite (nth_setNth_same _ _ _ _ Hl). apply nth_setNth_other.
      intros Heq. apply Hne. f_equal. lia.
    + assert (Eg : forall (row : list bool), setNth (Z.to_nat r') row g = g).
      { clear -Hl. revert Hl. generalize (Z.to_nat r'). induction g as [|x g IH]; intros [|n] Hn row;
          cbn in *; try reflexivity; try lia. f_equal. apply IH. lia. }
      rewrite Eg. reflexivity.
  - rewrite nth_setNth_other by lia. reflexivity.
Qed.

Lemma getCell_outside h w g r c :
  wfGrid h w g -> (r < 0 \/ h <= r \/ c < 0 \/ w <= c)%Z -> getCell g r c = true.
Proof.
  intros [Hlen Hrows] Hout. unfold getCell.
  destruct ((r <? 0)%Z || (c <? 0)%Z) eqn:E; [reflexivity|].
  apply orb_false_iff in E. destruct E as [E1 E2]. apply Z.ltb_ge in E1, E2.
  destruct (Nat.lt_ge_cases (Z.to_nat r) (length g)) as [Hl|Hl].
  - apply nth_overflow. rewrite Forall_forall in Hrows.
    rewrite (Hrows (nth (Z.to_nat r) g [])) by (apply nth_In; exact Hl). lia.
  - rewrite (nth_overflow g [] Hl). destruct (Z.to_nat c); reflexivity.
Qed.

Lemma allWalls_wf h w : wfGrid h w (allWalls h w).
Proof.
  unfold wfGrid, allWalls. split; [apply repeat_length|].
  apply Forall_forall. intros row Hrow. apply repeat_spec in Hrow. subst row.
  apply repeat_length.
Qed.

Lemma nth_repeat_in {A} (a d : A) n m : (n < m)%nat -> nth n (repeat a m) d = a.
Proof.
  revert n. induction m as [|m IH]; intros [|n] H; cbn; try lia; [reflexivity|].
  apply IH. lia.
Qed.

Lemma getCell_allWalls h w r c : getCell (allWalls h w) r c = true.
Proof.
  unfold getCell, allWalls. destruct (_ || _); [reflexivity|].
  destruct (Nat.lt_ge_cases (Z.to_nat r) (Z.to_nat h)) as [Hl|Hl].
  - rewrite (nth_repeat_in _ _ _ _ Hl). apply nth_repeat.
  - rewrite (nth_overflow (repeat (repeat true (Z.to_nat w)) (Z.to_nat h)) [])
      by (rewrite repeat_length; exact Hl).
    destruct (Z.to_nat c); reflexivity.
Qed.

(** Counting walls *)

Lemma countWalls_setNth_le n row : (countWalls (setNth n false row) <= countWalls row)%nat.
Proof.
  unfold countWalls. revert n. induction row as [|b row IH]; intros n.
  - destruct n; cbn; lia.
  - destruct n as [|n]; cbn [setNth].
    + destruct b; cbn [filter length]; lia.
    + specialize (IH n). destruct b; cbn [filter length] in *; lia.
Qed.

Lemma countWalls_setNth_wall n row :
  nth n row true = true -> (n < length row)%nat ->
  (S (countWalls (setNth n false row)) = countWalls row)%nat.
Proof.
  unfold countWalls. revert n.
  induction row as [|b row IH]; intros n Hn Hl.
  - cbn in Hl. lia.
  - destruct n as [|n]; cbn in *.
    + subst b. reflexivity.
    + specialize (IH n Hn ltac:(lia)). destruct b; cbn [filter length] in *; lia.
Qed.

Lemma walls_setNth_le n row g :
  (countWalls row <= countWalls (nth n g []))%nat -> (walls (setNth n row g) <= walls g)%nat.
Proof.
  unfold walls, list_sum. revert n. induction g as [|x g IH]; intros n H.
  - destruct n; cbn; lia.
  - destruct n as [|n]; cbn [setNth map list_sum fold_right nth] in *; [lia|]. specialize (IH n H). lia.
Qed.

Lemma walls_setNth_lt n row g :
  (n < length g)%nat -> (S (countWalls row) = countWalls (nth n g []))%nat ->
  (S (walls (setNth n row g)) = walls g)%nat.
Proof.
  unfold walls, list_sum. revert n. induction g as [|x g IH]; intros n Hl H.
  - cbn in Hl. lia.
  - destruct n as [|n]; cbn [setNth map list_sum fold_right nth length] in *; [lia|].
    specialize (IH n ltac:(lia) H). lia.
Qed.

Lemma walls_setCell_le g r c : (walls (setCell g r c false) <= walls g)%nat.
Proof.
  unfold setCell. destruct (_ || _); [lia|].
  apply walls_setNth_le, countWalls_setNth_le.
Qed.

Lemma walls_setCell_wall h w g r c :
  wfGrid h w g -> (0 <= r < h)%Z -> (0 <= c < w)%Z -> getCell g r c = true ->
  (S (walls (setCell g r c false)) = walls g)%nat.
Proof.
  intros [Hlen Hrows] Hr Hc Hg. unfold getCell, setCell in *.
  assert (E : (r <? 0)%Z || (c <? 0)%Z = false)
    by (apply orb_false_iff; split; apply Z.ltb_ge; lia).
  rewrite E in *.
  assert (Hr' : (Z.to_nat r < length g)%nat) by lia.
  apply walls_setNth_lt; [exact Hr'|].
  apply countWalls_setNth_wall; [exact Hg|].
  rewrite Forall_forall in Hrows. rewrite (Hrows (nth (Z.to_nat r) g [])); [lia|].
  apply nth_In. exact Hr'.
Qed.

Lemma countWalls_repeat n : countWalls (repeat true n) = n.
Proof. unfold countWalls. induction n; cbn; [reflexivity|]. rewrite IHn. reflexivity. Qed.

Lemma walls_allWalls h w : (0 <= h)%Z -> (0 <= w)%Z -> walls (allWalls h w) = Z.to_nat (h * w).
Proof.
  intros Hh Hw. unfold walls, allWalls, list_sum. rewrite Z2Nat.inj_mul by lia.
  induction (Z.to_nat h) as [|n IH]; [reflexivity|].
  cbn [repeat map fold_right]. rewrite IH, countWalls_repeat. reflexivity.
Qed.

End MazeGrid.

(** * Carving keeps the path cells a tree *)

Section MazeCarve.
Import Maze.

Ltac zmod := Z.div_mod_to_equations; lia.

Variables h w : Z.
Hypothesis h_odd : (h mod 2 = 1)%Z.
Hypothesis w_odd : (w mod 2 = 1)%Z.
Hypothesis h_min : (3 <= h)%Z.
Hypothesis w_min : (3 <= w)%Z.

Lemma getCell_false_inside g r c :
  wfGrid h w g -> getCell g r c = false -> (0 <= r < h /\ 0 <= c < w)%Z.
Proof.
  intros Hwf Hg.
  destruct (Z_lt_dec r 0), (Z_le_dec h r), (Z_lt_dec c 0), (Z_le_dec w c);
    try (rewrite (getCell_outside h w g r c Hwf) in Hg by lia; discriminate).
  lia.
Qed.

(** The path cells after a wall and the room behind it have been knocked
    down. *)
Lemma getCell_two_cells g wr wc nr nc x y :
  wfGrid h w g -> (0 <= wr < h)%Z -> (0 <= wc < w)%Z -> (0 <= nr < h)%Z -> (0 <= nc < w)%Z ->
  (getCell (setCell (setCell g wr wc false) nr nc false) x y = false <->
   (x = nr /\ y = nc)%Z \/ (x = wr /\ y = wc)%Z \/ getCell g x y = false).
Proof.
  intros Hwf Hwr Hwc Hnr Hnc.
  pose proof (setCell_wf h w g wr wc false Hwf) as Hwf1.
  destruct (Z.eq_dec x nr) as [->|Hx].
  - destruct (Z.eq_dec y nc) as [->|Hy].
    + rewrite (getCell_setCell_same h w) by assumption. tauto.
    + rewrite getCell_setCell_other by congruence.
      destruct (Z.eq_dec nr wr) as [->|Hx'].
      * destruct (Z.eq_dec y wc) as [->|Hy'].
        -- rewrite (getCell_setCell_same h w) by assumption. tauto.
        -- rewrite getCell_setCell_other by congruence. split; [tauto|].
           intros [[_ E]|[[_ E]|E]]; [contradiction| |exact E]. contradiction.
      * rewrite getCell_setCell_other by congruence. split; [tauto|].
        intros [[_ E]|[[E _]|E]]; [contradiction| |exact E]. contradiction.
  - rewrite getCell_setCell_other by congruence.
    destruct (Z.eq_dec x wr) as [->|Hx'].
    + destruct (Z.eq_dec y wc) as [->|Hy'].
      * rewrite (getCell_setCell_same h w) by assumption. tauto.
      * rewrite getCell_setCell_other by congruence. split; [tauto|].
        intros [[E _]|[[_ E]|E]]; [contradiction| |exact E]. contradiction.
    + rewrite getCell_setCell_other by congruence. split; [tauto|].
      intros [[E _]|[[E _]|E]]; [contradiction| |exact E]. contradiction.
Qed.

Lemma pair_eq (a b c d : Z) : a = c -> b = d -> (a, b) = (c, d).
Proof. intros -> ->. reflexivity. Qed.

Lemma pair_neq (a b c d : Z) : a <> c \/ b <> d -> (a, b) <> (c, d).
Proof. intros H E. assert (a = c /\ b = d) by (split; congruence). tauto. Qed.

(** Knocking down the wall towards an uncarved room, and the room itself,
    keeps the grid carved. *)
Lemma carve_step g r c er ec :
  wfGrid h w g -> carved h w g -> room h w r c -> getCell g r c = false ->
  unitStep er ec ->
  (0 <= r + 2 * er < h)%Z -> (0 <= c + 2 * ec < w)%Z ->
  getCell g (r + 2 * er) (c + 2 * ec) = true ->
  carved h w (setCell (setCell g (r + er) (c + ec) false) (r + 2 * er) (c + 2 * ec) false) /\
  room h w (r + 2 * er) (c + 2 * ec) /\
  getCell g (r + er) (c + ec) = true.
Proof.
  intros Hwf (G1 & G2 & G3 & G4) (Hr & Hc & Hro & Hco) Hcur Hdir Hnr Hnc Hn.
  set (wr := (r + er)%Z) in *. set (wc := (c + ec)%Z) in *.
  set (nr := (r + 2 * er)%Z) in *. set (nc := (c + 2 * ec)%Z) in *.
  assert (Hnroom : room h w nr nc) by (unfold room, unitStep in *; subst nr nc; zmod).
  assert (Hwr : (0 <= wr < h)%Z) by (unfold unitStep in *; subst wr nr; lia).
  assert (Hwc : (0 <= wc < w)%Z) by (unfold unitStep in *; subst wc nc; lia).
  assert (Hwl : getCell g wr wc = true).
  { destruct (getCell g wr wc) eqn:E; [reflexivity|]. exfalso.
    destruct Hdir as [[He Hec]|[He Her]].
    - destruct (G2 wr wc E) as [Ha Hb]; [subst wr; zmod|subst wc; zmod|].
      destruct Hec as [Hec|Hec].
      + replace wr with nr in Hb by (subst wr nr; lia).
        replace (wc + 1)%Z with nc in Hb by (subst wc nc; lia). congruence.
      + replace wr with nr in Ha by (subst wr nr; lia).
        replace (wc - 1)%Z with nc in Ha by (subst wc nc; lia). congruence.
    - destruct (G3 wr wc E) as [Ha Hb]; [subst wr; zmod|subst wc; zmod|].
      destruct Her as [Her|Her].
      + replace wc with nc in Hb by (subst wc nc; lia).
        replace (wr + 1)%Z with nr in Hb by (subst wr nr; lia). congruence.
      + replace wc with nc in Ha by (subst wc nc; lia).
        replace (wr - 1)%Z with nr in Ha by (subst wr nr; lia). congruence. }
  split; [|split; [exact Hnroom|exact Hwl]].
  pose proof (fun x y => getCell_two_cells g wr wc nr nc x y Hwf Hwr Hwc Hnr Hnc) as Hiff.
  assert (Hold : forall x y, getCell g x y = false ->
            getCell (setCell (setCell g wr wc false) nr nc false) x y = false)
    by (intros x y Hxy; apply Hiff; right; right; exact Hxy).
  assert (Hnew : getCell (setCell (setCell g wr wc false) nr nc false) nr nc = false)
    by (apply Hiff; left; split; reflexivity).
  assert (Hlink : getCell (setCell (setCell g wr wc false) nr nc false) wr wc = false)
    by (apply Hiff; right; left; split; reflexivity).
  destruct Hnroom as (Hnr1 & Hnc1 & Hnro & Hnco).
  split; [|split; [|split]].
  - (* inside the border, an odd coordinate *)
    intros x y Hxy. apply Hiff in Hxy. destruct Hxy as [[-> ->]|[[-> ->]|Hxy]].
    + lia.
    + unfold unitStep in Hdir. subst wr wc nr nc. zmod.
    + apply G1, Hxy.
  - (* links in a row *)
    intros x y Hxy Hx Hy. apply Hiff in Hxy. destruct Hxy as [[-> ->]|[[-> ->]|Hxy]].
    + zmod.
    + assert (He : er = 0%Z) by (unfold unitStep in Hdir; subst wr; zmod).
      unfold unitStep in Hdir.
      split; apply Hiff;
        (destruct (Z.eq_dec ec 1) as [E1|E1];
         [ first [ left; split; subst wr wc nr nc; lia
                 | right; right;
                   match goal with |- getCell g ?a ?b = false =>
                     replace a with r by (subst wr wc nr nc; lia);
                     replace b with c by (subst wr wc nr nc; lia); exact Hcur end ]
         | first [ left; split; subst wr wc nr nc; lia
                 | right; right;
                   match goal with |- getCell g ?a ?b = false =>
                     replace a with r by (subst wr wc nr nc; lia);
                     replace b with c by (subst wr wc nr nc; lia); exact Hcur end ] ]).
    + destruct (G2 x y Hxy Hx Hy) as [Ha Hb]. split; apply Hold; assumption.
  - (* links in a column *)
    intros x y Hxy Hx Hy. apply Hiff in Hxy. destruct Hxy as [[-> ->]|[[-> ->]|Hxy]].
    + zmod.
    + assert (He : ec = 0%Z) by (unfold unitStep in Hdir; subst wc; zmod).
      unfold unitStep in Hdir.
      split; apply Hiff;
        (destruct (Z.eq_dec er 1) as [E1|E1];
         [ first [ left; split; subst wr wc nr nc; lia
                 | right; right;
                   match goal with |- getCell g ?a ?b = false =>
                     replace a with r by (subst wr wc nr nc; lia);
                     replace b with c by (subst wr wc nr nc; lia); exact Hcur end ]
         | first [ left; split; subst wr wc nr nc; lia
                 | right; right;
                   match goal with |- getCell g ?a ?b = false =>
                     replace a with r by (subst wr wc nr nc; lia);
                     replace b with c by (subst wr wc nr nc; lia); exact Hcur end ] ]).
    + destruct (G3 x y Hxy Hx Hy) as [Ha Hb]. split; apply Hold; assumption.
  - (* two leaves *)
    assert (T1 : uniquelyConnected (withLeaf (pathCell g) (wr, wc))).
    { apply (uniquelyConnected_leaf (pathCell g) (wr, wc) (r, c)).
      - unfold pathCell. cbn. congruence.
      - exact Hcur.
      - unfold adjacent, unitStep in *. cbn. subst wr wc. lia.
      - intros [x y] Hxy Hadj. unfold pathCell in Hxy. cbn in Hxy.
        destruct (G1 x y Hxy) as (_ & _ & Hodd).
        destruct (Z.eq_dec x nr) as [Ex|Ex]; [destruct (Z.eq_dec y nc) as [Ey|Ey]|].
        + subst x y. congruence.
        + apply pair_eq; unfold adjacent, unitStep in *; cbn in Hadj; subst wr wc nr nc; zmod.
        + apply pair_eq; unfold adjacent, unitStep in *; cbn in Hadj; subst wr wc nr nc; zmod.
      - exact G4. }
    assert (T2 : uniquelyConnected (withLeaf (withLeaf (pathCell g) (wr, wc)) (nr, nc))).
    { apply (uniquelyConnected_leaf _ (nr, nc) (wr, wc)).
      - intros [E|E]; [injection E as E1 E2; unfold unitStep in *; subst wr wc nr nc; lia|].
        unfold pathCell in E. cbn in E. congruence.
      - left. reflexivity.
      - unfold adjacent, unitStep in *. cbn. subst wr wc nr nc. lia.
      - intros [x y] [E|Hxy] Hadj; [exact E|]. exfalso.
        unfold pathCell in Hxy. cbn in Hxy. unfold adjacent in Hadj. cbn in Hadj.
        destruct Hadj as [[Ex Ey]|[Ey Ex]].
        + destruct (G2 x y Hxy) as [Ha Hb]; [zmod|zmod|].
          destruct (Z.eq_dec (y - 1) nc) as [E|E].
          * rewrite E, <- Ex in Ha. congruence.
          * replace (y + 1)%Z with nc in Hb by lia. rewrite <- Ex in Hb. congruence.
        + destruct (G3 x y Hxy) as [Ha Hb]; [zmod|zmod|].
          destruct (Z.eq_dec (x - 1) nr) as [E|E].
          * rewrite E, <- Ey in Ha. congruence.
          * replace (x + 1)%Z with nr in Hb by lia. rewrite <- Ey in Hb. congruence.
      - exact T1. }
    apply (uniquelyConnected_ext (withLeaf (withLeaf (pathCell g) (wr, wc)) (nr, nc)));
      [|exact T2].
    intros [x y]. unfold withLeaf, pathCell. cbn [fst snd]. rewrite Hiff. split.
    + intros [E|[E|E]]; [injection E as -> ->; left; split; reflexivity
                        |injection E as -> ->; right; left; split; reflexivity|tauto].
    + intros [[-> ->]|[[-> ->]|E]]; [left; reflexivity|right; left; reflexivity|tauto].
Qed.

Lemma dir_unit d :
  (d < 4)%nat ->
  exists er ec, unitStep er ec /\ dr d = (2 * er)%Z /\ dc d = (2 * ec)%Z /\
                Z.quot (dr d) 2 = er /\ Z.quot (dc d) 2 = ec.
Proof.
  intros Hd. destruct d as [|[|[|[|d]]]]; [| | | |lia].
  - exists (-1)%Z, 0%Z. unfold unitStep. cbn. repeat split; lia.
  - exists 0%Z, 1%Z. unfold unitStep. cbn. repeat split; lia.
  - exists 1%Z, 0%Z. unfold unitStep. cbn. repeat split; lia.
  - exists 0%Z, (-1)%Z. unfold unitStep. cbn. repeat split; lia.
Qed.

Lemma dir_none d : (4 <= d)%nat -> dr d = 0%Z /\ dc d = 0%Z.
Proof.
  intros Hd. do 4 (destruct d as [|d]; [lia|]). unfold dr, dc. cbn.
  destruct d; split; reflexivity.
Qed.

Lemma closedRoom_mono g g' x y :
  (forall a b, getCell g a b = false -> getCell g' a b = false) ->
  closedRoom h w g x y -> closedRoom h w g' x y.
Proof. intros Hm Hc d Hd Hr Hcc. apply Hm, Hc; assumption. Qed.

Lemma room_not_link r c er ec a b :
  room h w a b -> room h w r c -> unitStep er ec -> (a, b) <> ((r + er)%Z, (c + ec)%Z).
Proof.
  unfold room, unitStep. intros Ha Hr Hd. apply pair_neq. zmod.
Qed.

Section Loop.
Variable f : nat.
Hypothesis rec_spec : forall r c g e,
  carvePre h w f r c g e ->
  exists g' e', RecursiveGenerateMaze f h w r c (g, e) = Some (g', e') /\
                carvePost h w g r c g' e'.
Variables r c : Z.
Hypothesis cur_room : room h w r c.

Lemma carveLoop_spec dirs : forall gi ei,
  wfGrid h w gi -> carved h w gi -> getCell gi r c = false -> (walls gi <= f)%nat ->
  (forall n, Permutation (shuffles ei n) [0; 1; 2; 3]%nat) ->
  exists g' e',
    carveLoop (RecursiveGenerateMaze f h w) h w r c dirs (gi, ei) = Some (g', e') /\
    wfGrid h w g' /\ carved h w g' /\
    (forall x y, getCell gi x y = false -> getCell g' x y = false) /\
    (walls g' <= walls gi)%nat /\
    (forall x y, room h w x y -> getCell gi x y = true -> getCell g' x y = false ->
       closedRoom h w g' x y) /\
    (forall d, In d dirs -> (d < 4)%nat ->
       (0 <= r + dr d < h)%Z -> (0 <= c + dc d < w)%Z ->
       getCell g' (r + dr d) (c + dc d) = false) /\
    (forall n, Permutation (shuffles e' n) [0; 1; 2; 3]%nat).
Proof.
  induction dirs as [|d rest IH]; intros gi ei Hwf Hcv Hcur Hwalls Hperm.
  - exists gi, ei. cbn [carveLoop].
    split; [reflexivity|]. split; [exact Hwf|]. split; [exact Hcv|].
    split; [auto|]. split; [lia|]. split; [intros x y _ H1 H2; congruence|].
    split; [intros d []|exact Hperm].
  - cbn [carveLoop fst snd].
    destruct ((r + dr d >=? 0)%Z && (r + dr d <? h)%Z && (c + dc d >=? 0)%Z &&
              (c + dc d <? w)%Z && getCell gi (r + dr d) (c + dc d)) eqn:Hcond.
    + (* the room in direction [d] is uncarved *)
      rewrite !andb_true_iff in Hcond. destruct Hcond as ((((B1 & B2) & B3) & B4) & Hn).
      apply Z.geb_le in B1, B3. apply Z.ltb_lt in B2, B4.
      assert (Hd : (d < 4)%nat).
      { destruct (Nat.lt_ge_cases d 4) as [Hlt|Hge]; [exact Hlt|].
        destruct (dir_none d Hge) as [E1 E2]. rewrite E1, E2, !Z.add_0_r in Hn. congruence. }
      destruct (dir_unit d Hd) as (er & ec & Hunit & Er & Ec & Eqr & Eqc).
      rewrite Eqr, Eqc. clear Eqr Eqc. rewrite Er, Ec.
      assert (Hnr : (0 <= r + 2 * er < h)%Z) by lia.
      assert (Hnc : (0 <= c + 2 * ec < w)%Z) by lia.
      rewrite Er, Ec in Hn.
      destruct (carve_step gi r c er ec Hwf Hcv cur_room Hcur Hunit Hnr Hnc Hn)
        as (Hcv2 & Hnroom & Hwl).
      pose proof cur_room as (Hr0 & Hc0 & _ & _).
      assert (Hwr : (0 <= r + er < h)%Z) by (unfold unitStep in Hunit; lia).
      assert (Hwc : (0 <= c + ec < w)%Z) by (unfold unitStep in Hunit; lia).
      pose proof (fun x y => getCell_two_cells gi (r + er) (c + ec) (r + 2 * er) (c + 2 * ec)
                               x y Hwf Hwr Hwc Hnr Hnc) as Hiff.
      set (g1 := setCell gi (r + er) (c + ec) false) in *.
      assert (Hwf1 : wfGrid h w g1) by (apply setCell_wf; exact Hwf).
      assert (Hn1 : getCell g1 (r + 2 * er) (c + 2 * ec) = true).
      { unfold g1. rewrite getCell_setCell_other; [exact Hn|].
        apply pair_neq. unfold unitStep in Hunit. lia. }
      assert (Hw1 : (walls g1 <= walls gi)%nat) by apply walls_setCell_le.
      destruct (rec_spec (r + 2 * er)%Z (c + 2 * ec)%Z g1 ei) as (g2 & e2 & Hrun & Hpost).
      { split; [exact Hwf1|]. split; [exact Hnroom|]. split; [exact Hn1|].
        split; [lia|]. split; [exact Hcv2|exact Hperm]. }
      rewrite Hrun.
      destruct Hpost as (Hwf2 & Hcv2' & Hmono2 & Hw2 & Hclosed2 & Hperm2).
      assert (Hm02 : forall x y, getCell gi x y = false -> getCell g2 x y = false).
      { intros x y Hxy. apply Hmono2. apply Hiff. right. right. exact Hxy. }
      destruct (IH g2 e2 Hwf2 Hcv2' (Hm02 _ _ Hcur) ltac:(lia) Hperm2)
        as (g' & e' & Hloop & Hwf' & Hcv' & Hmono' & Hw' & Hclosed' & Hdirs' & Hperm').
      exists g', e'. split; [exact Hloop|]. split; [exact Hwf'|]. split; [exact Hcv'|].
      split; [intros x y Hxy; apply Hmono', Hm02, Hxy|]. split; [lia|].
      split; [|split; [|exact Hperm']].
      * intros x y Hroom Hxi Hx'.
        destruct (getCell g2 x y) eqn:E2.
        -- apply Hclosed'; assumption.
        -- apply (closedRoom_mono g2 g' x y Hmono').
           apply Hclosed2; [exact Hroom| |exact E2].
           unfold g1. rewrite getCell_setCell_other; [exact Hxi|].
           apply (room_not_link r c er ec x y Hroom cur_room Hunit).
      * intros d' [<-|Hin] Hd' Hr' Hc'.
        -- rewrite Er, Ec. apply Hmono', Hmono2. apply Hiff. left. split; reflexivity.
        -- apply Hdirs'; assumption.
    + (* nothing to carve in direction [d] *)
      destruct (IH gi ei Hwf Hcv Hcur Hwalls Hperm)
        as (g' & e' & Hloop & Hwf' & Hcv' & Hmono' & Hw' & Hclosed' & Hdirs' & Hperm').
      exists g', e'. split; [exact Hloop|]. repeat (split; [assumption|]).
      split; [|exact Hperm'].
      intros d' [<-|Hin] Hd' Hr' Hc'; [|apply Hdirs'; assumption].
      apply Hmono'.
      destruct (getCell gi (r + dr d) (c + dc d)) eqn:E; [|reflexivity].
      exfalso. rewrite andb_true_r in Hcond.
      assert (Ht : (r + dr d >=? 0)%Z && (r + dr d <? h)%Z && (c + dc d >=? 0)%Z &&
                   (c + dc d <? w)%Z = true).
      { rewrite !andb_true_iff. repeat split;
          [apply Z.geb_le|apply Z.ltb_lt|apply Z.geb_le|apply Z.ltb_lt]; lia. }
      congruence.
Qed.
End Loop.

Lemma RecursiveGenerateMaze_spec fuel : forall r c g e,
  carvePre h w fuel r c g e ->
  exists g' e', RecursiveGenerateMaze fuel h w r c (g, e) = Some (g', e') /\
                carvePost h w g r c g' e'.
Proof.
  induction fuel as [|f IH]; intros r c g e (Hwf & Hroom & Hwall & Hfuel & Hcv & Hperm).
  - exfalso. pose proof Hroom as (Hr & Hc & _ & _).
    pose proof (walls_setCell_wall h w g r c Hwf ltac:(lia) ltac:(lia) Hwall). lia.
  - pose proof Hroom as (Hr & Hc & _ & _).
    pose proof (walls_setCell_wall h w g r c Hwf ltac:(lia) ltac:(lia) Hwall) as Hw0.
    cbn [RecursiveGenerateMaze fst snd]. unfold shuffle.
    set (g0 := setCell g r c false) in *.
    set (e1 := mkEngine (fun n => shuffles e (S n)) (draws e)).
    assert (Hcur0 : getCell g0 r c = false)
      by (apply (getCell_setCell_same h w); [exact Hwf|lia|lia]).
    destruct (carveLoop_spec f IH r c Hroom (shuffles e 0) g0 e1)
      as (g' & e' & Hloop & Hwf' & Hcv' & Hmono' & Hw' & Hclosed' & Hdirs' & Hperm').
    + apply setCell_wf, Hwf.
    + exact Hcv.
    + exact Hcur0.
    + lia.
    + intros n. apply Hperm.
    + exists g', e'. split; [exact Hloop|]. split; [exact Hwf'|]. split; [exact Hcv'|].
      split; [exact Hmono'|]. split; [lia|]. split; [|exact Hperm'].
      intros x y Hxy Hx Hx'.
      destruct (Z.eq_dec x r) as [->|Ex]; [destruct (Z.eq_dec y c) as [->|Ey]|].
      * intros d Hd Hdr Hdc. apply Hdirs'; try assumption.
        apply (Permutation_in d (Permutation_sym (Hperm 0%nat))).
        cbn. lia.
      * apply Hclosed'; [exact Hxy| |exact Hx'].
        unfold g0. rewrite getCell_setCell_other; [exact Hx|]. apply pair_neq. right. exact Ey.
      * apply Hclosed'; [exact Hxy| |exact Hx'].
        unfold g0. rewrite getCell_setCell_other; [exact Hx|]. apply pair_neq. left. exact Ex.
Qed.

(** One path cell alone is a carved grid. *)
Lemma carved_start : carved h w (setCell (allWalls h w) 1 1 false).
Proof.
  pose proof (allWalls_wf h w) as Hwf.
  assert (Hone : forall x y, getCell (setCell (allWalls h w) 1 1 false) x y = false ->
                             x = 1%Z /\ y = 1%Z).
  { intros x y Hxy.
    destruct (Z.eq_dec x 1) as [->|Ex]; [destruct (Z.eq_dec y 1) as [->|Ey]; [auto|]|].
    - rewrite getCell_setCell_other, getCell_allWalls in Hxy by (apply pair_neq; auto).
      discriminate.
    - rewrite getCell_setCell_other, getCell_allWalls in Hxy by (apply pair_neq; auto).
      discriminate. }
  split; [|split; [|split]].
  - intros x y Hxy. destruct (Hone x y Hxy) as [-> ->]. cbn. lia.
  - intros x y Hxy Hx Hy. destruct (Hone x y Hxy) as [-> ->]. cbn in Hy. discriminate.
  - intros x y Hxy Hx Hy. destruct (Hone x y Hxy) as [-> ->]. cbn in Hx. discriminate.
  - apply (uniquelyConnected_single _ (1, 1)%Z). intros [x y]. unfold pathCell. cbn [fst snd].
    split.
    + intros Hxy. destruct (Hone x y Hxy) as [-> ->]. reflexivity.
    + intros E. injection E as -> ->. apply (getCell_setCell_same h w); [exact Hwf|lia|lia].
Qed.

(** Every room is reached. *)
Lemma closed_rooms_all g :
  getCell g 1 1 = false ->
  (forall x y, room h w x y -> getCell g x y = false -> closedRoom h w g x y) ->
  forall i j : nat, room h w (1 + 2 * Z.of_nat i) (1 + 2 * Z.of_nat j) ->
    getCell g (1 + 2 * Z.of_nat i) (1 + 2 * Z.of_nat j) = false.
Proof.
  intros Hs Hcl. induction i as [|i IHi].
  - induction j as [|j IHj]; intros Hroom; [exact Hs|].
    assert (Hprev : room h w (1 + 2 * Z.of_nat 0) (1 + 2 * Z.of_nat j))
      by (unfold room in *; zmod).
    pose proof (Hcl _ _ Hprev (IHj Hprev) 1%nat ltac:(lia)) as H. cbn [dr dc nth] in H.
    replace (1 + 2 * Z.of_nat (S j))%Z with (1 + 2 * Z.of_nat j + 2)%Z by lia.
    replace (1 + 2 * Z.of_nat 0)%Z with (1 + 2 * Z.of_nat 0 + 0)%Z at 1 by lia.
    apply H; unfold room in *; lia.
  - intros j Hroom.
    assert (Hprev : room h w (1 + 2 * Z.of_nat i) (1 + 2 * Z.of_nat j))
      by (unfold room in *; zmod).
    pose proof (Hcl _ _ Hprev (IHi j Hprev) 2%nat ltac:(lia)) as H. cbn [dr dc nth] in H.
    replace (1 + 2 * Z.of_nat (S i))%Z with (1 + 2 * Z.of_nat i + 2)%Z by lia.
    replace (1 + 2 * Z.of_nat j)%Z with (1 + 2 * Z.of_nat j + 0)%Z at 1 by lia.
    apply H; unfold room in *; lia.
Qed.

(** The carving from the start cell of the all-wall grid. *)
Lemma carve_from_start e :
  (forall n, Permutation (shuffles e n) [0; 1; 2; 3]%nat) ->
  exists g' e',
    RecursiveGenerateMaze (carveFuel h w) h w 1 1 (allWalls h w, e) = Some (g', e') /\
    getCell g' 1 1 = false /\ getCell g' (h - 2) (w - 2) = false /\
    uniquelyConnected (pathCell g').
Proof.
  intros Hperm.
  destruct (RecursiveGenerateMaze_spec (carveFuel h w) 1 1 (allWalls h w) e)
    as (g' & e' & Hrun & Hwf' & Hcv' & Hmono & _ & Hclosed & _).
  { split; [apply allWalls_wf|]. split; [unfold room; cbn; lia|].
    split; [apply getCell_allWalls|]. split; [|split; [apply carved_start|exact Hperm]].
    rewrite walls_allWalls by lia. unfold carveFuel. lia. }
  exists g', e'. split; [exact Hrun|].
  assert (Hs : getCell g' 1 1 = false).
  { apply Hmono. apply (getCell_setCell_same h w); [apply allWalls_wf|lia|lia]. }
  split; [exact Hs|]. split; [|apply Hcv'].
  assert (Hall := closed_rooms_all g' Hs
                    (fun x y Hr Hp => Hclosed x y Hr (getCell_allWalls h w x y) Hp)).
  specialize (Hall (Z.to_nat ((h - 3) / 2)) (Z.to_nat ((w - 3) / 2))).
  replace (1 + 2 * Z.of_nat (Z.to_nat ((h - 3) / 2)))%Z with (h - 2)%Z in Hall
    by (rewrite Z2Nat.id by zmod; zmod).
  replace (1 + 2 * Z.of_nat (Z.to_nat ((w - 3) / 2)))%Z with (w - 2)%Z in Hall
    by (rewrite Z2Nat.id by zmod; zmod).
  apply Hall. unfold room. zmod.
Qed.

End MazeCarve.

Section MazePerfect.
Import Maze.

Lemma uniquelyConnected_cycleFree V : uniquelyConnected V -> cycleFree V.
Proof.
  intros HT a b l Hp Hlen Hadj.
  pose proof (spath_all V a b l Hp a (spath_In_start V a b l Hp)) as Va.
  pose proof (spath_all V a b l Hp b (spath_In_end V a b l Hp)) as Vb.
  destruct (HT a b Va Vb) as [p [_ Huniq]].
  assert (Hshort : spath V a b [a; b]).
  { apply sp_cons with b; [exact Va|apply adjacent_sym, Hadj|apply sp_one, Vb|].
    intros [E|[]]. subst b. apply (adjacent_irrefl a Hadj). }
  rewrite (Huniq l Hp), <- (Huniq [a; b] Hshort) in Hlen. cbn in Hlen. lia.
Qed.

Lemma odd_mod2 n : Z.odd n = true -> (n mod 2 = 1)%Z.
Proof. intros H. rewrite Zmod_odd, H. reflexivity. Qed.

(** C2.  Whenever the dimensions are computed and the shuffles leave the
    four directions in some order, [GenerateNewMazeStructure] returns a
    maze; in it the start cell (1, 1) and the exit cell (width - 2,
    height - 2) are path cells, any two path cells are joined by exactly
    one simple path, and the path cells hold no cycle. *)
Theorem maze_generated_is_perfect (m m1 : MazeLevel) :
  shufflesPermute (s_maze_gen m) ->
  CalculateMazeDimensions m = Some m1 ->
  exists m', GenerateNewMazeStructure m = Some m' /\
    (startRow m', startCol m') = (1, 1)%Z /\
    (endRow m', endCol m') = (mazeHeightCells m' - 2, mazeWidthCells m' - 2)%Z /\
    pathCell (mazeGrid m') (startRow m', startCol m') /\
    pathCell (mazeGrid m') (endRow m', endCol m') /\
    uniquelyConnected (pathCell (mazeGrid m')) /\
    cycleFree (pathCell (mazeGrid m')).
Proof.
  intros Hperm Hdim. unfold GenerateNewMazeStructure. rewrite Hdim.
  unfold CalculateMazeDimensions in Hdim.
  destruct (computeDimensions (screenWidth m) (screenHeight m)) as [d|] eqn:Ed; [|discriminate].
  destruct (computeDimensions_odd _ _ d Ed) as (Hwo & Hw3 & Hho & Hh3).
  injection Hdim as <-. unfold InitMazeGrid, withGrid.
  cbn [mazeHeightCells mazeWidthCells startRow startCol endRow endCol mazeGrid s_maze_gen].
  destruct (carve_from_start (d_mazeHeightCells d) (d_mazeWidthCells d)
              (odd_mod2 _ Hho) (odd_mod2 _ Hwo) Hh3 Hw3 (s_maze_gen m) Hperm)
    as (g' & e' & Hrun & Hs & He & HT).
  rewrite Hrun. eexists. split; [reflexivity|].
  unfold withGrid, pathCell.
  cbn [mazeHeightCells mazeWidthCells startRow startCol endRow endCol mazeGrid s_maze_gen fst snd].
  repeat (split; [first [reflexivity|assumption]|]).
  apply uniquelyConnected_cycleFree, HT.
Qed.

Lemma maze_generated_is_perfect_witness :
  exists m', GenerateNewMazeStructure (blank_maze plain_engine) = Some m' /\
    pathCell (mazeGrid m') (startRow m', startCol m') /\
    pathCell (mazeGrid m') (endRow m', endCol m') /\
    uniquelyConnected (pathCell (mazeGrid m')).
Proof.
  destruct (CalculateMazeDimensions (blank_maze plain_engine)) as [m1|] eqn:E;
    [|vm_compute in E; discriminate].
  destruct (maze_generated_is_perfect (blank_maze plain_engine) m1) as (m' & H1 & _ & _ & H2 & H3 & H4 & _).
  - intros n. apply Permutation_refl.
  - exact E.
  - exists m'. auto.
Defined.

End MazePerfect.

(** * Space Invaders: the loss flag and the win flag *)

Section InvadersFlags.
Import Invaders.

Lemma Update_frozen f l : IsComplete l = true -> Update f l = l.
Proof. unfold IsComplete, Update. intros ->. reflexivity. Qed.

Lemma run_frozen fs : forall l, IsComplete l = true -> run fs l = l.
Proof.
  induction fs as [|f fs IH]; intros l Hl; [reflexivity|].
  unfold run in *. cbn [fold_left]. rewrite (Update_frozen f l Hl). apply IH, Hl.
Qed.

Lemma marchStep_keeps f l :
  player (marchStep f l) = player l /\ gameWon (marchStep f l) = gameWon l.
Proof.
  unfold marchStep. destruct (fge _ _); [|split; reflexivity].
  destruct (extent _ _ _ _) as [[minX maxX] any]. destruct any; [|split; reflexivity].
  destruct (if feq _ 1 then _ else _) as [direction shouldDescend].
  destruct (advance _ _ _ _ _) as [invs over]. split; reflexivity.
Qed.

Lemma shootPlayer_spec bs p over :
  let '(_, p', over') := shootPlayer bs p over in
  (p' = p /\ over' = over) \/
  (p' = TakeDamage p /\ over' = if negb (IsAlive p') then true else over).
Proof.
  induction bs as [|b rest IH]; cbn; [left; split; reflexivity|].
  destruct (_ && _); [right; split; reflexivity|].
  destruct (shootPlayer rest p over) as [[r p'] o']. exact IH.
Qed.

Lemma Player_Update_lives f W p bs : lives (fst (Player_Update f W p bs)) = lives p.
Proof. unfold Player_Update. destruct (_ && _); reflexivity. Qed.

(** One live frame: the win flag is set exactly when no invader is left
    active at the end of the frame, whatever the loss flag; and a frame that
    brings the lives to 0 sets the loss flag. *)
Lemma Update_live f l :
  IsComplete l = false -> (0 < lives (player l))%Z ->
  gameWon (Update f l) = allInvadersDestroyed (invaders (Update f l)) /\
  ((lives (player (Update f l)) <= 0)%Z -> gameOver (Update f l) = true) /\
  (IsComplete (Update f l) = false -> (0 < lives (player (Update f l)))%Z).
Proof.
  unfold IsComplete. intros Hl Hlives. unfold Update. rewrite Hl.
  apply orb_false_iff in Hl. destruct Hl as [Hover Hwon].
  pose proof (Player_Update_lives f (currentScreenW l) (player l) (playerBullets l)) as Hpl.
  destruct (Player_Update _ _ _ _) as [p pbs]. cbn [fst] in Hpl.
  match goal with |- context [marchStep f ?x] =>
    destruct (marchStep_keeps f x) as (Mp & Mw); set (l1 := marchStep f x) in * end.
  cbn [player gameWon] in Mp, Mw.
  destruct (shootInvaders _ _ _) as [[pbs' invs] sc].
  pose proof (shootPlayer_spec (fireAtRandom f 0 (invaders l1) (invaderBullets l1))
                (player l1) (gameOver l1)) as Hsp.
  destruct (shootPlayer _ _ _) as [[ibs p'] over]. cbn [gameWon invaders player gameOver].
  rewrite Mw, Hwon. split; [destruct (allInvadersDestroyed invs); reflexivity|].
  rewrite Mp in Hsp.
  destruct Hsp as [[-> ->]|[-> ->]].
  - split; [lia|]. intros _. lia.
  - unfold IsAlive, TakeDamage. cbn [lives]. split.
    + intros Hle. assert (E : (lives p - 1 >? 0)%Z = false)
        by (rewrite Z.gtb_ltb; apply Z.ltb_ge; lia).
      rewrite E. reflexivity.
    + intros Hnc. apply orb_false_iff in Hnc. destruct Hnc as [Hno _].
      destruct (lives p - 1 >? 0)%Z eqn:E; cbn in Hno; [|discriminate].
      apply Z.gtb_lt in E. exact E.
Qed.

Lemma run_first_flag fs : forall l,
  IsComplete l = false -> (0 < lives (player l))%Z -> IsComplete (run fs l) = true ->
  exists k f,
    nth_error fs k = Some f /\
    IsComplete (run (firstn k fs) l) = false /\
    (0 < lives (player (run (firstn k fs) l)))%Z /\
    run fs l = Update f (run (firstn k fs) l).
Proof.
  induction fs as [|f fs IH]; intros l Hl Hlives Hend.
  - cbn in Hend. congruence.
  - change (run (f :: fs) l) with (run fs (Update f l)) in *.
    destruct (IsComplete (Update f l)) eqn:E.
    + exists 0%nat, f. cbn. repeat split; auto. apply run_frozen, E.
    + destruct (Update_live f l Hl Hlives) as (_ & _ & Hpos).
      destruct (IH (Update f l) E (Hpos E) Hend) as (k & f' & Hk & Hc & Hlv & Hrun).
      exists (S k), f'. cbn [nth_error firstn].
      change (run (f :: firstn k fs) l) with (run (firstn k fs) (Update f l)).
      repeat split; assumption.
Qed.

(** The loop that moves the formation: where it leaves each invader, and
    when it reports that the player's row is reached. *)
Lemma advance_rows d sd y invs : forall o,
  length (fst (advance d sd y invs o)) = length invs /\
  (forall i inv inv', nth_error invs i = Some inv ->
     nth_error (fst (advance d sd y invs o)) i = Some inv' ->
     r_height (i_rect inv') = r_height (i_rect inv) /\
     r_y (i_rect inv') = (if i_active inv && sd
                          then fadd (r_y (i_rect inv)) SI_INVADER_DESCENT_AMOUNT
                          else r_y (i_rect inv))) /\
  (snd (advance d sd y invs o) = true <->
   o = true \/
   (sd = true /\ exists i inv, nth_error invs i = Some inv /\ i_active inv = true /\
      fge (fadd (fadd (r_y (i_rect inv)) SI_INVADER_DESCENT_AMOUNT) (r_height (i_rect inv))) y
      = true)).
Proof.
  induction invs as [|v invs IH]; intros o.
  - cbn. split; [reflexivity|]. split; [intros [|i] inv inv' H; discriminate|].
    split; [auto|]. intros [H|(_ & [|i] & inv & H & _)]; [exact H|discriminate|discriminate].
  - cbn [advance]. destruct (i_active v) eqn:Ea.
    + match goal with |- context [advance d sd y invs ?o'] =>
        specialize (IH o'); set (o1 := o') in *; destruct (advance d sd y invs o1) as [r o2] end.
      cbn [fst snd] in *. destruct IH as (L & R & O).
      split; [cbn; f_equal; exact L|]. split.
      * intros [|i] inv inv' H1 H2.
        -- cbn in H1, H2. injection H1 as <-. injection H2 as <-. rewrite Ea.
           cbn [i_rect andb]. destruct sd; cbn; auto.
        -- cbn in H1, H2. apply (R i inv inv' H1 H2).
      * rewrite O. subst o1. destruct sd; cbn [andb].
        -- match goal with |- context [fge ?a y] => change a with
             (fadd (fadd (r_y (i_rect v)) SI_INVADER_DESCENT_AMOUNT) (r_height (i_rect v)));
             destruct (fge (fadd (fadd (r_y (i_rect v)) SI_INVADER_DESCENT_AMOUNT)
                                 (r_height (i_rect v))) y) eqn:Eg end.
           ++ split; [|auto]. intros _. right. split; [reflexivity|].
              exists 0%nat, v. auto.
           ++ split.
              ** intros [H|(_ & i & inv & H1 & H2 & H3)]; [left; exact H|].
                 right. split; [reflexivity|]. exists (S i), inv. auto.
              ** intros [H|(_ & [|i] & inv & H1 & H2 & H3)]; [left; exact H| |].
                 --- cbn in H1. injection H1 as <-. congruence.
                 --- right. split; [reflexivity|]. exists i, inv. auto.
        -- split.
           ++ intros [H|(C & _)]; [left; exact H|discriminate].
           ++ intros [H|(C & _)]; [left; exact H|discriminate].
    + specialize (IH o). destruct (advance d sd y invs o) as [r o2].
      cbn [fst snd] in *. destruct IH as (L & R & O).
      split; [cbn; f_equal; exact L|]. split.
      * intros [|i] inv inv' H1 H2.
        -- cbn in H1, H2. injection H1 as <-. injection H2 as <-. rewrite Ea. auto.
        -- cbn in H1, H2. apply (R i inv inv' H1 H2).
      * rewrite O. split.
        -- intros [H|(Hsd & i & inv & H1 & H2 & H3)]; [left; exact H|].
           right. split; [exact Hsd|]. exists (S i), inv. auto.
        -- intros [H|(Hsd & [|i] & inv & H1 & H2 & H3)]; [left; exact H| |].
           ++ cbn in H1. injection H1 as <-. congruence.
           ++ right. split; [exact Hsd|]. exists i, inv. auto.
Qed.

Lemma descent_moves (y : Q) : ~ y == y + SI_INVADER_DESCENT_AMOUNT.
Proof. unfold SI_INVADER_DESCENT_AMOUNT. intros H. lra. Qed.

(** The timed step raises the loss flag exactly when an invader it has
    brought down stands at the player's row. *)
Lemma marchStep_over f l :
  gameOver l = false ->
  let m := marchStep f l in
  length (invaders m) = length (invaders l) /\
  (gameOver m = true <->
   exists i inv inv', nth_error (invaders l) i = Some inv /\
     nth_error (invaders m) i = Some inv' /\ i_active inv = true /\
     r_y (i_rect inv') == r_y (i_rect inv) + SI_INVADER_DESCENT_AMOUNT /\
     r_y (p_rect (player l)) <= r_y (i_rect inv') + r_height (i_rect inv')).
Proof.
  intros Hover m. subst m.
  assert (Hstill : forall invs : list Invader,
    ~ exists i inv inv', nth_error invs i = Some inv /\ nth_error invs i = Some inv' /\
        i_active inv = true /\
        r_y (i_rect inv') == r_y (i_rect inv) + SI_INVADER_DESCENT_AMOUNT /\
        r_y (p_rect (player l)) <= r_y (i_rect inv') + r_height (i_rect inv')).
  { intros invs (i & inv & inv' & H1 & H2 & _ & H4 & _).
    rewrite H1 in H2. injection H2 as <-. exact (descent_moves _ H4). }
  unfold marchStep. destruct (fge _ _).
  2:{ cbn [invaders gameOver]. split; [reflexivity|]. rewrite Hover.
      split; [discriminate|]. intros H. exfalso. exact (Hstill _ H). }
  destruct (extent _ _ _ _) as [[minX maxX] any]. destruct any.
  2:{ cbn [invaders gameOver]. split; [reflexivity|]. rewrite Hover.
      split; [discriminate|]. intros H. exfalso. exact (Hstill _ H). }
  destruct (if feq _ 1 then _ else _) as [direction sd].
  pose proof (advance_rows direction sd (r_y (p_rect (player l))) (invaders l) (gameOver l))
    as (L & R & O).
  destruct (advance _ _ _ _ _) as [invs over]. cbn [fst snd] in L, R, O.
  cbn [invaders gameOver]. split; [exact L|]. rewrite O, Hover. split.
  - intros [C|(-> & i & inv & H1 & H2 & H3)]; [discriminate|].
    assert (Hi : (i < length invs)%nat).
    { rewrite L. apply nth_error_Some. rewrite H1. discriminate. }
    destruct (nth_error invs i) as [inv'|] eqn:H4;
      [|apply nth_error_None in H4; lia].
    destruct (R i inv inv' H1 H4) as [Rh Ry]. rewrite H2 in Ry. cbn [andb] in Ry.
    exists i, inv, inv'. split; [exact H1|]. split; [exact H4|]. split; [exact H2|].
    rewrite Ry, Rh. split; [apply fadd_eq|].
    apply fge_iff in H3. rewrite fadd_eq in H3. exact H3.
  - intros (i & inv & inv' & H1 & H4 & H2 & Hy & Hrow). right.
    destruct (R i inv inv' H1 H4) as [Rh Ry]. rewrite H2 in Ry. cbn [andb] in Ry.
    destruct sd.
    + split; [reflexivity|]. exists i, inv. split; [exact H1|]. split; [exact H2|].
      apply fge_iff. rewrite fadd_eq. rewrite <- Ry, <- Rh. exact Hrow.
    + exfalso. rewrite Ry in Hy. exact (descent_moves _ Hy).
Qed.

(** A shot keeps every invader in its place. *)
Lemma hitFirstInvader_rects b invs : forall invs',
  hitFirstInvader b invs = Some invs' -> map i_rect invs' = map i_rect invs.
Proof.
  induction invs as [|v invs IH]; intros invs' E; [discriminate|].
  cbn [hitFirstInvader] in E. destruct (i_active v && _).
  - injection E as <-. reflexivity.
  - destruct (hitFirstInvader b invs) as [r|]; [|discriminate]. injection E as <-.
    cbn. f_equal. apply IH. reflexivity.
Qed.

Lemma shootInvaders_rects bs : forall invs sc,
  map i_rect (snd (fst (shootInvaders bs invs sc))) = map i_rect invs.
Proof.
  induction bs as [|b bs IH]; intros invs sc; [reflexivity|].
  cbn [shootInvaders]. destruct (b_active b).
  - destruct (hitFirstInvader b invs) as [invs1|] eqn:Eh.
    + specialize (IH invs1 (sc + 100)%Z).
      destruct (shootInvaders bs invs1 (sc + 100)%Z) as [[r i2] s2]. cbn [fst snd] in *.
      rewrite IH. apply (hitFirstInvader_rects b invs invs1 Eh).
    + specialize (IH invs sc). destruct (shootInvaders bs invs sc) as [[r i2] s2].
      exact IH.
  - specialize (IH invs sc). destruct (shootInvaders bs invs sc) as [[r i2] s2]. exact IH.
Qed.

Lemma same_rects_nth (xs ys : list Invader) i :
  map i_rect xs = map i_rect ys ->
  forall x, nth_error xs i = Some x ->
  exists y, nth_error ys i = Some y /\ i_rect y = i_rect x.
Proof.
  intros E x Hx. pose proof (map_nth_error i_rect i xs Hx) as H. rewrite E in H.
  rewrite nth_error_map in H. destruct (nth_error ys i) as [y|]; [|discriminate].
  cbn in H. injection H as H. exists y. auto.
Qed.

Lemma Player_Update_row f W p bs :
  r_y (p_rect (fst (Player_Update f W p bs))) = r_y (p_rect p).
Proof.
  unfold Player_Update. cbv zeta.
  destruct (keySpace f && _); cbn [fst p_rect];
    destruct (keyLeft f && _); destruct (keyRight f && _); reflexivity.
Qed.

(** One live frame and the loss flag: it is set exactly when the lives are
    at 0 at the end of the frame or an invader the frame has brought down
    stands at the player's row. *)
Lemma Update_over f l :
  IsComplete l = false -> (0 < lives (player l))%Z ->
  (gameOver (Update f l) = true <->
   (lives (player (Update f l)) <= 0)%Z \/ reachedPlayer l (Update f l)).
Proof.
  intros Hl Hlives. destruct (Update_live f l Hl Hlives) as (_ & Hzero & _).
  unfold IsComplete in Hl. revert Hzero. unfold reachedPlayer, Update. rewrite Hl.
  apply orb_false_iff in Hl. destruct Hl as [Hover Hwon].
  pose proof (Player_Update_lives f (currentScreenW l) (player l) (playerBullets l)) as Hpl.
  pose proof (Player_Update_row f (currentScreenW l) (player l) (playerBullets l)) as Hrow.
  destruct (Player_Update _ _ _ _) as [p pbs]. cbn [fst] in Hpl, Hrow.
  match goal with |- context [marchStep f ?x] =>
    destruct (marchStep_keeps f x) as (Mp & Mw);
    pose proof (marchStep_over f x Hover) as (ML & MO);
    set (l1 := marchStep f x) in * end.
  cbn [player gameWon invaders] in Mp, Mw, ML, MO.
  pose proof (shootInvaders_rects (playerBullets l1) (invaders l1) (score l1)) as HR.
  destruct (shootInvaders _ _ _) as [[pbs' invs] sc]. cbn [fst snd] in HR.
  pose proof (shootPlayer_spec (fireAtRandom f 0 (invaders l1) (invaderBullets l1))
                (player l1) (gameOver l1)) as Hsp.
  destruct (shootPlayer _ _ _) as [[ibs p'] over]. cbn [gameOver invaders player].
  intros Hzero.
  assert (Hp'row : r_y (p_rect p') = r_y (p_rect p)).
  { rewrite Mp in Hsp. destruct Hsp as [[-> _]|[-> _]]; reflexivity. }
  assert (Hmarch : gameOver l1 = true <->
    exists i inv inv', nth_error (invaders l) i = Some inv /\ nth_error invs i = Some inv' /\
      i_active inv = true /\
      r_y (i_rect inv') == r_y (i_rect inv) + SI_INVADER_DESCENT_AMOUNT /\
      r_y (p_rect p') <= r_y (i_rect inv') + r_height (i_rect inv')).
  { rewrite MO, Hp'row. split.
    - intros (i & inv & inv1 & H1 & H2 & H3 & H4 & H5).
      destruct (same_rects_nth (invaders l1) invs i (eq_sym HR) inv1 H2) as (inv' & G1 & G2).
      exists i, inv, inv'. rewrite G2. auto.
    - intros (i & inv & inv' & H1 & H2 & H3 & H4 & H5).
      destruct (same_rects_nth invs (invaders l1) i HR inv' H2) as (inv1 & G1 & G2).
      exists i, inv, inv1. rewrite G2. auto. }
  split.
  - intros Hov. rewrite Mp in Hsp. destruct Hsp as [[-> ->]|[-> Eo]].
    + right. apply Hmarch, Hov.
    + rewrite Eo in Hov. unfold IsAlive, TakeDamage in *. cbn [lives] in *.
      destruct (lives p - 1 >? 0)%Z eqn:E; cbn [negb] in Hov.
      * right. apply Hmarch, Hov.
      * left. rewrite Z.gtb_ltb in E. apply Z.ltb_ge in E. exact E.
  - intros [Hle|Hreach]; [exact (Hzero Hle)|].
    apply Hmarch in Hreach. destruct Hsp as [[_ ->]|[_ ->]]; [exact Hreach|].
    rewrite Hreach. destruct (negb _); reflexivity.
Qed.

(** C3, as the code has it.  In a session from [Load] that has ended, the
    flags were both clear until one frame; that frame produced the final
    state, and no later frame changes it.  In that state the win flag is set
    exactly when no invader is left active, and the loss flag is set exactly
    when the lives are at 0 or an invader the frame has brought down stands
    at the player's row: the loss test comes first in the frame but does not
    keep the win test from setting its flag too.  The orchestrator asks
    [DidPlayerWinThisLevel], which is the win flag alone. *)
Theorem invaders_flags_set_in_one_frame (l0 : SpaceInvadersLevel) (fs : list Frame) :
  IsComplete (run fs (Load l0)) = true ->
  exists k f,
    nth_error fs k = Some f /\
    gameOver (run (firstn k fs) (Load l0)) = false /\
    gameWon (run (firstn k fs) (Load l0)) = false /\
    (0 < lives (player (run (firstn k fs) (Load l0))))%Z /\
    run fs (Load l0) = Update f (run (firstn k fs) (Load l0)) /\
    (forall f', Update f' (run fs (Load l0)) = run fs (Load l0)) /\
    gameWon (run fs (Load l0)) = allInvadersDestroyed (invaders (run fs (Load l0))) /\
    (gameOver (run fs (Load l0)) = true <->
     (lives (player (run fs (Load l0))) <= 0)%Z \/
     reachedPlayer (run (firstn k fs) (Load l0)) (run fs (Load l0))) /\
    DidPlayerWinThisLevel (run fs (Load l0)) = gameWon (run fs (Load l0)) /\
    Game.levelSucceeded (Game.AnInvaders (run fs (Load l0))) = gameWon (run fs (Load l0)).
Proof.
  intros Hend.
  destruct (run_first_flag fs (Load l0)) as (k & f & Hk & Hc & Hlv & Hrun);
    [reflexivity|cbn; lia|exact Hend|].
  exists k, f. split; [exact Hk|].
  pose proof Hc as Hc'. unfold IsComplete in Hc'. apply orb_false_iff in Hc'.
  destruct Hc' as [Ho Hw]. split; [exact Ho|]. split; [exact Hw|]. split; [exact Hlv|].
  split; [exact Hrun|]. split; [intros f'; apply Update_frozen, Hend|].
  rewrite Hrun. destruct (Update_live f _ Hc Hlv) as (H1 & _ & _).
  split; [exact H1|]. split; [apply (Update_over f _ Hc Hlv)|].
  split; reflexivity.
Qed.

Lemma session_last_frame :
  run (session 3051) session_start
  = Update (session_frame 3050) (run (session 3050) session_start).
Proof.
  unfold run, session. change 3051%nat with (3050 + 1)%nat.
  rewrite seq_app, map_app, fold_left_app. reflexivity.
Qed.

Lemma session_check_true :
  lastFrameCheck (run (session 3050) session_start) (session_frame 3050) = true.
Proof. vm_compute. reflexivity. Qed.

(** The conjuncts of such a check, for any state and frame. *)
Lemma check_split (b : SpaceInvadersLevel) (f : Frame) :
  lastFrameCheck b f = true ->
  gameOver b = false /\ gameWon b = false /\ lives (player b) = 1%Z /\
  lives (player (Update f b)) = 0%Z /\
  allInvadersDestroyed (invaders (Update f b)) = true /\
  gameOver (Update f b) = true /\ gameWon (Update f b) = true.
Proof.
  unfold lastFrameCheck. cbv zeta. intros H. rewrite !andb_true_iff in H.
  destruct H as ((((((H1 & H2) & H3) & H4) & H5) & H6) & H7).
  apply negb_true_iff in H1, H2. apply Z.eqb_eq in H3, H4.
  exact (conj H1 (conj H2 (conj H3 (conj H4 (conj H5 (conj H6 H7)))))).
Qed.

Lemma session_facts :
  gameOver (run (session 3050) session_start) = false /\
  gameWon (run (session 3050) session_start) = false /\
  lives (player (run (session 3050) session_start)) = 1%Z /\
  lives (player (Update (session_frame 3050) (run (session 3050) session_start))) = 0%Z /\
  allInvadersDestroyed
    (invaders (Update (session_frame 3050) (run (session 3050) session_start))) = true /\
  gameOver (Update (session_frame 3050) (run (session 3050) session_start)) = true /\
  gameWon (Update (session_frame 3050) (run (session 3050) session_start)) = true.
Proof.
  exact (check_split (run (session 3050) session_start) (session_frame 3050)
           session_check_true).
Qed.

Lemma complete_of_over (l : SpaceInvadersLevel) : gameOver l = true -> IsComplete l = true.
Proof. unfold IsComplete. intros ->. reflexivity. Qed.

Lemma invaders_flags_set_in_one_frame_witness :
  exists k f,
    nth_error (session 3051) k = Some f /\
    gameOver (run (firstn k (session 3051)) session_start) = false /\
    gameWon (run (firstn k (session 3051)) session_start) = false /\
    run (session 3051) session_start = Update f (run (firstn k (session 3051)) session_start) /\
    (gameOver (run (session 3051) session_start) = true <->
     (lives (player (run (session 3051) session_start)) <= 0)%Z \/
     reachedPlayer (run (firstn k (session 3051)) session_start)
                   (run (session 3051) session_start)).
Proof.
  destruct session_facts as (_ & _ & _ & _ & _ & Hover & _).
  destruct (invaders_flags_set_in_one_frame (newLevel GLOBAL_SCREEN_WIDTH GLOBAL_SCREEN_HEIGHT)
              (session 3051)
              (eq_trans (f_equal IsComplete session_last_frame)
                        (complete_of_over _ Hover)))
    as (k & f & H1 & H2 & H3 & _ & H4 & _ & _ & H5 & _).
  exists k, f. exact (conj H1 (conj H2 (conj H3 (conj H4 H5)))).
Defined.

(** C3 as stated fails.  At the end of this session of 3051 frames, reached
    from [Load] by [Update] steps only, the frame in which the fifth invader
    bullet takes the last life is the frame in which the player's bullet
    destroys the last invader: the loss flag and the win flag are both
    true, and the orchestrator's test counts the level as won. *)
Lemma invaders_loss_and_win_together :
  let before := run (session 3050) session_start in
  let after := run (session 3051) session_start in
  gameOver before = false /\ gameWon before = false /\
  lives (player before) = 1%Z /\
  after = Update (session_frame 3050) before /\
  lives (player after) = 0%Z /\
  allInvadersDestroyed (invaders after) = true /\
  gameOver after = true /\ gameWon after = true /\
  Game.levelSucceeded (Game.AnInvaders after) = true.
Proof.
  destruct session_facts as (H1 & H2 & H3 & H4 & H5 & H6 & H7).
  exact (conj H1 (conj H2 (conj H3 (conj session_last_frame
    (conj (eq_trans (f_equal (fun l => lives (player l)) session_last_frame) H4)
    (conj (eq_trans (f_equal (fun l => allInvadersDestroyed (invaders l)) session_last_frame) H5)
    (conj (eq_trans (f_equal gameOver session_last_frame) H6)
    (conj (eq_trans (f_equal gameWon session_last_frame) H7)
          (eq_trans (f_equal gameWon session_last_frame) H7))))))))).
Qed.

End InvadersFlags.

(** * Flappy: the pipe vector is never empty when [back()] is read *)

Section FlappyPipes.
Import Flappy.

Lemma back_app {A} (v : list A) (a : A) : back (v ++ [a]) = Some a.
Proof.
  unfold back. rewrite map_app. simpl. apply last_last.
Qed.

Lemma back_cons {A} (a : A) (v : list A) : exists b, back (a :: v) = Some b.
Proof.
  destruct (@exists_last _ (a :: v)) as [v' [b ->]]; [discriminate|].
  exists b. apply back_app.
Qed.

Lemma back_cons_cons {A} (a b : A) (v : list A) : back (a :: b :: v) = back (b :: v).
Proof. reflexivity. Qed.

Lemma spaced_tail p ps : spaced (p :: ps) -> spaced ps.
Proof. destruct ps; simpl; tauto. Qed.

Lemma spaced_app ps b q :
  spaced ps -> back ps = Some b ->
  pipeX q == pipeX b + FLAPPY_MIN_HORIZONTAL_PIPE_SPACING ->
  spaced (ps ++ [q]).
Proof.
  induction ps as [|p ps IH]; intros Hs Hb Hq; [discriminate|].
  destruct ps as [|p' ps].
  - simpl in *. injection Hb as <-. auto.
  - rewrite back_cons_cons in Hb. destruct Hs as [H1 H2].
    change (spaced (p :: (p' :: ps ++ [q]))). split; [exact H1|].
    apply (IH H2 Hb Hq).
Qed.

(** The x-coordinates after the loop are the old ones shifted by the same
    amount, whatever was scored. *)
Lemma pipeLoop_shape dt b ps c s :
  map pipeX (fst (fst (pipeLoop dt b ps c s)))
  = map (fun p => fsub (pipeX p) (fmul FLAPPY_PIPE_SPEED dt)) ps.
Proof.
  revert c s. induction ps as [|p ps IH]; intros c s; [reflexivity|].
  cbn [pipeLoop].
  set (c' := if hits b (Pipe_Update dt p) then true else c).
  destruct (negb (isScored (Pipe_Update dt p)) && passed b (Pipe_Update dt p));
    specialize (IH c');
    [ specialize (IH (s + 1)%Z); destruct (pipeLoop dt b ps c' (s + 1)%Z) as [[r c2] s2]
    | specialize (IH s); destruct (pipeLoop dt b ps c' s) as [[r c2] s2] ];
    cbn [fst map] in *; rewrite IH; f_equal.
Qed.

Lemma spaced_of_map ps qs d :
  map pipeX qs = map (fun p => fsub (pipeX p) d) ps -> spaced ps -> spaced qs.
Proof.
  revert qs. induction ps as [|p ps IH]; intros qs Hm Hs.
  - destruct qs; [exact I|discriminate].
  - destruct qs as [|q qs]; [discriminate|]. injection Hm as Hq Hm.
    destruct ps as [|p' ps].
    + destruct qs; [exact I|discriminate].
    + destruct qs as [|q' qs]; [discriminate|].
      destruct Hs as [H1 H2]. split.
      * injection Hm as Hq' _. rewrite Hq, Hq'. unfold fsub.
        rewrite !Qred_correct. rewrite H1. ring.
      * apply IH; assumption.
Qed.

Lemma pipeLoop_inv dt b ps c s :
  spaced ps -> (2 <= length ps)%nat ->
  spaced (fst (fst (pipeLoop dt b ps c s))) /\
  (2 <= length (fst (fst (pipeLoop dt b ps c s))))%nat.
Proof.
  intros Hs Hl. pose proof (pipeLoop_shape dt b ps c s) as Hm. split.
  - eapply spaced_of_map; eauto.
  - apply (f_equal (@length Q)) in Hm. rewrite !length_map in Hm. lia.
Qed.

Lemma twoFreshPipes_inv W H g a :
  let ps := fst (fst (twoFreshPipes W H g a)) in
  spaced ps /\ (2 <= length ps)%nat.
Proof.
  cbn. split; [|lia]. split; [|exact I].
  unfold pipeX. cbn. unfold fadd. rewrite Qred_correct. reflexivity.
Qed.

Lemma handleCollision_inv l : pipesInv l -> pipesInv (handleCollision l).
Proof.
  intros Hl. unfold handleCollision.
  destruct (fle _ 0); [exact Hl|].
  pose proof (twoFreshPipes_inv (screenWidth l) (screenHeight l) (m_gen l) (heap_next l)) as H.
  destruct (twoFreshPipes _ _ _ _) as [[ps g] a]. exact H.
Qed.

Lemma handleCollision_width l : screenWidth (handleCollision l) = screenWidth l.
Proof.
  unfold handleCollision. destruct (fle _ 0); [reflexivity|].
  destruct (twoFreshPipes _ _ _ _) as [[ps g] a]. reflexivity.
Qed.

(** After the front pipe has been dropped the vector still has an element,
    and a vector left with a single pipe has it far enough to the left for
    [GenerateNewPipe] to run in the same frame. *)
Lemma removeOffscreen_inv l :
  (420 <= screenWidth l)%Z -> pipesInv l ->
  exists b, back (m_pipes (removeOffscreen l)) = Some b /\
    spaced (m_pipes (removeOffscreen l)) /\
    screenWidth (removeOffscreen l) = screenWidth l /\
    ((2 <= length (m_pipes (removeOffscreen l)))%nat \/
     flt (pipeX b) (fsub (ofZ (screenWidth l)) FLAPPY_MIN_HORIZONTAL_PIPE_SPACING) = true).
Proof.
  intros HW [Hs Hl]. unfold removeOffscreen.
  destruct (m_pipes l) as [|p [|q rest]] eqn:E; cbn in Hl; try lia.
  destruct (flt _ 0) eqn:Hoff.
  - cbn [m_pipes withPipes screenWidth].
    destruct (back_cons q rest) as [b Hb]. exists b.
    split; [exact Hb|]. split; [apply (spaced_tail _ _ Hs)|]. split; [reflexivity|].
    destruct rest as [|r rest]; [right|left; cbn; lia].
    cbn in Hb. injection Hb as <-.
    destruct Hs as [Hq _]. apply flt_iff in Hoff. apply flt_iff.
    unfold fadd, getTopRect in Hoff. rewrite Qred_correct in Hoff.
    fold (pipeX p) in Hoff. unfold fsub. rewrite Qred_correct, Hq.
    unfold FLAPPY_MIN_HORIZONTAL_PIPE_SPACING, FLAPPY_PIPE_WIDTH, ofZ in *.
    assert (inject_Z 420 <= inject_Z (screenWidth l)) by (rewrite <- Zle_Qle; exact HW).
    change (inject_Z 420) with 420 in H. change (inject_Z 80) with 80 in Hoff. lra.
  - rewrite E. destruct (back_cons p (q :: rest)) as [b Hb]. exists b.
    split; [exact Hb|]. split; [exact Hs|]. split; [reflexivity|].
    left. cbn. lia.
Qed.

Lemma GenerateNewPipe_pipes l b :
  back (m_pipes l) = Some b ->
  exists q, m_pipes (GenerateNewPipe l) = m_pipes l ++ [q] /\
            pipeX q == pipeX b + FLAPPY_MIN_HORIZONTAL_PIPE_SPACING.
Proof.
  intros Hb. unfold GenerateNewPipe. rewrite Hb. cbn.
  eexists. split; [reflexivity|]. unfold pipeX. cbn. unfold fadd.
  rewrite Qred_correct. reflexivity.
Qed.

Lemma movePhase_inv f l :
  pipesInv l ->
  pipesInv (fst (movePhase f l)) /\ screenWidth (fst (movePhase f l)) = screenWidth l.
Proof.
  intros Hinv. unfold movePhase. cbn [m_bird withBird m_pipes m_score].
  pose proof (pipeLoop_inv (deltaTime f) (Bird_Update (deltaTime f) (m_bird l))
                (m_pipes l) false (m_score l) (proj1 Hinv) (proj2 Hinv)) as Hloop.
  destruct (pipeLoop _ _ _ _ _) as [[ps c] s]. cbn [fst] in *. split; [exact Hloop|reflexivity].
Qed.

Lemma Update_inv f l :
  (420 <= screenWidth l)%Z -> pipesInv l ->
  exists l', Update f l = Some l' /\ pipesInv l' /\ screenWidth l' = screenWidth l.
Proof.
  intros HW Hinv. unfold Update.
  destruct (m_currentScreen l) eqn:Hscr; try (eexists; split; [reflexivity|]; split; [assumption|reflexivity]).
  - eexists; split; [reflexivity|]. destruct (spacePressed f); split; auto.
  - destruct (movePhase_inv f l Hinv) as [H1 W1].
    destruct (movePhase f l) as [l1 c]. cbn [fst] in *.
    set (l2 := if c then handleCollision l1 else l1).
    assert (H2 : pipesInv l2 /\ screenWidth l2 = screenWidth l).
    { subst l2. destruct c.
      - split; [apply handleCollision_inv; exact H1|]. rewrite handleCollision_width. exact W1.
      - split; assumption. }
    destruct H2 as [H2 W2].
    destruct (removeOffscreen_inv l2) as [b [Hb [Hsp [W3 Hlen]]]]; [lia|exact H2|].
    rewrite Hb.
    eexists. split; [reflexivity|].
    set (l3 := removeOffscreen l2) in *.
    set (l4 := if flt _ _ then GenerateNewPipe l3 else l3).
    assert (H4 : pipesInv l4 /\ screenWidth l4 = screenWidth l).
    { subst l4. rewrite W3, W2 in *. destruct (flt (r_x (getTopRect b)) _) eqn:Hgen.
      - destruct (GenerateNewPipe_pipes l3 b Hb) as [q [Hq1 Hq2]].
        split; [split|].
        + rewrite Hq1. eapply spaced_app; eauto.
        + rewrite Hq1, length_app. cbn. destruct (m_pipes l3); [discriminate|cbn; lia].
        + unfold GenerateNewPipe. destruct (draw _). cbn. lia.
      - split; [split; auto|lia].
        destruct Hlen as [Hlen|Hlen]; [exact Hlen|].
        unfold getTopRect in Hgen. fold (pipeX b) in Hgen. congruence. }
    destruct H4 as [H4 W4].
    destruct (_ >=? _)%Z; destruct (spacePressed f); split; auto.
Qed.

Lemma InitFlappyGame_inv W H g a : pipesInv (InitFlappyGame W H g a).
Proof.
  unfold InitFlappyGame.
  pose proof (twoFreshPipes_inv W H g a) as Hp.
  destruct (twoFreshPipes W H g a) as [[ps g'] a']. exact Hp.
Qed.

Lemma run_inv fs : forall l,
  (420 <= screenWidth l)%Z -> pipesInv l ->
  exists l', run fs l = Some l' /\ pipesInv l' /\ screenWidth l' = screenWidth l.
Proof.
  induction fs as [|f fs IH]; intros l HW Hinv.
  - exists l. repeat split; try apply Hinv.
  - destruct (Update_inv f l HW Hinv) as [l1 [H1 [I1 W1]]].
    cbn [run]. rewrite H1.
    destruct (IH l1) as [l' [H' [I' W']]]; [lia|exact I1|].
    exists l'. split; [exact H'|]. split; [exact I'|lia].
Qed.

(** C10.  From the state [Load] builds for the game's viewport, no sequence
    of frames ever reads [m_pipes.back()] on an empty vector: every [Update]
    is defined, and the vector holds at least two pipes after each frame. *)
Theorem flappy_back_never_on_empty (g : nat -> Z) (a : nat) (fs : list Frame) :
  exists l', run fs (InitFlappyGame GLOBAL_SCREEN_WIDTH GLOBAL_SCREEN_HEIGHT g a) = Some l'
             /\ (2 <= length (m_pipes l'))%nat.
Proof.
  destruct (run_inv fs (InitFlappyGame GLOBAL_SCREEN_WIDTH GLOBAL_SCREEN_HEIGHT g a))
    as [l' [H1 [[_ H2] _]]].
  - unfold InitFlappyGame. destruct (twoFreshPipes _ _ _ _) as [[ps g'] a']. cbn. unfold GLOBAL_SCREEN_WIDTH. lia.
  - apply InitFlappyGame_inv.
  - exists l'. split; assumption.
Qed.

End FlappyPipes.

(** * Flappy: what a damaging collision leads to *)

Section FlappyDamage.
Import Flappy.

Lemma Bird_Update_fields dt b :
  m_radius (Bird_Update dt b) = m_radius b /\
  b_screenH (Bird_Update dt b) = b_screenH b /\
  b_screenW (Bird_Update dt b) = b_screenW b /\
  m_health (Bird_Update dt b) = m_health b /\
  v_x (m_position (Bird_Update dt b)) = v_x (m_position b).
Proof.
  unfold Bird_Update. cbn [setVelocityY setPosition m_position m_velocityY m_radius v_x v_y
                           b_screenH b_screenW m_health].
  destruct (flt _ (fmul (m_radius b) (3 # 2)));
    cbn [setVelocityY setPosition m_position m_velocityY m_radius v_x v_y b_screenH b_screenW m_health];
    destruct (fgt _ _);
    cbn [setVelocityY setPosition m_position m_velocityY m_radius v_x v_y b_screenH b_screenW m_health];
    repeat split.
Qed.

Lemma takeDamage_health_nonneg amount b : 0 <= m_health (takeDamage amount b).
Proof.
  unfold takeDamage. cbn [setHealth m_health].
  destruct (flt (fsub (m_health b) amount) 0) eqn:E; cbn [setHealth m_health].
  - lra.
  - destruct (Qlt_le_dec (fsub (m_health b) amount) 0) as [C|C]; [|exact C].
    apply flt_iff in C. congruence.
Qed.

Lemma takeDamage_rest amount b :
  m_position (takeDamage amount b) = m_position b /\
  m_velocityY (takeDamage amount b) = m_velocityY b /\
  m_radius (takeDamage amount b) = m_radius b.
Proof.
  unfold takeDamage. cbn [setHealth m_health].
  destruct (flt _ 0); repeat split.
Qed.

Lemma fle_0_iff_zero h : 0 <= h -> (fle h 0 = true <-> h == 0).
Proof. intros Hh. rewrite fle_iff. split; intro; lra. Qed.

Lemma movePhase_fields f l :
  let l1 := fst (movePhase f l) in
  screenWidth l1 = screenWidth l /\ screenHeight l1 = screenHeight l /\
  m_gen l1 = m_gen l /\ heap_next l1 = heap_next l /\
  m_currentScreen l1 = m_currentScreen l /\ m_levelFinished l1 = m_levelFinished l /\
  m_playerWonLevel l1 = m_playerWonLevel l.
Proof.
  unfold movePhase. destruct (pipeLoop _ _ _ _ _) as [[ps c] s]. cbn. repeat split.
Qed.

(** The fresh pipes stand at the right edge: they are not dropped, and no
    third pipe is generated behind them in the same frame. *)
Lemma fresh_pipes_stay W :
  (0 <= W)%Z ->
  flt (fadd (ofZ W) (ofZ FLAPPY_PIPE_WIDTH)) 0 = false /\
  flt (fadd (ofZ W) FLAPPY_MIN_HORIZONTAL_PIPE_SPACING)
      (fsub (ofZ W) FLAPPY_MIN_HORIZONTAL_PIPE_SPACING) = false.
Proof.
  intros HW.
  assert (HQ : 0 <= inject_Z W) by (change 0 with (inject_Z 0); rewrite <- Zle_Qle; exact HW).
  split.
  - destruct (flt _ 0) eqn:E; [|reflexivity]. apply flt_iff in E.
    unfold fadd, ofZ, FLAPPY_PIPE_WIDTH in E. rewrite Qred_correct in E.
    change (inject_Z 80) with 80 in E. lra.
  - destruct (flt _ _) eqn:E; [|reflexivity]. apply flt_iff in E.
    unfold fadd, fsub, ofZ, FLAPPY_MIN_HORIZONTAL_PIPE_SPACING in E.
    rewrite !Qred_correct in E. lra.
Qed.

(** What the steps after the collision block leave of the state [l2] the
    block has produced: the bird where it is, its health, the score; the
    flap sets the velocity; and the score test decides the end. *)
Lemma Update_after_block f l l' :
  m_currentScreen l = FLAPPY_PLAYING -> Update f l = Some l' ->
  let l2 := if snd (movePhase f l) then handleCollision (fst (movePhase f l))
            else fst (movePhase f l) in
  m_position (m_bird l') = m_position (m_bird l2) /\
  m_health (m_bird l') = m_health (m_bird l2) /\
  m_velocityY (m_bird l')
  = (if spacePressed f then FLAPPY_BIRD_JUMP_STRENGTH else m_velocityY (m_bird l2)) /\
  m_score l' = m_score l2 /\
  (if (m_score l2 >=? FLAPPY_WIN_SCORE)%Z
   then m_currentScreen l' = FLAPPY_WIN /\ m_levelFinished l' = true /\
        m_playerWonLevel l' = true
   else m_currentScreen l' = m_currentScreen l2 /\
        m_levelFinished l' = m_levelFinished l2 /\
        m_playerWonLevel l' = m_playerWonLevel l2).
Proof.
  intros Hscr Hup. unfold Update in Hup. rewrite Hscr in Hup.
  destruct (movePhase f l) as [l1 c]. cbn [fst snd].
  set (l2 := if c then handleCollision l1 else l1) in *. clearbody l2.
  assert (H3 : let l3 := removeOffscreen l2 in
    m_bird l3 = m_bird l2 /\ m_score l3 = m_score l2 /\
    m_currentScreen l3 = m_currentScreen l2 /\ m_levelFinished l3 = m_levelFinished l2 /\
    m_playerWonLevel l3 = m_playerWonLevel l2).
  { unfold removeOffscreen. destruct (m_pipes l2) as [|p ps]; [repeat split|].
    destruct (flt _ 0); cbn; repeat split. }
  set (l3 := removeOffscreen l2) in *. clearbody l3.
  destruct H3 as (E2 & E3 & E4 & E5 & E6).
  destruct (back (m_pipes l3)) as [b|]; [|discriminate].
  match type of Hup with context [if flt ?x ?y then GenerateNewPipe l3 else l3] =>
    assert (H4 : let l4 := if flt x y then GenerateNewPipe l3 else l3 in
      m_bird l4 = m_bird l2 /\ m_score l4 = m_score l2 /\
      m_currentScreen l4 = m_currentScreen l2 /\ m_levelFinished l4 = m_levelFinished l2 /\
      m_playerWonLevel l4 = m_playerWonLevel l2)
      by (destruct (flt x y); [unfold GenerateNewPipe; cbn|]; auto);
    set (l4 := if flt x y then GenerateNewPipe l3 else l3) in *; clearbody l4
  end.
  destruct H4 as (F2 & F3 & F4 & F5 & F6).
  injection Hup as <-. rewrite <- F3, <- F2, <- F4, <- F5, <- F6.
  destruct (m_score l4 >=? FLAPPY_WIN_SCORE)%Z; destruct (spacePressed f); cbn; auto 10.
Qed.

Lemma takeDamage_amount b :
  (m_health b - FLAPPY_DAMAGE_PER_HIT < 0 ->
   m_health (takeDamage FLAPPY_DAMAGE_PER_HIT b) == 0) /\
  (0 <= m_health b - FLAPPY_DAMAGE_PER_HIT ->
   m_health (takeDamage FLAPPY_DAMAGE_PER_HIT b) == m_health b - FLAPPY_DAMAGE_PER_HIT).
Proof.
  unfold takeDamage. cbn [setHealth m_health].
  pose proof (fsub_eq (m_health b) FLAPPY_DAMAGE_PER_HIT) as E.
  destruct (flt (fsub (m_health b) FLAPPY_DAMAGE_PER_HIT) 0) eqn:F; cbn [setHealth m_health].
  - apply flt_iff in F. split; intros H; [reflexivity|lra].
  - apply flt_false_iff in F. split; intros H; [lra|exact E].
Qed.

Lemma movePhase_health f l :
  m_health (m_bird (fst (movePhase f l))) = m_health (m_bird l).
Proof.
  unfold movePhase. cbn [withBird m_bird m_pipes m_score].
  destruct (pipeLoop _ _ _ _ _) as [[ps c] s]. cbn [fst withScore withPipes withBird m_bird].
  apply Bird_Update_fields.
Qed.

(** C6, as the code has it.  In a playing frame whose collision test fired,
    the bird's health drops by the fixed damage, to 0 at the least, and the
    frame ends with that health and with the score the pipes of the frame
    have brought.  At 0 the collision block sets the sub-state to GameOver
    and finishes the level as a loss, and it resets nothing: the pipes stay
    and the bird stays where the frame moved it.  The level is complete at
    the end of the frame: as a loss when the score is below the target, and
    as a win when it has reached it, for the score test comes later in the
    frame.  Above 0 the frame ends with the bird at its start position, its
    velocity 0 (the jump strength when the flap key was pressed in that
    frame) and the pipes replaced by two fresh ones; the level is still
    playing and not finished when the score is below the target, and
    finished as a win when it has reached it. *)
Theorem flappy_damage_outcome (f : Frame) (l l' : FlappyLevel) :
  m_currentScreen l = FLAPPY_PLAYING ->
  m_levelFinished l = false ->
  (0 <= screenWidth l)%Z ->
  Update f l = Some l' ->
  snd (movePhase f l) = true ->
  let l1 := fst (movePhase f l) in
  let hurt := takeDamage FLAPPY_DAMAGE_PER_HIT (m_bird l1) in
  (m_health (m_bird l) - FLAPPY_DAMAGE_PER_HIT < 0 -> m_health hurt == 0) /\
  (0 <= m_health (m_bird l) - FLAPPY_DAMAGE_PER_HIT ->
   m_health hurt == m_health (m_bird l) - FLAPPY_DAMAGE_PER_HIT) /\
  m_health (m_bird l') = m_health hurt /\
  m_score l' = m_score l1 /\
  (m_health hurt == 0 \/ 0 < m_health hurt) /\
  (m_health hurt == 0 ->
     m_currentScreen (handleCollision l1) = FLAPPY_GAME_OVER /\
     m_levelFinished (handleCollision l1) = true /\
     m_playerWonLevel (handleCollision l1) = false /\
     m_pipes (handleCollision l1) = m_pipes l1 /\
     m_position (m_bird l') = m_position (m_bird l1) /\
     IsComplete l' = true /\
     ((m_score l1 < FLAPPY_WIN_SCORE)%Z ->
        m_currentScreen l' = FLAPPY_GAME_OVER /\ DidPlayerWinThisLevel l' = false) /\
     ((FLAPPY_WIN_SCORE <= m_score l1)%Z ->
        m_currentScreen l' = FLAPPY_WIN /\ DidPlayerWinThisLevel l' = true)) /\
  (0 < m_health hurt ->
     m_position (m_bird l') = startPosition l /\
     m_velocityY (m_bird l') = (if spacePressed f then FLAPPY_BIRD_JUMP_STRENGTH else 0) /\
     m_pipes l' = fst (fst (twoFreshPipes (screenWidth l) (screenHeight l) (m_gen l) (heap_next l))) /\
     ((m_score l1 < FLAPPY_WIN_SCORE)%Z ->
        m_currentScreen l' = FLAPPY_PLAYING /\ IsComplete l' = false) /\
     ((FLAPPY_WIN_SCORE <= m_score l1)%Z ->
        m_currentScreen l' = FLAPPY_WIN /\ IsComplete l' = true /\
        DidPlayerWinThisLevel l' = true)).
Proof.
  intros Hscr Hfin HW Hup Hc l1 hurt.
  pose proof (takeDamage_health_nonneg FLAPPY_DAMAGE_PER_HIT (m_bird l1)) as Hnn.
  fold hurt in Hnn.
  pose proof (Update_after_block f l l' Hscr Hup) as T. cbv zeta in T.
  rewrite Hc in T. fold l1 in T. destruct T as (Tp & Th & Tv & Ts & Te).
  destruct (takeDamage_amount (m_bird l1)) as [D1 D2]. fold hurt in D1, D2.
  pose proof (movePhase_health f l) as Eh. fold l1 in Eh. rewrite Eh in D1, D2.
  destruct (movePhase_fields f l) as (EW & EH & Eg & Ea & Es & Ef & Ew).
  fold l1 in EW, EH, Eg, Ea, Es, Ef, Ew.
  destruct (takeDamage_rest FLAPPY_DAMAGE_PER_HIT (m_bird l1)) as (Rp & _ & _).
  fold hurt in Rp.
  assert (Hzero : m_health hurt == 0 ->
    handleCollision l1
    = mkFlappy (screenWidth l1) (screenHeight l1) hurt (m_pipes l1) (m_score l1)
               FLAPPY_GAME_OVER (m_gen l1) true false (heap_next l1)).
  { intros Hz. unfold handleCollision. fold hurt.
    rewrite (proj2 (fle_0_iff_zero _ Hnn) Hz). reflexivity. }
  assert (Hpos : 0 < m_health hurt ->
    handleCollision l1
    = (let bird := setVelocityY 0 (setPosition (startPosition l) hurt) in
       let '(pipes, g, a) :=
         twoFreshPipes (screenWidth l) (screenHeight l) (m_gen l) (heap_next l) in
       mkFlappy (screenWidth l) (screenHeight l) bird pipes (m_score l1)
                (m_currentScreen l1) g (m_levelFinished l1) (m_playerWonLevel l1) a)).
  { intros Hp. unfold handleCollision. fold hurt.
    assert (Hle : fle (m_health hurt) 0 = false).
    { destruct (fle (m_health hurt) 0) eqn:E; [|reflexivity]. apply fle_iff in E. lra. }
    rewrite Hle. unfold startPosition. rewrite EW, EH, Eg, Ea. reflexivity. }
  assert (Hscore : m_score (handleCollision l1) = m_score l1).
  { unfold handleCollision. destruct (fle _ 0); [reflexivity|].
    destruct (twoFreshPipes _ _ _ _) as [[ps g] a]. reflexivity. }
  assert (Hhealth : m_health (m_bird (handleCollision l1)) = m_health hurt).
  { unfold handleCollision. fold hurt. destruct (fle _ 0); [reflexivity|].
    destruct (twoFreshPipes _ _ _ _) as [[ps g] a]. reflexivity. }
  rewrite Hscore in Ts, Te. rewrite Hhealth in Th.
  split; [exact D1|]. split; [exact D2|]. split; [exact Th|]. split; [exact Ts|].
  split; [destruct (Qlt_le_dec 0 (m_health hurt)); [right; assumption|left; lra]|].
  split.
  - intros Hz. specialize (Hzero Hz). rewrite Hzero in *.
    cbn [m_currentScreen m_levelFinished m_playerWonLevel m_pipes m_bird] in *.
    split; [reflexivity|]. split; [reflexivity|]. split; [reflexivity|].
    split; [reflexivity|]. split; [rewrite Tp; exact Rp|].
    unfold IsComplete, DidPlayerWinThisLevel.
    destruct (m_score l1 >=? FLAPPY_WIN_SCORE)%Z eqn:Eg';
      destruct Te as (T1 & T2 & T3); (split; [exact T2|]); split; intros Hs.
    + rewrite Z.geb_leb in Eg'. apply Z.leb_le in Eg'. lia.
    + auto.
    + auto.
    + rewrite Z.geb_leb in Eg'. apply Z.leb_gt in Eg'. lia.
  - intros Hp. specialize (Hpos Hp).
    destruct (fresh_pipes_stay (screenWidth l) HW) as [Hkeep Hnogen].
    assert (Hpipes : m_pipes l'
              = fst (fst (twoFreshPipes (screenWidth l) (screenHeight l) (m_gen l) (heap_next l)))).
    { unfold Update in Hup. rewrite Hscr in Hup.
      destruct (movePhase f l) as [l1' c] eqn:Emp. cbn [fst snd] in *. subst c l1.
      rewrite Hpos in Hup. cbn in Hup. unfold removeOffscreen in Hup. cbn in Hup.
      unfold getTopRect in Hup. cbn in Hup. rewrite Hkeep in Hup. cbn in Hup.
      rewrite Hnogen in Hup. cbn in Hup. injection Hup as <-.
      destruct (m_score l1' >=? FLAPPY_WIN_SCORE)%Z; destruct (spacePressed f); reflexivity. }
    rewrite Hpos in Tp, Tv, Te. cbn in Tp, Tv, Te.
    split; [exact Tp|]. split; [exact Tv|]. split; [exact Hpipes|].
    unfold IsComplete, DidPlayerWinThisLevel.
    destruct (m_score l1 >=? FLAPPY_WIN_SCORE)%Z eqn:Eg';
      destruct Te as (T1 & T2 & T3); split; intros Hs.
    + rewrite Z.geb_leb in Eg'. apply Z.leb_le in Eg'. lia.
    + auto.
    + split; congruence.
    + rewrite Z.geb_leb in Eg'. apply Z.leb_gt in Eg'. lia.
Qed.

Lemma flappy_damage_outcome_witness :
  exists l',
    Update (quiet (48#5)) (withScreen FLAPPY_PLAYING flappy_session_start) = Some l' /\
    m_health (m_bird l') == 75 /\
    m_position (m_bird l') = startPosition flappy_session_start /\
    m_currentScreen l' = FLAPPY_PLAYING /\ IsComplete l' = false.
Proof.
  eexists. split; [vm_compute; reflexivity|].
  match goal with |- m_health (m_bird ?x) == _ /\ _ =>
    destruct (flappy_damage_outcome (quiet (48#5))
                (withScreen FLAPPY_PLAYING flappy_session_start) x)
      as (_ & H2 & H3 & _ & _ & _ & H)
  end; try reflexivity.
  - vm_compute. discriminate.
  - split; [rewrite H3; apply H2; vm_compute; discriminate|].
    destruct H as (H1 & _ & _ & H5 & _).
    + vm_compute. reflexivity.
    + split; [exact H1|]. apply H5. vm_compute. reflexivity.
Defined.

(** C6 as stated fails: at the end of this session the collision takes the
    bird's health to exactly 0, and the frame ends in the Win sub-state with
    the level finished as won, because the tenth pipe is scored in the same
    frame and the win test runs after the collision block. *)
Lemma flappy_zero_health_can_end_as_win :
  exists l l',
    run flappy_session flappy_session_start = Some l /\
    m_currentScreen l = FLAPPY_PLAYING /\
    snd (movePhase flappy_last_frame l) = true /\
    m_health (takeDamage FLAPPY_DAMAGE_PER_HIT (m_bird (fst (movePhase flappy_last_frame l)))) == 0 /\
    Update flappy_last_frame l = Some l' /\
    m_currentScreen l' = FLAPPY_WIN /\ IsComplete l' = true /\
    DidPlayerWinThisLevel l' = true.
Proof.
  eexists. eexists. split; [vm_compute; reflexivity|].
  split; [reflexivity|]. split; [vm_compute; reflexivity|].
  split; [vm_compute; reflexivity|].
  split; [vm_compute; reflexivity|].
  repeat split.
Qed.

End FlappyDamage.

(** * Flappy: a pipe is scored once, when it is first past the bird *)

Section FlappyScoring.
Import Flappy.

Lemma pipeLoop_spec dt b ps c s :
  fst (fst (pipeLoop dt b ps c s)) = map (stepPipe dt b) ps /\
  snd (pipeLoop dt b ps c s)
  = (s + Z.of_nat (length (filter (fun p => negb (m_scored p) && passed b (Pipe_Update dt p)) ps)))%Z.
Proof.
  revert c s. induction ps as [|p ps IH]; intros c s.
  - cbn. split; [reflexivity|lia].
  - cbn [pipeLoop map filter]. unfold stepPipe at 1.
    change (isScored (Pipe_Update dt p)) with (m_scored p).
    set (c' := if hits b (Pipe_Update dt p) then true else c).
    destruct (negb (m_scored p) && passed b (Pipe_Update dt p)).
    + specialize (IH c' (s + 1)%Z). destruct (pipeLoop dt b ps c' (s + 1)%Z) as [[r c2] s2].
      cbn [fst snd length] in *. destruct IH as [-> ->]. split; [reflexivity|lia].
    + specialize (IH c' s). destruct (pipeLoop dt b ps c' s) as [[r c2] s2].
      cbn [fst snd] in *. destruct IH as [-> ->]. split; reflexivity.
Qed.

Lemma stepPipe_addr dt b p : p_addr (stepPipe dt b p) = p_addr p.
Proof. unfold stepPipe. destruct (_ && _); reflexivity. Qed.

Lemma stepPipe_scored dt b p :
  m_scored (stepPipe dt b p) = m_scored p || passed b (Pipe_Update dt p).
Proof.
  unfold stepPipe. change (isScored (Pipe_Update dt p)) with (m_scored p).
  destruct (m_scored p) eqn:E; cbn.
  - exact E.
  - destruct (passed b (Pipe_Update dt p)); cbn; [reflexivity|exact E].
Qed.

Lemma movePhase_pipes f l :
  m_pipes (fst (movePhase f l))
  = map (stepPipe (deltaTime f) (Bird_Update (deltaTime f) (m_bird l))) (m_pipes l).
Proof.
  unfold movePhase. cbn [m_bird withBird m_pipes m_score].
  pose proof (pipeLoop_spec (deltaTime f) (Bird_Update (deltaTime f) (m_bird l))
                (m_pipes l) false (m_score l)) as [H _].
  destruct (pipeLoop _ _ _ _ _) as [[ps c] s]. exact H.
Qed.

Lemma movePhase_score f l :
  m_score (fst (movePhase f l)) = (m_score l + Z.of_nat (length (flipping f l)))%Z.
Proof.
  unfold movePhase. cbn [m_bird withBird m_pipes m_score].
  pose proof (pipeLoop_spec (deltaTime f) (Bird_Update (deltaTime f) (m_bird l))
                (m_pipes l) false (m_score l)) as [_ H].
  destruct (pipeLoop _ _ _ _ _) as [[ps c] s]. exact H.
Qed.

Lemma same_addr_same_pipe ps p q :
  NoDup (map p_addr ps) -> In p ps -> In q ps -> p_addr p = p_addr q -> p = q.
Proof.
  induction ps as [|r ps IH]; intros Hnd Hp Hq Ha; [contradiction|].
  cbn in Hnd. inversion Hnd as [|? ? Hnotin Hnd']; subst.
  destruct Hp as [->|Hp], Hq as [->|Hq]; auto.
  - exfalso. apply Hnotin. rewrite Ha. apply in_map. exact Hq.
  - exfalso. apply Hnotin. rewrite <- Ha. apply in_map. exact Hp.
Qed.

Lemma wellAddressed_step dt b ps a :
  wellAddressed ps a -> wellAddressed (map (stepPipe dt b) ps) a.
Proof.
  intros [Hnd Hlt]. split.
  - rewrite map_map. erewrite map_ext; [exact Hnd|]. intros p. apply stepPipe_addr.
  - intros p Hp. apply in_map_iff in Hp. destruct Hp as [q [<- Hq]].
    rewrite stepPipe_addr. apply Hlt, Hq.
Qed.

Lemma extends_refl ps a : wellAddressed ps a -> extends ps a ps a.
Proof. intros H. split; [lia|]. split; [exact H|]. intros p Hp. left. exact Hp. Qed.

Lemma extends_trans ps a ps1 a1 ps2 a2 :
  extends ps a ps1 a1 -> extends ps1 a1 ps2 a2 -> extends ps a ps2 a2.
Proof.
  intros (H1 & W1 & E1) (H2 & W2 & E2). split; [lia|]. split; [exact W2|].
  intros p Hp. destruct (E2 p Hp) as [Hin|[Hge Hs]].
  - apply E1, Hin.
  - right. split; [lia|exact Hs].
Qed.

Lemma handleCollision_extends l :
  wellAddressed (m_pipes l) (heap_next l) ->
  extends (m_pipes l) (heap_next l) (m_pipes (handleCollision l)) (heap_next (handleCollision l)).
Proof.
  intros HW. unfold handleCollision. destruct (fle _ 0).
  - apply extends_refl, HW.
  - cbn. split; [lia|]. split; [split|].
    + cbn. constructor; [cbn; intros [H|[]]; lia|]. constructor; [intros []|constructor].
    + cbn. intros p [<-|[<-|[]]]; cbn; lia.
    + cbn. intros p [<-|[<-|[]]]; right; cbn; split; auto; lia.
Qed.

Lemma removeOffscreen_extends l :
  wellAddressed (m_pipes l) (heap_next l) ->
  extends (m_pipes l) (heap_next l) (m_pipes (removeOffscreen l)) (heap_next (removeOffscreen l)).
Proof.
  intros HW. unfold removeOffscreen.
  destruct (m_pipes l) as [|p rest] eqn:E; [rewrite E; apply extends_refl, HW|].
  destruct (flt _ 0); [|rewrite E; apply extends_refl, HW].
  cbn. destruct HW as [Hnd Hlt]. split; [lia|]. split; [split|].
  - cbn in Hnd. inversion Hnd; assumption.
  - intros q Hq. apply Hlt. right. exact Hq.
  - intros q Hq. left. right. exact Hq.
Qed.

Lemma GenerateNewPipe_extends l :
  wellAddressed (m_pipes l) (heap_next l) ->
  extends (m_pipes l) (heap_next l) (m_pipes (GenerateNewPipe l)) (heap_next (GenerateNewPipe l)).
Proof.
  intros [Hnd Hlt]. unfold GenerateNewPipe. cbn. split; [lia|]. split; [split|].
  - rewrite map_app. cbn. apply NoDup_app.
    + exact Hnd.
    + constructor; [intros []|constructor].
    + intros a Ha [<-|[]]. apply in_map_iff in Ha. destruct Ha as [q [Hq1 Hq2]].
      specialize (Hlt q Hq2). lia.
  - intros q Hq. apply in_app_iff in Hq. destruct Hq as [Hq|[<-|[]]].
    + specialize (Hlt q Hq). lia.
    + cbn. lia.
  - intros q Hq. apply in_app_iff in Hq. destruct Hq as [Hq|[<-|[]]].
    + left. exact Hq.
    + right. cbn. split; [lia|reflexivity].
Qed.

(** What a playing frame does to the vector after the loop. *)
Lemma Update_playing_extends f l l' :
  m_currentScreen l = FLAPPY_PLAYING -> Update f l = Some l' ->
  wellAddressed (m_pipes l) (heap_next l) ->
  extends (m_pipes (fst (movePhase f l))) (heap_next l) (m_pipes l') (heap_next l').
Proof.
  intros Hscr Hup HW. unfold Update in Hup. rewrite Hscr in Hup.
  assert (W1 : wellAddressed (m_pipes (fst (movePhase f l))) (heap_next (fst (movePhase f l)))).
  { rewrite movePhase_pipes. destruct (movePhase_fields f l) as (_ & _ & _ & -> & _).
    apply wellAddressed_step, HW. }
  destruct (movePhase_fields f l) as (_ & _ & _ & Ea & _). rewrite <- Ea.
  destruct (movePhase f l) as [l1 c]. cbn [fst] in *.
  set (l2 := if c then handleCollision l1 else l1) in *.
  assert (E2 : extends (m_pipes l1) (heap_next l1) (m_pipes l2) (heap_next l2)).
  { subst l2. destruct c; [apply handleCollision_extends|apply extends_refl]; exact W1. }
  pose proof (removeOffscreen_extends l2 (proj1 (proj2 E2))) as E3.
  set (l3 := removeOffscreen l2) in *.
  destruct (back (m_pipes l3)) as [b|]; [|discriminate].
  injection Hup as <-.
  set (l4 := if flt _ _ then GenerateNewPipe l3 else l3).
  assert (E4 : extends (m_pipes l3) (heap_next l3) (m_pipes l4) (heap_next l4)).
  { subst l4. destruct (flt _ _); [apply GenerateNewPipe_extends|apply extends_refl];
      exact (proj1 (proj2 E3)). }
  pose proof (extends_trans _ _ _ _ _ _ (extends_trans _ _ _ _ _ _ E2 E3) E4) as E.
  destruct (_ >=? _)%Z; destruct (spacePressed f); exact E.
Qed.

Lemma Update_other_pipes f l l' :
  m_currentScreen l <> FLAPPY_PLAYING -> Update f l = Some l' ->
  m_pipes l' = m_pipes l /\ heap_next l' = heap_next l.
Proof.
  intros Hscr Hup. unfold Update in Hup.
  destruct (m_currentScreen l); try congruence; injection Hup as <-; auto.
  destruct (spacePressed f); auto.
Qed.

Lemma PassedBefore_app h h' a :
  PassedBefore (h ++ h') a <-> PassedBefore h a \/ PassedBefore h' a.
Proof.
  unfold PassedBefore. split.
  - intros (f & l & p & Hin & H). apply in_app_iff in Hin.
    destruct Hin; [left|right]; exists f, l, p; tauto.
  - intros [(f & l & p & Hin & H)|(f & l & p & Hin & H)]; exists f, l, p;
      (split; [apply in_app_iff; tauto|exact H]).
Qed.

Lemma scoreInv_step h f l l' :
  scoreInv h l -> Update f l = Some l' -> scoreInv (h ++ [(f, l)]) l'.
Proof.
  intros (HW & Hold & Hsc) Hup.
  destruct (m_currentScreen l) eqn:Hscr.
  2:{ (* playing *)
    pose proof (Update_playing_extends f l l' Hscr Hup HW) as (Hle & HW' & Horig).
    split; [exact HW'|]. split.
    - intros f0 lj p Hin Hp. apply in_app_iff in Hin. destruct Hin as [Hin|[Heq|[]]].
      + specialize (Hold f0 lj p Hin Hp). lia.
      + injection Heq as <- <-. pose proof (proj2 HW p Hp). lia.
    - intros p' Hp'. rewrite PassedBefore_app.
      destruct (Horig p' Hp') as [Hin|[Hfresh Hun]].
      + rewrite movePhase_pipes in Hin. apply in_map_iff in Hin.
        destruct Hin as [p [<- Hp]]. rewrite stepPipe_addr, stepPipe_scored.
        fold (passedAt f l p). rewrite orb_true_iff, (Hsc p Hp). split.
        * intros [H|H]; [left; exact H|right]. exists f, l, p. cbn. auto.
        * intros [H|(f0 & l0 & q & [Heq|[]] & _ & Hq & Ha & Hpass)]; [left; exact H|right].
          injection Heq as <- <-.
          rewrite (same_addr_same_pipe _ p q (proj1 HW) Hp Hq (eq_sym Ha)). exact Hpass.
      + rewrite Hun. split; [discriminate|]. intros H. exfalso.
        destruct H as [(f0 & l0 & q & Hin & _ & Hq & Ha & _)|(f0 & l0 & q & [Heq|[]] & _ & Hq & Ha & _)].
        * specialize (Hold f0 l0 q Hin Hq). lia.
        * injection Heq as <- <-. pose proof (proj2 HW q Hq). lia. }
  all: assert (Hne : m_currentScreen l <> FLAPPY_PLAYING) by congruence;
    destruct (Update_other_pipes f l l' Hne Hup) as [Ep Ea]; unfold scoreInv; rewrite Ep, Ea;
    (split; [exact HW|]); split;
    [ intros f0 lj p Hin Hp; apply in_app_iff in Hin; destruct Hin as [Hin|[Heq|[]]];
      [ exact (Hold f0 lj p Hin Hp) | injection Heq as <- <-; exact (proj2 HW p Hp) ]
    | intros p Hp; rewrite PassedBefore_app, (Hsc p Hp); split;
      [ intros H; left; exact H
      | intros [H|(f0 & l0 & q & [Heq|[]] & Hpl & _)]; [exact H|];
        injection Heq as <- <-; congruence ] ].
Qed.

Lemma history_inv fs : forall l h0,
  scoreInv h0 l ->
  forall h1 f' l' h2, history fs l = h1 ++ (f', l') :: h2 -> scoreInv (h0 ++ h1) l'.
Proof.
  induction fs as [|f fs IH]; intros l h0 Hinv h1 f' l' h2 Hh.
  - destruct h1; discriminate.
  - cbn [history] in Hh. destruct h1 as [|x h1].
    + injection Hh as <- <- _. rewrite app_nil_r. exact Hinv.
    + injection Hh as <- Hrest.
      destruct (Update f l) as [l1|] eqn:Hup; [|destruct h1; discriminate].
      replace (h0 ++ (f, l) :: h1) with ((h0 ++ [(f, l)]) ++ h1)
        by (rewrite <- app_assoc; reflexivity).
      eapply IH; [|exact Hrest]. apply scoreInv_step; assumption.
Qed.

Lemma InitFlappyGame_scoreInv W H g a : scoreInv [] (InitFlappyGame W H g a).
Proof.
  unfold InitFlappyGame. cbn. split; [split|split].
  - cbn. constructor; [cbn; intros [H0|[]]; lia|]. constructor; [intros []|constructor].
  - cbn. intros p [<-|[<-|[]]]; cbn; lia.
  - intros f lj p [].
  - cbn. intros p [<-|[<-|[]]]; cbn; (split; [discriminate|intros (f & l & q & [] & _)]).
Qed.

Lemma flips_iff f l p :
  NoDup (map p_addr (m_pipes l)) -> In p (m_pipes l) ->
  (flips f l p <-> m_scored p = false /\ passedAt f l p = true).
Proof.
  intros Hnd Hp. unfold flips. rewrite movePhase_pipes. split.
  - intros [Hun (p' & Hin & Ha & Hs)]. split; [exact Hun|].
    apply in_map_iff in Hin. destruct Hin as [q [<- Hq]].
    rewrite stepPipe_addr in Ha. rewrite stepPipe_scored in Hs.
    rewrite (same_addr_same_pipe _ q p Hnd Hq Hp Ha) in Hs.
    rewrite Hun in Hs. exact Hs.
  - intros [Hun Hpass]. split; [exact Hun|].
    exists (stepPipe (deltaTime f) (Bird_Update (deltaTime f) (m_bird l)) p).
    split; [apply in_map; exact Hp|]. split; [apply stepPipe_addr|].
    rewrite stepPipe_scored. fold (passedAt f l p). rewrite Hpass. apply orb_true_r.
Qed.

Lemma Update_score f l l' :
  m_currentScreen l = FLAPPY_PLAYING -> Update f l = Some l' ->
  m_score l' = m_score (fst (movePhase f l)).
Proof.
  intros Hscr Hup. unfold Update in Hup. rewrite Hscr in Hup.
  destruct (movePhase f l) as [l1 c]. cbn [fst].
  assert (H2 : m_score (removeOffscreen (if c then handleCollision l1 else l1)) = m_score l1).
  { unfold removeOffscreen, handleCollision.
    destruct c; [destruct (fle _ 0)|]; cbn;
      repeat match goal with |- context [match ?x with _ => _ end] => destruct x; cbn end;
      reflexivity. }
  destruct (back _) as [b|]; [|discriminate]. injection Hup as <-.
  match goal with |- context [if flt ?a ?b then GenerateNewPipe ?x else ?x] =>
    assert (H3 : m_score (if flt a b then GenerateNewPipe x else x) = m_score l1)
      by (destruct (flt a b); [unfold GenerateNewPipe; cbn|]; exact H2)
  end.
  destruct (_ >=? _)%Z; destruct (spacePressed f); cbn; exact H3.
Qed.

(** The scoring test of the loop is the test on the edges. *)
Lemma passedAt_cleared f l p : passedAt f l p = true <-> clearedAt f l p.
Proof.
  unfold passedAt, passed, clearedAt, trailingEdge, rearEdge.
  destruct (Bird_Update_fields (deltaTime f) (m_bird l)) as (Er & _ & _ & _ & Ex).
  rewrite Er, Ex. unfold getTopRect, Pipe_Update, moveRect. cbn [m_topRect r_x].
  rewrite flt_iff, fadd_eq, !fsub_eq, fmul_eq. unfold ofZ. split; intros H; lra.
Qed.

Lemma PassedBefore_cleared h a : PassedBefore h a <-> ClearedBefore h a.
Proof.
  unfold PassedBefore, ClearedBefore. split.
  - intros (f & l & p & H1 & H2 & H3 & H4 & H5). exists f, l, p.
    rewrite <- passedAt_cleared. auto.
  - intros (f & l & p & H1 & H2 & H3 & H4 & H5). exists f, l, p.
    rewrite passedAt_cleared. auto.
Qed.

(** C5, as the code has it.  Take any session from [Load], any playing
    frame of it and any pipe in the vector at that frame.  The pipe's flag
    goes from false to true in this frame exactly when, once the frame has
    moved the pipe, its trailing edge lies strictly left of the bird's rear
    edge, and it did so in no earlier frame of the pipe; the frame adds to
    the score the number of pipes whose flag it turns; and a pipe whose flag
    was turned stays scored and is never turned again in a later frame. *)
Theorem flappy_pipe_scored_once (W H : Z) (g : nat -> Z) (a : nat) (fs : list Frame)
    (h1 h2 : list (Frame * FlappyLevel)) (f : Frame) (l : FlappyLevel) (p : Pipe) :
  history fs (InitFlappyGame W H g a) = h1 ++ (f, l) :: h2 ->
  m_currentScreen l = FLAPPY_PLAYING ->
  In p (m_pipes l) ->
  (flips f l p <-> clearedAt f l p /\ ~ ClearedBefore h1 (p_addr p)) /\
  (forall l', Update f l = Some l' ->
     m_score l' = (m_score l + Z.of_nat (length (flipping f l)))%Z) /\
  (forall q, In q (flipping f l) <-> In q (m_pipes l) /\ flips f l q) /\
  (flips f l p ->
     forall f2 l2 p2, In (f2, l2) h2 -> In p2 (m_pipes l2) -> p_addr p2 = p_addr p ->
       m_scored p2 = true /\ ~ flips f2 l2 p2).
Proof.
  intros Hh Hscr Hp.
  pose proof (history_inv fs _ [] (InitFlappyGame_scoreInv W H g a) _ _ _ _ Hh) as Hinv.
  cbn [app] in Hinv. destruct Hinv as ((Hnd & Hlt) & Hold & Hsc).
  assert (Hfl : flips f l p <-> passedAt f l p = true /\ ~ PassedBefore h1 (p_addr p)).
  { rewrite (flips_iff f l p Hnd Hp), <- (Hsc p Hp).
    destruct (m_scored p); split; intros [? ?]; split; congruence. }
  split; [rewrite Hfl, passedAt_cleared, PassedBefore_cleared; reflexivity|].
  split; [|split].
  - intros l' Hup. rewrite (Update_score f l l' Hscr Hup). apply movePhase_score.
  - intros q. unfold flipping. rewrite filter_In. split.
    + intros [Hq Hb]. split; [exact Hq|]. apply (flips_iff f l q Hnd Hq).
      apply andb_true_iff in Hb. destruct Hb as [Hb1 Hb2].
      apply negb_true_iff in Hb1. auto.
    + intros [Hq Hf]. split; [exact Hq|]. apply (flips_iff f l q Hnd Hq) in Hf.
      destruct Hf as [-> ->]. reflexivity.
  - intros Hflip f2 l2 p2 Hin Hp2 Ha.
    apply in_split in Hin. destruct Hin as (h2a & h2b & ->).
    assert (Hh' : history fs (InitFlappyGame W H g a)
                  = (h1 ++ (f, l) :: h2a) ++ (f2, l2) :: h2b)
      by (rewrite Hh, <- app_assoc; reflexivity).
    pose proof (history_inv fs _ [] (InitFlappyGame_scoreInv W H g a) _ _ _ _ Hh') as Hinv2.
    cbn [app] in Hinv2. destruct Hinv2 as (_ & _ & Hsc2).
    assert (Hs2 : m_scored p2 = true).
    { apply (Hsc2 p2 Hp2). exists f, l, p. split; [apply in_app_iff; right; left; reflexivity|].
      split; [exact Hscr|]. split; [exact Hp|]. split; [auto|]. apply Hfl, Hflip. }
    split; [exact Hs2|]. intros [Hun _]. congruence.
Qed.

Lemma flappy_pipe_scored_once_witness :
  flips (quiet (107#10)) flappy_after_hits flappy_front_pipe.
Proof.
  pose (hs := history flappy_session flappy_session_start).
  destruct (flappy_pipe_scored_once GLOBAL_SCREEN_WIDTH GLOBAL_SCREEN_HEIGHT
              (fun _ => 360%Z) 0 flappy_session
              (firstn 4 hs) (skipn 5 hs) (quiet (107#10)) flappy_after_hits flappy_front_pipe)
    as [Hiff _].
  - vm_compute. reflexivity.
  - vm_compute. reflexivity.
  - vm_compute. left. reflexivity.
  - apply Hiff. split; [vm_compute; reflexivity|].
    intros (f & l & q & Hin & _ & Hq & Ha & _).
    vm_compute in Hin.
    repeat (destruct Hin as [Hin|Hin];
            [ injection Hin as <- <-; cbn in Hq;
              repeat (destruct Hq as [Hq|Hq]; [subst q; vm_compute in Ha; discriminate|]);
              exact Hq | ]).
    exact Hin.
Defined.

(** C5 as stated fails.  In the hovering session no pipe is hit.  Before
    its 46th frame the trailing edge of the first pipe is still right of the
    bird's leading edge; the frame takes it left of the leading edge, the
    first frame to do so, and the pipe's flag stays false and the score
    stays 0, because the trailing edge is not yet left of the rear edge.
    The flag is turned and the score goes to 1 two frames later. *)
Lemma flappy_leading_edge_passed_unscored :
  exists l l' l'' p p' p'',
    run hover_session flappy_session_start = Some l /\
    m_currentScreen l = FLAPPY_PLAYING /\
    hd_error (m_pipes l) = Some p /\ m_scored p = false /\
    leadingEdge (m_bird l) <= trailingEdge p /\
    Update hover_frame l = Some l' /\
    hd_error (m_pipes l') = Some p' /\ p_addr p' = p_addr p /\
    trailingEdge p' < leadingEdge (m_bird l') /\
    rearEdge (m_bird l') <= trailingEdge p' /\
    m_scored p' = false /\ m_score l' = 0%Z /\ ~ flips hover_frame l p /\
    m_health (m_bird l') == FLAPPY_INITIAL_HEALTH /\
    run [mkFrame (5#21) true; hover_frame] l' = Some l'' /\
    hd_error (m_pipes l'') = Some p'' /\ p_addr p'' = p_addr p /\
    trailingEdge p'' < rearEdge (m_bird l'') /\
    m_scored p'' = true /\ m_score l'' = 1%Z.
Proof.
  eexists. eexists. eexists. eexists. eexists. eexists.
  split; [vm_compute; reflexivity|].
  split; [reflexivity|]. split; [reflexivity|]. split; [reflexivity|].
  split; [vm_compute; discriminate|].
  split; [vm_compute; reflexivity|].
  split; [reflexivity|]. split; [reflexivity|].
  split; [vm_compute; reflexivity|].
  split; [vm_compute; discriminate|].
  split; [reflexivity|]. split; [reflexivity|].
  split.
  { intros [_ (q & Hq & Ha & Hs)]. vm_compute in Hq.
    repeat (destruct Hq as [Hq|Hq]; [subst q; vm_compute in Ha; vm_compute in Hs; discriminate|]).
    exact Hq. }
  split; [vm_compute; reflexivity|].
  split; [vm_compute; reflexivity|].
  split; [reflexivity|]. split; [reflexivity|].
  split; [vm_compute; reflexivity|].
  split; reflexivity.
Qed.

End FlappyScoring.

(** * Obstacle course: landing and head bumps *)

Section ObstacleCollisions.
Import Obstacle.

Lemma resolveObstacle_grounded dt p obs : grounded p -> grounded (resolveObstacle dt p obs).
Proof.
  intros [Hg Hv]. unfold resolveObstacle, GetVelocity. rewrite Hv.
  change (fgt 0 0) with false. change (flt 0 0) with false. cbn [andb].
  destruct (CheckCollisionRecs _ _); [|split; assumption].
  destruct (_ && _); [split; cbn; auto|].
  destruct (_ && _); split; cbn; auto.
Qed.

Lemma resolveObstacles_grounded dt obstacles : forall p,
  grounded p -> grounded (resolveObstacles dt p obstacles).
Proof.
  unfold resolveObstacles. induction obstacles as [|o os IH]; intros p Hp; [exact Hp|].
  cbn [fold_left]. apply IH, resolveObstacle_grounded, Hp.
Qed.

(** A player that falls straight down is either left alone by an obstacle
    or lands on it. *)
Lemma resolveObstacle_falling dt p obs :
  v_x (velocity p) = 0 -> fgt (v_y (velocity p)) 0 = true ->
  (landsOn dt p obs = true /\ grounded (resolveObstacle dt p obs)) \/
  (landsOn dt p obs = false /\ resolveObstacle dt p obs = p).
Proof.
  intros Hx Hy. unfold landsOn, resolveObstacle, GetVelocity. rewrite Hx, Hy.
  change (fgt 0 0) with false. change (flt 0 0) with false.
  assert (Hup : flt (v_y (velocity p)) 0 = false).
  { destruct (flt (v_y (velocity p)) 0) eqn:E; [|reflexivity].
    apply flt_iff in E. unfold fgt in Hy. apply flt_iff in Hy. lra. }
  rewrite Hup. cbn [andb].
  destruct (CheckCollisionRecs _ _); [|right; split; reflexivity].
  destruct (fle _ _); [left; split; [reflexivity|split; reflexivity]|right; split; reflexivity].
Qed.

Lemma resolveObstacles_falling dt obstacles : forall p obs,
  v_x (velocity p) = 0 -> fgt (v_y (velocity p)) 0 = true ->
  In obs obstacles -> landsOn dt p obs = true ->
  grounded (resolveObstacles dt p obstacles).
Proof.
  induction obstacles as [|o os IH]; intros p obs Hx Hy Hin Hl; [contradiction|].
  unfold resolveObstacles. cbn [fold_left].
  destruct (resolveObstacle_falling dt p o Hx Hy) as [[_ Hg]|[Hno Heq]].
  - apply (resolveObstacles_grounded dt os), Hg.
  - rewrite Heq. destruct Hin as [->|Hin]; [congruence|].
    apply (IH p obs Hx Hy Hin Hl).
Qed.

Lemma Update_player f l :
  m_currentScreen l = OBSTACLE_GAMEPLAY ->
  m_player (Update f l) = resolveObstacles (dt f) (movedPlayer f l) (m_obstacles l).
Proof.
  intros Hs. unfold Update. rewrite Hs. unfold movedPlayer.
  destruct (collectCoins _ _ _) as [coins n].
  destruct (fgt _ _); destruct (_ && _); reflexivity.
Qed.

(** The landing half of C7: in a gameplay frame in which the player moves
    straight down and the landing test holds for some obstacle, the frame
    ends with the player on the ground and its vertical velocity 0. *)
Lemma obstacle_landing_grounds f l obs :
  m_currentScreen l = OBSTACLE_GAMEPLAY ->
  v_x (velocity (movedPlayer f l)) = 0 ->
  fgt (v_y (velocity (movedPlayer f l))) 0 = true ->
  In obs (m_obstacles l) ->
  landsOn (dt f) (movedPlayer f l) obs = true ->
  onGround (m_player (Update f l)) = true /\ v_y (velocity (m_player (Update f l))) = 0.
Proof.
  intros Hs Hx Hy Hin Hl. rewrite (Update_player f l Hs).
  apply (resolveObstacles_falling (dt f) (m_obstacles l) _ obs Hx Hy Hin Hl).
Qed.

(** The head-bump test compares the player's top edge scaled by [1 - dt]
    with the obstacle's underside.  For a frame time between 0 and 1 it
    cannot hold for an obstacle that the player touches and whose
    underside lies below the top of the screen. *)
Lemma obstacle_head_bump_test_never_holds dt p obs :
  0 <= dt -> dt <= 1 ->
  0 < r_y (GetBounds obs) + r_height (GetBounds obs) ->
  CheckCollisionRecs (GetBounds (base p)) (GetBounds obs) = true ->
  bumpsHead dt p obs = false.
Proof.
  intros H0 H1 Hb Hc. unfold bumpsHead.
  destruct (flt _ 0); [|reflexivity]. cbn [andb].
  destruct (fge _ _) eqn:E; [|reflexivity]. exfalso.
  unfold fge in E. apply fle_iff in E. unfold fadd, fsub, fmul in E.
  rewrite !Qred_correct in E.
  unfold CheckCollisionRecs in Hc. rewrite !andb_true_iff in Hc.
  destruct Hc as [_ [Hy _]]. apply flt_iff in Hy. unfold fadd in Hy.
  rewrite Qred_correct in Hy.
  set (y := r_y (GetBounds (base p))) in *.
  set (u := r_y (GetBounds obs) + r_height (GetBounds obs)) in *.
  clearbody y u.
  assert (Hy' : y * dt < 0) by (remember (y * dt) as yd; lra).
  destruct (Qlt_le_dec y 0) as [Hneg|Hpos].
  - assert (H2 : 0 <= (- y) * (1 - dt)) by (apply Qmult_le_0_compat; lra).
    assert (H3 : (- y) * (1 - dt) == - y + y * dt) by ring.
    remember (y * dt) as yd. remember ((- y) * (1 - dt)) as z. clear Heqyd Heqz. lra.
  - assert (0 <= y * dt) by (apply Qmult_le_0_compat; lra). lra.
Qed.

(** C7, the head-bump half, on the code.  At the end of the session the
    player is rising straight up (horizontal velocity 0, vertical velocity
    -325) just below the first platform.  In the next frame its box
    overlaps the platform from below, no branch of the collision loop
    fires, and the frame ends with vertical velocity -625/2 instead of 0:
    the player passes through the platform. *)
Theorem obstacle_head_bump_keeps_rising :
  let l := under_platform in
  let l' := Update idle l in
  m_currentScreen l = OBSTACLE_GAMEPLAY /\
  In first_platform (m_obstacles l) /\
  velocity (m_player l) = mkVector2 0 (-325) /\
  CheckCollisionRecs (GetBounds (base (movedPlayer idle l))) (GetBounds first_platform) = true /\
  r_y (GetBounds (base (m_player l))) >= r_y (GetBounds first_platform) + r_height (GetBounds first_platform) /\
  bumpsHead (dt idle) (movedPlayer idle l) first_platform = false /\
  velocity (m_player l') = mkVector2 0 (-625 # 2) /\
  onGround (m_player l') = false /\
  ~ v_y (velocity (m_player l')) == 0.
Proof.
  cbv zeta.
  assert (E : velocity (m_player (Update idle under_platform)) = mkVector2 0 (-625 # 2))
    by (vm_compute; reflexivity).
  split; [vm_compute; reflexivity|].
  split; [vm_compute; right; left; reflexivity|].
  split; [vm_compute; reflexivity|].
  split; [vm_compute; reflexivity|].
  split; [vm_compute; discriminate|].
  split; [vm_compute; reflexivity|].
  split; [exact E|].
  split; [vm_compute; reflexivity|].
  rewrite E. cbn. intros H. discriminate H.
Qed.

End ObstacleCollisions.

(** * Maze: more of the level *)

Section MazeLayout.
Import Maze.

Ltac zmod := Z.div_mod_to_equations; lia.

Variables h w : Z.
Hypothesis h_odd : (h mod 2 = 1)%Z.
Hypothesis w_odd : (w mod 2 = 1)%Z.
Hypothesis h_min : (3 <= h)%Z.
Hypothesis w_min : (3 <= w)%Z.

(** The carving from the start cell of the all-wall grid: what it leaves. *)
Lemma carve_layout e :
  shufflesPermute e ->
  exists g' e',
    RecursiveGenerateMaze (carveFuel h w) h w 1 1 (allWalls h w, e) = Some (g', e') /\
    laidOut h w g' /\ uniquelyConnected (pathCell g') /\ shufflesPermute e'.
Proof.
  intros Hperm.
  destruct (RecursiveGenerateMaze_spec h w h_odd w_odd (carveFuel h w) 1 1 (allWalls h w) e)
    as (g' & e' & Hrun & Hwf' & Hcv' & Hmono & _ & Hclosed & Hperm').
  { split; [apply allWalls_wf|]. split; [unfold room; cbn; lia|].
    split; [apply getCell_allWalls|].
    split; [|split; [apply carved_start; assumption|exact Hperm]].
    rewrite walls_allWalls by lia. unfold carveFuel. lia. }
  exists g', e'. split; [exact Hrun|].
  assert (Hs : getCell g' 1 1 = false).
  { apply Hmono. apply (getCell_setCell_same h w); [apply allWalls_wf|lia|lia]. }
  assert (Hall := closed_rooms_all h w h_min g' Hs
                    (fun x y Hr Hp => Hclosed x y Hr (getCell_allWalls h w x y) Hp)).
  split; [|split; [apply Hcv'|exact Hperm']].
  split; [exact Hwf'|]. split.
  - intros r c Hroom. unfold pathCell. cbn [fst snd].
    specialize (Hall (Z.to_nat ((r - 1) / 2)) (Z.to_nat ((c - 1) / 2))).
    assert (Er : (1 + 2 * Z.of_nat (Z.to_nat ((r - 1) / 2)) = r)%Z)
      by (unfold room in Hroom; rewrite Z2Nat.id by zmod; zmod).
    assert (Ec : (1 + 2 * Z.of_nat (Z.to_nat ((c - 1) / 2)) = c)%Z)
      by (unfold room in Hroom; rewrite Z2Nat.id by zmod; zmod).
    rewrite Er, Ec in Hall. apply Hall, Hroom.
  - intros r c Hp. apply (proj1 Hcv' r c Hp).
Qed.

End MazeLayout.

Section MazeLoad.
Import Maze.

Lemma CalculateMazeDimensions_fields m m1 :
  CalculateMazeDimensions m = Some m1 ->
  exists d, computeDimensions (screenWidth m) (screenHeight m) = Some d /\
    screenWidth m1 = screenWidth m /\ screenHeight m1 = screenHeight m /\
    mazeGrid m1 = mazeGrid m /\ mazeWidthCells m1 = d_mazeWidthCells d /\
    mazeHeightCells m1 = d_mazeHeightCells d /\ cellSizePixels m1 = d_cellSizePixels d /\
    startCol m1 = 1%Z /\ startRow m1 = 1%Z /\
    endCol m1 = (d_mazeWidthCells d - 2)%Z /\ endRow m1 = (d_mazeHeightCells d - 2)%Z /\
    playerSize m1 = fmul (d_cellSizePixels d) (3 # 5) /\
    coinSize m1 = fmul (d_cellSizePixels d) (3 # 10) /\
    playerSpeed m1 = playerSpeed m /\
    mazeGeneratedForPreview m1 = mazeGeneratedForPreview m /\
    s_maze_gen m1 = s_maze_gen m.
Proof.
  unfold CalculateMazeDimensions.
  destruct (computeDimensions _ _) as [d|]; [|discriminate].
  intros E. injection E as <-. exists d. cbn. repeat split.
Qed.

(** Computing the dimensions again changes nothing. *)
Lemma CalculateMazeDimensions_again m m1 :
  CalculateMazeDimensions m = Some m1 -> CalculateMazeDimensions m1 = Some m1.
Proof.
  unfold CalculateMazeDimensions.
  destruct (computeDimensions (screenWidth m) (screenHeight m)) as [d|] eqn:E; [|discriminate].
  intros E1. injection E1 as <-. cbn [screenWidth screenHeight]. rewrite E. reflexivity.
Qed.

Lemma GenerateNewMazeStructure_layout m m1 :
  shufflesPermute (s_maze_gen m) ->
  CalculateMazeDimensions m = Some m1 ->
  exists g e,
    GenerateNewMazeStructure m = Some (withGrid g e true m1) /\
    laidOut (mazeHeightCells m1) (mazeWidthCells m1) g /\
    uniquelyConnected (pathCell g) /\ shufflesPermute e.
Proof.
  intros Hperm Hdim. unfold GenerateNewMazeStructure. rewrite Hdim.
  destruct (CalculateMazeDimensions_fields m m1 Hdim)
    as (d & Ed & _ & _ & _ & Ew & Eh & _ & Esc & Esr & _ & _ & _ & _ & _ & _ & Ee).
  destruct (computeDimensions_odd _ _ d Ed) as (Hwo & Hw3 & Hho & Hh3).
  cbv zeta. unfold InitMazeGrid, withGrid.
  cbn [mazeHeightCells mazeWidthCells startRow startCol mazeGrid s_maze_gen].
  rewrite Esr, Esc, Ee, Ew, Eh.
  destruct (carve_layout (d_mazeHeightCells d) (d_mazeWidthCells d)
              (odd_mod2 _ Hho) (odd_mod2 _ Hwo) Hh3 Hw3 (s_maze_gen m) Hperm)
    as (g' & e' & Hrun & Hlay & HT & Hp').
  rewrite Hrun. exists g', e'. split; [|auto]. reflexivity.
Qed.

Lemma cellsOf_In height width r c :
  In (r, c) (cellsOf height width) -> (0 <= r < height)%Z /\ (0 <= c < width)%Z.
Proof.
  unfold cellsOf. rewrite in_flat_map. intros (i & Hi & Hc).
  apply in_map_iff in Hc. destruct Hc as (j & E & Hj). injection E as <- <-.
  apply in_seq in Hi. apply in_seq in Hj. lia.
Qed.

Lemma sprinkleCoins_spec m cells : forall e,
  Forall (fun coin => exists r c, In (r, c) cells /\ getCell (mazeGrid m) r c = false /\
                        (r, c) <> (startRow m, startCol m) /\ (r, c) <> (endRow m, endCol m) /\
                        coin = cellCentre m r c)
         (fst (sprinkleCoins m cells e)) /\
  shuffles (snd (sprinkleCoins m cells e)) = shuffles e.
Proof.
  induction cells as [|[r c] rest IH]; intros e; [split; [constructor|reflexivity]|].
  cbn [sprinkleCoins].
  assert (Hweak : forall e',
    Forall (fun coin => exists r0 c0, In (r0, c0) ((r, c) :: rest) /\
                          getCell (mazeGrid m) r0 c0 = false /\
                          (r0, c0) <> (startRow m, startCol m) /\
                          (r0, c0) <> (endRow m, endCol m) /\
                          coin = cellCentre m r0 c0)
           (fst (sprinkleCoins m rest e'))).
  { intros e'. eapply Forall_impl; [|apply (proj1 (IH e'))].
    intros coin (r0 & c0 & Hin & Hrest). exists r0, c0. split; [right; exact Hin|exact Hrest]. }
  destruct (negb (getCell (mazeGrid m) r c)) eqn:Eg; cbn [andb];
    [|split; [apply Hweak|apply IH]].
  destruct (negb ((r =? startRow m)%Z && (c =? startCol m)%Z)) eqn:Es; cbn [andb];
    [|split; [apply Hweak|apply IH]].
  destruct (negb ((r =? endRow m)%Z && (c =? endCol m)%Z)) eqn:Ee; cbn [andb];
    [|split; [apply Hweak|apply IH]].
  unfold s_maze_dis.
  destruct (flt (draws e 0) COIN_SPAWN_CHANCE).
  - match goal with |- context [sprinkleCoins m rest ?e'] =>
      pose proof (Hweak e') as Hw; pose proof (proj2 (IH e')) as Hsh;
      destruct (sprinkleCoins m rest e') as [cs e2] end.
    cbn [fst snd] in *. split; [|exact Hsh].
    constructor; [|exact Hw].
    exists r, c. split; [left; reflexivity|]. apply negb_true_iff in Eg.
    split; [exact Eg|]. split; [|split; [|reflexivity]].
    + intros E. injection E as -> ->. rewrite !Z.eqb_refl in Es. discriminate.
    + intros E. injection E as -> ->. rewrite !Z.eqb_refl in Ee. discriminate.
  - match goal with |- context [sprinkleCoins m rest ?e'] =>
      split; [apply (Hweak e')|apply (proj2 (IH e'))] end.
Qed.

(** What [ResetPlayerAndCoins] leaves. *)
Lemma ResetPlayerAndCoins_spec m :
  let m' := ResetPlayerAndCoins m in
  mazeGrid m' = mazeGrid m /\ mazeWidthCells m' = mazeWidthCells m /\
  mazeHeightCells m' = mazeHeightCells m /\ cellSizePixels m' = cellSizePixels m /\
  startCol m' = startCol m /\ startRow m' = startRow m /\
  endCol m' = endCol m /\ endRow m' = endRow m /\
  playerSize m' = playerSize m /\ playerSpeed m' = playerSpeed m /\
  screenWidth m' = screenWidth m /\ screenHeight m' = screenHeight m /\
  Forall (coinOnPath m') (coins m') /\
  totalInitialCoins m' = Z.of_nat (length (coins m')) /\ collectedCoins m' = 0%Z /\
  levelWon m' = false /\
  shuffles (s_maze_gen m') = shuffles (s_maze_gen m) /\
  playerX m' = fadd (fmul (ofZ (startCol m)) (cellSizePixels m))
                    (fdiv (fsub (cellSizePixels m) (playerSize m)) 2) /\
  playerY m' = fadd (fmul (ofZ (startRow m)) (cellSizePixels m))
                    (fdiv (fsub (cellSizePixels m) (playerSize m)) 2).
Proof.
  unfold ResetPlayerAndCoins.
  pose proof (sprinkleCoins_spec m (cellsOf (mazeHeightCells m) (mazeWidthCells m))
                (s_maze_gen m)) as [Hc Hs].
  destruct (sprinkleCoins _ _ _) as [cs e]. cbn [fst snd] in *. cbn.
  repeat split; try assumption.
  eapply Forall_impl; [|exact Hc].
  intros coin (r & c & Hin & Hg & H1 & H2 & ->). apply cellsOf_In in Hin.
  exists r, c. unfold pathCell, cellCentre. cbn. repeat split; try assumption; lia.
Qed.

(** A level that has no maze yet gets one when it is loaded. *)
Lemma Load_generates m0 m1 :
  shufflesPermute (s_maze_gen m0) ->
  mazeGeneratedForPreview m0 = false ->
  CalculateMazeDimensions m0 = Some m1 ->
  exists g e,
    Load m0 = Some (ResetPlayerAndCoins (withGrid g e true m1)) /\
    laidOut (mazeHeightCells m1) (mazeWidthCells m1) g /\
    uniquelyConnected (pathCell g) /\ shufflesPermute e.
Proof.
  intros Hperm Hflag Hdim. unfold Load. rewrite Hdim.
  destruct (CalculateMazeDimensions_fields m0 m1 Hdim)
    as (d & _ & _ & _ & _ & _ & _ & _ & _ & _ & _ & _ & _ & _ & _ & Ef & Ee).
  rewrite Ef, Hflag. cbn [negb].
  destruct (GenerateNewMazeStructure_layout m1 m1) as (g & e & Hgen & Hlay & HT & Hp).
  - rewrite Ee. exact Hperm.
  - apply (CalculateMazeDimensions_again m0), Hdim.
  - rewrite Hgen. exists g, e. auto.
Qed.

End MazeLoad.

Section MazeFacts.
Import Maze.



(** X1.  Whenever the dimensions are computed and the shuffles leave the
    four directions in some order, the maze [GenerateNewMazeStructure]
    returns has this layout: the grid has the computed height and width;
    every cell with two odd coordinates inside the border is open; every
    open cell lies strictly inside the border and has an odd coordinate, so
    the outer ring of walls and the pillars at even coordinates stand. *)
Theorem maze_generated_layout (m m1 : MazeLevel) :
  shufflesPermute (s_maze_gen m) ->
  CalculateMazeDimensions m = Some m1 ->
  exists m', GenerateNewMazeStructure m = Some m' /\
    laidOut (mazeHeightCells m') (mazeWidthCells m') (mazeGrid m') /\
    mazeGeneratedForPreview m' = true /\ shufflesPermute (s_maze_gen m').
Proof.
  intros Hperm Hdim.
  destruct (GenerateNewMazeStructure_layout m m1 Hperm Hdim) as (g & e & Hgen & Hlay & _ & Hp).
  eexists. split; [exact Hgen|]. cbn. auto.
Qed.

Lemma maze_generated_layout_witness :
  exists m', GenerateNewMazeStructure (blank_maze plain_engine) = Some m' /\
    laidOut (mazeHeightCells m') (mazeWidthCells m') (mazeGrid m') /\
    mazeGeneratedForPreview m' = true /\ shufflesPermute (s_maze_gen m').
Proof.
  destruct (CalculateMazeDimensions (blank_maze plain_engine)) as [m1|] eqn:E;
    [|vm_compute in E; discriminate].
  apply (maze_generated_layout (blank_maze plain_engine) m1).
  - intros n. apply Permutation_refl.
  - exact E.
Defined.



End MazeFacts.

Section MazeWalls.
Import Maze.

Lemma CheckWallCollision_wallAt m px py s dx dy :
  CheckWallCollision m px py s dx dy = wallAt m (fadd px dx) (fadd py dy) s.
Proof. reflexivity. Qed.

Lemma fadd_0_reduced x : Qred x = x -> fadd x 0 = x.
Proof.
  intros H. unfold fadd. rewrite <- H at 2. apply Qred_complete. ring.
Qed.

Lemma fadd_reduced x y : Qred (fadd x y) = fadd x y.
Proof. unfold fadd. apply Qred_complete, Qred_correct. Qed.

Lemma clampCell_id n hi : (0 <= n <= hi)%Z -> clampCell n 0 hi = n.
Proof.
  intros H. unfold clampCell, minmax, fgt, ofZ. rewrite !flt_int.
  destruct (Z.ltb_spec n 0); [lia|]. destruct (Z.ltb_spec hi n); [lia|].
  apply truncZ_inject.
Qed.

Lemma clampCell_low n hi : (n <= 0)%Z -> (0 <= hi)%Z -> clampCell n 0 hi = 0%Z.
Proof.
  intros H Hh. unfold clampCell, minmax, fgt, ofZ. rewrite !flt_int.
  destruct (Z.ltb_spec n 0); [apply truncZ_inject|].
  destruct (Z.ltb_spec hi n); [lia|]. rewrite truncZ_inject. lia.
Qed.

Lemma clampCell_high n hi : (hi <= n)%Z -> (0 <= hi)%Z -> clampCell n 0 hi = hi.
Proof.
  intros H Hh. unfold clampCell, minmax, fgt, ofZ. rewrite !flt_int.
  destruct (Z.ltb_spec n 0); [lia|].
  destruct (Z.ltb_spec hi n); [apply truncZ_inject|]. rewrite truncZ_inject. lia.
Qed.

Lemma clampCell_range n hi : (0 <= hi)%Z -> (0 <= clampCell n 0 hi <= hi)%Z.
Proof.
  intros Hh. destruct (Z_lt_le_dec n 0); [rewrite clampCell_low by lia; lia|].
  destruct (Z_lt_le_dec hi n); [rewrite clampCell_high by lia; lia|].
  rewrite clampCell_id by lia. lia.
Qed.

Lemma zrange_In lo hi k : In k (zrange lo hi) <-> (lo <= k <= hi)%Z.
Proof.
  unfold zrange. rewrite in_map_iff. split.
  - intros (j & <- & Hj). apply in_seq in Hj. lia.
  - intros H. exists (Z.to_nat (k - lo)). split; [lia|]. apply in_seq. lia.
Qed.

Lemma CheckCollisionRecs_intro a b :
  r_x a < r_x b + r_width b -> r_x b < r_x a + r_width a ->
  r_y a < r_y b + r_height b -> r_y b < r_y a + r_height a ->
  CheckCollisionRecs a b = true.
Proof.
  intros H1 H2 H3 H4. unfold CheckCollisionRecs.
  repeat (apply andb_true_intro; split).
  - apply flt_iff. rewrite fadd_eq. exact H1.
  - apply fgt_iff. rewrite fadd_eq. exact H2.
  - apply flt_iff. rewrite fadd_eq. exact H3.
  - apply fgt_iff. rewrite fadd_eq. exact H4.
Qed.

(** A wall cell among the cells the test visits, overlapped by the box. *)
Lemma wallAt_hit m x y s r c :
  In r (zrange (clampCell (truncZ (fdiv y (cellSizePixels m))) 0 (mazeHeightCells m - 1))
               (clampCell (truncZ (fdiv (fsub (fadd y s) 1) (cellSizePixels m))) 0
                          (mazeHeightCells m - 1))) ->
  In c (zrange (clampCell (truncZ (fdiv x (cellSizePixels m))) 0 (mazeWidthCells m - 1))
               (clampCell (truncZ (fdiv (fsub (fadd x s) 1) (cellSizePixels m))) 0
                          (mazeWidthCells m - 1))) ->
  (0 <= r < mazeHeightCells m)%Z -> (0 <= c < mazeWidthCells m)%Z ->
  getCell (mazeGrid m) r c = true ->
  CheckCollisionRecs (mkRectangle x y s s)
    (mkRectangle (fmul (ofZ c) (cellSizePixels m)) (fmul (ofZ r) (cellSizePixels m))
                 (cellSizePixels m) (cellSizePixels m)) = true ->
  wallAt m x y s = true.
Proof.
  intros Hr Hc Hrr Hcr Hg Ho. unfold wallAt. cbv zeta.
  apply existsb_exists. exists r. split; [exact Hr|].
  apply existsb_exists. exists c. split; [exact Hc|].
  destruct (Z.ltb_spec r 0); [lia|]. destruct (Z.geb_spec r (mazeHeightCells m)); [lia|].
  destruct (Z.ltb_spec c 0); [lia|]. destruct (Z.geb_spec c (mazeWidthCells m)); [lia|].
  cbn [orb]. rewrite Hg, Ho. reflexivity.
Qed.

(** The cell a coordinate inside the ring starts in. *)
Lemma axis_cell v n :
  axisInside 34 (102 # 5) v n ->
  exists a,
    (1 <= a <= n - 2)%Z /\
    (clampCell (truncZ (fdiv v 34)) 0 (n - 1) <= a)%Z /\
    (a <= clampCell (truncZ (fdiv (fsub (fadd v (102 # 5)) 1) 34)) 0 (n - 1))%Z /\
    inject_Z a * 34 <= v /\ v < inject_Z a * 34 + 34.
Proof.
  intros [Hlo Hhi].
  set (q1 := fdiv v 34). set (q2 := fdiv (fsub (fadd v (102 # 5)) 1) 34).
  assert (E1 : q1 == v * (1 # 34)) by (unfold q1; rewrite fdiv_eq; reflexivity).
  assert (E2 : q2 == (v + (102 # 5) - 1) * (1 # 34)).
  { unfold q2. rewrite fdiv_eq, fsub_eq, fadd_eq. reflexivity. }
  assert (P1 : 1 <= q1) by lra.
  assert (P12 : q1 <= q2) by lra.
  assert (P2 : q2 < inject_Z (n - 1)) by lra.
  pose proof (Qfloor_le q1) as F1. pose proof (Qlt_floor q1) as F2.
  pose proof (Qfloor_le q2) as G1.
  pose proof (Qfloor_resp_le _ _ P1) as A1. change (Qfloor 1) with 1%Z in A1.
  pose proof (Qfloor_resp_le _ _ P12) as A2.
  assert (A3 : (Qfloor q2 < n - 1)%Z).
  { rewrite Zlt_Qlt. lra. }
  rewrite (truncZ_floor q1) by lra. rewrite (truncZ_floor q2) by lra.
  rewrite !clampCell_id by lia.
  exists (Qfloor q1). rewrite inject_Z_plus in F2. change (inject_Z 1) with 1 in F2.
  repeat split; try lia; lra.
Qed.

(** A coordinate that has entered the first cell. *)
Lemma axis_first v n :
  (2 <= n)%Z -> v < 34 ->
  clampCell (truncZ (fdiv v 34)) 0 (n - 1) = 0%Z /\
  (0 <= clampCell (truncZ (fdiv (fsub (fadd v (102 # 5)) 1) 34)) 0 (n - 1))%Z.
Proof.
  intros Hn Hv. split; [|apply clampCell_range; lia].
  apply clampCell_low; [|lia]. apply truncZ_small.
  rewrite fdiv_eq. change (v / 34) with (v * (1 # 34)). lra.
Qed.

(** A coordinate whose far pixel has entered the last cell. *)
Lemma axis_last v n :
  (2 <= n)%Z -> inject_Z (n - 1) * 34 <= v + (102 # 5) - 1 ->
  clampCell (truncZ (fdiv (fsub (fadd v (102 # 5)) 1) 34)) 0 (n - 1) = (n - 1)%Z /\
  (clampCell (truncZ (fdiv v 34)) 0 (n - 1) <= n - 1)%Z.
Proof.
  intros Hn Hv. split; [|apply clampCell_range; lia].
  set (q2 := fdiv (fsub (fadd v (102 # 5)) 1) 34).
  assert (E2 : q2 == (v + (102 # 5) - 1) * (1 # 34)).
  { unfold q2. rewrite fdiv_eq, fsub_eq, fadd_eq. reflexivity. }
  assert (P : inject_Z (n - 1) <= q2) by lra.
  assert (P0 : 0 <= inject_Z (n - 1)).
  { change 0 with (inject_Z 0). rewrite <- Zle_Qle. lia. }
  pose proof (Qfloor_resp_le _ _ P) as A. rewrite Qfloor_Z in A.
  apply clampCell_high; [|lia]. rewrite truncZ_floor by lra. exact A.
Qed.

Lemma border_wall height width g r c :
  laidOut height width g ->
  (r <= 0 \/ height - 1 <= r \/ c <= 0 \/ width - 1 <= c)%Z -> getCell g r c = true.
Proof.
  intros (_ & _ & Hin) Hb. destruct (getCell g r c) eqn:E; [reflexivity|].
  specialize (Hin r c E). lia.
Qed.

End MazeWalls.

Section MazeRing.
Import Maze.

(** A box that the wall test lets through has not entered the first or the
    last column, when its rows are inside the ring. *)
Lemma ring_x m x y :
  cellSizePixels m = 34 -> mazeWidthCells m = 37%Z -> mazeHeightCells m = 21%Z ->
  laidOut 21 37 (mazeGrid m) ->
  axisInside 34 (102 # 5) y 21 ->
  wallAt m x y (102 # 5) = false ->
  31 <= x -> x + (102 # 5) - 1 < 36 * 34 + 3 ->
  axisInside 34 (102 # 5) x 37.
Proof.
  intros Hcs Hw Hh Hlay Hy Hwall Hx1 Hx2.
  destruct (axis_cell y 21 Hy) as (a & Ha & Ha1 & Ha2 & Ha3 & Ha4).
  pose proof (fmul_eq (ofZ a) 34) as Ea. unfold ofZ in Ea.
  split.
  - destruct (Qlt_le_dec x 34) as [Hlt|Hge]; [|exact Hge]. exfalso.
    destruct (axis_first x 37 ltac:(lia) Hlt) as [C1 C2].
    rewrite (wallAt_hit m x y (102 # 5) a 0) in Hwall; [discriminate| | | | | |].
    + rewrite Hcs, Hh. apply zrange_In. split; assumption.
    + rewrite Hcs, Hw. apply zrange_In. rewrite C1. split; [lia|exact C2].
    + rewrite Hh. lia.
    + rewrite Hw. lia.
    + apply (border_wall 21 37); [exact Hlay|lia].
    + rewrite Hcs. apply CheckCollisionRecs_intro; cbn [r_x r_y r_width r_height];
        unfold ofZ; pose proof (fmul_eq (inject_Z 0) 34) as E0;
        change (inject_Z 0) with 0 in *; lra.
  - change (inject_Z (37 - 1)) with 36.
    destruct (Qlt_le_dec (x + (102 # 5) - 1) (36 * 34)) as [Hlt|Hge]; [exact Hlt|]. exfalso.
    destruct (axis_last x 37 ltac:(lia)) as [C1 C2].
    { change (inject_Z (37 - 1)) with 36. exact Hge. }
    rewrite (wallAt_hit m x y (102 # 5) a 36) in Hwall; [discriminate| | | | | |].
    + rewrite Hcs, Hh. apply zrange_In. split; assumption.
    + rewrite Hcs, Hw. apply zrange_In. rewrite C1. split; [exact C2|lia].
    + rewrite Hh. lia.
    + rewrite Hw. lia.
    + apply (border_wall 21 37); [exact Hlay|lia].
    + rewrite Hcs. apply CheckCollisionRecs_intro; cbn [r_x r_y r_width r_height];
        unfold ofZ; pose proof (fmul_eq (inject_Z 36) 34) as E0;
        change (inject_Z 36) with 36 in *; lra.
Qed.

Lemma ring_y m x y :
  cellSizePixels m = 34 -> mazeWidthCells m = 37%Z -> mazeHeightCells m = 21%Z ->
  laidOut 21 37 (mazeGrid m) ->
  axisInside 34 (102 # 5) x 37 ->
  wallAt m x y (102 # 5) = false ->
  31 <= y -> y + (102 # 5) - 1 < 20 * 34 + 3 ->
  axisInside 34 (102 # 5) y 21.
Proof.
  intros Hcs Hw Hh Hlay Hx Hwall Hy1 Hy2.
  destruct (axis_cell x 37 Hx) as (a & Ha & Ha1 & Ha2 & Ha3 & Ha4).
  pose proof (fmul_eq (ofZ a) 34) as Ea. unfold ofZ in Ea.
  split.
  - destruct (Qlt_le_dec y 34) as [Hlt|Hge]; [|exact Hge]. exfalso.
    destruct (axis_first y 21 ltac:(lia) Hlt) as [C1 C2].
    rewrite (wallAt_hit m x y (102 # 5) 0 a) in Hwall; [discriminate| | | | | |].
    + rewrite Hcs, Hh. apply zrange_In. rewrite C1. split; [lia|exact C2].
    + rewrite Hcs, Hw. apply zrange_In. split; assumption.
    + rewrite Hh. lia.
    + rewrite Hw. lia.
    + apply (border_wall 21 37); [exact Hlay|lia].
    + rewrite Hcs. apply CheckCollisionRecs_intro; cbn [r_x r_y r_width r_height];
        unfold ofZ; pose proof (fmul_eq (inject_Z 0) 34) as E0;
        change (inject_Z 0) with 0 in *; lra.
  - change (inject_Z (21 - 1)) with 20.
    destruct (Qlt_le_dec (y + (102 # 5) - 1) (20 * 34)) as [Hlt|Hge]; [exact Hlt|]. exfalso.
    destruct (axis_last y 21 ltac:(lia)) as [C1 C2].
    { change (inject_Z (21 - 1)) with 20. exact Hge. }
    rewrite (wallAt_hit m x y (102 # 5) 20 a) in Hwall; [discriminate| | | | | |].
    + rewrite Hcs, Hh. apply zrange_In. rewrite C1. split; [exact C2|lia].
    + rewrite Hcs, Hw. apply zrange_In. split; assumption.
    + rewrite Hh. lia.
    + rewrite Hw. lia.
    + apply (border_wall 21 37); [exact Hlay|lia].
    + rewrite Hcs. apply CheckCollisionRecs_intro; cbn [r_x r_y r_width r_height];
        unfold ofZ; pose proof (fmul_eq (inject_Z 20) 34) as E0;
        change (inject_Z 20) with 20 in *; lra.
Qed.

(** The horizontal and the vertical displacement a frame asks for. *)
Lemma nudge_x (right left : bool) :
  let d := if right then fadd 0 3 else 0 in
  let d := if left then fsub d 3 else d in
  -3 <= d <= 3.
Proof. destruct right, left; vm_compute; split; discriminate. Qed.

Lemma nudge_y (up down : bool) :
  let d := if up then fsub 0 3 else 0 in
  let d := if down then fadd d 3 else d in
  -3 <= d <= 3.
Proof. destruct up, down; vm_compute; split; discriminate. Qed.

(** The horizontal move of a frame, seen from a state inside the ring. *)
Lemma move_x m x y dx :
  cellSizePixels m = 34 -> mazeWidthCells m = 37%Z -> mazeHeightCells m = 21%Z ->
  laidOut 21 37 (mazeGrid m) ->
  Qred x = x -> Qred y = y ->
  axisInside 34 (102 # 5) x 37 -> axisInside 34 (102 # 5) y 21 ->
  wallAt m x y (102 # 5) = false -> -3 <= dx <= 3 ->
  let x1 := if negb (CheckWallCollision m x y (102 # 5) dx 0) then fadd x dx else x in
  Qred x1 = x1 /\ axisInside 34 (102 # 5) x1 37 /\ wallAt m x1 y (102 # 5) = false.
Proof.
  intros Hcs Hw Hh Hlay Rx Ry Jx Jy Hwall Hdx. cbv zeta.
  rewrite CheckWallCollision_wallAt, (fadd_0_reduced y Ry).
  destruct (wallAt m (fadd x dx) y (102 # 5)) eqn:E; cbn [negb]; [auto|].
  split; [apply fadd_reduced|]. split; [|exact E].
  pose proof (fadd_eq x dx) as Ex. destruct Jx as [Jx1 Jx2].
  change (inject_Z (37 - 1)) with 36 in Jx2.
  apply (ring_x m (fadd x dx) y); try assumption; lra.
Qed.

Lemma move_y m x y dy :
  cellSizePixels m = 34 -> mazeWidthCells m = 37%Z -> mazeHeightCells m = 21%Z ->
  laidOut 21 37 (mazeGrid m) ->
  Qred x = x -> Qred y = y ->
  axisInside 34 (102 # 5) x 37 -> axisInside 34 (102 # 5) y 21 ->
  wallAt m x y (102 # 5) = false -> -3 <= dy <= 3 ->
  let y1 := if negb (CheckWallCollision m x y (102 # 5) 0 dy) then fadd y dy else y in
  Qred y1 = y1 /\ axisInside 34 (102 # 5) y1 21 /\ wallAt m x y1 (102 # 5) = false.
Proof.
  intros Hcs Hw Hh Hlay Rx Ry Jx Jy Hwall Hdy. cbv zeta.
  rewrite CheckWallCollision_wallAt, (fadd_0_reduced x Rx).
  destruct (wallAt m x (fadd y dy) (102 # 5)) eqn:E; cbn [negb]; [auto|].
  split; [apply fadd_reduced|]. split; [|exact E].
  pose proof (fadd_eq y dy) as Ey. destruct Jy as [Jy1 Jy2].
  change (inject_Z (21 - 1)) with 20 in Jy2.
  apply (ring_y m x (fadd y dy)); try assumption; lra.
Qed.

(** Inside the ring the clamp to the screen changes nothing. *)
Lemma clamp_idle v n W :
  axisInside 34 (102 # 5) v n -> inject_Z (n - 1) * 34 + 1 <= inject_Z W ->
  minmax v 0 (fsub (ofZ W) (102 # 5)) = v.
Proof.
  intros [H1 H2] HW. unfold minmax, fgt.
  pose proof (fsub_eq (ofZ W) (102 # 5)) as E. unfold ofZ in *.
  destruct (flt v 0) eqn:E1; [apply flt_iff in E1; lra|].
  destruct (flt _ v) eqn:E2; [apply flt_iff in E2; lra|]. reflexivity.
Qed.

End MazeRing.

Section MazePlayer.
Import Maze.

Lemma wallAt_withPlayer x y cs n won m a b s :
  wallAt (withPlayer x y cs n won m) a b s = wallAt m a b s.
Proof. reflexivity. Qed.

Lemma Update_gameMazeInv f m : gameMazeInv m -> gameMazeInv (Update f m).
Proof.
  intros (HW & HH & Hcs & Hs & Hsp & Hw & Hh & Hlay & Rx & Ry & [Jx Jy] & Hwall).
  unfold Update. destruct (levelWon m).
  { unfold gameMazeInv, insideRing. tauto. }
  cbv zeta. rewrite !Hs, !Hsp, HW, HH. rewrite Hcs, Hs, Hw in Jx. rewrite Hcs, Hs, Hh in Jy.
  rewrite Hs in Hwall.
  pose proof (nudge_x (keyRight f) (keyLeft f)) as Hdx. cbv zeta in Hdx.
  pose proof (nudge_y (keyUp f) (keyDown f)) as Hdy. cbv zeta in Hdy.
  match type of Hdx with _ <= ?d <= _ => set (dx := d) in * end.
  match type of Hdy with _ <= ?d <= _ => set (dy := d) in * end.
  pose proof (move_x m (playerX m) (playerY m) dx Hcs Hw Hh Hlay Rx Ry Jx Jy Hwall Hdx)
    as (R1 & J1 & W1). cbv zeta in R1, J1, W1.
  set (x1 := if negb (CheckWallCollision m (playerX m) (playerY m) (102 # 5) dx 0)
             then fadd (playerX m) dx else playerX m) in *.
  pose proof (move_y m x1 (playerY m) dy Hcs Hw Hh Hlay R1 Ry J1 Jy W1 Hdy)
    as (R2 & J2 & W2). cbv zeta in R2, J2, W2.
  set (y1 := if negb (CheckWallCollision m x1 (playerY m) (102 # 5) 0 dy)
             then fadd (playerY m) dy else playerY m) in *.
  rewrite (clamp_idle x1 37 GLOBAL_SCREEN_WIDTH J1) by (vm_compute; discriminate).
  rewrite (clamp_idle y1 21 GLOBAL_SCREEN_HEIGHT J2) by (vm_compute; discriminate).
  destruct (collectCoins _ _ _ _) as [cs n].
  unfold gameMazeInv, insideRing. rewrite wallAt_withPlayer.
  cbn [withPlayer screenWidth screenHeight cellSizePixels playerSize playerSpeed
       mazeWidthCells mazeHeightCells mazeGrid playerX playerY].
  rewrite Hcs, Hs, Hw, Hh.
  exact (conj HW (conj HH (conj eq_refl (conj eq_refl (conj Hsp (conj eq_refl (conj eq_refl
           (conj Hlay (conj R1 (conj R2 (conj (conj J1 J2) W2))))))))))).
Qed.

Lemma run_gameMazeInv fs : forall m, gameMazeInv m -> gameMazeInv (run fs m).
Proof.
  unfold run. induction fs as [|f fs IH]; intros m H; [exact H|].
  cbn [fold_left]. apply IH, Update_gameMazeInv, H.
Qed.

(** The box [ResetPlayerAndCoins] places covers the start cell alone. *)
Lemma start_clear m :
  cellSizePixels m = 34 -> mazeWidthCells m = 37%Z -> mazeHeightCells m = 21%Z ->
  getCell (mazeGrid m) 1 1 = false ->
  wallAt m (204 # 5) (204 # 5) (102 # 5) = false.
Proof.
  intros Hcs Hw Hh Hg. unfold wallAt. cbv zeta. rewrite Hcs, Hw, Hh.
  change (clampCell (truncZ (fdiv (204 # 5) 34)) 0 (37 - 1)) with 1%Z.
  change (clampCell (truncZ (fdiv (fsub (fadd (204 # 5) (102 # 5)) 1) 34)) 0 (37 - 1)) with 1%Z.
  change (clampCell (truncZ (fdiv (204 # 5) 34)) 0 (21 - 1)) with 1%Z.
  change (clampCell (truncZ (fdiv (fsub (fadd (204 # 5) (102 # 5)) 1) 34)) 0 (21 - 1)) with 1%Z.
  change (zrange 1 1) with [1%Z]. cbn [existsb]. rewrite Hg. reflexivity.
Qed.

(** The maze level of the game, once loaded. *)
Lemma Load_gameMazeInv e m0 :
  shufflesPermute e ->
  newMazeLevel GLOBAL_SCREEN_WIDTH GLOBAL_SCREEN_HEIGHT e = Some m0 ->
  exists m, Load m0 = Some m /\ gameMazeInv m /\ shufflesPermute (s_maze_gen m).
Proof.
  intros Hperm E0. vm_compute in E0. injection E0 as <-.
  match goal with |- context [Load ?m] => set (m0 := m) end.
  destruct (CalculateMazeDimensions m0) as [m1|] eqn:E1; [|vm_compute in E1; discriminate].
  destruct (Load_generates m0 m1 Hperm eq_refl E1) as (g & e' & Hload & Hlay & _ & Hp).
  vm_compute in E1. injection E1 as <-.
  match type of Hload with _ = Some (ResetPlayerAndCoins ?x) => set (m2 := x) in * end.
  pose proof (ResetPlayerAndCoins_spec m2) as HR. cbv zeta in HR.
  exists (ResetPlayerAndCoins m2). split; [exact Hload|].
  destruct HR as (R1 & R2 & R3 & R4 & _ & _ & _ & _ & R9 & R10 & R11 & R12 & _ & _ & _ & _
                  & R17 & R18 & R19).
  cbn [m2 withGrid mazeGrid mazeWidthCells mazeHeightCells cellSizePixels startCol startRow
       playerSize playerSpeed screenWidth screenHeight s_maze_gen] in *.
  assert (Hx : playerX (ResetPlayerAndCoins m2) = 204 # 5) by (rewrite R18; reflexivity).
  assert (Hy : playerY (ResetPlayerAndCoins m2) = 204 # 5) by (rewrite R19; reflexivity).
  cbn [mazeHeightCells mazeWidthCells] in Hlay.
  split.
  - unfold gameMazeInv, insideRing. rewrite R1, R2, R3, R4, R9, R10, R11, R12, Hx, Hy.
    split; [reflexivity|]. split; [reflexivity|]. split; [reflexivity|].
    split; [reflexivity|]. split; [reflexivity|]. split; [reflexivity|].
    split; [reflexivity|]. split; [exact Hlay|]. split; [reflexivity|].
    split; [reflexivity|].
    split; [split; split; vm_compute; first [discriminate|reflexivity]|].
    apply start_clear; [exact R4|exact R2|exact R3|].
    rewrite R1. apply (proj1 (proj2 Hlay) 1%Z 1%Z). unfold room. cbn. lia.
  - intros n. rewrite R17. apply Hp.
Qed.

End MazePlayer.

Section MazePlayerFacts.
Import Maze.

(** X3.  On the game's screen, whatever the engine yields and whatever
    the keys, the player of the loaded maze stays inside the ring of border
    walls: its box starts after the first column and row of cells and the
    cell of its far pixel comes before the last ones; the wall test of the
    level finds no wall where the player stands; and the position lies
    strictly between the bounds of the clamp to the screen, which so never
    moves the player. *)
Theorem maze_player_stays_inside_walls (e : Engine) (fs : list Frame) :
  shufflesPermute e ->
  exists m0 m,
    newMazeLevel GLOBAL_SCREEN_WIDTH GLOBAL_SCREEN_HEIGHT e = Some m0 /\
    Load m0 = Some m /\
    insideRing (run fs m) /\ clearOfWalls (run fs m) /\
    0 < playerX (run fs m) < ofZ (screenWidth (run fs m)) - playerSize (run fs m) /\
    0 < playerY (run fs m) < ofZ (screenHeight (run fs m)) - playerSize (run fs m).
Proof.
  intros Hperm.
  destruct (newMazeLevel GLOBAL_SCREEN_WIDTH GLOBAL_SCREEN_HEIGHT e) as [m0|] eqn:E0;
    [|vm_compute in E0; discriminate].
  destruct (Load_gameMazeInv e m0 Hperm E0) as (m & Hload & Hinv & _).
  exists m0, m. split; [reflexivity|]. split; [exact Hload|].
  pose proof (run_gameMazeInv fs m Hinv)
    as (HW & HH & Hcs & Hs & Hsp & Hw & Hh & Hlay & Rx & Ry & Hring & Hwall).
  split; [exact Hring|].
  split.
  - unfold clearOfWalls. rewrite CheckWallCollision_wallAt.
    rewrite (fadd_0_reduced _ Rx), (fadd_0_reduced _ Ry). exact Hwall.
  - unfold insideRing, axisInside in Hring. rewrite Hcs, Hs, Hw, Hh in Hring.
    destruct Hring as [[X1 X2] [Y1 Y2]]. rewrite HW, HH, Hs.
    change (inject_Z (37 - 1)) with 36 in X2. change (inject_Z (21 - 1)) with 20 in Y2.
    change (ofZ GLOBAL_SCREEN_WIDTH) with 1280. change (ofZ GLOBAL_SCREEN_HEIGHT) with 720.
    repeat split; lra.
Qed.

Lemma maze_player_stays_inside_walls_witness :
  exists m0 m,
    newMazeLevel GLOBAL_SCREEN_WIDTH GLOBAL_SCREEN_HEIGHT plain_engine = Some m0 /\
    Load m0 = Some m /\
    insideRing (run [mkFrame false true true false] m) /\
    clearOfWalls (run [mkFrame false true true false] m).
Proof.
  destruct (maze_player_stays_inside_walls plain_engine [mkFrame false true true false])
    as (m0 & m & H1 & H2 & H3 & H4 & _).
  - intros n. apply Permutation_refl.
  - exists m0, m. auto.
Defined.

End MazePlayerFacts.

(** * Space Invaders: more of the level *)

Section InvadersInvariant.
Import Invaders.

Lemma destroyed_ext a b :
  map i_active a = map i_active b ->
  destroyed a = destroyed b /\ length a = length b /\
  allInvadersDestroyed a = allInvadersDestroyed b.
Proof.
  unfold destroyed, allInvadersDestroyed.
  revert b. induction a as [|x a IH]; intros [|y b] E; try discriminate.
  - repeat split.
  - cbn in E. injection E as Exy E. destruct (IH b E) as (H1 & H2 & H3).
    cbn [filter forallb length]. rewrite Exy, H3, H2.
    destruct (i_active y); cbn [negb andb length]; repeat split; lia.
Qed.

Lemma destroyed_bounds invs :
  (0 <= destroyed invs <= Z.of_nat (length invs))%Z /\
  (allInvadersDestroyed invs = true <-> destroyed invs = Z.of_nat (length invs)).
Proof.
  unfold destroyed, allInvadersDestroyed.
  induction invs as [|i invs [IH1 IH2]]; [cbn; split; [lia|tauto]|].
  cbn [filter forallb length]. destruct (i_active i); cbn [negb andb length].
  - split; [lia|]. split; [discriminate|lia].
  - split; [lia|]. rewrite IH2. lia.
Qed.

Lemma advance_active d s y invs o :
  map i_active (fst (advance d s y invs o)) = map i_active invs.
Proof.
  revert o. induction invs as [|i invs IH]; intros o; [reflexivity|].
  cbn [advance]. destruct (i_active i) eqn:Ei.
  - match goal with |- context [advance d s y invs ?o'] =>
      specialize (IH o'); destruct (advance d s y invs o') as [r o2] end.
    cbn [fst map i_active] in *. rewrite IH, Ei. reflexivity.
  - specialize (IH o). destruct (advance d s y invs o) as [r o2].
    cbn [fst map] in *. rewrite IH. reflexivity.
Qed.

Lemma marchStep_invaders f l :
  map i_active (invaders (marchStep f l)) = map i_active (invaders l) /\
  score (marchStep f l) = score l /\
  currentScreenW (marchStep f l) = currentScreenW l /\
  playerBullets (marchStep f l) = playerBullets l.
Proof.
  unfold marchStep. destruct (fge _ _); [|repeat split].
  destruct (extent _ _ _ _) as [[minX maxX] any]. destruct any; [|repeat split].
  destruct (if feq _ 1 then _ else _) as [direction shouldDescend].
  pose proof (advance_active direction shouldDescend (r_y (p_rect (player l)))
                (invaders l) (gameOver l)) as Ha.
  destruct (advance _ _ _ _ _) as [invs over]. cbn [fst] in Ha. cbn. repeat split. exact Ha.
Qed.

Lemma hitFirstInvader_spec b invs invs' :
  hitFirstInvader b invs = Some invs' ->
  destroyed invs' = (destroyed invs + 1)%Z /\ length invs' = length invs.
Proof.
  unfold destroyed. revert invs'. induction invs as [|i invs IH]; intros invs' E; [discriminate|].
  cbn [hitFirstInvader] in E. destruct (i_active i) eqn:Ei; cbn [andb] in E.
  - destruct (CheckCollisionRecs _ _).
    + injection E as <-. cbn [filter destroy i_active negb length]. rewrite Ei.
      cbn [negb length]. split; [lia|reflexivity].
    + destruct (hitFirstInvader b invs) as [r|]; [|discriminate]. injection E as <-.
      destruct (IH r eq_refl) as [H1 H2]. cbn [filter length]. rewrite Ei. cbn [negb].
      split; [exact H1|rewrite H2; reflexivity].
  - destruct (hitFirstInvader b invs) as [r|]; [|discriminate]. injection E as <-.
    destruct (IH r eq_refl) as [H1 H2]. cbn [filter length]. rewrite Ei. cbn [negb length].
    split; [lia|rewrite H2; reflexivity].
Qed.

Lemma shootInvaders_spec bs : forall invs sc,
  let '(_, invs', sc') := shootInvaders bs invs sc in
  (sc' - 100 * destroyed invs' = sc - 100 * destroyed invs)%Z /\
  length invs' = length invs /\ (sc <= sc')%Z.
Proof.
  induction bs as [|b bs IH]; intros invs sc; [cbn; repeat split; lia|].
  cbn [shootInvaders]. destruct (b_active b).
  - destruct (hitFirstInvader b invs) as [invs1|] eqn:Eh.
    + destruct (hitFirstInvader_spec b invs invs1 Eh) as [H1 H2].
      specialize (IH invs1 (sc + 100)%Z).
      destruct (shootInvaders bs invs1 (sc + 100)%Z) as [[r i2] s2].
      destruct IH as (I1 & I2 & I3). repeat split; lia.
    + specialize (IH invs sc). destruct (shootInvaders bs invs sc) as [[r i2] s2]. exact IH.
  - specialize (IH invs sc). destruct (shootInvaders bs invs sc) as [[r i2] s2]. exact IH.
Qed.

(** The fields of the state a live frame leaves. *)
Lemma Update_fields f l :
  IsComplete l = false ->
  let l1 := marchStep f
    (mkLevel (screenWidth l) (screenHeight l)
       (fst (Player_Update f (currentScreenW l) (player l) (playerBullets l))) (invaders l)
       (sweep (currentScreenH l)
          (snd (Player_Update f (currentScreenW l) (player l) (playerBullets l))))
       (sweep (currentScreenH l) (invaderBullets l)) (score l) (gameOver l) (gameWon l)
       (invaderMoveDirection l) (invaderMoveTimer l) (currentScreenW l) (currentScreenH l)) in
  let si := shootInvaders (playerBullets l1) (invaders l1) (score l1) in
  let sp := shootPlayer (fireAtRandom f 0 (invaders l1) (invaderBullets l1)) (player l1)
              (gameOver l1) in
  invaders (Update f l) = snd (fst si) /\ score (Update f l) = snd si /\
  player (Update f l) = snd (fst sp) /\ gameOver (Update f l) = snd sp /\
  currentScreenW (Update f l) = currentScreenW l.
Proof.
  intros Hl. unfold IsComplete in Hl. unfold Update. rewrite Hl.
  destruct (Player_Update _ _ _ _) as [p pbs]. cbn [fst snd].
  match goal with |- context [marchStep f ?x] =>
    pose proof (marchStep_invaders f x) as (_ & _ & Hw & _);
    set (l1 := marchStep f x) in * end.
  cbn [currentScreenW] in Hw.
  destruct (shootInvaders _ _ _) as [[pbs' invs] sc].
  destruct (shootPlayer _ _ _) as [[ibs p'] over]. cbn. repeat split. exact Hw.
Qed.

Lemma Update_invadersInv f l : invadersInv l -> invadersInv (Update f l).
Proof.
  intros Hinv. destruct (IsComplete l) eqn:Hc; [rewrite Update_frozen; assumption|].
  destruct Hinv as (Hs & Hlen & Hw & Hlv & Hpos & Hz).
  specialize (Hpos Hc).
  destruct (Update_live f l Hc Hpos) as (Lw & Lo & Lp).
  pose proof (Update_fields f l Hc) as HF. cbv zeta in HF.
  match type of HF with context [marchStep f ?x] =>
    pose proof (marchStep_invaders f x) as (Ma & Ms & _);
    pose proof (marchStep_keeps f x) as (Mp & _);
    set (l1 := marchStep f x) in * end.
  cbn [invaders score player] in Ma, Ms, Mp.
  destruct (destroyed_ext _ _ Ma) as (D1 & D2 & _).
  pose proof (shootInvaders_spec (playerBullets l1) (invaders l1) (score l1)) as Hsi.
  pose proof (shootPlayer_spec (fireAtRandom f 0 (invaders l1) (invaderBullets l1))
                (player l1) (gameOver l1)) as Hsp.
  destruct (shootInvaders _ _ _) as [[pbs' invs] sc].
  destruct (shootPlayer _ _ _) as [[ibs p'] over]. cbn [fst snd] in HF.
  destruct HF as (Fi & Fs & Fp & Fo & _). destruct Hsi as (S1 & S2 & S3).
  pose proof (Player_Update_lives f (currentScreenW l) (player l) (playerBullets l)) as Hpl.
  assert (Hlives : lives p' = lives (player l) \/ lives p' = (lives (player l) - 1)%Z).
  { destruct Hsp as [[-> _]|[-> _]]; rewrite Mp; [left|right]; cbn [TakeDamage lives];
      rewrite Hpl; reflexivity. }
  unfold invadersInv. rewrite Fi, Fs, Fp.
  split; [lia|]. split; [congruence|]. split; [rewrite <- Fi; exact Lw|].
  split; [lia|]. split; [rewrite <- Fp; exact Lp|].
  intros H0. apply Lo. rewrite Fp. lia.
Qed.

Lemma Load_invadersInv l0 : invadersInv (Load l0).
Proof.
  unfold invadersInv, Load. cbn [score invaders gameWon player lives newPlayer gameOver].
  repeat split; try reflexivity; try lia.
Qed.

Lemma run_invadersInv fs : forall l, invadersInv l -> invadersInv (run fs l).
Proof.
  unfold run. induction fs as [|f fs IH]; intros l H; [exact H|].
  cbn [fold_left]. apply IH, Update_invadersInv, H.
Qed.

End InvadersInvariant.

Section InvadersShip.
Import Invaders.

Lemma Update_lives_step f l :
  lives (player (Update f l)) = lives (player l) \/
  lives (player (Update f l)) = (lives (player l) - 1)%Z.
Proof.
  destruct (IsComplete l) eqn:Hc; [rewrite Update_frozen by assumption; left; reflexivity|].
  pose proof (Update_fields f l Hc) as HF. cbv zeta in HF.
  match type of HF with context [marchStep f ?x] =>
    pose proof (marchStep_keeps f x) as (Mp & _); set (l1 := marchStep f x) in * end.
  cbn [player] in Mp.
  pose proof (shootPlayer_spec (fireAtRandom f 0 (invaders l1) (invaderBullets l1))
                (player l1) (gameOver l1)) as Hsp.
  destruct (shootPlayer _ _ _) as [[ibs p'] over]. cbn [fst snd] in HF.
  destruct HF as (_ & _ & Fp & _). rewrite Fp.
  pose proof (Player_Update_lives f (currentScreenW l) (player l) (playerBullets l)) as Hpl.
  destruct Hsp as [[-> _]|[-> _]]; rewrite Mp; [left|right]; cbn [TakeDamage lives];
    rewrite Hpl; reflexivity.
Qed.

(** [Player::Update] moves the ship by whole steps and keeps it inside. *)
Lemma Player_Update_ship f W p bs k :
  (W mod 5 = 0)%Z ->
  r_x (p_rect p) = inject_Z (5 * k) -> (0 <= 5 * k <= W - 50)%Z ->
  r_width (p_rect p) = 50 ->
  let p' := fst (Player_Update f (inject_Z W) p bs) in
  exists k', r_x (p_rect p') = inject_Z (5 * k') /\ (0 <= 5 * k' <= W - 50)%Z /\
             r_y (p_rect p') = r_y (p_rect p) /\ r_width (p_rect p') = 50.
Proof.
  intros HW Hx Hk Hwd. unfold Player_Update.
  set (rect1 := if keyLeft f && _ then _ else _).
  assert (H1 : exists k1, r_x rect1 = inject_Z (5 * k1) /\ (0 <= 5 * k1 <= W - 50)%Z /\
                          r_y rect1 = r_y (p_rect p) /\ r_width rect1 = 50).
  { subst rect1. destruct (keyLeft f); cbn [andb]; [|exists k; auto].
    rewrite Hx. unfold fgt. change (0 : Q) with (inject_Z 0). rewrite flt_int.
    destruct (Z.ltb_spec 0 (5 * k)); [|exists k; auto].
    exists (k - 1)%Z. unfold withX, ofZ. cbn [r_x r_y r_width]. rewrite fsub_int.
    split; [f_equal; unfold SI_PLAYER_SPEED; lia|].
    split; [lia|split; auto]. }
  clearbody rect1. destruct H1 as (k1 & X1 & K1 & Y1 & W1).
  set (rect2 := if keyRight f && _ then _ else _).
  assert (H2 : exists k2, r_x rect2 = inject_Z (5 * k2) /\ (0 <= 5 * k2 <= W - 50)%Z /\
                          r_y rect2 = r_y (p_rect p) /\ r_width rect2 = 50).
  { subst rect2. destruct (keyRight f); cbn [andb]; [|exists k1; auto].
    rewrite X1, W1. change (50 : Q) with (inject_Z 50). rewrite fsub_int, flt_int.
    destruct (Z.ltb_spec (5 * k1) (W - 50)); [|exists k1; auto].
    exists (k1 + 1)%Z. unfold withX, ofZ. cbn [r_x r_y r_width]. rewrite fadd_int.
    split; [f_equal; unfold SI_PLAYER_SPEED; lia|].
    split; [|split; auto].
    apply Z.mod_divide in HW; [|lia]. destruct HW as [j Hj]. lia. }
  clearbody rect2. destruct H2 as (k2 & X2 & K2 & Y2 & W2).
  exists k2. destruct (keySpace f && _); cbn [fst p_rect]; auto.
Qed.

Lemma Update_shipInside W H f l :
  (W mod 5 = 0)%Z -> shipInside W H l -> shipInside W H (Update f l).
Proof.
  intros HW Hin.
  destruct (IsComplete l) eqn:Hc; [rewrite Update_frozen; assumption|].
  destruct Hin as (k & Hx & Hk & Hy & Hwd & Hsw).
  pose proof (Update_fields f l Hc) as HF. cbv zeta in HF.
  match type of HF with context [marchStep f ?x] =>
    pose proof (marchStep_keeps f x) as (Mp & _); set (l1 := marchStep f x) in * end.
  cbn [player] in Mp.
  pose proof (shootPlayer_spec (fireAtRandom f 0 (invaders l1) (invaderBullets l1))
                (player l1) (gameOver l1)) as Hsp.
  destruct (shootPlayer _ _ _) as [[ibs p'] over]. cbn [fst snd] in HF.
  destruct HF as (_ & _ & Fp & _ & Fw).
  pose proof (Player_Update_ship f W (player l) (playerBullets l) k HW Hx Hk Hwd) as HP.
  cbv zeta in HP. rewrite <- Hsw in HP. rewrite <- Mp in HP.
  destruct HP as (k' & X & K & Y & Wd).
  exists k'. rewrite Fp, Fw.
  assert (Hr : p_rect p' = p_rect (player l1)) by (destruct Hsp as [[-> _]|[-> _]]; reflexivity).
  rewrite Hr. repeat split; try assumption; try lia. congruence.
Qed.

Lemma Load_shipInside W H :
  (W mod 10 = 0)%Z -> (50 <= W)%Z -> shipInside W H (Load (newLevel W H)).
Proof.
  intros HW H50. apply Z.mod_divide in HW; [|lia]. destruct HW as [j ->].
  exists (j - 5)%Z. unfold Load, newLevel, newPlayer.
  cbn [player p_rect r_x r_y r_width currentScreenW screenWidth screenHeight].
  assert (Hhalf : fdiv (ofZ (j * 10)) 2 = inject_Z (5 * j)).
  { apply Qred_int. unfold ofZ. rewrite !inject_Z_mult. change (inject_Z 10) with 10.
    change (inject_Z 5) with 5. field. }
  rewrite Hhalf. change (25 : Q) with (inject_Z 25). change (70 : Q) with (inject_Z 70).
  unfold ofZ. rewrite !fsub_int.
  repeat split; try lia. f_equal. lia.
Qed.

End InvadersShip.

Section InvadersFacts.
Import Invaders.

(** X4.  In every state a loaded level reaches, the score is 100 for each
    destroyed invader; the formation keeps its sixteen invaders, so the
    score lies between 0 and 1600. *)
Theorem invaders_score_counts_destroyed (l0 : SpaceInvadersLevel) (fs : list Frame) :
  let l := run fs (Load l0) in
  score l = (100 * destroyed (invaders l))%Z /\
  length (invaders l) = 16%nat /\ (0 <= score l <= 1600)%Z.
Proof.
  cbv zeta. destruct (run_invadersInv fs _ (Load_invadersInv l0)) as (Hs & Hlen & _).
  pose proof (destroyed_bounds (invaders (run fs (Load l0)))) as [Hb _].
  rewrite Hlen in Hb. change (SI_INVADER_ROWS * SI_INVADER_COLS)%nat with 16%nat in *.
  repeat split; try assumption; lia.
Qed.

(** X5.  In every state a loaded level reaches, the win flag is set
    exactly when the score is 1600: all sixteen invaders are destroyed. *)
Theorem invaders_won_iff_full_score (l0 : SpaceInvadersLevel) (fs : list Frame) :
  DidPlayerWinThisLevel (run fs (Load l0)) = true <-> score (run fs (Load l0)) = 1600%Z.
Proof.
  destruct (run_invadersInv fs _ (Load_invadersInv l0)) as (Hs & Hlen & Hw & _).
  pose proof (destroyed_bounds (invaders (run fs (Load l0)))) as [Hb Hall].
  unfold DidPlayerWinThisLevel. rewrite Hw, Hall, Hs, Hlen.
  change (SI_INVADER_ROWS * SI_INVADER_COLS)%nat with 16%nat. lia.
Qed.

(** X6.  The ship starts with five lives and loses at most one in a
    frame: in every state a loaded level reaches the lives lie between 0
    and 5, they are positive while the level is not complete, the loss flag
    is set when they are 0, and the next frame takes none or one. *)
Theorem invaders_lives_drop_one_at_a_time (l0 : SpaceInvadersLevel) (fs : list Frame)
    (f : Frame) :
  let l := run fs (Load l0) in
  (0 <= lives (player l) <= 5)%Z /\
  (IsComplete l = false -> (0 < lives (player l))%Z) /\
  (lives (player l) = 0%Z -> gameOver l = true) /\
  (lives (player l) - 1 <= lives (player (Update f l)) <= lives (player l))%Z.
Proof.
  cbv zeta.
  destruct (run_invadersInv fs _ (Load_invadersInv l0)) as (_ & _ & _ & Hlv & Hpos & Hz).
  pose proof (Update_lives_step f (run fs (Load l0))) as Hstep.
  repeat split; try assumption; lia.
Qed.

(** X7.  On a screen whose width is a multiple of 10 and at least 50, the
    ship stays on the screen: in every state a loaded level reaches its
    left edge is a multiple of the step of 5 between 0 and the width less
    the ship's own 50, and it stays on its row 70 above the bottom. *)
Theorem invaders_ship_stays_on_screen (W H : Z) (fs : list Frame) :
  (W mod 10 = 0)%Z -> (50 <= W)%Z ->
  shipInside W H (run fs (Load (newLevel W H))).
Proof.
  intros HW H50.
  assert (H5 : (W mod 5 = 0)%Z).
  { apply Z.mod_divide in HW; [|lia]. destruct HW as [j ->].
    apply Z.mod_divide; [lia|]. exists (j * 2)%Z. lia. }
  pose proof (Load_shipInside W H HW H50) as H0.
  generalize dependent (Load (newLevel W H)). unfold run.
  induction fs as [|f fs IH]; intros l Hl; [exact Hl|].
  cbn [fold_left]. apply IH, Update_shipInside; assumption.
Qed.

Lemma invaders_ship_stays_on_screen_witness :
  shipInside GLOBAL_SCREEN_WIDTH GLOBAL_SCREEN_HEIGHT
    (run [steer true false 0; steer true true 1; steer false true 2]
         (Load (newLevel GLOBAL_SCREEN_WIDTH GLOBAL_SCREEN_HEIGHT))).
Proof.
  apply (invaders_ship_stays_on_screen GLOBAL_SCREEN_WIDTH GLOBAL_SCREEN_HEIGHT).
  - reflexivity.
  - vm_compute. discriminate.
Defined.

End InvadersFacts.

Section InvadersBullets.
Import Invaders.

Lemma sweep_playerShot H bs :
  Forall (fun b => isPlayerBullet b = true /\ r_width (b_rect b) = 5 /\
                   r_height (b_rect b) = 10) bs ->
  Forall (playerShot H) (sweep H bs).
Proof.
  unfold sweep. induction bs as [|b bs IH]; intros HF; [constructor|].
  inversion HF as [|? ? (Hk & Hw & Hh) HF']; subst. cbn [map filter].
  specialize (IH HF').
  assert (Hu : b_active (Bullet_Update H b) = true -> playerShot H (Bullet_Update H b)).
  { unfold Bullet_Update. destruct (b_active b) eqn:Ea; [|congruence].
    rewrite Hk. cbn [b_active].
    destruct (flt _ 0) eqn:E1; cbn [orb]; [discriminate|].
    destruct (fgt _ H) eqn:E2; [discriminate|]. intros _.
    unfold playerShot. cbn [isPlayerBullet b_rect withY r_width r_height r_y].
    apply flt_false_iff in E1. apply fgt_false_iff in E2. cbn [withY r_y] in E1, E2.
    repeat split; auto. }
  destruct (b_active (Bullet_Update H b)); [constructor; auto|exact IH].
Qed.

Lemma sweep_invaderShot H bs : Forall invaderShot bs -> Forall invaderShot (sweep H bs).
Proof.
  unfold sweep. induction bs as [|b bs IH]; intros HF; [constructor|].
  inversion HF as [|? ? (Hk & Hw & Hh) HF']; subst. cbn [map filter].
  specialize (IH HF').
  assert (Hu : invaderShot (Bullet_Update H b)).
  { unfold Bullet_Update. destruct (b_active b); [|repeat split; assumption].
    unfold invaderShot. cbn [isPlayerBullet b_rect withY r_width r_height]. auto. }
  destruct (b_active (Bullet_Update H b)); [constructor; auto|exact IH].
Qed.

Lemma shootInvaders_bullets (P : Bullet -> Prop) :
  (forall b, P b -> P (deactivate b)) ->
  forall bs invs sc, Forall P bs -> Forall P (fst (fst (shootInvaders bs invs sc))).
Proof.
  intros Hd. induction bs as [|b bs IH]; intros invs sc HF; [constructor|].
  inversion HF as [|? ? Hb HF']; subst. cbn [shootInvaders].
  destruct (b_active b).
  - destruct (hitFirstInvader b invs) as [invs1|].
    + specialize (IH invs1 (sc + 100)%Z HF').
      destruct (shootInvaders bs invs1 (sc + 100)%Z) as [[r i2] s2].
      constructor; [apply Hd, Hb|exact IH].
    + specialize (IH invs sc HF'). destruct (shootInvaders bs invs sc) as [[r i2] s2].
      constructor; assumption.
  - specialize (IH invs sc HF'). destruct (shootInvaders bs invs sc) as [[r i2] s2].
    constructor; assumption.
Qed.

Lemma shootPlayer_bullets (P : Bullet -> Prop) :
  (forall b, P b -> P (deactivate b)) ->
  forall bs p over, Forall P bs -> Forall P (fst (fst (shootPlayer bs p over))).
Proof.
  intros Hd. induction bs as [|b bs IH]; intros p over HF; [constructor|].
  inversion HF as [|? ? Hb HF']; subst. cbn [shootPlayer].
  destruct (_ && _).
  - constructor; [apply Hd, Hb|exact HF'].
  - specialize (IH p over HF'). destruct (shootPlayer bs p over) as [[r p'] o'].
    constructor; assumption.
Qed.

Lemma fireAtRandom_bullets f invs : forall k bs,
  Forall invaderShot bs -> Forall invaderShot (fireAtRandom f k invs bs).
Proof.
  induction invs as [|i invs IH]; intros k bs HF; [exact HF|].
  cbn [fireAtRandom]. destruct (i_active i) eqn:Ea; [|apply IH, HF].
  destruct (flt _ _); [|apply IH, HF].
  apply IH. unfold FireBullet. rewrite Ea. apply Forall_app. split; [exact HF|].
  constructor; [|constructor]. unfold invaderShot, newBullet. cbn. auto.
Qed.

Lemma marchStep_bullets f l :
  playerBullets (marchStep f l) = playerBullets l /\
  invaderBullets (marchStep f l) = invaderBullets l /\
  currentScreenH (marchStep f l) = currentScreenH l.
Proof.
  unfold marchStep. destruct (fge _ _); [|repeat split].
  destruct (extent _ _ _ _) as [[minX maxX] any]. destruct any; [|repeat split].
  destruct (if feq _ 1 then _ else _) as [direction shouldDescend].
  destruct (advance _ _ _ _ _) as [invs over]. repeat split.
Qed.

Lemma Update_bulletsInv f l : bulletsInv l -> bulletsInv (Update f l).
Proof.
  intros [Hp Hi]. unfold Update. destruct (gameOver l || gameWon l); [split; assumption|].
  assert (Hpu : Forall (fun b => isPlayerBullet b = true /\ r_width (b_rect b) = 5 /\
                                 r_height (b_rect b) = 10)
                       (snd (Player_Update f (currentScreenW l) (player l) (playerBullets l)))).
  { assert (Hold : Forall (fun b => isPlayerBullet b = true /\ r_width (b_rect b) = 5 /\
                                     r_height (b_rect b) = 10) (playerBullets l)).
    { eapply Forall_impl; [|exact Hp]. intros b (H1 & H2 & H3 & _). auto. }
    unfold Player_Update. destruct (keySpace f && _); cbn [snd]; [|exact Hold].
    apply Forall_app. split; [exact Hold|]. constructor; [|constructor].
    unfold newBullet. cbn. auto. }
  destruct (Player_Update _ _ _ _) as [p pbs]. cbn [snd] in Hpu.
  pose proof (sweep_playerShot (currentScreenH l) pbs Hpu) as Hsp.
  pose proof (sweep_invaderShot (currentScreenH l) (invaderBullets l) Hi) as Hsi.
  match goal with |- context [marchStep f ?x] =>
    pose proof (marchStep_bullets f x) as (Mp & Mi & Mh); set (l1 := marchStep f x) in * end.
  cbn [playerBullets invaderBullets currentScreenH] in Mp, Mi, Mh.
  pose proof (shootInvaders_bullets (playerShot (currentScreenH l))
                ltac:(intros b Hb; exact Hb) (playerBullets l1) (invaders l1) (score l1)) as H1.
  rewrite Mp in H1. specialize (H1 Hsp). rewrite <- Mp in H1.
  pose proof (shootPlayer_bullets invaderShot ltac:(intros b Hb; exact Hb)
                (fireAtRandom f 0 (invaders l1) (invaderBullets l1)) (player l1) (gameOver l1)
                (fireAtRandom_bullets f (invaders l1) 0 (invaderBullets l1)
                   ltac:(rewrite Mi; exact Hsi))) as H2.
  destruct (shootInvaders _ _ _) as [[pbs' invs] sc].
  destruct (shootPlayer _ _ _) as [[ibs p'] over]. cbn [fst] in H1, H2.
  unfold bulletsInv. cbn [playerBullets invaderBullets currentScreenH]. rewrite Mh.
  split; assumption.
Qed.

(** X8.  In every state a loaded level reaches, every bullet of the
    player's vector is a player bullet, 5 by 10, whose top lies between 0
    and the height of the screen, and every bullet of the invaders' vector
    is an invader bullet, 5 by 10: a bullet never changes sides, and a
    player bullet that has left the screen is erased within the frame. *)
Theorem invaders_bullets_keep_their_side (l0 : SpaceInvadersLevel) (fs : list Frame) :
  bulletsInv (run fs (Load l0)).
Proof.
  assert (H0 : bulletsInv (Load l0)) by (split; constructor).
  generalize dependent (Load l0). unfold run.
  induction fs as [|f fs IH]; intros l Hl; [exact Hl|].
  cbn [fold_left]. apply IH, Update_bulletsInv, Hl.
Qed.

End InvadersBullets.

Section InvadersFormation.
Import Invaders.

Lemma column_bounds i : (0 <= column i <= 7)%Z.
Proof.
  unfold column, SI_INVADER_COLS.
  pose proof (Nat.mod_upper_bound i 8 ltac:(lia)). lia.
Qed.

(** The loop that finds the leftmost and the rightmost active invader. *)
Lemma extent_spec invs : forall m M a minX maxX any,
  extent invs m M a = (minX, maxX, any) ->
  minX <= m /\ M <= maxX /\
  (forall i inv, nth_error invs i = Some inv -> i_active inv = true ->
     minX <= r_x (i_rect inv) /\ r_x (i_rect inv) + r_width (i_rect inv) <= maxX) /\
  (minX == m \/ exists i inv, nth_error invs i = Some inv /\ i_active inv = true /\
                             minX == r_x (i_rect inv)) /\
  (maxX == M \/ exists i inv, nth_error invs i = Some inv /\ i_active inv = true /\
                             maxX == r_x (i_rect inv) + r_width (i_rect inv)).
Proof.
  induction invs as [|v invs IH]; intros m M a minX maxX any E.
  - cbn in E. injection E as <- <- <-.
    split; [lra|]. split; [lra|]. split; [intros [|i] inv H; discriminate|].
    split; left; reflexivity.
  - cbn [extent] in E. destruct (i_active v) eqn:Ea.
    + apply IH in E. destruct E as (H1 & H2 & H3 & H4 & H5).
      pose proof (fadd_eq (r_x (i_rect v)) (r_width (i_rect v))) as Ew.
      assert (Hmin : fmin m (r_x (i_rect v)) <= m /\ fmin m (r_x (i_rect v)) <= r_x (i_rect v) /\
                     (fmin m (r_x (i_rect v)) == m \/ fmin m (r_x (i_rect v)) == r_x (i_rect v))).
      { unfold fmin. destruct (flt (r_x (i_rect v)) m) eqn:F.
        - apply flt_iff in F. split; [lra|split; [lra|right; reflexivity]].
        - apply flt_false_iff in F. split; [lra|split; [lra|left; reflexivity]]. }
      assert (Hmax : M <= fmax M (fadd (r_x (i_rect v)) (r_width (i_rect v))) /\
                     fadd (r_x (i_rect v)) (r_width (i_rect v))
                     <= fmax M (fadd (r_x (i_rect v)) (r_width (i_rect v))) /\
                     (fmax M (fadd (r_x (i_rect v)) (r_width (i_rect v))) == M \/
                      fmax M (fadd (r_x (i_rect v)) (r_width (i_rect v)))
                      == fadd (r_x (i_rect v)) (r_width (i_rect v)))).
      { unfold fmax. destruct (flt M _) eqn:F.
        - apply flt_iff in F. split; [lra|split; [lra|right; reflexivity]].
        - apply flt_false_iff in F. split; [lra|split; [lra|left; reflexivity]]. }
      destruct Hmin as (N1 & N2 & N3). destruct Hmax as (X1 & X2 & X3).
      split; [lra|]. split; [lra|]. split; [|split].
      * intros [|i] inv Hn Hact.
        -- cbn in Hn. injection Hn as <-. split; lra.
        -- apply (H3 i inv Hn Hact).
      * destruct H4 as [H4|(i & inv & Hn & Hact & H4)].
        -- destruct N3 as [N3|N3]; [left; lra|].
           right. exists 0%nat, v. split; [reflexivity|]. split; [exact Ea|lra].
        -- right. exists (S i), inv. auto.
      * destruct H5 as [H5|(i & inv & Hn & Hact & H5)].
        -- destruct X3 as [X3|X3]; [left; lra|].
           right. exists 0%nat, v. split; [reflexivity|]. split; [exact Ea|lra].
        -- right. exists (S i), inv. auto.
    + apply IH in E. destruct E as (H1 & H2 & H3 & H4 & H5).
      split; [exact H1|]. split; [exact H2|]. split; [|split].
      * intros [|i] inv Hn Hact.
        -- cbn in Hn. injection Hn as <-. congruence.
        -- apply (H3 i inv Hn Hact).
      * destruct H4 as [H4|(i & inv & Hn & Hact & H4)]; [left; exact H4|].
        right. exists (S i), inv. auto.
      * destruct H5 as [H5|(i & inv & Hn & Hact & H5)]; [left; exact H5|].
        right. exists (S i), inv. auto.
Qed.

(** The loop that moves the formation, invader by invader. *)
Lemma advance_nth d sd y invs : forall o i inv',
  nth_error (fst (advance d sd y invs o)) i = Some inv' ->
  exists inv, nth_error invs i = Some inv /\ i_active inv' = i_active inv /\
    r_width (i_rect inv') = r_width (i_rect inv) /\
    (i_active inv = true ->
     r_x (i_rect inv') = fadd (r_x (i_rect inv)) (fmul (fmul d (ofZ SI_INVADER_SPEED)) 10)).
Proof.
  induction invs as [|v invs IH]; intros o i inv' Hn.
  - cbn in Hn. destruct i; discriminate.
  - cbn [advance] in Hn. destruct (i_active v) eqn:Ea.
    + match type of Hn with context [advance d sd y invs ?o'] =>
        specialize (IH o'); destruct (advance d sd y invs o') as [r o2] end.
      cbn [fst] in *. destruct i as [|i].
      * cbn in Hn. injection Hn as <-. exists v. split; [reflexivity|].
        cbn [i_active i_rect]. split; [auto|].
        destruct sd; cbn [withX withY r_width r_x]; auto.
      * cbn in Hn. destruct (IH i inv' Hn) as (inv & H1 & H2). exists inv. auto.
    + specialize (IH o). destruct (advance d sd y invs o) as [r o2].
      cbn [fst] in *. destruct i as [|i].
      * cbn in Hn. injection Hn as <-. exists v. split; [reflexivity|].
        split; [reflexivity|]. split; [reflexivity|]. congruence.
      * cbn in Hn. destruct (IH i inv' Hn) as (inv & H1 & H2). exists inv. auto.
Qed.

(** A shot keeps every invader in its place; it can only destroy. *)
Lemma hitFirstInvader_nth b invs : forall invs' i inv',
  hitFirstInvader b invs = Some invs' -> nth_error invs' i = Some inv' ->
  exists inv, nth_error invs i = Some inv /\ i_rect inv' = i_rect inv /\
              (i_active inv' = true -> i_active inv = true).
Proof.
  induction invs as [|v invs IH]; intros invs' i inv' E Hn; [discriminate|].
  cbn [hitFirstInvader] in E. destruct (i_active v && _) eqn:Eh.
  - injection E as <-. destruct i as [|i].
    + cbn in Hn. injection Hn as <-. exists v. split; [reflexivity|].
      split; [reflexivity|]. cbn. discriminate.
    + cbn in Hn. exists inv'. auto.
  - destruct (hitFirstInvader b invs) as [r|]; [|discriminate]. injection E as <-.
    destruct i as [|i].
    + cbn in Hn. injection Hn as <-. exists v. auto.
    + cbn in Hn. destruct (IH r i inv' eq_refl Hn) as (inv & H1 & H2). exists inv. auto.
Qed.

Lemma shootInvaders_nth bs : forall invs sc i inv',
  nth_error (snd (fst (shootInvaders bs invs sc))) i = Some inv' ->
  exists inv, nth_error invs i = Some inv /\ i_rect inv' = i_rect inv /\
              (i_active inv' = true -> i_active inv = true).
Proof.
  induction bs as [|b bs IH]; intros invs sc i inv' Hn.
  - cbn in Hn. exists inv'. auto.
  - cbn [shootInvaders] in Hn. destruct (b_active b).
    + destruct (hitFirstInvader b invs) as [invs1|] eqn:Eh.
      * specialize (IH invs1 (sc + 100)%Z i inv').
        destruct (shootInvaders bs invs1 (sc + 100)%Z) as [[r i2] s2]. cbn [fst snd] in *.
        destruct (IH Hn) as (inv1 & H1 & H2 & H3).
        destruct (hitFirstInvader_nth b invs invs1 i inv1 Eh H1) as (inv & G1 & G2 & G3).
        exists inv. split; [exact G1|]. split; [congruence|auto].
      * specialize (IH invs sc i inv'). destruct (shootInvaders bs invs sc) as [[r i2] s2].
        cbn [fst snd] in *. apply IH, Hn.
    + specialize (IH invs sc i inv'). destruct (shootInvaders bs invs sc) as [[r i2] s2].
      cbn [fst snd] in *. apply IH, Hn.
Qed.

Lemma inFormation_thinned W base invs invs' :
  (forall i inv', nth_error invs' i = Some inv' ->
     exists inv, nth_error invs i = Some inv /\ i_rect inv' = i_rect inv /\
                 (i_active inv' = true -> i_active inv = true)) ->
  inFormation W base invs -> inFormation W base invs'.
Proof.
  intros Hsub Hin i inv' Hn Hact.
  destruct (Hsub i inv' Hn) as (inv & H1 & H2 & H3). rewrite H2.
  apply (Hin i inv H1 (H3 Hact)).
Qed.

(** The timed step keeps the formation on the screen. *)
Lemma marchStep_formation f l :
  420 < currentScreenW l -> formationInv l ->
  formationInv (marchStep f l) /\ currentScreenW (marchStep f l) = currentScreenW l.
Proof.
  intros HW [Hdir [base Hin]]. unfold marchStep.
  destruct (fge _ _); [|split; [split; [exact Hdir|exists base; exact Hin]|reflexivity]].
  destruct (extent (invaders l) (currentScreenW l) 0 false) as [[minX maxX] any] eqn:Ex.
  destruct (extent_spec _ _ _ _ _ _ _ Ex) as (X1 & X2 & X3 & X4 & X5).
  destruct any; [|split; [split; [exact Hdir|exists base; exact Hin]|reflexivity]].
  set (W := currentScreenW l) in *.
  pose proof (fsub_eq W 20) as EW.
  assert (Hmove : forall d nb,
    (d == 1 \/ d == -1) -> nb == base + d * 10 ->
    (forall i inv, nth_error (invaders l) i = Some inv -> i_active inv = true ->
       10 < r_x (i_rect inv) + d * 10 /\ r_x (i_rect inv) + d * 10 + 30 < W - 10) ->
    forall sd, inFormation W nb (fst (advance d sd (r_y (p_rect (player l))) (invaders l)
                                        (gameOver l)))).
  { intros d nb Hd Hnb Hb sd i inv' Hn Hact.
    destruct (advance_nth d sd _ _ _ i inv' Hn) as (inv & H1 & H2 & H3 & H4).
    rewrite H2 in Hact. specialize (H4 Hact).
    destruct (Hin i inv H1 Hact) as (I1 & I2 & I3 & I4).
    destruct (Hb i inv H1 Hact) as [B1 B2].
    assert (Ex' : r_x (i_rect inv') == r_x (i_rect inv) + d * 10).
    { rewrite H4, fadd_eq, !fmul_eq. unfold ofZ, SI_INVADER_SPEED.
      change (inject_Z 1) with 1. ring. }
    rewrite H3. repeat split; try lra. }
  assert (Hwide : forall i j inv1 inv2,
    nth_error (invaders l) i = Some inv1 -> i_active inv1 = true ->
    nth_error (invaders l) j = Some inv2 -> i_active inv2 = true ->
    r_x (i_rect inv1) <= r_x (i_rect inv2) + 350).
  { intros i j inv1 inv2 H1 A1 H2 A2.
    destruct (Hin i inv1 H1 A1) as (I1 & _). destruct (Hin j inv2 H2 A2) as (J1 & _).
    pose proof (column_bounds i) as Ci. pose proof (column_bounds j) as Cj.
    assert (Qi : inject_Z (column i) <= 7) by (change 7 with (inject_Z 7); rewrite <- Zle_Qle; lia).
    assert (Qj : 0 <= inject_Z (column j)) by (change 0 with (inject_Z 0); rewrite <- Zle_Qle; lia).
    lra. }
  destruct (feq (invaderMoveDirection l) 1) eqn:Ed.
  - assert (Hd1 : invaderMoveDirection l == 1) by (apply Qeq_bool_iff; exact Ed).
    destruct (fge maxX (fsub W 20)) eqn:Eg.
    + apply fge_iff in Eg.
      match goal with |- context [advance ?d ?sd ?y ?invs ?o] =>
        assert (HM : inFormation W (base - 10) (fst (advance d sd y invs o)));
        [apply Hmove|destruct (advance d sd y invs o) as [invs' over]] end.
      * right; reflexivity.
      * ring.
      * intros i inv Hn Hact. destruct (Hin i inv Hn Hact) as (_ & _ & I3 & I4).
        destruct X5 as [X5|(j & invj & Hj & Aj & X5)]; [lra|].
        destruct (Hin j invj Hj Aj) as (_ & J2 & _).
        pose proof (Hwide j i invj inv Hj Aj Hn Hact).
        change (- (1) * 10) with (- (10 # 1)). split; lra.
      * cbn [fst] in HM. split; [|reflexivity]. split; [right; reflexivity|].
        exists (base - 10). exact HM.
    + apply fge_false_iff in Eg.
      match goal with |- context [advance ?d ?sd ?y ?invs ?o] =>
        assert (HM : inFormation W (base + 10) (fst (advance d sd y invs o)));
        [apply Hmove|destruct (advance d sd y invs o) as [invs' over]] end.
      * left; exact Hd1.
      * rewrite Hd1; ring.
      * intros i inv Hn Hact. destruct (Hin i inv Hn Hact) as (_ & I2 & I3 & I4).
        destruct (X3 i inv Hn Hact) as [_ X3b]. rewrite Hd1. split; lra.
      * cbn [fst] in HM. split; [|reflexivity]. split; [left; exact Hd1|].
        exists (base + 10). exact HM.
  - assert (Hd1 : invaderMoveDirection l == -1).
    { destruct Hdir as [Hdir|Hdir]; [|exact Hdir].
      apply Qeq_bool_iff in Hdir. unfold feq in Ed. congruence. }
    destruct (fle minX 20) eqn:Eg.
    + apply fle_iff in Eg.
      match goal with |- context [advance ?d ?sd ?y ?invs ?o] =>
        assert (HM : inFormation W (base + 10) (fst (advance d sd y invs o)));
        [apply Hmove|destruct (advance d sd y invs o) as [invs' over]] end.
      * left; reflexivity.
      * ring.
      * intros i inv Hn Hact. destruct (Hin i inv Hn Hact) as (_ & _ & I3 & I4).
        destruct X4 as [X4|(j & invj & Hj & Aj & X4)]; [lra|].
        pose proof (Hwide i j inv invj Hn Hact Hj Aj). split; lra.
      * cbn [fst] in HM. split; [|reflexivity]. split; [left; reflexivity|].
        exists (base + 10). exact HM.
    + apply fle_false_iff in Eg.
      match goal with |- context [advance ?d ?sd ?y ?invs ?o] =>
        assert (HM : inFormation W (base - 10) (fst (advance d sd y invs o)));
        [apply Hmove|destruct (advance d sd y invs o) as [invs' over]] end.
      * right; exact Hd1.
      * rewrite Hd1; ring.
      * intros i inv Hn Hact. destruct (Hin i inv Hn Hact) as (_ & _ & I3 & I4).
        destruct (X3 i inv Hn Hact) as [X3a _]. rewrite Hd1. split; lra.
      * cbn [fst] in HM. split; [|reflexivity]. split; [right; exact Hd1|].
        exists (base - 10). exact HM.
Qed.

Lemma Update_formation f l :
  420 < currentScreenW l -> formationInv l ->
  formationInv (Update f l) /\ currentScreenW (Update f l) = currentScreenW l.
Proof.
  intros HW Hinv. unfold Update.
  destruct (gameOver l || gameWon l); [split; [exact Hinv|reflexivity]|].
  destruct (Player_Update _ _ _ _) as [p pbs].
  match goal with |- context [marchStep f ?x] =>
    destruct (marchStep_formation f x HW Hinv) as [[Md [base Mf]] Mw];
    set (l1 := marchStep f x) in * end.
  cbn [currentScreenW] in Mw.
  pose proof (shootInvaders_nth (playerBullets l1) (invaders l1) (score l1)) as Hs.
  destruct (shootInvaders _ _ _) as [[pbs' invs] sc].
  destruct (shootPlayer _ _ _) as [[ibs p'] over]. cbn [fst snd] in Hs.
  unfold formationInv. cbn [invaderMoveDirection invaders currentScreenW].
  split; [|exact Mw]. split; [exact Md|].
  exists base. apply (inFormation_thinned _ _ (invaders l1)); [exact Hs|exact Mf].
Qed.

Lemma spawnGrid_formation W : 440 < W -> inFormation W 50 spawnGrid.
Proof.
  intros HW i inv Hn Hact.
  assert (Hi : (i < 16)%nat).
  { change 16%nat with (length spawnGrid). apply nth_error_Some. rewrite Hn. discriminate. }
  do 16 (destruct i as [|i];
    [cbn in Hn; injection Hn as <-; cbn [newInvader i_rect r_x r_width v_x];
     split; [vm_compute; reflexivity|]; split; [reflexivity|];
     match goal with |- context [fadd ?a ?b] =>
       let v := eval vm_compute in (fadd a b) in change (fadd a b) with v end;
     split; lra|]).
  lia.
Qed.

Lemma Load_formation l0 :
  440 < currentScreenW l0 ->
  formationInv (Load l0) /\ currentScreenW (Load l0) = currentScreenW l0.
Proof.
  intros HW. split; [|reflexivity]. split; [left; reflexivity|].
  exists 50. cbn [Load invaders currentScreenW]. apply spawnGrid_formation, HW.
Qed.

Lemma run_formation fs : forall l,
  420 < currentScreenW l -> formationInv l ->
  formationInv (run fs l) /\ currentScreenW (run fs l) = currentScreenW l.
Proof.
  unfold run. induction fs as [|f fs IH]; intros l HW Hinv; [split; [exact Hinv|reflexivity]|].
  cbn [fold_left]. destruct (Update_formation f l HW Hinv) as [H1 H2].
  destruct (IH (Update f l) ltac:(rewrite H2; exact HW) H1) as [H3 H4].
  split; [exact H3|congruence].
Qed.

(** X9.  On a screen wider than 440, in every state a loaded level
    reaches, the direction of the march is 1 or -1 and the active invaders
    stand in their columns, 50 apart from a common left end, each one 30 wide
    and strictly inside the screen with a margin of 10 on both sides: the
    formation turns round before it can leave the screen. *)
Theorem invaders_formation_stays_on_screen (l0 : SpaceInvadersLevel) (fs : list Frame) :
  440 < currentScreenW l0 ->
  formationInv (run fs (Load l0)) /\
  currentScreenW (run fs (Load l0)) = currentScreenW l0.
Proof.
  intros HW. destruct (Load_formation l0 HW) as [H1 H2].
  destruct (run_formation fs (Load l0) ltac:(rewrite H2; lra) H1) as [H3 H4].
  split; [exact H3|congruence].
Qed.

Lemma invaders_formation_stays_on_screen_witness :
  formationInv
    (run [mkFrame false false false 0 1 (fun _ => 1);
          mkFrame false false true 1 1 (fun _ => 0)]
         (Load (newLevel GLOBAL_SCREEN_WIDTH GLOBAL_SCREEN_HEIGHT))) /\
  currentScreenW
    (run [mkFrame false false false 0 1 (fun _ => 1);
          mkFrame false false true 1 1 (fun _ => 0)]
         (Load (newLevel GLOBAL_SCREEN_WIDTH GLOBAL_SCREEN_HEIGHT)))
  = currentScreenW (newLevel GLOBAL_SCREEN_WIDTH GLOBAL_SCREEN_HEIGHT).
Proof.
  apply (invaders_formation_stays_on_screen
           (newLevel GLOBAL_SCREEN_WIDTH GLOBAL_SCREEN_HEIGHT)).
  vm_compute. reflexivity.
Defined.

End InvadersFormation.

(** * Flappy: more of the level *)

Section FlappyBird.
Import Flappy.

(** [Bird::Update] leaves the bird between the two clamping lines. *)
Lemma Bird_Update_inside dt b :
  3 * m_radius b <= ofZ (b_screenH b) ->
  m_radius b * (3 # 2) <= v_y (m_position (Bird_Update dt b)) /\
  v_y (m_position (Bird_Update dt b)) <= ofZ (b_screenH b) - m_radius b * (3 # 2).
Proof.
  intros HH. unfold Bird_Update.
  cbn [setVelocityY setPosition m_position m_velocityY m_radius v_x v_y b_screenH b_screenW m_health].
  set (y1 := fadd (v_y (m_position b)) _).
  pose proof (fmul_eq (m_radius b) (3 # 2)) as Hlo.
  set (lo := fmul (m_radius b) (3 # 2)) in *.
  pose proof (fsub_eq (ofZ (b_screenH b)) lo) as Hhi.
  destruct (flt y1 lo) eqn:E1;
    cbn [setVelocityY setPosition m_position m_velocityY m_radius v_x v_y b_screenH b_screenW m_health];
    fold lo.
  - destruct (fgt lo (fsub (ofZ (b_screenH b)) lo)) eqn:E2;
      cbn [setVelocityY setPosition m_position m_velocityY m_radius v_x v_y b_screenH b_screenW m_health].
    + apply fgt_iff in E2. lra.
    + apply fgt_false_iff in E2. lra.
  - apply flt_false_iff in E1.
    destruct (fgt y1 (fsub (ofZ (b_screenH b)) lo)) eqn:E2;
      cbn [setVelocityY setPosition m_position m_velocityY m_radius v_x v_y b_screenH b_screenW m_health].
    + lra.
    + apply fgt_false_iff in E2. lra.
Qed.

Lemma pipeLoop_collision dt b ps c s :
  snd (fst (pipeLoop dt b ps c s)) = c || existsb (fun p => hits b (Pipe_Update dt p)) ps.
Proof.
  revert c s. induction ps as [|p ps IH]; intros c s.
  - cbn. rewrite orb_false_r. reflexivity.
  - cbn [pipeLoop existsb].
    destruct (negb (isScored (Pipe_Update dt p)) && passed b (Pipe_Update dt p));
      match goal with |- context [pipeLoop dt b ps ?c' ?s'] =>
        specialize (IH c' s'); destruct (pipeLoop dt b ps c' s') as [[r c2] s2]
      end; cbn [fst snd] in *; rewrite IH;
      destruct (hits b (Pipe_Update dt p)), c; reflexivity.
Qed.

Lemma movePhase_bird f l :
  m_bird (fst (movePhase f l)) = Bird_Update (deltaTime f) (m_bird l).
Proof.
  unfold movePhase. cbn [withBird m_bird m_pipes m_score].
  destruct (pipeLoop _ _ _ _ _) as [[ps c] s]. reflexivity.
Qed.

Lemma movePhase_collision f l :
  snd (movePhase f l) = touchesEdge (fst (movePhase f l)) || pipeHit f l.
Proof.
  unfold movePhase, pipeHit. cbn [withBird m_bird m_pipes m_score].
  pose proof (pipeLoop_collision (deltaTime f) (Bird_Update (deltaTime f) (m_bird l))
                (m_pipes l) false (m_score l)) as H.
  destruct (pipeLoop _ _ _ _ _) as [[ps c] s]. cbn [fst snd] in *. subst c.
  destruct (touchesEdge _); reflexivity.
Qed.

Lemma touchesEdge_inside f l :
  0 < m_radius (m_bird l) ->
  3 * m_radius (m_bird l) <= ofZ (screenHeight l) ->
  b_screenH (m_bird l) = screenHeight l ->
  touchesEdge (fst (movePhase f l)) = false.
Proof.
  intros Hr HH Hb.
  destruct (movePhase_fields f l) as (_ & HH1 & _).
  unfold touchesEdge. rewrite movePhase_bird, HH1.
  destruct (Bird_Update_fields (deltaTime f) (m_bird l)) as (Er & _).
  rewrite Er.
  pose proof (Bird_Update_inside (deltaTime f) (m_bird l)) as Hy.
  rewrite Hb in Hy. specialize (Hy HH).
  set (y := v_y (m_position (Bird_Update (deltaTime f) (m_bird l)))) in *.
  apply orb_false_intro.
  - apply fge_false_iff. rewrite fadd_eq. lra.
  - apply fle_false_iff. rewrite fsub_eq. lra.
Qed.

End FlappyBird.

Section FlappyInvariant.
Import Flappy.

Lemma newPipe_shape a x gapY H : pipeShape H (newPipe a x gapY H).
Proof.
  unfold pipeShape, newPipe. cbn [m_topRect m_bottomRect r_x r_y r_width r_height].
  change (ofZ (FLAPPY_PIPE_GAP / 2)) with (75 : Q).
  change (inject_Z FLAPPY_PIPE_GAP) with (150 : Q).
  pose proof (fadd_eq gapY 75) as H1. pose proof (fsub_eq gapY 75) as H2.
  pose proof (fsub_eq (ofZ H) (fadd gapY 75)) as H3.
  split; [reflexivity|]. split; [reflexivity|]. split; [reflexivity|].
  split; [reflexivity|]. split.
  - lra.
  - unfold ofZ in *. lra.
Qed.

Lemma stepPipe_shape dt b H p : pipeShape H p -> pipeShape H (stepPipe dt b p).
Proof.
  unfold pipeShape, stepPipe. intros (Hx & Hrest).
  destruct (_ && _);
    cbn [markScored Pipe_Update moveRect m_topRect m_bottomRect r_x r_y r_width r_height];
    (split; [rewrite Hx; reflexivity|exact Hrest]).
Qed.

Lemma twoFreshPipes_shape W H g a :
  Forall (pipeShape H) (fst (fst (twoFreshPipes W H g a))).
Proof. cbn. repeat constructor; apply newPipe_shape. Qed.

(** The bird after the move phase and the collision block: it has lost
    one step of health when there was a collision. *)
Lemma takeDamage_step b n :
  (0 <= n <= 3)%Z ->
  m_health b == FLAPPY_INITIAL_HEALTH - FLAPPY_DAMAGE_PER_HIT * inject_Z n ->
  m_health (takeDamage FLAPPY_DAMAGE_PER_HIT b)
  == FLAPPY_INITIAL_HEALTH - FLAPPY_DAMAGE_PER_HIT * inject_Z (n + 1).
Proof.
  intros Hn Hh. unfold takeDamage. cbn [setHealth m_health].
  pose proof (fsub_eq (m_health b) FLAPPY_DAMAGE_PER_HIT) as Hs.
  assert (Hq : inject_Z (n + 1) == inject_Z n + 1) by (rewrite inject_Z_plus; reflexivity).
  assert (Hle : inject_Z n <= 3) by (change 3 with (inject_Z 3); rewrite <- Zle_Qle; lia).
  unfold FLAPPY_INITIAL_HEALTH, FLAPPY_DAMAGE_PER_HIT in *.
  destruct (flt (fsub (m_health b) 25) 0) eqn:E; cbn [setHealth m_health].
  - apply flt_iff in E. rewrite Hq. lra.
  - rewrite Hq. lra.
Qed.

Lemma hitTimes_positive l n :
  hitTimes l n -> 0 < m_health (m_bird l) -> (0 <= n <= 3)%Z.
Proof.
  intros [Hn Hh] Hpos. unfold FLAPPY_INITIAL_HEALTH, FLAPPY_DAMAGE_PER_HIT in Hh.
  destruct (Z.eq_dec n 4) as [->|]; [|lia].
  exfalso. unfold inject_Z in Hh. lra.
Qed.

(** What the steps after the collision block keep, and how the score
    decides the end. *)
Lemma Update_playing_tail f l l' :
  m_currentScreen l = FLAPPY_PLAYING -> Update f l = Some l' ->
  let l2 := if snd (movePhase f l) then handleCollision (fst (movePhase f l))
            else fst (movePhase f l) in
  screenHeight l' = screenHeight l2 /\
  m_health (m_bird l') = m_health (m_bird l2) /\
  m_radius (m_bird l') = m_radius (m_bird l2) /\
  b_screenH (m_bird l') = b_screenH (m_bird l2) /\
  m_score l' = m_score l2 /\
  (Forall (pipeShape (screenHeight l2)) (m_pipes l2) ->
   Forall (pipeShape (screenHeight l2)) (m_pipes l')) /\
  (if (m_score l2 >=? FLAPPY_WIN_SCORE)%Z
   then m_currentScreen l' = FLAPPY_WIN /\ m_levelFinished l' = true /\
        m_playerWonLevel l' = true
   else m_currentScreen l' = m_currentScreen l2 /\
        m_levelFinished l' = m_levelFinished l2 /\
        m_playerWonLevel l' = m_playerWonLevel l2).
Proof.
  intros Hscr Hup. unfold Update in Hup. rewrite Hscr in Hup.
  destruct (movePhase f l) as [l1 c]. cbn [fst snd].
  set (l2 := if c then handleCollision l1 else l1) in *. clearbody l2.
  assert (H3 : let l3 := removeOffscreen l2 in
    screenHeight l3 = screenHeight l2 /\ m_bird l3 = m_bird l2 /\ m_score l3 = m_score l2 /\
    m_currentScreen l3 = m_currentScreen l2 /\ m_levelFinished l3 = m_levelFinished l2 /\
    m_playerWonLevel l3 = m_playerWonLevel l2 /\
    (Forall (pipeShape (screenHeight l2)) (m_pipes l2) ->
     Forall (pipeShape (screenHeight l2)) (m_pipes l3))).
  { unfold removeOffscreen. destruct (m_pipes l2) as [|p ps] eqn:Ep.
    - repeat split. rewrite Ep. auto.
    - destruct (flt _ 0); cbn; repeat split; try (rewrite Ep; auto).
      intros HF. inversion HF; assumption. }
  set (l3 := removeOffscreen l2) in *. clearbody l3.
  destruct H3 as (E1 & E2 & E3 & E4 & E5 & E6 & E7).
  destruct (back (m_pipes l3)) as [b|]; [|discriminate].
  assert (H4 : let l4 := if flt (r_x (getTopRect b))
                                (fsub (ofZ (screenWidth l3)) FLAPPY_MIN_HORIZONTAL_PIPE_SPACING)
                         then GenerateNewPipe l3 else l3 in
    screenHeight l4 = screenHeight l2 /\ m_bird l4 = m_bird l2 /\ m_score l4 = m_score l2 /\
    m_currentScreen l4 = m_currentScreen l2 /\ m_levelFinished l4 = m_levelFinished l2 /\
    m_playerWonLevel l4 = m_playerWonLevel l2 /\
    (Forall (pipeShape (screenHeight l2)) (m_pipes l2) ->
     Forall (pipeShape (screenHeight l2)) (m_pipes l4))).
  { destruct (flt _ _); cbn zeta; [|repeat split; assumption].
    unfold GenerateNewPipe. cbn. repeat split; try assumption.
    intros HF. apply Forall_app. split; [auto|].
    constructor; [|constructor]. rewrite E1. apply newPipe_shape. }
  match type of Hup with context [if ?c then GenerateNewPipe l3 else l3] =>
    set (l4 := if c then GenerateNewPipe l3 else l3) in * end.
  clearbody l4. cbn zeta in H4.
  destruct H4 as (F1 & F2 & F3 & F4 & F5 & F6 & F7).
  injection Hup as <-. rewrite <- F3.
  destruct (m_score l4 >=? FLAPPY_WIN_SCORE)%Z; destruct (spacePressed f);
    cbn [finish withBird Jump setVelocityY m_bird m_health m_radius b_screenH m_score
         screenHeight m_pipes m_currentScreen m_levelFinished m_playerWonLevel];
    rewrite ?F2; repeat split; auto.
Qed.

Lemma handleCollision_fields l :
  screenHeight (handleCollision l) = screenHeight l /\
  m_score (handleCollision l) = m_score l /\
  m_health (m_bird (handleCollision l))
  = m_health (takeDamage FLAPPY_DAMAGE_PER_HIT (m_bird l)) /\
  m_radius (m_bird (handleCollision l)) = m_radius (m_bird l) /\
  b_screenH (m_bird (handleCollision l)) = b_screenH (m_bird l) /\
  (Forall (pipeShape (screenHeight l)) (m_pipes l) ->
   Forall (pipeShape (screenHeight l)) (m_pipes (handleCollision l))) /\
  (if fle (m_health (takeDamage FLAPPY_DAMAGE_PER_HIT (m_bird l))) 0
   then m_currentScreen (handleCollision l) = FLAPPY_GAME_OVER /\
        m_levelFinished (handleCollision l) = true /\
        m_playerWonLevel (handleCollision l) = false
   else m_currentScreen (handleCollision l) = m_currentScreen l /\
        m_levelFinished (handleCollision l) = m_levelFinished l /\
        m_playerWonLevel (handleCollision l) = m_playerWonLevel l).
Proof.
  unfold handleCollision.
  assert (Hb : m_radius (takeDamage FLAPPY_DAMAGE_PER_HIT (m_bird l)) = m_radius (m_bird l) /\
               b_screenH (takeDamage FLAPPY_DAMAGE_PER_HIT (m_bird l)) = b_screenH (m_bird l)).
  { unfold takeDamage. cbn [setHealth m_health]. destruct (flt _ 0); split; reflexivity. }
  destruct Hb as [Hb1 Hb2].
  destruct (fle _ 0).
  - cbn. repeat split; auto.
  - pose proof (twoFreshPipes_shape (screenWidth l) (screenHeight l) (m_gen l) (heap_next l)) as Hs.
    destruct (twoFreshPipes _ _ _ _) as [[ps g] a]. cbn in *. repeat split; auto.
Qed.

Lemma Update_flappyInv f l l' :
  Update f l = Some l' -> flappyInv l -> flappyInv l' /\ screenHeight l' = screenHeight l.
Proof.
  intros Hup (Hfit & [n Hn] & [Hs0 Hsnd] & Hsh).
  destruct (m_currentScreen l) eqn:Hscr.
  - unfold Update in Hup. rewrite Hscr in Hup. injection Hup as <-.
    destruct (spacePressed f); (split; [|reflexivity]); repeat split; eauto;
      try apply Hfit; try apply Hsnd; cbn; try rewrite Hscr; try apply Hsnd; assumption.
  - pose proof (Update_playing_tail f l l' Hscr Hup) as HT. cbv zeta in HT.
    destruct Hsnd as (Hfin & Hwon & Hpos & Hlt).
    pose proof (hitTimes_positive l n Hn Hpos) as Hn3.
    destruct (movePhase_fields f l) as (_ & M2 & _ & _ & M5 & M6 & M7).
    pose proof (movePhase_bird f l) as Mb.
    pose proof (movePhase_pipes f l) as Mp.
    pose proof (movePhase_score f l) as Ms.
    destruct (Bird_Update_fields (deltaTime f) (m_bird l)) as (B1 & B2 & _ & B4 & _).
    set (l1 := fst (movePhase f l)) in *.
    assert (Hsh1 : Forall (pipeShape (screenHeight l1)) (m_pipes l1)).
    { rewrite Mp, M2. apply Forall_map. eapply Forall_impl; [|exact Hsh].
      intros p. apply stepPipe_shape. }
    assert (Hs1 : (m_score l <= m_score l1)%Z) by (rewrite Ms; lia).
    destruct Hfit as [Hr Hb]. destruct Hn as [_ Hh].
    destruct (snd (movePhase f l)).
    + destruct (handleCollision_fields l1) as (C1 & C2 & C3 & C4 & C5 & C6 & C7).
      destruct HT as (T1 & T2 & T3 & T4 & T5 & T6 & T7).
      pose proof (takeDamage_step (m_bird l1) n Hn3) as Hd.
      rewrite Mb, B4 in Hd. specialize (Hd Hh). rewrite <- Mb in Hd.
      pose proof (takeDamage_health_nonneg FLAPPY_DAMAGE_PER_HIT (m_bird l1)) as Hnn.
      rewrite C1 in T1, T6. rewrite C2 in T5, T7.
      split; [|congruence].
      split; [split; [rewrite T3, C4, Mb, B1; exact Hr | rewrite T4, C5, Mb, B2, T1, M2; exact Hb]|].
      split; [exists (n + 1)%Z; split; [lia|rewrite T2, C3; exact Hd]|].
      split; [|rewrite T1; auto].
      split; [lia|].
      destruct (m_score l1 >=? FLAPPY_WIN_SCORE)%Z eqn:Hw.
      * destruct T7 as (-> & -> & ->). repeat split. lia.
      * destruct T7 as (Ta & Tb & Tc). rewrite Ta, Tb, Tc, T2, C3, T5.
        destruct (fle _ 0) eqn:Hz.
        -- destruct C7 as (-> & -> & ->). repeat split; [|lia].
           apply fle_iff in Hz. lra.
        -- destruct C7 as (-> & -> & ->). rewrite M5, Hscr, M6, M7.
           apply fle_false_iff in Hz. repeat split; auto. lia.
    + destruct HT as (T1 & T2 & T3 & T4 & T5 & T6 & T7).
      split; [|congruence].
      split; [split; [rewrite T3, Mb, B1; exact Hr | rewrite T4, Mb, B2, T1, M2; exact Hb]|].
      split; [exists n; split; [lia|rewrite T2, Mb, B4; exact Hh]|].
      split; [|rewrite T1; auto].
      split; [lia|].
      destruct (m_score l1 >=? FLAPPY_WIN_SCORE)%Z eqn:Hw.
      * destruct T7 as (-> & -> & ->). repeat split. lia.
      * destruct T7 as (-> & -> & ->). rewrite M5, Hscr, M6, M7, T2, Mb, B4, T5.
        repeat split; auto. lia.
  - unfold Update in Hup. rewrite Hscr in Hup. injection Hup as <-.
    split; [|reflexivity]. repeat split; eauto; try apply Hfit. rewrite Hscr. exact Hsnd.
  - unfold Update in Hup. rewrite Hscr in Hup. injection Hup as <-.
    split; [|reflexivity]. repeat split; eauto; try apply Hfit. rewrite Hscr. exact Hsnd.
Qed.

Lemma Load_flappyInv l0 : flappyInv (Load l0) /\ screenHeight (Load l0) = screenHeight l0.
Proof.
  unfold Load, InitFlappyGame.
  pose proof (twoFreshPipes_shape (screenWidth l0) (screenHeight l0) (m_gen l0) (heap_next l0)) as Hs.
  destruct (twoFreshPipes _ _ _ _) as [[ps g] a]. cbn in Hs.
  split; [|reflexivity].
  split; [split; reflexivity|].
  split; [exists 0%Z; split; [lia|vm_compute; reflexivity]|].
  split; [|exact Hs].
  split; [cbn; lia|]. cbn. repeat split.
Qed.

Lemma run_flappyInv fs : forall l l',
  run fs l = Some l' -> flappyInv l -> flappyInv l' /\ screenHeight l' = screenHeight l.
Proof.
  induction fs as [|f fs IH]; intros l l' Hrun Hinv.
  - injection Hrun as <-. auto.
  - cbn [run] in Hrun. destruct (Update f l) as [l1|] eqn:E; [|discriminate].
    destruct (Update_flappyInv f l l1 E Hinv) as [H1 H2].
    destruct (IH l1 l' Hrun H1) as [H3 H4]. split; [exact H3|congruence].
Qed.

End FlappyInvariant.

Section FlappyFacts.
Import Flappy.

(** X10.  In every state a loaded level reaches on a screen at least 60
    high, the screen-edge test of the playing state does not hold after
    the bird has moved: [Bird::Update] has clamped the bird one and a half
    radii inside the screen.  The collision flag of the frame is raised by
    the pipes alone. *)
Theorem flappy_collisions_are_pipe_hits (l0 l : FlappyLevel) (fs : list Frame) (f : Frame) :
  (60 <= screenHeight l0)%Z ->
  run fs (Load l0) = Some l ->
  touchesEdge (fst (movePhase f l)) = false /\
  snd (movePhase f l) = pipeHit f l.
Proof.
  intros HH Hrun.
  destruct (Load_flappyInv l0) as [Hi0 Hh0].
  destruct (run_flappyInv fs _ _ Hrun Hi0) as [([Hr Hb] & _) Hh].
  assert (Hedge : touchesEdge (fst (movePhase f l)) = false).
  { apply touchesEdge_inside.
    - rewrite Hr. reflexivity.
    - rewrite Hr, Hh, Hh0. unfold FLAPPY_BIRD_RADIUS.
      assert (H60 : 60 <= inject_Z (screenHeight l0))
        by (change 60 with (inject_Z 60); rewrite <- Zle_Qle; exact HH).
      unfold ofZ. lra.
    - exact Hb. }
  split; [exact Hedge|]. rewrite movePhase_collision, Hedge. reflexivity.
Qed.

Lemma flappy_collisions_are_pipe_hits_witness :
  touchesEdge (fst (movePhase flappy_last_frame flappy_played)) = false /\
  snd (movePhase flappy_last_frame flappy_played) = pipeHit flappy_last_frame flappy_played.
Proof.
  apply (flappy_collisions_are_pipe_hits flappy_fresh flappy_played flappy_session
           flappy_last_frame).
  - vm_compute. discriminate.
  - vm_compute. reflexivity.
Defined.

(** X11.  The bird's health goes down the steps 100, 75, 50, 25, 0: in
    every state a loaded level reaches it is 100 less 25 for each hit, with
    at most four hits, and while the level is not complete it is
    positive. *)
Theorem flappy_health_steps (l0 l : FlappyLevel) (fs : list Frame) :
  run fs (Load l0) = Some l ->
  exists n, hitTimes l n /\ (IsComplete l = false -> (n <= 3)%Z /\ 0 < m_health (m_bird l)).
Proof.
  intros Hrun.
  destruct (Load_flappyInv l0) as [Hi0 _].
  destruct (run_flappyInv fs _ _ Hrun Hi0) as [(_ & [n Hn] & [_ Hs] & _) _].
  exists n. split; [exact Hn|]. intros Hc. unfold IsComplete in Hc.
  destruct (m_currentScreen l); destruct Hs as (Hf & Hrest); try congruence;
    destruct Hrest as (_ & Hpos & _);
    (split; [apply (hitTimes_positive l n Hn Hpos)|exact Hpos]).
Qed.

Lemma flappy_health_steps_witness :
  exists n, hitTimes flappy_played n /\
            (IsComplete flappy_played = false -> (n <= 3)%Z /\ 0 < m_health (m_bird flappy_played)).
Proof.
  apply (flappy_health_steps flappy_fresh flappy_played flappy_session).
  vm_compute. reflexivity.
Defined.

(** X12.  In every state a loaded level reaches, the level is complete
    exactly when the health is 0 or the score has reached the target of
    10, and it is won exactly when the score has reached the target,
    whatever the health. *)
Theorem flappy_outcome_by_score_and_health (l0 l : FlappyLevel) (fs : list Frame) :
  run fs (Load l0) = Some l ->
  (IsComplete l = true <->
   m_health (m_bird l) == 0 \/ (FLAPPY_WIN_SCORE <= m_score l)%Z) /\
  (DidPlayerWinThisLevel l = true <-> (FLAPPY_WIN_SCORE <= m_score l)%Z).
Proof.
  intros Hrun.
  destruct (Load_flappyInv l0) as [Hi0 _].
  destruct (run_flappyInv fs _ _ Hrun Hi0) as [(_ & _ & [_ Hs] & _) _].
  unfold IsComplete, DidPlayerWinThisLevel.
  destruct (m_currentScreen l).
  - destruct Hs as (-> & -> & Hpos & Hlt). split; split; try discriminate; try lia.
    intros [H|H]; [lra|lia].
  - destruct Hs as (-> & -> & Hpos & Hlt). split; split; try discriminate; try lia.
    intros [H|H]; [lra|lia].
  - destruct Hs as (-> & -> & Hz & Hlt). split; split; auto; try discriminate; try lia.
  - destruct Hs as (-> & -> & Hge). split; split; auto.
Qed.

Lemma flappy_outcome_by_score_and_health_witness :
  (IsComplete flappy_played = true <->
   m_health (m_bird flappy_played) == 0 \/ (FLAPPY_WIN_SCORE <= m_score flappy_played)%Z) /\
  (DidPlayerWinThisLevel flappy_played = true <-> (FLAPPY_WIN_SCORE <= m_score flappy_played)%Z).
Proof.
  apply (flappy_outcome_by_score_and_health flappy_fresh flappy_played flappy_session).
  vm_compute. reflexivity.
Defined.




End FlappyFacts.

(** * Obstacle course: more of the level *)

Section ObstacleInvariant.
Import Obstacle.

Lemma platform_above_ground H c :
  50 < c -> flt (fsub (ofZ H) c) (ofZ (H - 50)) = true.
Proof.
  intros Hc. apply flt_iff. rewrite fsub_eq. unfold ofZ, Z.sub.
  rewrite inject_Z_plus, inject_Z_opp. change (inject_Z 50) with 50. lra.
Qed.

Lemma InitObstacleGame_coins W H :
  length (m_coins (InitObstacleGame W H)) = 13%nat /\
  m_totalCoins (InitObstacleGame W H) = 13%Z.
Proof.
  assert (Hlen : length (m_coins (InitObstacleGame W H)) = 13%nat).
  { unfold InitObstacleGame, levelObstacles.
    cbn [m_coins map filter Obstacle_of newGameObject GetBounds bounds r_height r_y r_x r_width
         v_x v_y].
    change (flt 50 50) with false. change (flt 20 50) with true. cbn [andb].
    rewrite !platform_above_ground by reflexivity. reflexivity. }
  split; [exact Hlen|].
  unfold InitObstacleGame in *. cbn [m_totalCoins m_coins] in *. rewrite Hlen. reflexivity.
Qed.

Lemma course_collectCoins_count pb cs n :
  (snd (collectCoins pb cs n) + Z.of_nat (length (fst (collectCoins pb cs n)))
   = n + Z.of_nat (length cs))%Z.
Proof.
  revert n. induction cs as [|c cs IH]; intros n; [reflexivity|].
  cbn [collectCoins]. destruct (CheckCollisionRecs _ _).
  - rewrite IH. cbn [length]. lia.
  - specialize (IH n). destruct (collectCoins pb cs n) as [rest k]. cbn [fst snd length] in *. lia.
Qed.

Lemma Player_Update_synced f p : synced p -> synced (Player_Update f p).
Proof.
  intros [Hy Hh]. unfold Player_Update, synced.
  destruct (keyLeft f), (keyRight f), (spacePressed f && _);
    cbn [SetVelocity SetJumped SetOnGround withPosBounds base velocity position bounds
         v_x v_y r_y r_height m_screenW];
    destruct (flt _ 0);
    cbn [SetVelocity SetJumped SetOnGround withPosBounds base velocity position bounds
         v_x v_y r_y r_height m_screenW];
    try destruct (fgt _ _);
    cbn [SetVelocity SetJumped SetOnGround withPosBounds base velocity position bounds
         v_x v_y r_y r_height m_screenW];
    split; auto.
Qed.

Lemma resolveObstacle_synced dt p obs : synced p -> synced (resolveObstacle dt p obs).
Proof.
  intros [Hy Hh]. unfold resolveObstacle, synced.
  destruct (CheckCollisionRecs _ _); [|split; assumption].
  repeat (destruct (_ && _);
          [cbn [SetJumped SetOnGround SetVelocity SetPosition GameObject_SetPosition base
                bounds position r_y r_height v_y GetBounds GetPosition]; split; auto|]).
  split; assumption.
Qed.

Lemma resolveObstacles_synced dt obstacles : forall p,
  synced p -> synced (resolveObstacles dt p obstacles).
Proof.
  unfold resolveObstacles. induction obstacles as [|o os IH]; intros p Hp; [exact Hp|].
  cbn [fold_left]. apply IH, resolveObstacle_synced, Hp.
Qed.

Lemma Update_courseInv f l :
  courseInv l ->
  courseInv (Update f l) /\ screenWidth (Update f l) = screenWidth l /\
  screenHeight (Update f l) = screenHeight l.
Proof.
  intros (Ht & Hacc & Hdoor & Hsync & Hscr).
  unfold Update. destruct (m_currentScreen l) eqn:Es; [contradiction| |].
  - destruct Hscr as [Hf Hw].
    set (p := resolveObstacles (dt f) (SetOnGround false (Player_Update f (m_player l)))
                (m_obstacles l)).
    assert (Hp : synced p).
    { apply resolveObstacles_synced. apply (Player_Update_synced f) in Hsync.
      exact Hsync. }
    pose proof (course_collectCoins_count (GetBounds (base p)) (m_coins l) (m_collectedCoins l)) as Hc.
    destruct (collectCoins _ _ _) as [coins collected]. cbn [fst snd] in Hc.
    destruct (CheckCollisionRecs (GetBounds (base p)) (GetBounds (m_exitDoor l))
              && (collected =? m_totalCoins l)%Z) eqn:Ewin.
    + apply andb_true_iff in Ewin. destruct Ewin as [Ex Eall]. apply Z.eqb_eq in Eall.
      destruct (fgt _ _); unfold courseInv, atExit; cbn [m_totalCoins m_collectedCoins m_coins
          m_exitDoor m_player m_currentScreen m_levelFinished m_playerWonLevel screenWidth
          screenHeight];
        (split; [|split; reflexivity]);
        (split; [exact Ht|]); (split; [lia|]); (split; [exact Hdoor|]); (split; [exact Hp|]);
        auto.
    + destruct (fgt (v_y (GetPosition (base p))) (ofZ (screenHeight l))) eqn:Efell;
        unfold courseInv, fellOff; cbn [m_totalCoins m_collectedCoins m_coins
          m_exitDoor m_player m_currentScreen m_levelFinished m_playerWonLevel screenWidth
          screenHeight];
        (split; [|split; reflexivity]);
        (split; [exact Ht|]); (split; [lia|]); (split; [exact Hdoor|]); (split; [exact Hp|]).
      * auto.
      * auto.
  - split; [|split; reflexivity]. unfold courseInv. rewrite Es. tauto.
Qed.

Lemma Load_courseInv l0 :
  courseInv (Load l0) /\ screenWidth (Load l0) = screenWidth l0 /\
  screenHeight (Load l0) = screenHeight l0.
Proof.
  unfold Load. destruct (InitObstacleGame_coins (screenWidth l0) (screenHeight l0)) as [Hl Ht].
  split; [|split; reflexivity].
  split; [exact Ht|]. split; [rewrite Ht, Hl; reflexivity|].
  repeat split.
Qed.

Lemma run_courseInv fs : forall l,
  courseInv l ->
  courseInv (run fs l) /\ screenWidth (run fs l) = screenWidth l /\
  screenHeight (run fs l) = screenHeight l.
Proof.
  unfold run. induction fs as [|f fs IH]; intros l H; [auto|].
  cbn [fold_left]. destruct (Update_courseInv f l H) as (H1 & H2 & H3).
  destruct (IH _ H1) as (I1 & I2 & I3). split; [exact I1|]. split; congruence.
Qed.

End ObstacleInvariant.

Section ObstacleFacts.
Import Obstacle.







(** X15.  On a screen at least 130 high, in every state a loaded level
    reaches: the level is complete exactly on its ending screen; a level
    that is won has the player's box on the exit door with every coin
    collected and the player not below the screen; a level that is
    complete and not won has the player below the bottom of the screen. *)
Theorem obstacle_outcome (l0 : ObstacleLevel) (fs : list Frame) :
  (130 <= screenHeight l0)%Z ->
  let l := run fs (Load l0) in
  (IsComplete l = true <-> m_currentScreen l = OBSTACLE_ENDING) /\
  (DidPlayerWinThisLevel l = true ->
   IsComplete l = true /\ atExit l = true /\ m_collectedCoins l = m_totalCoins l /\
   fellOff l = false) /\
  (IsComplete l = true -> DidPlayerWinThisLevel l = false -> fellOff l = true).
Proof.
  intros HH. cbv zeta. destruct (Load_courseInv l0) as (H0 & _ & Hh0).
  destruct (run_courseInv fs _ H0) as ((Ht & Hacc & Hdoor & [Hy _] & Hscr) & _ & Hh).
  set (l := run fs (Load l0)) in *.
  unfold IsComplete, DidPlayerWinThisLevel.
  destruct (m_currentScreen l) eqn:Es; [contradiction| |].
  - destruct Hscr as [-> ->]. split; [split; discriminate|]. split; discriminate.
  - destruct Hscr as [-> Hx]. split; [tauto|].
    destruct (m_playerWonLevel l).
    + destruct Hx as [Hex Hall]. split; [|discriminate]. intros _.
      repeat split; try assumption.
      unfold fellOff, GetPosition. apply fgt_false_iff.
      unfold atExit, CheckCollisionRecs in Hex.
      apply andb_true_iff in Hex. destruct Hex as [_ Hex].
      apply andb_true_iff in Hex. destruct Hex as [Hex _].
      rewrite Hdoor in Hex. unfold exitDoorOf, Obstacle_of, newGameObject, GetBounds in Hex.
      cbn [bounds r_y r_height v_y] in Hex. apply flt_iff in Hex.
      rewrite Hy in Hex. change (fadd 50 80) with 130 in Hex.
      assert (H130 : 130 <= ofZ (screenHeight l)).
      { rewrite Hh, Hh0. change 130 with (ofZ 130). apply ofZ_le, HH. }
      lra.
    + split; [discriminate|]. intros _ _. exact Hx.
Qed.

Lemma obstacle_outcome_witness :
  let l := run jump_session (Load (newObstacleLevel GLOBAL_SCREEN_WIDTH GLOBAL_SCREEN_HEIGHT)) in
  (IsComplete l = true <-> m_currentScreen l = OBSTACLE_ENDING) /\
  (DidPlayerWinThisLevel l = true ->
   IsComplete l = true /\ atExit l = true /\ m_collectedCoins l = m_totalCoins l /\
   fellOff l = false) /\
  (IsComplete l = true -> DidPlayerWinThisLevel l = false -> fellOff l = true).
Proof.
  apply (obstacle_outcome (newObstacleLevel GLOBAL_SCREEN_WIDTH GLOBAL_SCREEN_HEIGHT)
           jump_session).
  vm_compute. discriminate.
Defined.

(** X16.  There is no jump in the air: when the player is not on the
    ground at the start of a frame, the frame leaves the same state whether
    the jump key is pressed in it or not. *)
Theorem obstacle_no_jump_in_the_air (f : Frame) (l : ObstacleLevel) :
  onGround (m_player l) = false ->
  Update (withSpace true f) l = Update (withSpace false f) l.
Proof.
  intros Hg. unfold Update.
  assert (Hp : Player_Update (withSpace true f) (m_player l)
               = Player_Update (withSpace false f) (m_player l)).
  { unfold Player_Update, withSpace.
    cbn [dt keyLeft keyRight spacePressed].
    destruct (keyLeft f), (keyRight f); cbn [SetVelocity onGround andb]; rewrite Hg;
      reflexivity. }
  rewrite Hp. reflexivity.
Qed.

Lemma obstacle_no_jump_in_the_air_witness :
  Update (withSpace true idle) (Load (newObstacleLevel GLOBAL_SCREEN_WIDTH GLOBAL_SCREEN_HEIGHT))
  = Update (withSpace false idle)
      (Load (newObstacleLevel GLOBAL_SCREEN_WIDTH GLOBAL_SCREEN_HEIGHT)).
Proof.
  apply (obstacle_no_jump_in_the_air idle
           (Load (newObstacleLevel GLOBAL_SCREEN_WIDTH GLOBAL_SCREEN_HEIGHT))).
  reflexivity.
Defined.

(** X17.  One update of the player whose box is no wider than the screen
    leaves the player's position horizontally on the screen, between 0 and
    the screen's width less the player's, and off the ground.  The box is
    written before the position is clamped: when the clamp moves the player,
    the box keeps the place outside the screen. *)
Theorem obstacle_player_kept_on_screen (f : Frame) (p : Player) :
  r_width (bounds (base p)) <= ofZ (m_screenW p) ->
  let p' := Player_Update f p in
  0 <= v_x (position (base p')) /\
  v_x (position (base p')) + r_width (bounds (base p')) <= ofZ (m_screenW p') /\
  onGround p' = false /\
  (r_x (bounds (base p')) == v_x (position (base p')) \/
   (v_x (position (base p')) == 0 /\ r_x (bounds (base p')) < 0) \/
   (v_x (position (base p')) + r_width (bounds (base p')) == ofZ (m_screenW p') /\
    ofZ (m_screenW p') < r_x (bounds (base p')) + r_width (bounds (base p')))).
Proof.
  intros Hw p'. subst p'. unfold Player_Update. cbv zeta.
  destruct (keyLeft f), (keyRight f);
    cbn [SetOnGround SetVelocity SetJumped withPosBounds base position bounds velocity
         v_x v_y r_x r_width onGround m_screenW];
    destruct (spacePressed f), (onGround p);
    cbn [andb SetOnGround SetVelocity SetJumped withPosBounds base position bounds velocity
         v_x v_y r_x r_width onGround m_screenW];
    (match goal with |- context [flt ?a 0] => destruct (flt a 0) eqn:E1 end;
     [apply flt_iff in E1
     |apply flt_false_iff in E1;
      match goal with |- context [fgt ?a ?b] => destruct (fgt a b) eqn:E2 end;
      [apply fgt_iff in E2; rewrite fadd_eq in E2;
       pose proof (fsub_eq (ofZ (m_screenW p)) (r_width (bounds (base p)))) as Es
      |apply fgt_false_iff in E2; rewrite fadd_eq in E2]]);
    cbn [SetOnGround SetVelocity SetJumped withPosBounds base position bounds velocity
         v_x v_y r_x r_width onGround m_screenW];
    (split; [lra|]; split; [lra|]; split; [reflexivity|]);
    first [left; reflexivity
          |right; left; split; [reflexivity|lra]
          |right; right; split; lra].
Qed.

Lemma obstacle_player_kept_on_screen_witness :
  let p' := Player_Update (mkFrame 1 true false false)
              (newPlayer (mkVector2 100 590) 30 GLOBAL_SCREEN_WIDTH GLOBAL_SCREEN_HEIGHT) in
  0 <= v_x (position (base p')) /\
  v_x (position (base p')) + r_width (bounds (base p')) <= ofZ (m_screenW p') /\
  onGround p' = false /\
  (r_x (bounds (base p')) == v_x (position (base p')) \/
   (v_x (position (base p')) == 0 /\ r_x (bounds (base p')) < 0) \/
   (v_x (position (base p')) + r_width (bounds (base p')) == ofZ (m_screenW p') /\
    ofZ (m_screenW p') < r_x (bounds (base p')) + r_width (bounds (base p')))).
Proof.
  apply (obstacle_player_kept_on_screen (mkFrame 1 true false false)
           (newPlayer (mkVector2 100 590) 30 GLOBAL_SCREEN_WIDTH GLOBAL_SCREEN_HEIGHT)).
  vm_compute. discriminate.
Defined.

End ObstacleFacts.

(** * The state machine: every session *)

Section GameSession.
Import Game.

Ltac sess :=
  cbn [currentGlobalScreen gameLevels currentActiveLevel nextLevelName nextLevelInstructions
       showSufferMessage sufferMessageTimer s_maze_gen s_flappy_gen
       withScreen withLevels withSuffer] in *.

Lemma Maze_Update_engine f m : Maze.s_maze_gen (Maze.Update f m) = Maze.s_maze_gen m.
Proof.
  unfold Maze.Update. destruct (Maze.levelWon m); [reflexivity|]. cbv zeta.
  destruct (Maze.collectCoins _ _ _ _) as [cs n]. reflexivity.
Qed.

(** The level that is played can be updated, and stays playable. *)
Lemma Update_levelSound i lv :
  levelSound true lv ->
  exists lv', Update i lv = Some lv' /\ levelSound true lv' /\ place lv' = place lv.
Proof.
  destruct lv as [m|l|l|l]; cbn [levelSound Update place]; intros H.
  - eexists. split; [reflexivity|]. split; [|reflexivity].
    cbn [levelSound]. intros n. rewrite Maze_Update_engine. apply H.
  - eexists. split; [reflexivity|]. split; [exact I|reflexivity].
  - destruct (H eq_refl) as [Hp HW].
    destruct (Update_inv (Flappy.mkFrame (frameTime i) (spacePressed i)) l HW Hp)
      as (l' & E & Hp' & HW').
    rewrite E. exists (AFlappy l'). split; [reflexivity|]. split; [|reflexivity].
    cbn [levelSound]. intros _. split; [exact Hp'|]. rewrite HW'. exact HW.
  - eexists. split; [reflexivity|]. split; [exact I|reflexivity].
Qed.

Lemma Unload_levelSound lv :
  levelSound true lv -> levelSound false (Unload lv) /\ place (Unload lv) = place lv.
Proof.
  destruct lv as [m|l|l|l]; cbn [levelSound Unload place]; intros H; split;
    try reflexivity; try exact I.
  - exact H.
  - discriminate.
Qed.

(** The level at the front of the queue behind the level at place [p]
    loads, and is the level at the next place. *)
Lemma Load_later g p next rest :
  skipn p (laterLevels g) = next :: rest ->
  exists lv, Load next = Some lv /\ levelSound true lv /\ place lv = S p /\
             rest = skipn (S p) (laterLevels g).
Proof.
  destruct p as [|[|[|p]]]; cbn [skipn laterLevels]; intros E; try discriminate.
  - injection E as <- <-. eexists. split; [reflexivity|]. repeat split.
  - injection E as <- <-. eexists. split; [reflexivity|]. split; [|split; reflexivity].
    cbn [levelSound]. intros _. split; [apply InitFlappyGame_inv|].
    unfold Flappy.Load, Flappy.InitFlappyGame.
    destruct (Flappy.twoFreshPipes _ _ _ _) as [[ps g'] a]. cbn. discriminate.
  - injection E as <- <-. eexists. split; [reflexivity|]. repeat split.
  - destruct p; discriminate.
Qed.

Lemma place_bound lv : (place lv <= 3)%nat.
Proof. destruct lv; cbn; lia. Qed.

(** The switch of the main loop takes a session to a session. *)
Lemma updatePhase_sessionInv i s :
  sessionInv s -> exists s', updatePhase i s = Some s' /\ sessionInv s'.
Proof.
  intros (Hperm & Hsuf & Hscr). unfold updatePhase.
  destruct (currentGlobalScreen s) eqn:Es.
  - exists s. split; [reflexivity|]. unfold sessionInv. rewrite Es. auto.
  - destruct Hscr as (lv & Ha & Hsound & Hq). rewrite Ha.
    destruct (Update_levelSound i lv Hsound) as (lv' & Eu & Hs' & Hp'). rewrite Eu.
    assert (Hshow : showSufferMessage s = false).
    { destruct (showSufferMessage s); [|reflexivity]. destruct (Hsuf eq_refl); discriminate. }
    destruct (IsComplete lv') eqn:Ec.
    + destruct (Unload_levelSound lv' Hs') as [Hu1 Hu2].
      destruct (levelSucceeded lv').
      * destruct (gameLevels s) as [|next rest] eqn:Eq.
        -- eexists. split; [reflexivity|]. unfold sessionInv. sess.
           split; [exact Hperm|]. split; [rewrite Hshow; discriminate|reflexivity].
        -- eexists. split; [reflexivity|]. unfold sessionInv. sess.
           split; [exact Hperm|]. split; [rewrite Hshow; discriminate|].
           exists (Unload lv'), next, rest. rewrite Hu2, Hp'. repeat split; auto.
      * eexists. split; [reflexivity|]. unfold sessionInv. sess.
        split; [exact Hperm|]. split; [rewrite Hshow; discriminate|reflexivity].
    + eexists. split; [reflexivity|]. unfold sessionInv. sess. rewrite Es.
      split; [exact Hperm|]. split; [exact Hsuf|].
      exists lv'. rewrite Hp'. repeat split; auto.
  - destruct Hscr as (lv & next & rest & Ha & Hsound & Hq & Hne & Hn1 & Hn2).
    assert (Hshow : showSufferMessage s = false).
    { destruct (showSufferMessage s); [|reflexivity]. destruct (Hsuf eq_refl); discriminate. }
    destruct (mousePressed i && CheckCollisionPointRec (mousePosition i) confirmButton).
    + unfold LoadNextLevel. rewrite Ha. sess. rewrite Hne.
      rewrite Hne in Hq. symmetry in Hq.
      destruct (Load_later (s_flappy_gen s) (place lv) next rest Hq)
        as (lv2 & El & Hs2 & Hp2 & Hr).
      rewrite El. sess. eexists. split; [reflexivity|]. unfold sessionInv. sess.
      split; [exact Hperm|]. split; [rewrite Hshow; discriminate|].
      exists lv2. rewrite Hp2. repeat split; auto.
    + exists s. split; [reflexivity|]. unfold sessionInv. rewrite Es.
      split; [exact Hperm|]. split; [exact Hsuf|].
      exists lv, next, rest. repeat split; auto.
  - destruct (enterPressed i).
    + eexists. split; [reflexivity|]. unfold sessionInv. sess.
      split; [exact Hperm|]. split; [discriminate|exact Hscr].
    + exists s. split; [reflexivity|]. unfold sessionInv. rewrite Es. auto.
  - destruct (enterPressed i).
    + eexists. split; [reflexivity|]. unfold sessionInv. sess.
      split; [exact Hperm|]. split; [discriminate|exact Hscr].
    + exists s. split; [reflexivity|]. unfold sessionInv. rewrite Es. auto.
Qed.

(** The timer block at the end of [DrawStartingScreen]. *)
Lemma suffer_block i s :
  sessionInv (withSuffer false (sufferMessageTimer s) s) ->
  currentGlobalScreen s = TITLE_SCREEN_GLOBAL ->
  exists s',
    (if showSufferMessage s then
       if flt (fadd (sufferMessageTimer s) (frameTime i)) SUFFER_MESSAGE_DISPLAY_TIME
       then Some (withSuffer true (fadd (sufferMessageTimer s) (frameTime i)) s)
       else Some (withSuffer false (fadd (sufferMessageTimer s) (frameTime i)) s)
     else Some s) = Some s' /\ sessionInv s'.
Proof.
  intros (Hperm & _ & Hscr) Es. sess. rewrite Es in Hscr.
  destruct (showSufferMessage s) eqn:Eshow.
  - destruct (flt _ SUFFER_MESSAGE_DISPLAY_TIME) eqn:Et.
    + eexists. split; [reflexivity|]. unfold sessionInv. sess. rewrite Es.
      split; [exact Hperm|]. split; [|exact Hscr]. intros _. split; [reflexivity|].
      apply flt_iff in Et. exact Et.
    + eexists. split; [reflexivity|]. unfold sessionInv. sess. rewrite Es.
      split; [exact Hperm|]. split; [discriminate|exact Hscr].
  - exists s. split; [reflexivity|]. unfold sessionInv. rewrite Es, Eshow.
    split; [exact Hperm|]. split; [discriminate|exact Hscr].
Qed.

(** The Escape button: the four levels are queued and the maze is loaded. *)
Lemma escape_click s :
  shufflesPermute (s_maze_gen s) ->
  exists m0 m,
    Maze.newMazeLevel GLOBAL_SCREEN_WIDTH GLOBAL_SCREEN_HEIGHT (s_maze_gen s) = Some m0 /\
    Maze.Load m0 = Some m /\ shufflesPermute (Maze.s_maze_gen m) /\
    match SetupGameLevels (withSuffer false (sufferMessageTimer s) s) with
    | None => None
    | Some s => match LoadNextLevel s with
                | None => None
                | Some s => Some (withScreen PLAYING_LEVEL s)
                end
    end
    = Some (mkSession PLAYING_LEVEL (laterLevels (s_flappy_gen s)) (Some (AMaze m))
              (nextLevelName s) (nextLevelInstructions s) false (sufferMessageTimer s)
              (s_maze_gen s) (s_flappy_gen s)).
Proof.
  intros Hperm. unfold SetupGameLevels. sess.
  destruct (Maze.newMazeLevel GLOBAL_SCREEN_WIDTH GLOBAL_SCREEN_HEIGHT (s_maze_gen s))
    as [m0|] eqn:E0; [|vm_compute in E0; discriminate].
  destruct (Load_gameMazeInv (s_maze_gen s) m0 Hperm E0) as (m & El & _ & Hp).
  exists m0, m. split; [reflexivity|]. split; [exact El|]. split; [exact Hp|].
  unfold LoadNextLevel. sess.
  destruct (currentActiveLevel s); sess; cbn [Load]; rewrite El; reflexivity.
Qed.

Lemma drawPhase_sessionInv i s :
  sessionInv s -> exists s', drawPhase i s = Some s' /\ sessionInv s'.
Proof.
  intros Hinv. pose proof Hinv as (Hperm & Hsuf & Hscr). unfold drawPhase.
  destruct (currentGlobalScreen s) eqn:Es; try (exists s; split; [reflexivity|exact Hinv]).
  unfold DrawStartingScreen.
  assert (Hplain : sessionInv (withSuffer false (sufferMessageTimer s) s)).
  { unfold sessionInv. sess. rewrite Es. split; [exact Hperm|]. split; [discriminate|exact Hscr]. }
  destruct (mousePressed i); [|apply (suffer_block i s Hplain Es)].
  destruct (CheckCollisionPointRec (mousePosition i) escapeButtonRec).
  - destruct (escape_click s Hperm) as (m0 & m & _ & _ & Hp & E). rewrite E. sess.
    eexists. split; [reflexivity|]. unfold sessionInv. sess.
    split; [exact Hperm|]. split; [discriminate|].
    exists (AMaze m). repeat split. exact Hp.
  - destruct (CheckCollisionPointRec (mousePosition i) sufferButtonRec).
    + apply (suffer_block i (withSuffer true 0 s)); [|exact Es].
      unfold sessionInv. sess. rewrite Es. split; [exact Hperm|].
      split; [discriminate|exact Hscr].
    + apply (suffer_block i s Hplain Es).
Qed.

Lemma syncEngine_sessionInv s : sessionInv s -> sessionInv (syncEngine s).
Proof.
  intros Hinv. pose proof Hinv as (Hperm & Hsuf & Hscr). unfold syncEngine.
  destruct (currentActiveLevel s) as [[m|l|l|l]|] eqn:Ea; try exact Hinv.
  unfold sessionInv. sess.
  destruct (currentGlobalScreen s) eqn:Es; try discriminate.
  - destruct Hscr as (lv & Hl & Hsound & Hq). injection Hl as <-.
    split; [exact Hsound|]. split; [exact Hsuf|].
    exists (AMaze m). repeat split; auto.
  - destruct Hscr as (lv & next & rest & Hl & Hsound & Hq & Hne & Hn1 & Hn2).
    injection Hl as <-.
    split; [exact Hsound|]. split; [exact Hsuf|].
    exists (AMaze m), next, rest. repeat split; auto.
Qed.

Lemma frame_sessionInv i s :
  sessionInv s -> exists s', frame i s = Some s' /\ sessionInv (syncEngine s').
Proof.
  intros Hinv. unfold frame.
  destruct (updatePhase_sessionInv i s Hinv) as (s1 & E1 & H1). rewrite E1.
  destruct (drawPhase_sessionInv i s1 H1) as (s2 & E2 & H2).
  exists s2. split; [exact E2|apply syncEngine_sessionInv, H2].
Qed.

Lemma play_sessionInv inputs : forall s,
  sessionInv s -> exists s', play inputs s = Some s' /\ sessionInv s'.
Proof.
  induction inputs as [|i inputs IH]; intros s Hinv; [exists s; auto|].
  cbn [play]. destruct (frame_sessionInv i s Hinv) as (s1 & E1 & H1). rewrite E1.
  apply IH, H1.
Qed.

Lemma initialSession_sessionInv e g : shufflesPermute e -> sessionInv (initialSession e g).
Proof.
  intros Hperm. unfold sessionInv, initialSession. sess.
  split; [exact Hperm|]. split; [discriminate|reflexivity].
Qed.

End GameSession.

Section GameFacts.
Import Game.

Ltac sess :=
  cbn [currentGlobalScreen gameLevels currentActiveLevel nextLevelName nextLevelInstructions
       showSufferMessage sufferMessageTimer s_maze_gen s_flappy_gen
       withScreen withLevels withSuffer] in *.

Lemma started_session_eq :
  play [click_escape] (initialSession plain_engine (fun _ => 360%Z)) = Some started_session.
Proof. vm_compute. reflexivity. Qed.

Lemma plain_engine_permutes : shufflesPermute plain_engine.
Proof. intros n. apply Permutation_refl. Qed.

(** X18.  Whatever the inputs, a session that starts from the program's
    initial state never reaches undefined behaviour, provided the shuffles
    of the maze's engine leave the four directions in some order: every
    iteration of the main loop is defined, and the state it leaves is one
    of the states of a session. *)
Theorem game_session_is_defined (e : Maze.Engine) (g : nat -> Z) (inputs : list Input) :
  shufflesPermute e ->
  exists s, play inputs (initialSession e g) = Some s /\ sessionInv s.
Proof.
  intros Hperm. apply play_sessionInv, initialSession_sessionInv, Hperm.
Qed.

Lemma game_session_is_defined_witness :
  exists s, play [click_escape; click_ready] (initialSession plain_engine (fun _ => 360%Z))
            = Some s /\ sessionInv s.
Proof.
  apply (game_session_is_defined plain_engine (fun _ => 360%Z) [click_escape; click_ready]).
  exact plain_engine_permutes.
Defined.

(** X19.  In every state a session reaches, the playing screen has an
    active level, so the fallback of the playing state to the game-over
    screen is never taken; the transition screen has the finished level
    and a queue that is not empty; and the title, game-over and game-won
    screens have no active level. *)
Theorem game_playing_has_level (e : Maze.Engine) (g : nat -> Z) (inputs : list Input)
    (s : Session) :
  shufflesPermute e ->
  play inputs (initialSession e g) = Some s ->
  playingHasLevel s /\
  (currentGlobalScreen s = LEVEL_TRANSITION ->
   currentActiveLevel s <> None /\ gameLevels s <> []) /\
  (currentGlobalScreen s <> PLAYING_LEVEL -> currentGlobalScreen s <> LEVEL_TRANSITION ->
   currentActiveLevel s = None).
Proof.
  intros Hperm Hplay.
  destruct (play_sessionInv inputs _ (initialSession_sessionInv e g Hperm))
    as (s' & E & (_ & _ & Hscr)).
  rewrite Hplay in E. injection E as <-. unfold playingHasLevel.
  destruct (currentGlobalScreen s); repeat split; try discriminate; try congruence;
    try (intros _; destruct Hscr as (lv & Ha & _); congruence).
  - destruct Hscr as (lv & next & rest & Ha & _). congruence.
  - destruct Hscr as (lv & next & rest & _ & _ & _ & Hne & _). congruence.
Qed.

Lemma game_playing_has_level_witness :
  playingHasLevel started_session /\
  (currentGlobalScreen started_session = LEVEL_TRANSITION ->
   currentActiveLevel started_session <> None /\ gameLevels started_session <> []) /\
  (currentGlobalScreen started_session <> PLAYING_LEVEL ->
   currentGlobalScreen started_session <> LEVEL_TRANSITION ->
   currentActiveLevel started_session = None).
Proof.
  apply (game_playing_has_level plain_engine (fun _ => 360%Z) [click_escape] started_session).
  - exact plain_engine_permutes.
  - exact started_session_eq.
Defined.

Lemma laterLevels_names g : map GetName (laterLevels g) = tl levelOrder.
Proof. reflexivity. Qed.

Lemma names_in_order g lv :
  GetName lv :: map GetName (skipn (place lv) (laterLevels g)) = skipn (place lv) levelOrder.
Proof. destruct lv; reflexivity. Qed.

(** X20.  The levels are played in the order maze, Space Invaders,
    Flappy, obstacle course: in every state a session reaches, the name of
    the active level followed by the names of the queued levels is the
    rest of that order from the active level's place. *)
Theorem game_levels_in_order (e : Maze.Engine) (g : nat -> Z) (inputs : list Input)
    (s : Session) (lv : Levels) :
  shufflesPermute e ->
  play inputs (initialSession e g) = Some s ->
  currentActiveLevel s = Some lv ->
  GetName lv :: queuedNames s = skipn (place lv) levelOrder.
Proof.
  intros Hperm Hplay Ha.
  destruct (play_sessionInv inputs _ (initialSession_sessionInv e g Hperm))
    as (s' & E & (_ & _ & Hscr)).
  rewrite Hplay in E. injection E as <-. unfold queuedNames.
  destruct (currentGlobalScreen s); try congruence.
  - destruct Hscr as (lv' & Ha' & _ & Hq). rewrite Ha in Ha'. injection Ha' as <-.
    rewrite Hq. apply names_in_order.
  - destruct Hscr as (lv' & next & rest & Ha' & _ & Hq & _).
    rewrite Ha in Ha'. injection Ha' as <-. rewrite Hq. apply names_in_order.
Qed.

Lemma game_levels_in_order_witness :
  exists lv, currentActiveLevel started_session = Some lv /\
             GetName lv :: queuedNames started_session = levelOrder.
Proof.
  destruct (currentActiveLevel started_session) as [lv|] eqn:Ea;
    [|vm_compute in Ea; discriminate].
  exists lv. split; [reflexivity|].
  assert (Hp : place lv = 0%nat).
  { destruct lv; try reflexivity; vm_compute in Ea; discriminate. }
  pose proof (game_levels_in_order plain_engine (fun _ => 360%Z) [click_escape]
                started_session lv plain_engine_permutes started_session_eq Ea) as H.
  rewrite Hp in H. exact H.
Defined.

(** X21.  On the transition screen the cached name and instructions are
    those of the level at the front of the queue, and a click inside the
    Ready button loads that level and plays it in the same iteration: the
    level played next is the level the screen announced. *)
Theorem game_transition_loads_announced_level (i : Input) (s : Session) :
  sessionInv s ->
  currentGlobalScreen s = LEVEL_TRANSITION ->
  mousePressed i = true ->
  CheckCollisionPointRec (mousePosition i) confirmButton = true ->
  exists s' lv next rest,
    gameLevels s = next :: rest /\
    frame i s = Some s' /\
    currentGlobalScreen s' = PLAYING_LEVEL /\
    currentActiveLevel s' = Some lv /\ Load next = Some lv /\ gameLevels s' = rest /\
    GetName lv = nextLevelName s /\ GetInstructions lv = nextLevelInstructions s.
Proof.
  intros (Hperm & Hsuf & Hscr) Es Hm Hc. rewrite Es in Hscr.
  destruct Hscr as (lv0 & next & rest & Ha & Hsound & Hq & Hne & Hn1 & Hn2).
  pose proof Hne as Hne'. rewrite Hq in Hne'.
  destruct (Load_later (s_flappy_gen s) (place lv0) next rest Hne')
    as (lv & El & _ & _ & _).
  assert (Hnames : GetName lv = GetName next /\ GetInstructions lv = GetInstructions next).
  { destruct next as [m|l|l|l]; cbn [Load] in El;
      try (injection El as <-; split; reflexivity).
    destruct (Maze.Load m); [injection El as <-; split; reflexivity|discriminate]. }
  eexists. exists lv, next, rest. split; [exact Hne|].
  unfold frame, updatePhase. rewrite Es, Hm, Hc. cbn [andb].
  unfold LoadNextLevel. rewrite Ha. sess. rewrite Hne, El. sess.
  unfold drawPhase. sess.
  split; [reflexivity|]. sess. rewrite Hn1, Hn2.
  repeat split; try apply Hnames; exact El.
Qed.

Lemma after_maze_session_sound : sessionInv after_maze_session.
Proof.
  unfold sessionInv, after_maze_session. sess.
  split; [exact plain_engine_permutes|]. split; [discriminate|].
  eexists. eexists. eexists. split; [reflexivity|].
  split; [exact plain_engine_permutes|]. repeat split.
Qed.

Lemma game_transition_loads_announced_level_witness :
  exists s' lv,
    frame click_ready after_maze_session = Some s' /\
    currentGlobalScreen s' = PLAYING_LEVEL /\
    currentActiveLevel s' = Some lv /\
    GetName lv = "Space Invaders Level"%string.
Proof.
  destruct (game_transition_loads_announced_level click_ready after_maze_session)
    as (s' & lv & next & rest & _ & H1 & H2 & H3 & _ & _ & H4 & _).
  - exact after_maze_session_sound.
  - reflexivity.
  - reflexivity.
  - vm_compute. reflexivity.
  - exists s', lv. auto.
Defined.

(** X22.  The game is won through the obstacle course only: an iteration
    that takes a session to the game-won screen from another screen starts
    on the playing screen with the obstacle course active, and the
    iteration's update of that level completes it as won. *)
Theorem game_won_only_through_obstacle_course (i : Input) (s s' : Session) :
  sessionInv s ->
  frame i s = Some s' ->
  currentGlobalScreen s <> GAME_WON_GLOBAL ->
  currentGlobalScreen s' = GAME_WON_GLOBAL ->
  currentGlobalScreen s = PLAYING_LEVEL /\
  exists l l',
    currentActiveLevel s = Some (AnObstacle l) /\
    Update i (AnObstacle l) = Some (AnObstacle l') /\
    Obstacle.IsComplete l' = true /\ Obstacle.DidPlayerWinThisLevel l' = true.
Proof.
  intros Hinv Hf Hnw Hw. pose proof Hinv as (Hperm & Hsuf & Hscr).
  unfold frame in Hf.
  destruct (updatePhase i s) as [s1|] eqn:E1; [|discriminate].
  assert (Hs1 : currentGlobalScreen s1 = GAME_WON_GLOBAL).
  { unfold drawPhase in Hf. destruct (currentGlobalScreen s1) eqn:Es1;
      try (injection Hf as <-; congruence).
    exfalso. unfold DrawStartingScreen in Hf.
    assert (Htail : forall s2 s3,
      (if showSufferMessage s2 then
         if flt (fadd (sufferMessageTimer s2) (frameTime i)) SUFFER_MESSAGE_DISPLAY_TIME
         then Some (withSuffer true (fadd (sufferMessageTimer s2) (frameTime i)) s2)
         else Some (withSuffer false (fadd (sufferMessageTimer s2) (frameTime i)) s2)
       else Some s2) = Some s3 -> currentGlobalScreen s3 = currentGlobalScreen s2).
    { intros s2 s3 H. destruct (showSufferMessage s2); [destruct (flt _ _)|];
        injection H as <-; reflexivity. }
    destruct (mousePressed i).
    - destruct (CheckCollisionPointRec (mousePosition i) escapeButtonRec).
      + destruct (SetupGameLevels _) as [s2|]; [|discriminate].
        destruct (LoadNextLevel s2) as [s3|]; [|discriminate].
        apply Htail in Hf. sess. congruence.
      + destruct (CheckCollisionPointRec (mousePosition i) sufferButtonRec);
          apply Htail in Hf; sess; congruence.
    - apply Htail in Hf. congruence. }
  clear Hf. unfold updatePhase in E1.
  destruct (currentGlobalScreen s) eqn:Es; try congruence.
  - split; [reflexivity|].
    destruct Hscr as (lv & Ha & Hsound & Hq). rewrite Ha in E1.
    destruct (Update i lv) as [lv'|] eqn:Eu; [|discriminate].
    destruct (IsComplete lv') eqn:Ec.
    + rewrite levelSucceeded_wonLevel in E1. destruct (wonLevel lv') eqn:Ewon.
      * destruct (gameLevels s) as [|next rest] eqn:Eq.
        -- destruct (Update_levelSound i lv Hsound) as (lv2 & Eu2 & _ & Hp).
           rewrite Eu in Eu2. injection Eu2 as <-.
           destruct lv as [m|l|l|l]; cbn [place skipn laterLevels] in Hq; try discriminate.
           destruct lv' as [m'|l'|l'|l']; cbn [place] in Hp; try discriminate.
           exists l, l'. repeat split; assumption.
        -- injection E1 as <-. sess. discriminate.
      * injection E1 as <-. sess. discriminate.
    + injection E1 as <-. sess. congruence.
  - destruct Hscr as (lv & next & rest & Ha & Hsound & Hq & Hne & _).
    destruct (mousePressed i && _); [|injection E1 as <-; congruence].
    exfalso. unfold LoadNextLevel in E1. rewrite Ha in E1. sess. rewrite Hne in E1.
    destruct (Load next) as [lv2|]; [|discriminate]. sess.
    injection E1 as <-. sess. discriminate.
  - destruct (enterPressed i); injection E1 as <-; sess; congruence.
Qed.

Lemma last_level_session_sound : sessionInv last_level_session.
Proof.
  unfold sessionInv, last_level_session. sess.
  split; [exact plain_engine_permutes|]. split; [discriminate|].
  eexists. split; [reflexivity|]. split; [exact I|reflexivity].
Qed.

Lemma game_won_only_through_obstacle_course_witness :
  exists s',
    frame (still_input (1 # 64)) last_level_session = Some s' /\
    currentGlobalScreen s' = GAME_WON_GLOBAL /\
    exists l, currentActiveLevel last_level_session = Some (AnObstacle l).
Proof.
  destruct (frame (still_input (1 # 64)) last_level_session) as [s'|] eqn:Ef;
    [|vm_compute in Ef; discriminate].
  assert (Hw : currentGlobalScreen s' = GAME_WON_GLOBAL).
  { assert (H : option_map currentGlobalScreen (frame (still_input (1 # 64)) last_level_session)
                = Some GAME_WON_GLOBAL) by (vm_compute; reflexivity).
    rewrite Ef in H. injection H as H. exact H. }
  exists s'. split; [reflexivity|]. split; [exact Hw|].
  destruct (game_won_only_through_obstacle_course (still_input (1 # 64)) last_level_session s'
              last_level_session_sound Ef ltac:(discriminate) Hw) as (_ & l & _ & Ha & _).
  exists l. exact Ha.
Defined.

(** X23.  On the title screen a click inside the Escape button starts the
    game in that same iteration, whatever the session held before: the
    four levels are queued afresh, the maze is loaded and becomes the
    active level, the three other levels wait in their order, the title
    message is hidden and the playing screen is entered. *)
Theorem title_escape_starts_the_maze (i : Input) (s : Session) :
  currentGlobalScreen s = TITLE_SCREEN_GLOBAL ->
  shufflesPermute (s_maze_gen s) ->
  mousePressed i = true ->
  CheckCollisionPointRec (mousePosition i) escapeButtonRec = true ->
  exists s' m0 m,
    frame i s = Some s' /\
    Maze.newMazeLevel GLOBAL_SCREEN_WIDTH GLOBAL_SCREEN_HEIGHT (s_maze_gen s) = Some m0 /\
    Maze.Load m0 = Some m /\
    currentGlobalScreen s' = PLAYING_LEVEL /\
    currentActiveLevel s' = Some (AMaze m) /\
    gameLevels s' = laterLevels (s_flappy_gen s) /\
    queuedNames s' = tl levelOrder /\
    showSufferMessage s' = false.
Proof.
  intros Es Hperm Hm Hc.
  destruct (escape_click s Hperm) as (m0 & m & E0 & El & _ & E).
  eexists. exists m0, m.
  unfold frame, updatePhase. rewrite Es. unfold drawPhase. rewrite Es.
  unfold DrawStartingScreen. rewrite Hm, Hc, E. sess.
  split; [reflexivity|]. unfold queuedNames. sess. repeat split; assumption.
Qed.

Lemma title_escape_starts_the_maze_witness :
  exists s' m,
    frame click_escape (initialSession plain_engine (fun _ => 360%Z)) = Some s' /\
    currentGlobalScreen s' = PLAYING_LEVEL /\
    currentActiveLevel s' = Some (AMaze m) /\
    queuedNames s' = tl levelOrder.
Proof.
  destruct (title_escape_starts_the_maze click_escape
              (initialSession plain_engine (fun _ => 360%Z)))
    as (s' & m0 & m & H1 & _ & _ & H2 & H3 & _ & H4 & _).
  - reflexivity.
  - exact plain_engine_permutes.
  - reflexivity.
  - vm_compute. reflexivity.
  - exists s', m. auto.
Defined.

(** X24.  The message of the Suffer button shows on the title screen
    only, and for less than its display time of two seconds: in every
    state a session reaches in which the message is shown, the screen is
    the title screen and the message's timer is below the display time. *)
Theorem suffer_message_only_on_title (e : Maze.Engine) (g : nat -> Z) (inputs : list Input)
    (s : Session) :
  shufflesPermute e ->
  play inputs (initialSession e g) = Some s ->
  showSufferMessage s = true ->
  currentGlobalScreen s = TITLE_SCREEN_GLOBAL /\
  sufferMessageTimer s < SUFFER_MESSAGE_DISPLAY_TIME.
Proof.
  intros Hperm Hplay Hshow.
  destruct (play_sessionInv inputs _ (initialSession_sessionInv e g Hperm))
    as (s' & E & (_ & Hsuf & _)).
  rewrite Hplay in E. injection E as <-. apply Hsuf, Hshow.
Qed.

Lemma suffer_message_only_on_title_witness :
  currentGlobalScreen suffering_session = TITLE_SCREEN_GLOBAL /\
  sufferMessageTimer suffering_session < SUFFER_MESSAGE_DISPLAY_TIME.
Proof.
  apply (suffer_message_only_on_title plain_engine (fun _ => 360%Z) [click_suffer]
           suffering_session).
  - exact plain_engine_permutes.
  - vm_compute. reflexivity.
  - vm_compute. reflexivity.
Defined.

End GameFacts.
